(** * propaelor: substitution engine, column sum-product and alignment graph

  A shallow embedding of [src/sumprod.cpp], [src/span.cpp] and
  [src/sampler.cpp], followed by the properties established about them.

  Conventions.
  - A C++ [double] that holds a log-probability or an accumulated count is a
    value of [double]: an exact real, one of the two infinities, or NaN,
    with the IEEE-754 rules on the special values and exact arithmetic on
    the finite ones.
  - A [gsl_complex] is a pair of [double]s; on finite parts the GSL complex
    routines are the field operations of the complex numbers.
  - [Assert] and [Require] raise; a function that can raise returns
    [option], with [None] for the raised failure.
  - A vector or matrix indexed by tokens or nodes is the function from its
    indices to its entries; a [vguard<T>] whose length is read is a [list],
    and an access out of range is a failure. *)

From Stdlib Require Import Reals Lra Lia ZArith.
From stdpp Require Import base option list gmap sets sorting.

Set Default Proof Using "Type".
Set Warnings "-clear-no-such-hyp,-level-tolerance".

(* ====================================================================== *)
(** * Part I: the model *)
(* ====================================================================== *)

(** ** Numbers: [double], [gsl_complex] and the GSL routines used *)

Module Numerics.

(** A C++ [double]: a real number, or one of the IEEE special values.
    Arithmetic is exact on the reals and follows IEEE-754 on the special
    values; the sign of a zero is not kept, a zero divisor counts as +0. *)
Inductive double :=
| Fin (x : R)
| PInf
| NInf
| NaN.

Definition is_finite (x : double) : bool :=
  match x with Fin _ => true | _ => false end.

(** -1, 0 or 1 as [x] is negative, zero or positive. *)
Definition Rsign (x : R) : Z :=
  if Rlt_dec x 0 then (-1)%Z else if Rlt_dec 0 x then 1%Z else 0%Z.

Definition dneg (x : double) : double :=
  match x with
  | Fin a => Fin (- a)
  | PInf => NInf
  | NInf => PInf
  | NaN => NaN
  end.

Definition dadd (x y : double) : double :=
  match x, y with
  | NaN, _ | _, NaN => NaN
  | Fin a, Fin b => Fin (a + b)
  | PInf, NInf | NInf, PInf => NaN
  | PInf, _ | _, PInf => PInf
  | NInf, _ | _, NInf => NInf
  end.

Definition dsub (x y : double) : double := dadd x (dneg y).

(** The infinity of the sign [s], NaN when [s = 0]. *)
Definition inf_of_sign (s : Z) : double :=
  match s with
  | Z0 => NaN
  | Zpos _ => PInf
  | Zneg _ => NInf
  end.

Definition dsign (x : double) : option Z :=
  match x with
  | Fin a => Some (Rsign a)
  | PInf => Some 1%Z
  | NInf => Some (-1)%Z
  | NaN => None
  end.

Definition dmul (x y : double) : double :=
  match x, y with
  | Fin a, Fin b => Fin (a * b)
  | NaN, _ | _, NaN => NaN
  | _, _ =>
      match dsign x, dsign y with
      | Some sx, Some sy => inf_of_sign (sx * sy)
      | _, _ => NaN
      end
  end.

Definition ddiv (x y : double) : double :=
  match x, y with
  | NaN, _ | _, NaN => NaN
  | Fin a, Fin b =>
      if Req_dec_T b 0 then inf_of_sign (Rsign a) else Fin (a / b)
  | Fin _, _ => Fin 0
  | _, Fin b =>
      match dsign x with
      | Some sx => inf_of_sign (if Rlt_dec b 0 then - sx else sx)
      | None => NaN
      end
  | _, _ => NaN
  end.

(** [x < y]; false when either side is NaN. *)
Definition dlt (x y : double) : bool :=
  match x, y with
  | NaN, _ | _, NaN => false
  | Fin a, Fin b => if Rlt_dec a b then true else false
  | NInf, NInf => false
  | NInf, _ => true
  | Fin _, PInf => true
  | _, _ => false
  end.

(** [std::max (a, b)] is [(a < b) ? b : a]; [std::min (a, b)] is
    [(b < a) ? b : a]. *)
Definition dmax (a b : double) : double := if dlt a b then b else a.
Definition dmin (a b : double) : double := if dlt b a then b else a.

Definition dabs (x : double) : double :=
  match x with
  | Fin a => Fin (Rabs a)
  | PInf | NInf => PInf
  | NaN => NaN
  end.

Definition dexp (x : double) : double :=
  match x with
  | Fin a => Fin (exp a)
  | PInf => PInf
  | NInf => Fin 0
  | NaN => NaN
  end.

Definition dlog (x : double) : double :=
  match x with
  | Fin a =>
      if Rlt_dec 0 a then Fin (ln a)
      else if Rlt_dec a 0 then NaN else NInf
  | PInf => PInf
  | NInf | NaN => NaN
  end.

Definition dcos (x : double) : double :=
  match x with Fin a => Fin (cos a) | _ => NaN end.

Definition dsin (x : double) : double :=
  match x with Fin a => Fin (sin a) | _ => NaN end.

(** [frexp]'s exponent: the [e] with [2^(e-1) <= |x| < 2^e]; 0 for a zero.
    C leaves it unspecified for an infinity or NaN; 0 is taken. *)
Definition frexp_exponent (x : double) : Z :=
  match x with
  | Fin a => if Req_dec_T a 0 then 0%Z else up (ln (Rabs a) / ln 2)
  | _ => 0%Z
  end.

(** [ldexp (x, e)] is [x * 2^e]. *)
Definition ldexp (x : double) (e : Z) : double := dmul x (Fin (powerRZ 2 e)).

(** [gsl_fcmp]: compare within the relative accuracy [epsilon], measured
    by the binary exponent of the larger argument. *)
Definition gsl_fcmp (x1 x2 epsilon : double) : Z :=
  let max := if dlt (dabs x2) (dabs x1) then x1 else x2 in
  let delta := ldexp epsilon (frexp_exponent max) in
  let difference := dsub x1 x2 in
  if dlt delta difference then 1%Z
  else if dlt difference (dneg delta) then (-1)%Z
  else 0%Z.

(** [gsl_complex] and the routines of [gsl_complex_math.h]. *)
Definition gsl_complex : Type := double * double.

Definition GSL_REAL (z : gsl_complex) : double := z.1.
Definition GSL_IMAG (z : gsl_complex) : double := z.2.
Definition gsl_complex_rect (x y : double) : gsl_complex := (x, y).

Definition gsl_complex_add (a b : gsl_complex) : gsl_complex :=
  (dadd a.1 b.1, dadd a.2 b.2).

Definition gsl_complex_sub (a b : gsl_complex) : gsl_complex :=
  (dsub a.1 b.1, dsub a.2 b.2).

Definition gsl_complex_mul (a b : gsl_complex) : gsl_complex :=
  (dsub (dmul a.1 b.1) (dmul a.2 b.2), dadd (dmul a.1 b.2) (dmul a.2 b.1)).

Definition gsl_complex_mul_real (a : gsl_complex) (x : double) : gsl_complex :=
  (dmul x a.1, dmul x a.2).

Definition gsl_complex_div_real (a : gsl_complex) (x : double) : gsl_complex :=
  (ddiv a.1 x, ddiv a.2 x).

(** The quotient [a / b]. *)
Definition gsl_complex_div (a b : gsl_complex) : gsl_complex :=
  let d := dadd (dmul b.1 b.1) (dmul b.2 b.2) in
  (ddiv (dadd (dmul a.1 b.1) (dmul a.2 b.2)) d,
   ddiv (dsub (dmul a.2 b.1) (dmul a.1 b.2)) d).

Definition gsl_complex_exp (a : gsl_complex) : gsl_complex :=
  let rho := dexp a.1 in
  (dmul rho (dcos a.2), dmul rho (dsin a.2)).

(** A vector or a matrix is the function from its indices to its entries;
    only indices below the stated sizes are read or written. *)
Definition vset {A} (v : nat → A) (i : nat) (x : A) : nat → A :=
  λ i', if decide (i' = i) then x else v i'.

Definition mset {A} (m : nat → nat → A) (i j : nat) (x : A) : nat → nat → A :=
  λ i' j', if decide (i' = i ∧ j' = j) then x else m i' j'.

(** [for (i = 0; i < n; ++i) body], threading a state. *)
Definition for_loop {St} (n : nat) (body : St → nat → St) (s : St) : St :=
  foldl body s (seq 0 n).

(** The same loop with a body that can raise. *)
Definition for_loop_opt {St} (n : nat) (body : St → nat → option St) (s : St)
    : option St :=
  foldl (λ acc i, s' ← acc; body s' i) (Some s) (seq 0 n).

(** A loop over the elements of a vector, with a body that can raise. *)
Definition for_each_opt {St A} (l : list A) (body : St → A → option St) (s : St)
    : option St :=
  foldl (λ acc x, s' ← acc; body s' x) (Some s) l.

(** [#define SUMPROD_EPSILON 1e-6] and the comparison macros. *)
Definition SUMPROD_EPSILON : double := Fin (1 / 1000000).

Definition SUMPROD_NEAR_EQ (x y : double) : bool :=
  bool_decide (gsl_fcmp x y SUMPROD_EPSILON = 0%Z).

Definition SUMPROD_NEAR_EQ_COMPLEX (x y : gsl_complex) : bool :=
  SUMPROD_NEAR_EQ (GSL_REAL x) (GSL_REAL y) &&
  SUMPROD_NEAR_EQ (GSL_IMAG x) (GSL_IMAG y).

Definition SUMPROD_NEAR_REAL (x : gsl_complex) : bool :=
  SUMPROD_NEAR_EQ (GSL_IMAG x) (Fin 0).

(** *** Complex numbers over the reals

    The values the GSL routines compute when every part is finite. *)

Definition C : Type := R * R.

Definition C0 : C := (0, 0)%R.
Definition Cadd (a b : C) : C := (a.1 + b.1, a.2 + b.2)%R.
Definition Csub (a b : C) : C := (a.1 + - b.1, a.2 + - b.2)%R.
Definition Cmul (a b : C) : C :=
  (a.1 * b.1 + - (a.2 * b.2), a.1 * b.2 + a.2 * b.1)%R.
Definition Cscale (x : R) (a : C) : C := (x * a.1, x * a.2)%R.
Definition Cdiv (a b : C) : C :=
  ((a.1 * b.1 + a.2 * b.2) / (b.1 * b.1 + b.2 * b.2),
   (a.2 * b.1 + - (a.1 * b.2)) / (b.1 * b.1 + b.2 * b.2))%R.
Definition Cexp (a : C) : C := (exp a.1 * cos a.2, exp a.1 * sin a.2)%R.

Fixpoint Csum (n : nat) (f : nat → C) : C :=
  match n with
  | 0 => C0
  | S n' => Cadd (Csum n' f) (f n')
  end.

(** Sums of complex and of real numbers over a list of indices. *)
Definition CsumL {X} (l : list X) (f : X → C) : C :=
  foldr (λ x acc, Cadd (f x) acc) C0 l.

Definition RsumL {X} (l : list X) (f : X → R) : R :=
  foldr (λ x acc, (f x + acc)%R) 0%R l.

(** The [gsl_complex] with the finite parts of [z]. *)
Definition cfin (z : C) : gsl_complex := (Fin z.1, Fin z.2).

End Numerics.

(** ** sumprod.cpp: [EigenModel] *)

Module Eigen.
Import Numerics.

(** [RateModel], as far as the engine reads it. *)
Record RateModel := mkRateModel {
  alphabetSize : nat;
  subRate : nat → nat → double;
  insProb : nat → double
}.

(** [EigenModel] after its constructor: the eigenvalues [ev], the right
    eigenvectors [evec], their inverse [evecInv], and the scratch vectors
    [ev_t] and [exp_ev_t]. *)
Record EigenModel := mkEigenModel {
  model : RateModel;
  ev : nat → gsl_complex;
  evec : nat → nat → gsl_complex;
  evecInv : nat → nat → gsl_complex;
  ev_t : nat → gsl_complex;
  exp_ev_t : nat → gsl_complex
}.

(** [EigenModel::compute_exp_ev_t] *)
Definition compute_exp_ev_t (em : EigenModel) (t : double) : EigenModel :=
  for_loop (alphabetSize (model em))
    (λ em i,
       let ev_t' := vset (ev_t em) i (gsl_complex_mul_real (ev em i) t) in
       {| model := model em; ev := ev em; evec := evec em;
          evecInv := evecInv em;
          ev_t := ev_t';
          exp_ev_t := vset (exp_ev_t em) i (gsl_complex_exp (ev_t' i)) |})
    em.

(** The sum that [getSubProbInner] accumulates in [p]. *)
Definition subProbSum (em : EigenModel) (i j : nat) : gsl_complex :=
  for_loop (alphabetSize (model em))
    (λ p k,
       gsl_complex_add p
         (gsl_complex_mul (gsl_complex_mul (evec em i k) (evecInv em k j))
            (exp_ev_t em k)))
    (gsl_complex_rect (Fin 0) (Fin 0)).

(** [EigenModel::getSubProbInner] *)
Definition getSubProbInner (em : EigenModel) (t : double) (i j : nat)
    : option double :=
  let p := subProbSum em i j in
  if SUMPROD_NEAR_REAL p then Some (dmin (Fin 1) (dmax (Fin 0) (GSL_REAL p)))
  else None.

(** [EigenModel::getSubProb] *)
Definition getSubProb (em : EigenModel) (t : double) (i j : nat) : option double :=
  getSubProbInner (compute_exp_ev_t em t) t i j.

(** [EigenModel::getSubProbMatrix] *)
Definition getSubProbMatrix (em : EigenModel) (t : double)
    : option (nat → nat → double) :=
  let em' := compute_exp_ev_t em t in
  let A := alphabetSize (model em) in
  for_loop_opt A
    (λ sub i,
       for_loop_opt A
         (λ sub j, p ← getSubProbInner em' t i j; Some (mset sub i j p))
         sub)
    (λ _ _, Fin 0).

(** The sum that [getSubCount] accumulates in [c_ij]. *)
Definition subCountSum (em : EigenModel) (a b i j : nat)
    (eSubCount : nat → nat → gsl_complex) : gsl_complex :=
  let A := alphabetSize (model em) in
  for_loop A
    (λ c_ij k,
       let c_ijk :=
         for_loop A
           (λ c_ijk l,
              gsl_complex_add c_ijk
                (gsl_complex_mul
                   (gsl_complex_mul (evec em j l) (evecInv em l b))
                   (eSubCount k l)))
           (gsl_complex_rect (Fin 0) (Fin 0)) in
       gsl_complex_add c_ij
         (gsl_complex_mul (gsl_complex_mul (evec em a k) (evecInv em k i)) c_ijk))
    (gsl_complex_rect (Fin 0) (Fin 0)).

(** [EigenModel::getSubCount] *)
Definition getSubCount (em : EigenModel) (a b i j : nat)
    (sub : nat → nat → double) (eSubCount : nat → nat → gsl_complex)
    : option double :=
  let p_ab := sub a b in
  let r_ij := subRate (model em) i j in
  let c_ij := subCountSum em a b i j eSubCount in
  if SUMPROD_NEAR_REAL c_ij
  then Some (dmax (Fin 0)
               (ddiv (dmul (if decide (i = j) then Fin 1 else r_ij) (GSL_REAL c_ij))
                     p_ab))
  else None.

(** [EigenModel::accumSubCounts] *)
Definition accumSubCounts (em : EigenModel) (count : nat → nat → double)
    (a b : nat) (weight : double) (sub : nat → nat → double)
    (eSubCount : nat → nat → gsl_complex) : option (nat → nat → double) :=
  let A := alphabetSize (model em) in
  for_loop_opt A
    (λ count i,
       for_loop_opt A
         (λ count j,
            c ← getSubCount em a b i j sub eSubCount;
            Some (mset count i j (dadd (count i j) (dmul c weight))))
         count)
    count.

(** [EigenModel::eigenSubCount] *)
Definition eigenSubCount (em : EigenModel) (t : double) : nat → nat → gsl_complex :=
  let em' := compute_exp_ev_t em t in
  let A := alphabetSize (model em) in
  for_loop A
    (λ esub i,
       for_loop A
         (λ esub j,
            let ev_eq := bool_decide (i = j) ||
                         SUMPROD_NEAR_EQ_COMPLEX (ev em' i) (ev em' j) in
            mset esub i j
              (if ev_eq then gsl_complex_mul_real (exp_ev_t em' i) t
               else gsl_complex_div
                      (gsl_complex_sub (exp_ev_t em' i) (exp_ev_t em' j))
                      (gsl_complex_sub (ev em' i) (ev em' j))))
         esub)
    (λ _ _, gsl_complex_rect (Fin 0) (Fin 0)).

(** [gsl_matrix_complex_alloc] leaves the entries unspecified; every entry
    with both indices below [alphabetSize] is written before it is read. *)

(** *** The quantities the specification names *)

(** [sum_{k < n} f k], accumulated from zero the way the loops do. *)
Definition csum (n : nat) (f : nat → gsl_complex) : gsl_complex :=
  for_loop n (λ p k, gsl_complex_add p (f k)) (gsl_complex_rect (Fin 0) (Fin 0)).

(** [sum_k V[i,k] * V^-1[k,j] * exp (lambda_k * t)] *)
Definition spectral_sum (em : EigenModel) (t : double) (i j : nat) : gsl_complex :=
  csum (alphabetSize (model em))
    (λ k, gsl_complex_mul (gsl_complex_mul (evec em i k) (evecInv em k j))
            (gsl_complex_exp (gsl_complex_mul_real (ev em k) t))).

(** [e^(lk * x) * e^(ll * (t - x))], the integrand of the eigen-substitution
    count. *)
Definition path_integrand (lk ll : C) (t x : R) : C :=
  Cmul (Cexp (Cscale x lk)) (Cexp (Cscale (t - x) ll)).

(** [v] is the integral of the complex function [f] over [[a,b]]: its parts
    are the Riemann integrals of the parts of [f]. *)
Definition is_integral (f : R → C) (a b : R) (v : C) : Prop :=
  ∃ (pr1 : Riemann_integrable (λ x, (f x).1) a b)
    (pr2 : Riemann_integrable (λ x, (f x).2) a b),
    v = (RiemannInt pr1, RiemannInt pr2).

(** The parts of [e^((p + i q) + (a + i b) x)]. *)
Definition exp_cos (p a q b x : R) : R := (exp (p + a * x) * cos (q + b * x))%R.
Definition exp_sin (p a q b x : R) : R := (exp (p + a * x) * sin (q + b * x))%R.

(** *** Near-equal eigenvalues, in the words of the specification

    The specification treats two eigenvalues alike when one is within a
    relative tolerance of about [10^-6] of the other, real and imaginary
    parts compared. The definitions below say this without the program's
    comparison, to be compared with [SUMPROD_NEAR_EQ_COMPLEX]. *)

(** The relative tolerance between the reals [x] and [y]: [10^-6 * 2^e],
    where [e] is the binary exponent of the larger of [|x|] and [|y|]
    ([2^(e-1) <= max (|x|, |y|) < 2^e], and [e = 0] when both are zero). *)
Definition relative_tolerance (x y : R) : R :=
  (1 / 1000000 * powerRZ 2 (frexp_exponent (Fin (Rmax (Rabs x) (Rabs y)))))%R.

(** [x] is within the relative tolerance of [y]. *)
Definition within_tolerance (x y : R) : Prop :=
  (Rabs (x - y) <= relative_tolerance x y)%R.

(** The eigenvalue [a] is within the relative tolerance of [b]: the real
    parts are, and the imaginary parts are. *)
Definition near_eigenvalues (a b : C) : Prop :=
  within_tolerance a.1 b.1 ∧ within_tolerance a.2 b.2.

(** [x] and [y] differ by at most the fraction [c] of the larger of [|x|]
    and [|y|]. *)
Definition relative_gap_le (c x y : R) : Prop :=
  (Rabs (x - y) <= c * Rmax (Rabs x) (Rabs y))%R.

(** [x] clamped into [0,1]. *)
Definition clamp01 (x : R) : R :=
  if Rlt_dec x 0 then 0%R else if Rlt_dec 1 x then 1%R else x.

(** The eigensystem of the matrix [[1,-1],[-1,1]]: eigenvalues 0 and 2. *)
Definition growth_model : EigenModel :=
  let V : nat → nat → gsl_complex :=
    λ i k, (Fin (if decide (i = 1 ∧ k = 1) then -1 else 1), Fin 0) in
  let Vinv : nat → nat → gsl_complex :=
    λ k j, (Fin (if decide (k = 1 ∧ j = 1) then - (1 / 2) else 1 / 2), Fin 0) in
  {| model := {| alphabetSize := 2;
                 subRate := λ i j, Fin (if decide (i = j) then 1 else -1);
                 insProb := λ _, Fin (1 / 2) |};
     ev := λ k, (Fin (if decide (k = 1) then 2 else 0), Fin 0);
     evec := V; evecInv := Vinv;
     ev_t := λ _, (Fin 0, Fin 0);
     exp_ev_t := λ _, (Fin 0, Fin 0) |}.

(** The eigensystem of the two-state rate matrix [[-1,1],[1,-1]]:
    eigenvalues 0 and -2. *)
Definition jc_rates : RateModel :=
  {| alphabetSize := 2;
     subRate := λ i j, Fin (if decide (i = j) then -1 else 1);
     insProb := λ _, Fin (1 / 2) |}.

Definition jc_model : EigenModel :=
  {| model := jc_rates;
     ev := λ k, (Fin (if decide (k = 1) then -2 else 0), Fin 0);
     evec := λ i k, (Fin (if decide (i = 1 ∧ k = 1) then -1 else 1), Fin 0);
     evecInv := λ k j,
       (Fin (if decide (k = 1 ∧ j = 1) then - (1 / 2) else 1 / 2), Fin 0);
     ev_t := λ _, (Fin 0, Fin 0);
     exp_ev_t := λ _, (Fin 0, Fin 0) |}.

(** *** The product of the eigenvector matrices, and what a count is *)

(** [EigenModel::evecInv_evec]: the entry [(i,j)] of the product it returns,
    [sum_k evec[i,k] * evecInv[k,j]]. *)
Definition evecInv_evec (em : EigenModel) (i j : nat) : gsl_complex :=
  for_loop (alphabetSize (model em))
    (λ eij k,
       gsl_complex_add eij (gsl_complex_mul (evec em i k) (evecInv em k j)))
    (gsl_complex_rect (Fin 0) (Fin 0)).

(** A count that [max (0., x)] can return: a real that is not negative, or
    plus infinity. *)
Definition is_count (v : double) : Prop :=
  v = PInf ∨ ∃ r, v = Fin r ∧ (0 <= r)%R.

End Eigen.

(** ** sumprod.cpp: [AlignColSumProduct] *)

Module SumProd.
Import Numerics.

(** Modelled from the spec: [Tree] is declared in a header that is not under
    [src/]. It exposes the number of nodes, the parent (-1 for the root),
    the children, the sibling and the branch length of a node; nodes are
    numbered in post-order. *)
Record Tree := mkTree {
  nodes : nat;
  parentNode : nat → Z;
  nChildren : nat → nat;
  getChild : nat → nat → nat;
  getSibling : nat → nat;
  branchLength : nat → double
}.

Definition isLeaf (t : Tree) (n : nat) : bool := bool_decide (nChildren t n = 0).

(** Modelled from the spec: [Alignment::isGap], [Alignment::wildcardChar]
    and [RateModel::tokenize] are not under [src/]. A character of a gapped
    row is kept as what the three make of it: a gap, the wildcard, or a
    character with a token. *)
Inductive Cell :=
| GapCell
| WildCell
| TokCell (tok : nat).

(** [model.tokenize (c)]; raises on a character that has no token. *)
Definition tokenize (c : Cell) : option nat :=
  match c with TokCell x => Some x | _ => None end.

(** Modelled from the spec: [log_accum_exp (a, b)] of the missing [util.h]
    stores [max (a, b) + log1p (exp (-|a - b|))] in [a], and an argument
    that is minus infinity leaves the other one as the result. *)
Definition log_accum_exp (a b : double) : double :=
  match a, b with
  | NInf, _ => b
  | _, NInf => a
  | _, _ => dadd (dmax a b) (dlog (dadd (Fin 1) (dexp (dneg (dabs (dsub a b))))))
  end.

(** Modelled from the spec: [logInnerProduct (v1, v2)] of the missing
    [util.h] is the log-sum-exp over [i] of [v1[i] + v2[i]]. *)
Definition logInnerProduct (n : nat) (v1 v2 : nat → double) : double :=
  for_loop n (λ lip i, log_accum_exp lip (dadd (v1 i) (v2 i))) NInf.

(** [*max_element (v.begin(), v.end())]: the first largest element. *)
Definition max_element (n : nat) (v : nat → double) : double :=
  foldl (λ largest i, if dlt largest (v i) then v i else largest) (v 0) (seq 1 (n - 1)).

(** [AlignColSumProduct]. [gapped r c] is the character of row [r] in column
    [c]; the per-branch tables [branchLogSubProb] come from the missing
    [ProbModel] and are kept as they are given. *)
Record AlignColSumProduct := mkAlignColSumProduct {
  model : Eigen.RateModel;
  tree : Tree;
  gapped : nat → nat → Cell;
  columns : nat;
  eigen : Eigen.EigenModel;
  logInsProb : nat → double;
  branchLogSubProb : nat → nat → nat → double;
  branchEigenSubCount : nat → nat → nat → gsl_complex;
  col : nat;
  ungappedRows : list nat;
  colLogLike : double;
  logE : nat → nat → double;
  logF : nat → nat → double;
  logG : nat → nat → double
}.

Definition alphabetSize (sp : AlignColSumProduct) : nat :=
  Eigen.alphabetSize (model sp).

(** The inline helpers of the missing header, modelled from the spec: a row
    is gapped or wild by its character in the current column; the root of the
    column is the last ungapped row. *)
Definition isGap (sp : AlignColSumProduct) (r : nat) : bool :=
  match gapped sp r (col sp) with GapCell => true | _ => false end.

Definition isWild (sp : AlignColSumProduct) (r : nat) : bool :=
  match gapped sp r (col sp) with WildCell => true | _ => false end.

Definition root (sp : AlignColSumProduct) : option nat := last (ungappedRows sp).

Definition columnEmpty (sp : AlignColSumProduct) : bool :=
  match ungappedRows sp with [] => true | _ => false end.

Definition set_column (sp : AlignColSumProduct) (c : nat) (rows : list nat)
    : AlignColSumProduct :=
  {| model := model sp; tree := tree sp; gapped := gapped sp;
     columns := columns sp; eigen := eigen sp; logInsProb := logInsProb sp;
     branchLogSubProb := branchLogSubProb sp;
     branchEigenSubCount := branchEigenSubCount sp;
     col := c; ungappedRows := rows; colLogLike := colLogLike sp;
     logE := logE sp; logF := logF sp; logG := logG sp |}.

Definition set_tables (sp : AlignColSumProduct) (ll : double)
    (e f g : nat → nat → double) : AlignColSumProduct :=
  {| model := model sp; tree := tree sp; gapped := gapped sp;
     columns := columns sp; eigen := eigen sp; logInsProb := logInsProb sp;
     branchLogSubProb := branchLogSubProb sp;
     branchEigenSubCount := branchEigenSubCount sp;
     col := col sp; ungappedRows := ungappedRows sp; colLogLike := ll;
     logE := e; logF := f; logG := g |}.

(** The locals of [initColumn]. *)
Record InitState := mkInitState {
  rows : list nat;
  ungappedKids : nat → Z;
  roots : list nat
}.

(** The body of the loop of [initColumn] for the node [r]. *)
Definition initColumn_step (sp : AlignColSumProduct) (st : InitState) (r : nat)
    : option InitState :=
  if isGap sp r then Some st
  else
    if isWild sp r || bool_decide (ungappedKids st r = 0%Z) then
      let rp := parentNode (tree sp) r in
      if bool_decide (rp < 0)%Z || isGap sp (Z.to_nat rp) then
        Some {| rows := rows st ++ [r]; ungappedKids := ungappedKids st;
                roots := roots st ++ [r] |}
      else
        Some {| rows := rows st ++ [r];
                ungappedKids :=
                  vset (ungappedKids st) (Z.to_nat rp)
                       (ungappedKids st (Z.to_nat rp) + 1)%Z;
                roots := roots st |}
    else None.

(** [AlignColSumProduct::initColumn]; [None] when an [Assert] fails. *)
Definition initColumn (sp : AlignColSumProduct) : option AlignColSumProduct :=
  st ← for_loop_opt (nodes (tree sp)) (initColumn_step sp)
         {| rows := []; ungappedKids := λ _, 0%Z; roots := [] |};
  if bool_decide (length (roots st) = 1) then Some (set_column sp (col sp) (rows st))
  else None.

(** [AlignColSumProduct::alignmentDone] *)
Definition alignmentDone (sp : AlignColSumProduct) : bool :=
  bool_decide (columns sp ≤ col sp).

(** [AlignColSumProduct::nextColumn] *)
Definition nextColumn (sp : AlignColSumProduct) : option AlignColSumProduct :=
  let sp' := set_column sp (S (col sp)) (ungappedRows sp) in
  if alignmentDone sp' then Some sp' else initColumn sp'.

(** The body of the loop of [fillUp] for the row [r]. *)
Definition fillUp_step (sp : AlignColSumProduct) (r : nat)
    : option AlignColSumProduct :=
  let A := alphabetSize sp in
  logF' ←
    (if isWild sp r then
       Some (for_loop A
               (λ f i,
                  mset f r i
                    (for_loop (nChildren (tree sp) r)
                       (λ logFi nc, dadd logFi (logE sp (getChild (tree sp) r nc) i))
                       (Fin 0)))
               (logF sp))
     else
       tok ← tokenize (gapped sp r (col sp));
       Some (mset (for_loop A (λ f i, mset f r i NInf) (logF sp)) r tok (Fin 0)));
  if bool_decide (root sp = Some r) then
    Some (set_tables sp (logInnerProduct A (logF' r) (logInsProb sp))
            (logE sp) logF' (logG sp))
  else
    Some (set_tables sp (colLogLike sp)
            (for_loop A
               (λ e i,
                  mset e r i
                    (for_loop A
                       (λ logEi j,
                          log_accum_exp logEi
                            (dadd (branchLogSubProb sp r i j) (logF' r j)))
                       NInf))
               (logE sp))
            logF' (logG sp)).

(** [AlignColSumProduct::fillUp] *)
Definition fillUp (sp : AlignColSumProduct) : option AlignColSumProduct :=
  for_each_opt (ungappedRows sp) fillUp_step
    (set_tables sp NInf (logE sp) (logF sp) (logG sp)).

(** The body of the loop of [fillDown] for the row [r]. *)
Definition fillDown_step (sp : AlignColSumProduct) (r : nat)
    : option AlignColSumProduct :=
  let A := alphabetSize sp in
  let rp := parentNode (tree sp) r in
  let rs := getSibling (tree sp) r in
  if bool_decide (rp < 0)%Z then None
  else
    Some (set_tables sp (colLogLike sp) (logE sp) (logF sp)
            (for_loop A
               (λ g j,
                  mset g r j
                    (for_loop A
                       (λ logGj i,
                          log_accum_exp logGj
                            (dadd (dadd (g (Z.to_nat rp) i)
                                        (branchLogSubProb sp r i j))
                                  (logE sp rs i)))
                       NInf))
               (logG sp))).

(** [AlignColSumProduct::fillDown] *)
Definition fillDown (sp : AlignColSumProduct) : option AlignColSumProduct :=
  match reverse (ungappedRows sp) with
  | [] => Some sp
  | top :: rest =>
      for_each_opt rest fillDown_step
        (set_tables sp (colLogLike sp) (logE sp) (logF sp)
           (λ r i, if decide (r = top) then logInsProb sp i else logG sp r i))
  end.

(** [AlignColSumProduct::logBranchPostProb] *)
Definition logBranchPostProb (sp : AlignColSumProduct) (node : nat)
    (parentState nodeState : nat) : option double :=
  let parent := parentNode (tree sp) node in
  let sibling := getSibling (tree sp) node in
  if bool_decide (parent < 0)%Z then None
  else
    Some (dsub
            (dadd (dadd (dadd (logG sp (Z.to_nat parent) parentState)
                              (branchLogSubProb sp node parentState nodeState))
                        (logF sp node nodeState))
                  (logE sp sibling parentState))
            (colLogLike sp)).

(** The amount [accumulateRootCounts] adds to entry [i]. *)
Definition rootIncrement (sp : AlignColSumProduct) (r i : nat) : double :=
  dexp (dsub (dadd (logInsProb sp i) (logF sp r i)) (colLogLike sp)).

(** [AlignColSumProduct::accumulateRootCounts] *)
Definition accumulateRootCounts (sp : AlignColSumProduct)
    (rootCounts : nat → double) : option (nat → double) :=
  r ← root sp;
  Some (for_loop (alphabetSize sp)
          (λ rc i, vset rc i (dadd (rc i) (rootIncrement sp r i)))
          rootCounts).

(** [AlignColSumProduct::accumulateSubCounts] *)
Definition accumulateSubCounts (sp : AlignColSumProduct)
    (rootCounts : nat → double) (subCounts : nat → nat → double)
    : option ((nat → double) * (nat → nat → double)) :=
  let A := alphabetSize sp in
  rootCounts' ← accumulateRootCounts sp rootCounts;
  subCounts' ←
    for_each_opt (ungappedRows sp)
      (λ subCounts node,
         if bool_decide (root sp = Some node) then Some subCounts
         else
           submat ← Eigen.getSubProbMatrix (eigen sp)
                      (branchLength (tree sp) node);
           for_loop_opt A
             (λ subCounts a,
                for_loop_opt A
                  (λ subCounts b,
                     lbp ← logBranchPostProb sp node a b;
                     Eigen.accumSubCounts (eigen sp) subCounts a b (dexp lbp)
                       submat (branchEigenSubCount sp node))
                  subCounts)
             subCounts)
      subCounts;
  Some (rootCounts', subCounts').

(** The locals of [accumulateEigenCounts] for one node:
    [logD[i] = logG[parent][i] + logE[sibling][i]]. *)
Definition logD_of (sp : AlignColSumProduct) (node : nat) : nat → double :=
  for_loop (alphabetSize sp)
    (λ d i, vset d i (dadd (logG sp (Z.to_nat (parentNode (tree sp) node)) i)
                           (logE sp (getSibling (tree sp) node) i)))
    (λ _, Fin 0).

(** [v[b] = exp (logV[b] - maxLogV)], the loops that fill [U] and [D]. *)
Definition scaled (n : nat) (logV : nat → double) (maxLogV : double) : nat → double :=
  for_loop n (λ u b, vset u b (dexp (dsub (logV b) maxLogV))) (λ _, Fin 0).

(** [basis[l] = sum_b W[l][b] * v[b]], the loops that fill [Ubasis] and
    [Dbasis]. *)
Definition basis_of (n : nat) (W : nat → nat → gsl_complex) (v : nat → double)
    : nat → gsl_complex :=
  for_loop n
    (λ ub l,
       vset ub l
         (for_loop n
            (λ acc b, gsl_complex_add acc (gsl_complex_mul_real (W l b) (v b)))
            (gsl_complex_rect (Fin 0) (Fin 0))))
    (λ _, gsl_complex_rect (Fin 0) (Fin 0)).

(** What one turn of the loop of [accumulateEigenCounts] adds for [node]. *)
Definition eigenCounts_step (sp : AlignColSumProduct)
    (eigenCounts : nat → nat → gsl_complex) (node : nat)
    : option (nat → nat → gsl_complex) :=
  let A := alphabetSize sp in
  let parent := parentNode (tree sp) node in
  if bool_decide (parent < 0)%Z then None
  else
    let logU := logF sp node in
    let logD := logD_of sp node in
    let maxLogU := max_element A logU in
    let maxLogD := max_element A logD in
    let norm := dexp (dsub (dsub (colLogLike sp) maxLogU) maxLogD) in
    let U := scaled A logU maxLogU in
    let Ubasis := basis_of A (Eigen.evecInv (eigen sp)) U in
    let D := scaled A logD maxLogD in
    let Dbasis := basis_of A (λ k a, Eigen.evec (eigen sp) a k) D in
    Some (for_loop A
            (λ ec k,
               for_loop A
                 (λ ec l,
                    mset ec k l
                      (gsl_complex_add (ec k l)
                         (gsl_complex_div_real
                            (gsl_complex_mul (Dbasis k)
                               (gsl_complex_mul (branchEigenSubCount sp node k l)
                                  (Ubasis l)))
                            norm)))
                 ec)
            eigenCounts).

(** [AlignColSumProduct::accumulateEigenCounts] *)
Definition accumulateEigenCounts (sp : AlignColSumProduct)
    (rootCounts : nat → double) (eigenCounts : nat → nat → gsl_complex)
    : option ((nat → double) * (nat → nat → gsl_complex)) :=
  rootCounts' ← accumulateRootCounts sp rootCounts;
  eigenCounts' ←
    for_each_opt (ungappedRows sp)
      (λ ec node,
         if bool_decide (root sp = Some node) then Some ec
         else eigenCounts_step sp ec node)
      eigenCounts;
  Some (rootCounts', eigenCounts').

(** [AlignColSumProduct::getSubCounts] *)
Definition getSubCounts (sp : AlignColSumProduct)
    (eigenCounts : nat → nat → gsl_complex) : nat → nat → double :=
  let A := alphabetSize sp in
  for_loop A
    (λ counts i,
       for_loop A
         (λ counts j,
            let c :=
              for_loop A
                (λ c k,
                   let ck :=
                     for_loop A
                       (λ ck l,
                          gsl_complex_add ck
                            (gsl_complex_mul (eigenCounts k l)
                               (Eigen.evec (eigen sp) j l)))
                       (gsl_complex_rect (Fin 0) (Fin 0)) in
                   gsl_complex_add c
                     (gsl_complex_mul (Eigen.evecInv (eigen sp) k i) ck))
                (gsl_complex_rect (Fin 0) (Fin 0)) in
            mset counts i j
              (if decide (i = j) then GSL_REAL c
               else dmul (GSL_REAL c) (Eigen.subRate (model sp) i j)))
         counts)
    (λ _ _, Fin 0).

(** *** Sample inputs *)

(** The tree of two leaves 0 and 1 under the root 2, with branch lengths
    [t0] and [t1]. *)
Definition cherry (t0 t1 : double) : Tree :=
  {| nodes := 3;
     parentNode := λ n, if decide (n < 2) then 2%Z else (-1)%Z;
     nChildren := λ n, if decide (n = 2) then 2 else 0;
     getChild := λ n k, k;
     getSibling := λ n, 1 - n;
     branchLength := λ n, if decide (n = 0) then t0 else t1 |}.

(** A freshly constructed object, before the constructor's [initColumn]:
    the tables hold zeros. [logPi] is the logarithm of the insertion
    probabilities of the model and [L] the branch tables. *)
Definition fresh (em : Eigen.EigenModel) (t : Tree) (rows : nat → nat → Cell)
    (ncols : nat) (logPi : nat → double) (L : nat → nat → nat → double)
    : AlignColSumProduct :=
  {| model := Eigen.model em; tree := t; gapped := rows; columns := ncols;
     eigen := em; logInsProb := logPi;
     branchLogSubProb := L;
     branchEigenSubCount := λ r, Eigen.eigenSubCount em (branchLength t r);
     col := 0; ungappedRows := []; colLogLike := Fin 0;
     logE := λ _ _, Fin 0; logF := λ _ _, Fin 0; logG := λ _ _, Fin 0 |}.

(** One column in which only the root has a character, and it is a token. *)
Definition lone_root_column (r c : nat) : Cell :=
  if decide (r = 2) then TokCell 0 else GapCell.

(** One column in which leaf 0 and the root have a token and leaf 1 is
    gapped. *)
Definition token_root_column (r c : nat) : Cell :=
  if decide (r = 1) then GapCell else TokCell 0.

(** The object over the cherry with both branches of length 1/10, insertion
    probabilities 1/2 and the branch tables [L]. *)
Definition cherry_object (rows : nat → nat → Cell) (ncols : nat)
    (L : nat → nat → nat → double) : AlignColSumProduct :=
  fresh Eigen.jc_model (cherry (Fin (1 / 10)) (Fin (1 / 10))) rows ncols
    (λ _, Fin (ln (1 / 2))) L.

(** The two-state model with the insertion probabilities 0 and 1. *)
Definition skewed_model : Eigen.EigenModel :=
  {| Eigen.model :=
       {| Eigen.alphabetSize := 2;
          Eigen.subRate := Eigen.subRate Eigen.jc_rates;
          Eigen.insProb := λ i, Fin (if decide (i = 0) then 0 else 1) |};
     Eigen.ev := Eigen.ev Eigen.jc_model;
     Eigen.evec := Eigen.evec Eigen.jc_model;
     Eigen.evecInv := Eigen.evecInv Eigen.jc_model;
     Eigen.ev_t := Eigen.ev_t Eigen.jc_model;
     Eigen.exp_ev_t := Eigen.exp_ev_t Eigen.jc_model |}.

(** One column in which only leaf 0 has a character, the token 0. *)
Definition lone_leaf_column (r c : nat) : Cell :=
  if decide (r = 0) then TokCell 0 else GapCell.

(** The object over the cherry and [skewed_model], whose first column is
    [lone_leaf_column]: the token seen has insertion probability 0. *)
Definition zero_likelihood_object : AlignColSumProduct :=
  fresh skewed_model (cherry (Fin (1 / 10)) (Fin (1 / 10))) lone_leaf_column 1
    (λ i, if decide (i = 0) then NInf else Fin 0) (λ _ _ _, Fin 0).

(** The same column over the model with insertion probabilities 1/2. *)
Definition lone_leaf_object : AlignColSumProduct :=
  cherry_object lone_leaf_column 1 (λ _ _ _, Fin 0).

(** The real sum [f 0 + ... + f (n - 1)]. *)
Fixpoint Rsum (n : nat) (f : nat → R) : R :=
  match n with
  | 0 => 0%R
  | S n' => (Rsum n' f + f n')%R
  end.

(** A log-probability: a real, or minus infinity for the probability 0. *)
Definition is_logp (x : double) : Prop := x = NInf ∨ ∃ a, x = Fin a.

(** The probability that has the logarithm [x]. *)
Definition expo (x : double) : R :=
  match x with Fin a => exp a | _ => 0%R end.

(** Two columns: leaf 0 has the token 0 and then a gap, leaf 1 has the token
    0 and then the token 1, the root is wild in both. *)
Definition two_columns (r c : nat) : Cell :=
  match r, c with
  | 0, 0 => TokCell 0
  | 0, _ => GapCell
  | 1, 0 => TokCell 0
  | 1, _ => TokCell 1
  | _, _ => WildCell
  end.

(** The constructor's [initColumn], [fillUp], [nextColumn], [fillUp]. *)
Definition two_column_run (L : nat → nat → nat → double)
    : option AlignColSumProduct :=
  sp1 ← initColumn (cherry_object two_columns 2 L);
  sp2 ← fillUp sp1;
  sp3 ← nextColumn sp2;
  fillUp sp3.

(** *** The quantities of the two count paths *)

(** The factor of [getSubCount] and [getSubCounts]: 1 on the diagonal, the
    rate off it. *)
Definition rate (Q : nat → nat → R) (i j : nat) : R :=
  if decide (i = j) then 1%R else Q i j.

(** The sum [c_ij] of [getSubCount] for the endpoints [(a,b)], over the
    reals: [sum_k V[a,k] V^-1[k,i] sum_l V[j,l] V^-1[l,b] M[k,l]]. *)
Definition endpoint_sum (A : nat) (V Vi M : nat → nat → C) (a b i j : nat) : C :=
  Csum A (λ k, Cmul (Cmul (V a k) (Vi k i))
                    (Csum A (λ l, Cmul (Cmul (V j l) (Vi l b)) (M k l)))).

(** The ungapped rows of the column other than its root: the branches both
    paths loop over. *)
Definition branches (sp : AlignColSumProduct) : list nat :=
  filter (λ n, root sp ≠ Some n) (ungappedRows sp).

(** What the two paths need of the branch above [node]: a parent; tables of
    log-probabilities, with an entry that is not minus infinity below and
    above the branch; a finite eigen-count matrix [M]; the substitution
    matrix [P] of [getSubProbMatrix], with [branchLogSubProb] its logarithm;
    and endpoint sums that are real, that [getSubCount] does not clamp, and
    that vanish where [P] does. *)
Record branch_ok (sp : AlignColSumProduct) (V Vi : nat → nat → C)
    (Q : nat → nat → R) (M : nat → nat → C) (P : nat → nat → R) (node : nat)
    : Prop := mk_branch_ok {
  bo_parent : (0 ≤ parentNode (tree sp) node)%Z;
  bo_logG : ∀ a, a < alphabetSize sp →
    is_logp (logG sp (Z.to_nat (parentNode (tree sp) node)) a);
  bo_logE : ∀ a, a < alphabetSize sp →
    is_logp (logE sp (getSibling (tree sp) node) a);
  bo_logF : ∀ b, b < alphabetSize sp → is_logp (logF sp node b);
  bo_above : ∃ a, a < alphabetSize sp ∧
    is_finite (dadd (logG sp (Z.to_nat (parentNode (tree sp) node)) a)
                    (logE sp (getSibling (tree sp) node) a)) = true;
  bo_below : ∃ b, b < alphabetSize sp ∧ is_finite (logF sp node b) = true;
  bo_count : ∀ k l, k < alphabetSize sp → l < alphabetSize sp →
    branchEigenSubCount sp node k l = cfin (M k l);
  bo_prob : ∃ submat,
    Eigen.getSubProbMatrix (eigen sp) (branchLength (tree sp) node) = Some submat ∧
    ∀ a b, a < alphabetSize sp → b < alphabetSize sp → submat a b = Fin (P a b);
  bo_logprob : ∀ a b, a < alphabetSize sp → b < alphabetSize sp →
    branchLogSubProb sp node a b = dlog (Fin (P a b));
  bo_real : ∀ a b i j, a < alphabetSize sp → b < alphabetSize sp →
    i < alphabetSize sp → j < alphabetSize sp →
    (endpoint_sum (alphabetSize sp) V Vi M a b i j).2 = 0%R;
  bo_nonneg : ∀ a b i j, a < alphabetSize sp → b < alphabetSize sp →
    i < alphabetSize sp → j < alphabetSize sp →
    (0 <= rate Q i j * (endpoint_sum (alphabetSize sp) V Vi M a b i j).1)%R;
  bo_support : ∀ a b i j, a < alphabetSize sp → b < alphabetSize sp →
    i < alphabetSize sp → j < alphabetSize sp →
    P a b = 0%R →
    (rate Q i j * (endpoint_sum (alphabetSize sp) V Vi M a b i j).1 = 0)%R
}.

(** The posterior weight of the endpoint pair [(a,b)] of the branch above
    [node], divided by the substitution probability [P_ab]. *)
Definition post_weight (sp : AlignColSumProduct) (c : R) (node a b : nat) : R :=
  (expo (logG sp (Z.to_nat (parentNode (tree sp) node)) a) *
   expo (logE sp (getSibling (tree sp) node) a) *
   expo (logF sp node b) / exp c)%R.

(** What the direct path adds to the entry [(i,j)] for [node]. *)
Definition direct_term (sp : AlignColSumProduct) (V Vi : nat → nat → C)
    (Q : nat → nat → R) (M : nat → nat → nat → C) (c : R) (node i j : nat) : R :=
  Rsum (alphabetSize sp) (λ a, Rsum (alphabetSize sp) (λ b,
    (rate Q i j * (endpoint_sum (alphabetSize sp) V Vi (M node) a b i j).1 *
     post_weight sp c node a b)%R)).

(** The real that a finite [double] holds. *)
Definition fin_part (x : double) : R :=
  match x with Fin a => a | _ => 0%R end.

(** The reals in [U], in [D] and the inverse of [norm] for [node]. *)
Definition eigen_u (sp : AlignColSumProduct) (node b : nat) : R :=
  (expo (logF sp node b) *
   exp (- fin_part (max_element (alphabetSize sp) (logF sp node))))%R.

Definition eigen_d (sp : AlignColSumProduct) (node a : nat) : R :=
  (expo (logD_of sp node a) *
   exp (- fin_part (max_element (alphabetSize sp) (logD_of sp node))))%R.

Definition eigen_s (sp : AlignColSumProduct) (c : R) (node : nat) : R :=
  (/ exp (c + - fin_part (max_element (alphabetSize sp) (logF sp node))
            + - fin_part (max_element (alphabetSize sp) (logD_of sp node))))%R.

(** [Dbasis[k]] and [Ubasis[l]] of the node [n], the total the eigen path
    accumulates at [(k,l)], the endpoint sum over a list of indices, and
    the summand both paths add up. *)
Definition down_basis {N} (idx : list nat) (V : nat → nat → C)
    (d : N → nat → R) (n : N) (k : nat) : C :=
  CsumL idx (λ a, Cscale (d n a) (V a k)).

Definition up_basis {N} (idx : list nat) (Vi : nat → nat → C)
    (u : N → nat → R) (n : N) (l : nat) : C :=
  CsumL idx (λ b, Cscale (u n b) (Vi l b)).

Definition eigen_total {N} (nodes : list N) (idx : list nat)
    (V Vi : nat → nat → C) (M : N → nat → nat → C) (d u : N → nat → R)
    (s : N → R) (k l : nat) : C :=
  CsumL nodes (λ n, Cscale (s n)
    (Cmul (down_basis idx V d n k) (Cmul (M n k l) (up_basis idx Vi u n l)))).

Definition endpoint_sumL {N} (idx : list nat) (V Vi : nat → nat → C)
    (M : N → nat → nat → C) (i j : nat) (n : N) (a b : nat) : C :=
  CsumL idx (λ k, Cmul (Cmul (V a k) (Vi k i))
                       (CsumL idx (λ l, Cmul (Cmul (V j l) (Vi l b)) (M n k l)))).

Definition path_summand {N} (V Vi : nat → nat → C) (M : N → nat → nat → C)
    (d u : N → nat → R) (s : N → R) (i j : nat) (n : N) (a b k l : nat) : C :=
  Cscale (s n * d n a * u n b)
    (Cmul (Cmul (V a k) (Vi k i)) (Cmul (Cmul (V j l) (Vi l b)) (M n k l))).

(** What the eigen path adds to the eigen-count [(k,l)] for [node]. *)
Definition eigen_term (sp : AlignColSumProduct) (V Vi : nat → nat → C) (c : R)
    (M : nat → nat → nat → C) (node k l : nat) : C :=
  Cscale (eigen_s sp c node)
    (Cmul (down_basis (seq 0 (alphabetSize sp)) V (eigen_d sp) node k)
          (Cmul (M node k l)
                (up_basis (seq 0 (alphabetSize sp)) Vi (eigen_u sp) node l))).

(** A matrix of doubles that holds the reals [s]; a complex matrix that
    holds the complex numbers [s]; a matrix whose entries are all NaN. *)
Definition holds (sp : AlignColSumProduct) (m : nat → nat → double)
    (s : nat → nat → R) : Prop :=
  ∀ i j, i < alphabetSize sp → j < alphabetSize sp → m i j = Fin (s i j).

Definition holdsC (sp : AlignColSumProduct) (m : nat → nat → gsl_complex)
    (s : nat → nat → C) : Prop :=
  ∀ k l, k < alphabetSize sp → l < alphabetSize sp → m k l = cfin (s k l).

Definition allNaN (sp : AlignColSumProduct) (m : nat → nat → double) : Prop :=
  ∀ i j, i < alphabetSize sp → j < alphabetSize sp → m i j = NaN.

Definition allNaNC (sp : AlignColSumProduct) (m : nat → nat → gsl_complex) : Prop :=
  ∀ k l, k < alphabetSize sp → l < alphabetSize sp → m k l = (NaN, NaN).

Definition cfinite (z : gsl_complex) : bool := is_finite z.1 && is_finite z.2.

(** The locals [norm], [Dbasis] and [Ubasis] of [accumulateEigenCounts]. *)
Definition norm_of (sp : AlignColSumProduct) (node : nat) : double :=
  dexp (dsub (dsub (colLogLike sp) (max_element (alphabetSize sp) (logF sp node)))
             (max_element (alphabetSize sp) (logD_of sp node))).

Definition Dbasis_of (sp : AlignColSumProduct) (node : nat) : nat → gsl_complex :=
  basis_of (alphabetSize sp) (λ k a, Eigen.evec (eigen sp) a k)
    (scaled (alphabetSize sp) (logD_of sp node)
       (max_element (alphabetSize sp) (logD_of sp node))).

Definition Ubasis_of (sp : AlignColSumProduct) (node : nat) : nat → gsl_complex :=
  basis_of (alphabetSize sp) (Eigen.evecInv (eigen sp))
    (scaled (alphabetSize sp) (logF sp node)
       (max_element (alphabetSize sp) (logF sp node))).

(** The two-state model at the branch length [t]: the substitution
    probabilities, the eigen-substitution counts, and the eigenvectors and
    rates of [Eigen.jc_model] as real and complex numbers. *)
Definition jc_prob (t : R) (a b : nat) : R :=
  if decide (a = b) then ((1 + exp (-2 * t)) / 2)%R else ((1 - exp (-2 * t)) / 2)%R.

Definition jc_count (t : R) (k l : nat) : C :=
  if decide (k = l) then (if decide (k = 0) then t else (t * exp (-2 * t))%R, 0%R)
  else (((1 - exp (-2 * t)) / 2)%R, 0%R).

Definition jc_evec (i k : nat) : C :=
  (if decide (i = 1 ∧ k = 1) then (-1)%R else 1%R, 0%R).

Definition jc_evecInv (k j : nat) : C :=
  (if decide (k = 1 ∧ j = 1) then (- (1 / 2))%R else (1 / 2)%R, 0%R).

Definition jc_rate (i j : nat) : R := if decide (i = j) then (-1)%R else 1%R.

(** One column in which both leaves hold the token 0 and the root is wild,
    over the cherry with both branches of length 1; [lp] is the logarithm of
    the insertion probabilities and [l] the logarithms of the substitution
    probabilities. *)
Definition sample_column (r c : nat) : Cell :=
  if decide (r = 2) then WildCell else TokCell 0.

Definition sample_object (lp : R) (l : nat → nat → R) : AlignColSumProduct :=
  fresh Eigen.jc_model (cherry (Fin 1) (Fin 1)) sample_column 1
    (λ _, Fin lp) (λ _ a b, Fin (l a b)).

(** The constructor's [initColumn], then [fillUp] and [fillDown]. *)
Definition sample_run (lp : R) (l : nat → nat → R) : option AlignColSumProduct :=
  sp1 ← initColumn (sample_object lp l); sp2 ← fillUp sp1; fillDown sp2.

(** The logarithms of the model behind [sample_run], and the log-likelihood
    of its column. *)
Definition sample_logPi : R := ln (1 / 2).
Definition sample_logP (a b : nat) : R := ln (jc_prob 1 a b).

Definition sample_logLike : R :=
  ln (exp (0 + (sample_logP 0 0 + 0) + (sample_logP 0 0 + 0) + sample_logPi) +
      exp (0 + (sample_logP 1 0 + 0) + (sample_logP 1 0 + 0) + sample_logPi))%R.

(** One column in which the two leaves hold different tokens and the root is
    wild, over the cherry with both branches of length 0: the substitution
    matrices are the identity, their logarithms 0 and minus infinity, and no
    state of the root gives both leaves. *)
Definition conflict_column (r c : nat) : Cell :=
  match r with
  | 0 => TokCell 0
  | 1 => TokCell 1
  | _ => WildCell
  end.

Definition conflict_object (lp : R) : AlignColSumProduct :=
  fresh Eigen.jc_model (cherry (Fin 0) (Fin 0)) conflict_column 1
    (λ _, Fin lp) (λ _ a b, if decide (a = b) then Fin 0 else NInf).

Definition conflict_run (lp : R) : option AlignColSumProduct :=
  sp1 ← initColumn (conflict_object lp); sp2 ← fillUp sp1; fillDown sp2.

(** *** What [initColumn] tests, the posterior of a node *)

(** The test [rp < 0 || isGap (rp)] of [initColumn]: the row [r] has no
    parent, or its parent is gapped in the column. *)
Definition tops (sp : AlignColSumProduct) (r : nat) : bool :=
  bool_decide (parentNode (tree sp) r < 0)%Z
  || isGap sp (Z.to_nat (parentNode (tree sp) r)).

(** [c] is an ungapped row whose parent [x] is ungapped too: one of the
    children [initColumn] counts in [ungappedKids[x]]. *)
Definition ungappedKid (sp : AlignColSumProduct) (x c : nat) : Prop :=
  isGap sp c = false ∧ tops sp c = false ∧ Z.to_nat (parentNode (tree sp) c) = x.

(** What [initColumn] asserts of the rows below [n]: a row that is neither
    gapped nor wild has no ungapped child before it. *)
Definition wild_parents (sp : AlignColSumProduct) (n : nat) : Prop :=
  ∀ r, r < n → isGap sp r = false → isWild sp r = false →
       ∀ c, c < r → ¬ ungappedKid sp r c.

(** [AlignColSumProduct::logNodePostProb] *)
Definition logNodePostProb (sp : AlignColSumProduct) (node : nat) : nat → double :=
  for_loop (alphabetSize sp)
    (λ lpp i, vset lpp i (dsub (dadd (logF sp node i) (logG sp node i)) (colLogLike sp)))
    (λ _, Fin 0).

(** [max_element (v.begin(), v.end()) - v.begin()]: the index of the first
    largest element. *)
Definition max_element_index (n : nat) (v : nat → double) : nat :=
  foldl (λ largest i, if dlt (v largest) (v i) then i else largest) 0 (seq 1 (n - 1)).

(** [AlignColSumProduct::maxPostState] *)
Definition maxPostState (sp : AlignColSumProduct) (node : nat) : nat :=
  max_element_index (alphabetSize sp) (logNodePostProb sp node).

(** The locals of [initColumn] before its loop. *)
Definition init_state : InitState :=
  {| rows := []; ungappedKids := λ _, 0%Z; roots := [] |}.

(** *** The values the sweeps store *)

(** Nodes are numbered in post-order: a node comes before its parent, and
    the children of a node come before it. *)
Definition post_order (t : Tree) : Prop :=
  (∀ r, r < nodes t → (0 ≤ parentNode t r)%Z →
        r < Z.to_nat (parentNode t r) < nodes t) ∧
  (∀ r nc, r < nodes t → nc < nChildren t r → getChild t r nc < r).

(** The value [fillUp] stores in [logF[r][i]] for a wildcard row: the sum of
    [logE] over the children. *)
Definition childSum (sp : AlignColSumProduct) (r i : nat) : double :=
  for_loop (nChildren (tree sp) r)
    (λ logFi nc, dadd logFi (logE sp (getChild (tree sp) r nc) i)) (Fin 0).

(** The value [fillUp] stores in [logE[r][i]]. *)
Definition branchSum (sp : AlignColSumProduct) (r i : nat) : double :=
  for_loop (alphabetSize sp)
    (λ logEi j, log_accum_exp logEi (dadd (branchLogSubProb sp r i j) (logF sp r j)))
    NInf.

(** The value [fillDown] stores in [logG[r][j]]. *)
Definition downSum (sp : AlignColSumProduct) (r j : nat) : double :=
  for_loop (alphabetSize sp)
    (λ logGj i,
       log_accum_exp logGj
         (dadd (dadd (logG sp (Z.to_nat (parentNode (tree sp) r)) i)
                     (branchLogSubProb sp r i j))
               (logE sp (getSibling (tree sp) r) i)))
    NInf.

(** The fields no sweep changes. *)
Definition same_column (sp sp' : AlignColSumProduct) : Prop :=
  model sp' = model sp ∧ tree sp' = tree sp ∧ gapped sp' = gapped sp ∧
  col sp' = col sp ∧ ungappedRows sp' = ungappedRows sp ∧
  logInsProb sp' = logInsProb sp ∧ branchLogSubProb sp' = branchLogSubProb sp.

(** What the turn for [r] stores in [logF[r][i]]. *)
Definition upF (sp : AlignColSumProduct) (r i : nat) : double :=
  if isWild sp r then childSum sp r i
  else match gapped sp r (col sp) with
       | TokCell tok => if decide (i = tok) then Fin 0 else NInf
       | _ => NInf
       end.

(** Every node with a parent is one of exactly two children of it, and the
    other one is its sibling. *)
Definition binary (t : Tree) : Prop :=
  ∀ r, (r < nodes t)%nat → (0 ≤ parentNode t r)%Z →
    let p := Z.to_nat (parentNode t r) in
    nChildren t p = 2%nat ∧
    ((getChild t p 0 = r ∧ getChild t p 1 = getSibling t r) ∨
     (getChild t p 0 = getSibling t r ∧ getChild t p 1 = r)).

(** The tables the sweeps read hold log-probabilities. *)
Definition logp_tables (sp : AlignColSumProduct) : Prop :=
  (∀ i, (i < alphabetSize sp)%nat → is_logp (logInsProb sp i)) ∧
  (∀ r i j, (i < alphabetSize sp)%nat → (j < alphabetSize sp)%nat →
            is_logp (branchLogSubProb sp r i j)) ∧
  (∀ r i, (i < alphabetSize sp)%nat → is_logp (logE sp r i)).

End SumProd.

(** ** span.cpp: the partition of the sequences and the alignment graph *)

Module Span.

(** [AlignGraph::Edge]: two rows and the log-likelihood of their pairwise
    alignment. *)
Record Edge := mkEdge { row1 : nat; row2 : nat; lp : R }.

(** [AlignGraph::Partition]. [nSets] is a [size_t]; its decrement wraps. *)
Record Partition := mkPartition {
  seqSetIdx : list nat;
  seqSet : list (gset nat);
  nSets : Z
}.

Definition size_t_modulus : Z := 2 ^ 64.

(** Iteration over a [std::set<size_t>] visits the members in increasing
    order. *)
Definition set_iter (s : gset nat) : list nat := merge_sort Nat.le (elements s).

(** [Partition::Partition (size_t n)] *)
Definition Partition_new (n : nat) : Partition :=
  {| seqSetIdx := seq 0 n;
     seqSet := (λ i, {[ i ]}) <$> seq 0 n;
     nSets := Z.of_nat n |}.

(** [Partition::inSameSet] *)
Definition inSameSet (p : Partition) (e : Edge) : option bool :=
  idx1 ← seqSetIdx p !! row1 e;
  idx2 ← seqSetIdx p !! row2 e;
  Some (bool_decide (idx1 = idx2)).

(** The loop [for (auto n2 : set2) seqSetIdx[n2] = idx1]. *)
Definition relabel (idx1 : nat) (members : list nat) (idx : list nat) : list nat :=
  foldl (λ acc n2, <[ n2 := idx1 ]> acc) idx members.

(** [Partition::merge] *)
Definition merge (p : Partition) (e : Edge) : option Partition :=
  same ← inSameSet p e;
  if (same : bool) then Some p
  else
    i1 ← seqSetIdx p !! row1 e;
    i2 ← seqSetIdx p !! row2 e;
    let idx1 := if decide (i2 < i1) then i2 else i1 in
    let idx2 := if decide (i2 < i1) then i1 else i2 in
    set1 ← seqSet p !! idx1;
    set2 ← seqSet p !! idx2;
    Some {| seqSetIdx := relabel idx1 (set_iter set2) (seqSetIdx p);
            seqSet := <[ idx2 := ∅ ]> (<[ idx1 := set1 ∪ set2 ]> (seqSet p));
            nSets := (nSets p - 1) mod size_t_modulus |}.

(** The states a [Partition] object can be in: the constructor's, and those
    a successful [merge] leads to. *)
Inductive reachable : Partition → Prop :=
| reach_new n : reachable (Partition_new n)
| reach_merge p e p' : reachable p → merge p e = Some p' → reachable p'.

(** Every element is a member of the set its index names. *)
Definition members_indexed (p : Partition) : Prop :=
  ∀ x k, seqSetIdx p !! x = Some k → ∃ s, seqSet p !! k = Some s ∧ x ∈ s.

(** The sets of a partition that have a member. *)
Definition nonEmptySets (p : Partition) : list (gset nat) :=
  filter (λ s, s ≠ ∅) (seqSet p).

(** [Edge::operator<]: edges are ordered by [lp]. *)
Definition Edge_ltb (a b : Edge) : bool :=
  if Rlt_dec (lp a) (lp b) then true else false.

(** A [std::priority_queue<Edge>] is kept as the list of its elements in
    non-increasing [lp] order: [top] is the head, [pop] drops the head, and
    [push] inserts behind the elements that are not smaller. *)
Fixpoint pq_push (e : Edge) (q : list Edge) : list Edge :=
  match q with
  | [] => [e]
  | x :: q' => if Edge_ltb x e then e :: q else x :: pq_push e q'
  end.

(** [AlignPath]: for each row, the columns in which it has a residue. *)
Definition AlignPath := gmap nat (list bool).

(** The part of an [AlignGraph] that [minSpanTree] reads and writes:
    [seqs.size()], the per-vertex queues [edges] and the paths [edgePath]. *)
Record AlignGraph := mkAlignGraph {
  nSeqs : nat;
  edges : list (list Edge);
  edgePath : list (gmap nat AlignPath)
}.

(** What one turn of the constructor's loop obtains from the random source
    and from [QuickAlignMatrix]: the pair drawn (with [src < dest], never
    drawn before), the two rows of the quick alignment and its score. *)
Record Draw := mkDraw {
  d_src : nat; d_dest : nat;
  d_row0 : list bool; d_row1 : list bool;
  d_lp : R
}.

Definition draw_edge (d : Draw) : Edge := mkEdge (d_src d) (d_dest d) (d_lp d).

(** The constructor's initial state and what one turn of its loop stores. *)
Definition AlignGraph_empty (n : nat) : AlignGraph :=
  {| nSeqs := n; edges := replicate n []; edgePath := replicate n ∅ |}.

Definition AlignGraph_store (g : AlignGraph) (d : Draw) : option AlignGraph :=
  paths ← edgePath g !! d_src d;
  let path : AlignPath :=
    <[ d_dest d := d_row1 d ]>
      (<[ d_src d := d_row0 d ]> (default ∅ (paths !! d_dest d))) in
  q1 ← edges g !! d_src d;
  q2 ← <[ d_src d := pq_push (draw_edge d) q1 ]> (edges g) !! d_dest d;
  Some {| nSeqs := nSeqs g;
          edges := <[ d_dest d := pq_push (draw_edge d) q2 ]>
                     (<[ d_src d := pq_push (draw_edge d) q1 ]> (edges g));
          edgePath := <[ d_src d := <[ d_dest d := path ]> paths ]> (edgePath g) |}.

Fixpoint AlignGraph_stores (g : AlignGraph) (ds : list Draw) : option AlignGraph :=
  match ds with
  | [] => Some g
  | d :: ds' => g' ← AlignGraph_store g d; AlignGraph_stores g' ds'
  end.

Definition AlignGraph_built (n : nat) (ds : list Draw) : option AlignGraph :=
  AlignGraph_stores (AlignGraph_empty n) ds.

(** [while (!edges[src].empty() && part.inSameSet (edges[src].top()))
      edges[src].pop();] *)
Fixpoint pop_stale (part : Partition) (q : list Edge) : option (list Edge) :=
  match q with
  | [] => Some []
  | e :: q' =>
      same ← inSameSet part e;
      if (same : bool) then pop_stale part q' else Some q
  end.

(** The body of [for (auto src : part.seqSet.front())]. *)
Definition scan_step (part : Partition) (st : list (list Edge) * option Edge)
    (src : nat) : option (list (list Edge) * option Edge) :=
  q ← st.1 !! src;
  q' ← pop_stale part q;
  let edges' := <[ src := q' ]> st.1 in
  match q' with
  | [] => Some (edges', st.2)
  | top :: _ =>
      match st.2 with
      | None => Some (edges', Some top)
      | Some best =>
          if Edge_ltb best top then Some (edges', Some top)
          else Some (edges', Some best)
      end
  end.

Fixpoint scan (part : Partition) (st : list (list Edge) * option Edge)
    (srcs : list nat) : option (list (list Edge) * option Edge) :=
  match srcs with
  | [] => Some st
  | src :: srcs' => st' ← scan_step part st src; scan part st' srcs'
  end.

(** [edgePath[r1][r2]]; [std::map::operator[]] yields an empty path for a
    key that is absent. *)
Definition path_at (ep : list (gmap nat AlignPath)) (r1 r2 : nat) : option AlignPath :=
  m ← ep !! r1; Some (default ∅ (m !! r2)).

(** The loop of [minSpanTree], with the edge chosen in each turn recorded
    next to the path that the turn appends. [None] is a raised failure, or
    [fuel] used up before the loop ended. *)
Fixpoint mst_loop (fuel : nat) (ep : list (gmap nat AlignPath))
    (es : list (list Edge)) (part : Partition) (acc : list (Edge * AlignPath))
    : option (list (Edge * AlignPath) * list (list Edge)) :=
  if decide (1 < nSets part)%Z then
    match fuel with
    | 0 => None
    | S fuel' =>
        front ← head (seqSet part);
        r ← scan part (es, None) (set_iter front);
        best ← r.2;
        path ← path_at ep (row1 best) (row2 best);
        part' ← merge part best;
        mst_loop fuel' ep r.1 part' (acc ++ [(best, path)])
    end
  else Some (acc, es).

(** [AlignGraph::minSpanTree], with the chosen edges; each turn of the loop
    merges two sets, so [nSeqs] turns are enough. *)
Definition minSpanTree_trace (g : AlignGraph)
    : option (list (Edge * AlignPath) * list (list Edge)) :=
  mst_loop (nSeqs g) (edgePath g) (edges g) (Partition_new (nSeqs g)) [].

(** [AlignGraph::minSpanTree] *)
Definition minSpanTree (g : AlignGraph) : option (list AlignPath) :=
  match minSpanTree_trace g with
  | Some (chosen, _) => Some (chosen.*2)
  | None => None
  end.

(** *** Graph notions used to state what [minSpanTree] returns *)

Definition joins (e : Edge) (x y : nat) : Prop :=
  (row1 e = x ∧ row2 e = y) ∨ (row1 e = y ∧ row2 e = x).

Definition adjacent (T : list Edge) (x y : nat) : Prop :=
  ∃ e, e ∈ T ∧ joins e x y.

(** Every vertex below [K] is linked to vertex 0 by edges of [T]. *)
Definition spans (K : nat) (T : list Edge) : Prop :=
  ∀ v, v < K → rtc (adjacent T) 0 v.

(** A spanning tree of the [K] vertices inside the edge set [E]: [K - 1]
    distinct edges of [E] that link every vertex to vertex 0. *)
Definition spanning_tree (K : nat) (E T : list Edge) : Prop :=
  NoDup T ∧ T ⊆ E ∧ length T = K - 1 ∧ spans K T.

Definition total_lp (T : list Edge) : R :=
  foldr (λ e acc, (lp e + acc)%R) 0%R T.

(** The pairs a constructor run over [K] sequences draws: [src < dest],
    both below [K]. *)
Definition valid_draws (K : nat) (ds : list Draw) : Prop :=
  Forall (λ d, d_src d < d_dest d < K) ds.

Definition edges_ok (K : nat) (E : list Edge) : Prop :=
  ∀ e, e ∈ E → row1 e < row2 e < K.

(** The index [minSpanTree]'s partition gives to [x] when [S] is the set
    grown from 0. *)
Definition idxOf (S : gset nat) (x : nat) : nat :=
  if decide (x ∈ S) then 0 else x.

(** Three sequences, all three pairs drawn. *)
Definition three_draws : list Draw :=
  [ mkDraw 0 1 [true; true] [true; false] (-1);
    mkDraw 1 2 [true; false] [true; true] (-2);
    mkDraw 0 2 [true; true] [true; true] (-3) ].

#[global] Instance R_eq_dec : EqDecision R := Req_dec_T.
#[global] Instance Edge_eq_dec : EqDecision Edge.
Proof. solve_decision. Defined.

(** *** Prim's algorithm, as a relation on the set grown from vertex 0 *)

Definition crossing (S : gset nat) (e : Edge) : Prop :=
  (row1 e ∈ S ∧ row2 e ∉ S) ∨ (row2 e ∈ S ∧ row1 e ∉ S).

(** [e] is an edge of [E] that leaves [S] and no edge of [E] that leaves [S]
    has a larger [lp]. *)
Definition prim_choice (E : list Edge) (S : gset nat) (e : Edge) : Prop :=
  e ∈ E ∧ crossing S e ∧ (∀ f, f ∈ E → crossing S f → (lp f <= lp e)%R).

Inductive prim_run (E : list Edge) : gset nat → list Edge → Prop :=
| prim_start : prim_run E {[ 0 ]} []
| prim_grow S sel e :
    prim_run E S sel → prim_choice E S e →
    prim_run E (S ∪ {[ row1 e; row2 e ]}) (sel ++ [e]).

(** Every vertex below [K] is linked by edges of [X] to a vertex of [S]. *)
Definition reach_from (K : nat) (S : gset nat) (X : list Edge) : Prop :=
  ∀ v, v < K → ∃ s, s ∈ S ∧ rtc (adjacent X) s v.

(** A step between two vertices outside [S]. *)
Definition outside_step (S : gset nat) (X : list Edge) (x y : nat) : Prop :=
  adjacent X x y ∧ x ∉ S ∧ y ∉ S.

(** The partition [minSpanTree] holds when [S] is the set grown from 0. *)
Definition partOf (K : nat) (S : gset nat) : Partition :=
  {| seqSetIdx := idxOf S <$> seq 0 K;
     seqSet := (λ k, if decide (k = 0) then S
                     else if decide (k ∈ S) then ∅ else {[ k ]}) <$> seq 0 K;
     nSets := Z.of_nat K - Z.of_nat (size S) + 1 |}.

(** A queue in non-increasing [lp] order. *)
Definition descending (q : list Edge) : Prop :=
  StronglySorted (λ a b, (lp b <= lp a)%R) q.

(** What the queues hold while [S] is the set grown from 0: each queue is
    ordered, holds only edges of [E] at its vertex, and misses an edge of
    [E] at its vertex only when both rows of the edge are in [S]. *)
Definition queues_ok (K : nat) (E : list Edge) (S : gset nat)
    (es : list (list Edge)) : Prop :=
  length es = K ∧
  ∀ src q, es !! src = Some q →
    descending q ∧
    (∀ e, e ∈ q → e ∈ E ∧ (row1 e = src ∨ row2 e = src)) ∧
    (∀ e, e ∈ E → row1 e = src ∨ row2 e = src →
          e ∈ q ∨ (row1 e ∈ S ∧ row2 e ∈ S)).

(** What the scan over the members of [S] has found once the vertices
    [visited] are done: [best] is an edge of [E] leaving [S], and no edge of
    [E] that leaves [S] from a visited vertex is better. *)
Definition best_ok (E : list Edge) (S : gset nat) (visited : list nat)
    (best : option Edge) : Prop :=
  (∀ b, best = Some b → b ∈ E ∧ crossing S b) ∧
  (∀ f u, f ∈ E → crossing S f → row1 f = u ∨ row2 f = u → u ∈ S →
          u ∈ visited → ∃ b, best = Some b ∧ (lp f <= lp b)%R).

(** Each recorded path is the one stored under the rows of its edge. *)
Definition paths_stored (ep : list (gmap nat AlignPath))
    (acc : list (Edge * AlignPath)) : Prop :=
  Forall (λ ap, path_at ep (row1 ap.1) (row2 ap.1) = Some ap.2) acc.

(** The state the constructor has built once the edges [E0] are stored. *)
Definition graph_holds (K : nat) (E0 : list Edge) (g : AlignGraph) : Prop :=
  nSeqs g = K ∧ length (edges g) = K ∧ length (edgePath g) = K ∧
  ∀ src q, edges g !! src = Some q →
    descending q ∧ (∀ e, e ∈ q ↔ e ∈ E0 ∧ (row1 e = src ∨ row2 e = src)).

(** *** Runs of merges, and what a partition keeps *)

(** A run of [merge] calls, in order. *)
Fixpoint merges (p : Partition) (es : list Edge) : option Partition :=
  match es with
  | [] => Some p
  | e :: es' => p' ← merge p e; merges p' es'
  end.

(** [inSameSet] for the rows [x] and [y]. *)
Definition same_set (p : Partition) (x y : nat) : Prop :=
  inSameSet p (mkEdge x y 0) = Some true.

(** What a [Partition] of [n] elements keeps: both vectors have length [n],
    every index names a set, the set at [k] holds exactly the elements whose
    index is [k], and [nSets] counts the indices in use, which are the sets
    that are not empty. *)
Definition partition_ok (n : nat) (p : Partition) : Prop :=
  length (seqSetIdx p) = n ∧ length (seqSet p) = n ∧
  (∀ x k, seqSetIdx p !! x = Some k → k < n) ∧
  (∀ k s x, seqSet p !! k = Some s → (x ∈ s ↔ seqSetIdx p !! x = Some k)) ∧
  nSets p = Z.of_nat (size (list_to_set (seqSetIdx p) : gset nat)) ∧
  nSets p = Z.of_nat (length (nonEmptySets p)).

#[global] Instance same_set_dec p x y : Decision (same_set p x y).
Proof. unfold same_set. apply _. Defined.

(** *** The constructor of [AlignGraph] *)

(** [edgePath[src].find(dest) != edgePath[src].end()] *)
Definition has_path (ep : list (gmap nat AlignPath)) (src dest : nat) : option bool :=
  m ← ep !! src; Some (bool_decide (is_Some (m !! dest))).

(** The [do ... while] of the constructor. [raws] holds what the two calls
    [dist (generator)] of each turn yield; the result is the pair accepted
    and the rest of [raws]. [None] when [raws] is used up or an index is out
    of range. *)
Fixpoint draw_pair (ep : list (gmap nat AlignPath)) (raws : list (nat * nat))
    : option (nat * nat * list (nat * nat)) :=
  match raws with
  | [] => None
  | (a, b) :: raws' =>
      let src := if decide (b < a) then b else a in
      let dest := if decide (b < a) then a else b in
      if decide (src = dest) then draw_pair ep raws'
      else
        known ← has_path ep src dest;
        if (known : bool) then draw_pair ep raws' else Some (src, dest, raws')
  end.

(** [min ((size_t) (seqs.size() * (seqs.size() - 1) / 2), (size_t) ceil (...))]
    in [size_t] arithmetic; [bound] is the value of the second argument. *)
Definition nEdges_of (K : nat) (bound : Z) : Z :=
  Z.min (((Z.of_nat K * ((Z.of_nat K - 1) mod size_t_modulus)) mod size_t_modulus) / 2)
        bound.

(** The pair of rows of a draw. *)
Definition pair_of (d : Draw) : nat * nat := (d_src d, d_dest d).

Section Constructor.

(** What [QuickAlignMatrix] yields for the sequences [src] and [dest]: the
    two rows of [alignment()] and the score [end]. *)
Variable quickAlign : nat → nat → list bool * list bool * R.

Definition quick_draw (src dest : nat) : Draw :=
  mkDraw src dest (quickAlign src dest).1.1 (quickAlign src dest).1.2
         (quickAlign src dest).2.

(** The loop [for (size_t n = 0; n < nEdges || part.nSets > 1; ++n)] of the
    constructor. [None] is a raised failure, or [raws] used up. *)
Fixpoint AlignGraph_loop (fuel : nat) (nEdges n : Z) (g : AlignGraph)
    (part : Partition) (raws : list (nat * nat))
    : option (AlignGraph * Partition * Z) :=
  if decide (n < nEdges ∨ 1 < nSets part)%Z then
    match fuel with
    | 0 => None
    | S fuel' =>
        r ← draw_pair (edgePath g) raws;
        let d := quick_draw r.1.1 r.1.2 in
        g' ← AlignGraph_store g d;
        part' ← merge part (draw_edge d);
        AlignGraph_loop fuel' nEdges ((n + 1) mod size_t_modulus) g' part' r.2
    end
  else Some (g, part, n).

(** [AlignGraph::AlignGraph]: the graph, the partition and the counter [n]
    when the loop has ended. Every turn uses up an element of [raws], so
    [length raws] turns are enough. *)
Definition AlignGraph_new (K : nat) (bound : Z) (raws : list (nat * nat))
    : option (AlignGraph * Partition * Z) :=
  AlignGraph_loop (length raws) (nEdges_of K bound) 0
    (AlignGraph_empty K) (Partition_new K) raws.

End Constructor.

(** All pairs [(a, b)] with [a < b < K]. *)
Definition all_pairs (K : nat) : list (nat * nat) :=
  b ← seq 0 K; (λ a, (a, b)) <$> seq 0 b.

(** What the constructor's loop keeps: the graph holds the draws [ds], no
    pair was drawn twice, the partition has merged their edges and [n]
    counts them. *)
Definition ctor_inv (K : nat) (ds : list Draw) (g : AlignGraph)
    (part : Partition) (n : Z) : Prop :=
  valid_draws K ds ∧ NoDup (pair_of <$> ds) ∧
  AlignGraph_built K ds = Some g ∧
  merges (Partition_new K) (draw_edge <$> ds) = Some part ∧
  n = Z.of_nat (length ds).

(** [edgePath[src]] has the key [dest] exactly when the pair was drawn. *)
Definition paths_hold (K : nat) (ds : list Draw) (g : AlignGraph) : Prop :=
  ∀ src dest, src < K →
    has_path (edgePath g) src dest = Some (bool_decide ((src, dest) ∈ pair_of <$> ds)).

(** Every edge waiting in a queue is an edge of [E]. *)
Definition queues_in (E : list Edge) (es : list (list Edge)) : Prop :=
  ∀ src q e, es !! src = Some q → e ∈ q → e ∈ E.

(** What [uniform_int_distribution (0, K - 1)] can yield. *)
Definition in_range (K : nat) (raws : list (nat * nat)) : Prop :=
  Forall (λ p, p.1 < K ∧ p.2 < K) raws.

End Span.

(** ** sampler.cpp: the choice of the node to resample *)

Module Sampler.
Import Numerics SumProd.

(** Modelled from the spec: [random_element] of the missing [util.h] draws
    an element of the vector uniformly. The random source is kept as the
    number it yields, taken modulo the size; an empty vector has no element
    to give. *)
Definition random_element {A} (v : list A) (generator : nat) : option A :=
  v !! (generator `mod` length v).

(** The vector [intNodes] that [randomInternalNode] fills. *)
Definition intNodes (t : Tree) : list nat :=
  filter (λ n, isLeaf t n = false) (seq 0 (nodes t)).

(** [Sampler::randomInternalNode] *)
Definition randomInternalNode (t : Tree) (generator : nat) : option nat :=
  random_element (intNodes t) generator.

(** The members of [SampleNodeMove] that the constructor sets before it
    turns to the envelope and the alignment matrix. *)
Record SampleNodeMove := mkSampleNodeMove {
  node : nat;
  parent : Z;
  leftChild : nat;
  rightChild : nat
}.

(** [SampleNodeMove::SampleNodeMove], up to [rightChild]; [None] when the
    draw has nothing to give or [Assert] fails. *)
Definition SampleNodeMove_new (t : Tree) (generator : nat) : option SampleNodeMove :=
  n ← randomInternalNode t generator;
  if bool_decide (nChildren t n = 2)
  then Some {| node := n; parent := parentNode t n;
               leftChild := getChild t n 0; rightChild := getChild t n 1 |}
  else None.

(** *** [guideSeqPos] *)

(** The body of the loop of [guideSeqPos]: the state is [guidePos] and
    [pos]. *)
Definition guideSeqPos_step (rowPath guideRowPath : list bool)
    (st : list nat * nat) (col : nat) : option (list nat * nat) :=
  r ← rowPath !! col;
  g ← guideRowPath !! col;
  Some (if (r : bool) then st.1 ++ [st.2] else st.1,
        if (g : bool) then S st.2 else st.2).

(** [Sampler::guideSeqPos]; [cols] is what [alignPathColumns (path)] has
    returned. [None] when [path.at] finds no such row, or a row has no
    column [col]. *)
Definition guideSeqPos (cols : nat) (path : Span.AlignPath) (row guideRow : nat)
    : option (list nat) :=
  rowPath ← path !! row;
  guideRowPath ← path !! guideRow;
  st ← for_loop_opt cols (guideSeqPos_step rowPath guideRowPath) ([], 0);
  Some st.1.

(** The number of residues of a row in the columns before [col]. *)
Definition residues_before (rowPath : list bool) (col : nat) : nat :=
  length (filter (λ b : bool, b = true) (take col rowPath)).

End Sampler.

(* ====================================================================== *)
(** * Part II: properties *)
(* ====================================================================== *)

Module NumericsFacts.
Import Numerics.
Local Open Scope R_scope.

Lemma for_loop_S {St} n (body : St → nat → St) s :
  for_loop (S n) body s = body (for_loop n body s) n.
Proof. unfold for_loop. rewrite seq_S, foldl_app. reflexivity. Qed.

Lemma for_loop_0 {St} (body : St → nat → St) s : for_loop 0 body s = s.
Proof. reflexivity. Qed.

Lemma for_loop_ext {St} n (body1 body2 : St → nat → St) s :
  (∀ s k, (k < n)%nat → body1 s k = body2 s k) →
  for_loop n body1 s = for_loop n body2 s.
Proof.
  intros H. induction n as [|n IH]; [done|].
  rewrite !for_loop_S, IH by (intros; apply H; lia). apply H. lia.
Qed.

(** A loop that stores [f i] at index [i] fills the indices below [n]. *)
Lemma fill_vector {A} n (f : nat → A) v i :
  for_loop n (λ v i, vset v i (f i)) v i = if decide (i < n)%nat then f i else v i.
Proof.
  induction n as [|n IH]; [done|]. rewrite for_loop_S. unfold vset at 1.
  rewrite IH. repeat case_decide; subst; try done; lia.
Qed.

Lemma fill_row {A} n (f : nat → A) m i k l :
  for_loop n (λ m j, mset m i j (f j)) m k l =
  if decide (k = i ∧ l < n)%nat then f l else m k l.
Proof.
  induction n as [|n IH].
  - rewrite for_loop_0. case_decide; [lia|done].
  - rewrite for_loop_S. unfold mset at 1. rewrite IH.
    repeat case_decide; destruct_and?; subst; try done; lia.
Qed.

Lemma fill_matrix {A} n1 n2 (f : nat → nat → A) m k l :
  for_loop n1 (λ m i, for_loop n2 (λ m j, mset m i j (f i j)) m) m k l =
  if decide (k < n1 ∧ l < n2)%nat then f k l else m k l.
Proof.
  induction n1 as [|n1 IH].
  - rewrite for_loop_0. case_decide; [lia|done].
  - rewrite for_loop_S, fill_row, IH.
    repeat case_decide; destruct_and?; subst; try done; lia.
Qed.

Lemma dlt_Fin a b : dlt (Fin a) (Fin b) = true ↔ a < b.
Proof. simpl. destruct (Rlt_dec a b); split; done. Qed.

Lemma dlt_Fin_false a b : dlt (Fin a) (Fin b) = false ↔ b <= a.
Proof. simpl. destruct (Rlt_dec a b); split; try done; lra. Qed.

(** [min (1., max (0., x))] is a real in [0,1], whatever [x] is. *)
Lemma clamp_range (x : double) :
  ∃ r, dmin (Fin 1) (dmax (Fin 0) x) = Fin r ∧ 0 <= r <= 1.
Proof.
  destruct x as [a| | |]; unfold dmin, dmax; simpl.
  - destruct (Rlt_dec 0 a); simpl.
    + destruct (Rlt_dec a 1); eexists; split; try reflexivity; lra.
    + destruct (Rlt_dec 0 1); [|lra]. eexists; split; [reflexivity|lra].
  - exists 1. split; [done|lra].
  - destruct (Rlt_dec 0 1); [|lra]. exists 0. split; [done|lra].
  - destruct (Rlt_dec 0 1); [|lra]. exists 0. split; [done|lra].
Qed.

Lemma clamp_Fin (a : R) :
  dmin (Fin 1) (dmax (Fin 0) (Fin a)) = Fin (Eigen.clamp01 a).
Proof.
  unfold dmin, dmax, Eigen.clamp01. simpl.
  destruct (Rlt_dec 0 a), (Rlt_dec a 0), (Rlt_dec 1 a); simpl;
    repeat (destruct (Rlt_dec _ _); simpl); try reflexivity; try lra;
    f_equal; lra.
Qed.

(** *** [gsl_fcmp] *)

Lemma powerRZ_2_pos e : 0 < powerRZ 2 e.
Proof. apply powerRZ_lt. lra. Qed.

Lemma ln_2_pos : 0 < ln 2.
Proof. rewrite <- ln_1. apply ln_increasing; lra. Qed.

(** [2^e <= 2 |y|] for the exponent [e] that [frexp] gives to [y]. *)
Lemma frexp_exponent_bound y :
  y ≠ 0 → powerRZ 2 (frexp_exponent (Fin y)) <= 2 * Rabs y.
Proof.
  intros Hy. simpl. destruct (Req_dec_T y 0) as [|_]; [done|].
  assert (0 < Rabs y) as Hpos by (by apply Rabs_pos_lt).
  set (r := ln (Rabs y) / ln 2).
  destruct (archimed r) as [_ Hup].
  rewrite powerRZ_Rpower by lra. unfold Rpower.
  replace (2 * Rabs y) with (exp (ln 2 + ln (Rabs y)))
    by (rewrite exp_plus, !exp_ln by lra; reflexivity).
  assert (IZR (up r) * ln 2 <= ln 2 + ln (Rabs y)) as Hle.
  { pose proof ln_2_pos as H2.
    assert (ln (Rabs y) = r * ln 2) as -> by (unfold r; field; lra).
    nra. }
  destruct Hle as [Hlt|Heq]; [left; by apply exp_increasing|right; by rewrite Heq].
Qed.

Lemma gsl_fcmp_zero_zero e : 0 <= e → gsl_fcmp (Fin 0) (Fin 0) (Fin e) = 0%Z.
Proof.
  intros He. unfold gsl_fcmp, ldexp. simpl.
  destruct (Rlt_dec (Rabs 0) (Rabs 0)) as [H|_]; [lra|].
  simpl. destruct (Req_dec_T 0 0) as [_|]; [|done]. simpl.
  destruct (Rlt_dec (e * 1) (0 + - 0)); [lra|].
  destruct (Rlt_dec (0 + - 0) (- (e * 1))); [lra|]. done.
Qed.

Lemma gsl_fcmp_refl x e : 0 <= e → gsl_fcmp (Fin x) (Fin x) (Fin e) = 0%Z.
Proof.
  intros He. unfold gsl_fcmp, ldexp.
  set (E := frexp_exponent _). pose proof (powerRZ_2_pos E) as HE. simpl.
  destruct (Rlt_dec (e * powerRZ 2 E) (x + - x)); [nra|].
  destruct (Rlt_dec (x + - x) (- (e * powerRZ 2 E))); [nra|]. done.
Qed.

(** Against zero the relative comparison accepts nothing but zero. *)
Lemma gsl_fcmp_nonzero_zero y e :
  y ≠ 0 → 0 <= e < 1 / 2 → gsl_fcmp (Fin y) (Fin 0) (Fin e) ≠ 0%Z.
Proof.
  intros Hy He. unfold gsl_fcmp, ldexp.
  assert (dlt (dabs (Fin 0)) (dabs (Fin y)) = true) as ->.
  { apply dlt_Fin. rewrite Rabs_R0. by apply Rabs_pos_lt. }
  pose proof (frexp_exponent_bound y Hy) as Hb.
  set (E := frexp_exponent _) in *. pose proof (powerRZ_2_pos E) as HE.
  assert (e * powerRZ 2 E < Rabs y) as Hd.
  { assert (0 < Rabs y) by (by apply Rabs_pos_lt). nra. }
  simpl. destruct (Rlt_dec (e * powerRZ 2 E) (y + - 0)); [done|].
  destruct (Rlt_dec (y + - 0) (- (e * powerRZ 2 E))); [done|].
  exfalso. unfold Rabs in Hd. destruct (Rcase_abs y); lra.
Qed.

(** [|y| < 2^e] for the exponent [e] that [frexp] gives to [y]. *)
Lemma frexp_exponent_above y :
  y ≠ 0 → Rabs y < powerRZ 2 (frexp_exponent (Fin y)).
Proof.
  intros Hy. simpl. destruct (Req_dec_T y 0) as [|_]; [done|].
  assert (0 < Rabs y) as Hpos by (by apply Rabs_pos_lt).
  set (r := ln (Rabs y) / ln 2).
  destruct (archimed r) as [Hup _].
  rewrite powerRZ_Rpower by lra. unfold Rpower.
  rewrite <- (exp_ln (Rabs y)) at 1 by done.
  apply exp_increasing.
  pose proof ln_2_pos as H2.
  assert (ln (Rabs y) = r * ln 2) as -> by (unfold r; field; lra).
  nra.
Qed.

(** The exponent depends on the absolute value only. *)
Lemma frexp_exponent_of_Rabs y :
  frexp_exponent (Fin (Rabs y)) = frexp_exponent (Fin y).
Proof.
  simpl. destruct (Req_dec_T y 0) as [->|Hy].
  - rewrite Rabs_R0. by destruct (Req_dec_T 0 0).
  - destruct (Req_dec_T (Rabs y) 0) as [H0|_].
    + by apply Rabs_no_R0 in H0.
    + by rewrite Rabs_Rabsolu.
Qed.

(** The argument [gsl_fcmp] takes its exponent from has the larger absolute
    value. *)
Lemma frexp_exponent_larger x y :
  frexp_exponent (Fin (if Rlt_dec (Rabs y) (Rabs x) then x else y))
  = frexp_exponent (Fin (Rmax (Rabs x) (Rabs y))).
Proof.
  destruct (Rlt_dec (Rabs y) (Rabs x)) as [Hlt|Hge].
  - rewrite Rmax_left by lra. by rewrite frexp_exponent_of_Rabs.
  - rewrite Rmax_right by lra. by rewrite frexp_exponent_of_Rabs.
Qed.

(** [gsl_fcmp] returns 0 exactly when the arguments differ by at most
    [epsilon 2^e], [e] the exponent of the larger one. *)
Lemma gsl_fcmp_zero_iff x y e :
  gsl_fcmp (Fin x) (Fin y) (Fin e) = 0%Z ↔
  Rabs (x - y) <= e * powerRZ 2 (frexp_exponent (Fin (Rmax (Rabs x) (Rabs y)))).
Proof.
  rewrite <- frexp_exponent_larger. unfold gsl_fcmp, ldexp.
  assert (∀ b : double, (if dlt (dabs (Fin y)) (dabs (Fin x)) then Fin x else b)
          = (if Rlt_dec (Rabs y) (Rabs x) then Fin x else b)) as Hd.
  { intros b. simpl. by destruct (Rlt_dec (Rabs y) (Rabs x)). }
  rewrite Hd.
  assert ((if Rlt_dec (Rabs y) (Rabs x) then Fin x else Fin y)
          = Fin (if Rlt_dec (Rabs y) (Rabs x) then x else y)) as ->
    by (by destruct (Rlt_dec _ _)).
  set (E := frexp_exponent _). simpl.
  destruct (Rlt_dec (e * powerRZ 2 E) (x + - y)) as [H1|H1]; simpl.
  { split; [done|]. intros H. pose proof (Rle_abs (x - y)). lra. }
  destruct (Rlt_dec (x + - y) (- (e * powerRZ 2 E))) as [H2|H2]; simpl.
  { split; [done|]. intros H. pose proof (Rle_abs (- (x - y))) as H3.
    rewrite Rabs_Ropp in H3. lra. }
  split; [|done]. intros _. apply Rabs_le. lra.
Qed.

Lemma SUMPROD_NEAR_REAL_Fin a y :
  SUMPROD_NEAR_REAL (a, Fin y) = bool_decide (y = 0).
Proof.
  unfold SUMPROD_NEAR_REAL, SUMPROD_NEAR_EQ, SUMPROD_EPSILON. simpl.
  destruct (decide (y = 0)) as [->|H0].
  - rewrite !bool_decide_eq_true_2; [done|done|]. apply gsl_fcmp_zero_zero. lra.
  - rewrite !bool_decide_eq_false_2; [done|done|].
    apply gsl_fcmp_nonzero_zero; [done|lra].
Qed.

Lemma SUMPROD_NEAR_REAL_inf a y :
  y = PInf ∨ y = NInf → SUMPROD_NEAR_REAL (a, y) = false.
Proof.
  intros Hy. unfold SUMPROD_NEAR_REAL, SUMPROD_NEAR_EQ, SUMPROD_EPSILON. simpl.
  apply bool_decide_eq_false_2. unfold gsl_fcmp, ldexp.
  destruct Hy as [-> | ->]; simpl.
  - destruct (Rlt_dec (Rabs 0) (Rabs 0)); discriminate.
  - destruct (Rlt_dec (Rabs 0) (Rabs 0)); discriminate.
Qed.

(** *** The GSL routines on finite values *)

Lemma add_cfin a b : gsl_complex_add (cfin a) (cfin b) = cfin (Cadd a b).
Proof. reflexivity. Qed.

Lemma sub_cfin a b : gsl_complex_sub (cfin a) (cfin b) = cfin (Csub a b).
Proof. reflexivity. Qed.

Lemma mul_cfin a b : gsl_complex_mul (cfin a) (cfin b) = cfin (Cmul a b).
Proof. reflexivity. Qed.

Lemma mul_real_cfin a x :
  gsl_complex_mul_real (cfin a) (Fin x) = cfin (Cscale x a).
Proof. reflexivity. Qed.

Lemma exp_cfin a : gsl_complex_exp (cfin a) = cfin (Cexp a).
Proof. reflexivity. Qed.

Lemma div_real_cfin a x :
  x ≠ 0 → gsl_complex_div_real (cfin a) (Fin x) = cfin (Cscale (/ x) a).
Proof.
  intros Hx. unfold gsl_complex_div_real, cfin, Cscale. simpl.
  destruct (Req_dec_T x 0) as [|_]; [done|]. f_equal; f_equal; field; done.
Qed.

Lemma div_cfin a b :
  b ≠ C0 → gsl_complex_div (cfin a) (cfin b) = cfin (Cdiv a b).
Proof.
  intros Hb. destruct a as [a1 a2], b as [b1 b2].
  unfold gsl_complex_div, cfin, Cdiv. simpl.
  assert (b1 * b1 + b2 * b2 ≠ 0) as Hd.
  { intros H0. apply Hb. assert (b1 = 0 ∧ b2 = 0) as [-> ->] by (split; nra). done. }
  destruct (Req_dec_T (b1 * b1 + b2 * b2) 0) as [|_]; [done|]. reflexivity.
Qed.

Lemma csum_cfin n f g :
  (∀ k, (k < n)%nat → f k = cfin (g k)) → Eigen.csum n f = cfin (Csum n g).
Proof.
  unfold Eigen.csum. induction n as [|n IH]; intros H; [done|].
  rewrite for_loop_S, IH by (intros; apply H; lia).
  rewrite H by lia. reflexivity.
Qed.

End NumericsFacts.

Module EigenFacts.
Import Numerics Eigen NumericsFacts.
Local Open Scope R_scope.

Lemma compute_exp_ev_t_fields em t :
  let em' := compute_exp_ev_t em t in
  model em' = model em ∧ ev em' = ev em ∧ evec em' = evec em ∧
  evecInv em' = evecInv em ∧
  ∀ i, (i < alphabetSize (model em))%nat →
       exp_ev_t em' i = gsl_complex_exp (gsl_complex_mul_real (ev em i) t).
Proof.
  unfold compute_exp_ev_t. generalize (alphabetSize (model em)) as n.
  induction n as [|n IH].
  - rewrite for_loop_0. split_and!; try done. intros; lia.
  - rewrite for_loop_S. cbv zeta in IH.
    set (emn := for_loop n _ em) in *. clearbody emn.
    destruct IH as (Hm & He & Hv & Hvi & Hx).
    cbn [model ev evec evecInv exp_ev_t ev_t]. split_and!; try done.
    intros i Hi. unfold vset.
    destruct (decide (i = n)) as [->|Hne].
    + rewrite decide_True by done. by rewrite He.
    + apply Hx. lia.
Qed.

Lemma subProbSum_spectral em t i j :
  subProbSum (compute_exp_ev_t em t) i j = spectral_sum em t i j.
Proof.
  destruct (compute_exp_ev_t_fields em t) as (Hm & He & Hv & Hvi & Hx).
  unfold subProbSum, spectral_sum, csum. rewrite Hm, Hv, Hvi.
  apply for_loop_ext. intros p k Hk. by rewrite Hx.
Qed.

(** *** The integral behind [eigenSubCount] *)

Lemma lin_lim p a x : derivable_pt_lim (λ y, p + a * y) x a.
Proof.
assert (H : derivable_pt_lim (plus_fct (fct_cte p) (mult_real_fct a id)) x (0 + a * 1)).
{ apply derivable_pt_lim_plus.
  - apply derivable_pt_lim_const.
  - apply derivable_pt_lim_scal. apply derivable_pt_lim_id. }
replace (0 + a * 1) with a in H by ring. exact H.
Qed.

Lemma exp_cos_lim p a q b x :
  derivable_pt_lim (exp_cos p a q b) x (a * exp_cos p a q b x - b * exp_sin p a q b x).
Proof.
assert (H : derivable_pt_lim
          (mult_fct (comp exp (λ y, p + a * y)) (comp cos (λ y, q + b * y))) x
          ((exp (p + a * x) * a) * cos (q + b * x) +
           exp (p + a * x) * (- sin (q + b * x) * b))).
{ apply (derivable_pt_lim_mult (comp exp (λ y, p + a * y))
           (comp cos (λ y, q + b * y)) x (exp (p + a * x) * a)
           (- sin (q + b * x) * b)).
  - apply (derivable_pt_lim_comp (λ y, p + a * y) exp);
      [apply lin_lim|apply derivable_pt_lim_exp].
  - apply (derivable_pt_lim_comp (λ y, q + b * y) cos);
      [apply lin_lim|apply derivable_pt_lim_cos]. }
unfold exp_cos, exp_sin.
replace (a * (exp (p + a * x) * cos (q + b * x)) -
         b * (exp (p + a * x) * sin (q + b * x)))
  with ((exp (p + a * x) * a) * cos (q + b * x) +
        exp (p + a * x) * (- sin (q + b * x) * b)) by ring.
exact H.
Qed.

Lemma exp_sin_lim p a q b x :
  derivable_pt_lim (exp_sin p a q b) x (a * exp_sin p a q b x + b * exp_cos p a q b x).
Proof.
assert (H : derivable_pt_lim
          (mult_fct (comp exp (λ y, p + a * y)) (comp sin (λ y, q + b * y))) x
          ((exp (p + a * x) * a) * sin (q + b * x) +
           exp (p + a * x) * (cos (q + b * x) * b))).
{ apply (derivable_pt_lim_mult (comp exp (λ y, p + a * y))
           (comp sin (λ y, q + b * y)) x (exp (p + a * x) * a)
           (cos (q + b * x) * b)).
  - apply (derivable_pt_lim_comp (λ y, p + a * y) exp);
      [apply lin_lim|apply derivable_pt_lim_exp].
  - apply (derivable_pt_lim_comp (λ y, q + b * y) sin);
      [apply lin_lim|apply derivable_pt_lim_sin]. }
unfold exp_cos, exp_sin.
replace (a * (exp (p + a * x) * sin (q + b * x)) +
         b * (exp (p + a * x) * cos (q + b * x)))
  with ((exp (p + a * x) * a) * sin (q + b * x) +
        exp (p + a * x) * (cos (q + b * x) * b)) by ring.
exact H.
Qed.

(** An antiderivative of each part when [a + i b] is not zero. *)
Lemma antiderivative_exp_cos p a q b x :
  a * a + b * b ≠ 0 →
  derivable_pt_lim
    (λ y, (a * exp_cos p a q b y + b * exp_sin p a q b y) / (a * a + b * b)) x
    (exp_cos p a q b x).
Proof.
intros Hd.
set (u := exp_cos p a q b). set (v := exp_sin p a q b).
assert (H : derivable_pt_lim
          (mult_real_fct (/ (a * a + b * b))
             (plus_fct (mult_real_fct a u) (mult_real_fct b v))) x
          (/ (a * a + b * b) * (a * (a * u x - b * v x) + b * (a * v x + b * u x)))).
{ apply derivable_pt_lim_scal. apply derivable_pt_lim_plus;
    apply derivable_pt_lim_scal; [apply exp_cos_lim|apply exp_sin_lim]. }
replace (/ (a * a + b * b) * (a * (a * u x - b * v x) + b * (a * v x + b * u x)))
  with (u x) in H by (field; exact Hd).
eapply derivable_pt_lim_ext; [|exact H].
intros z. unfold mult_real_fct, plus_fct. field. exact Hd.
Qed.

Lemma antiderivative_exp_sin p a q b x :
  a * a + b * b ≠ 0 →
  derivable_pt_lim
    (λ y, (a * exp_sin p a q b y - b * exp_cos p a q b y) / (a * a + b * b)) x
    (exp_sin p a q b x).
Proof.
intros Hd.
set (u := exp_cos p a q b). set (v := exp_sin p a q b).
assert (H : derivable_pt_lim
          (mult_real_fct (/ (a * a + b * b))
             (minus_fct (mult_real_fct a v) (mult_real_fct b u))) x
          (/ (a * a + b * b) * (a * (a * v x + b * u x) - b * (a * u x - b * v x)))).
{ apply derivable_pt_lim_scal. apply derivable_pt_lim_minus;
    apply derivable_pt_lim_scal; [apply exp_sin_lim|apply exp_cos_lim]. }
replace (/ (a * a + b * b) * (a * (a * v x + b * u x) - b * (a * u x - b * v x)))
  with (v x) in H by (field; exact Hd).
eapply derivable_pt_lim_ext; [|exact H].
intros z. unfold mult_real_fct, minus_fct. field. exact Hd.
Qed.

(** The fundamental theorem of calculus, for a function with a known
    derivative everywhere. *)
Lemma integral_of_derivative (F f : R → R) (a b : R) :
  (∀ x, derivable_pt_lim F x (f x)) → continuity f →
  ∀ pr : Riemann_integrable f a b, RiemannInt pr = F b - F a.
Proof.
intros H Hc pr.
set (diff := λ x, exist (λ l, derivable_pt_abs F x l) (f x) (H x) : derivable_pt F x).
exact (@FTC_Riemann (@mkC1 F diff Hc) a b pr).
Qed.

Lemma derivable_everywhere_continuity (F f : R → R) :
  (∀ x, derivable_pt_lim F x (f x)) → continuity F.
Proof. intros H x. apply derivable_continuous_pt. exists (f x). apply H. Qed.

Lemma exp_cos_continuity p a q b : continuity (exp_cos p a q b).
Proof. eapply derivable_everywhere_continuity. intros x. apply exp_cos_lim. Qed.

Lemma exp_sin_continuity p a q b : continuity (exp_sin p a q b).
Proof. eapply derivable_everywhere_continuity. intros x. apply exp_sin_lim. Qed.

Lemma Cexp_add z1 z2 : Cmul (Cexp z1) (Cexp z2) = Cexp (Cadd z1 z2).
Proof.
destruct z1 as [a1 b1], z2 as [a2 b2]. unfold Cmul, Cexp, Cadd. simpl.
rewrite exp_plus, cos_plus, sin_plus. f_equal; ring.
Qed.

(** The integrand is [e^(t ll + (lk - ll) x)]. *)
Lemma path_integrand_parts lk ll t x :
  path_integrand lk ll t x =
  (exp_cos (t * ll.1) (lk.1 - ll.1) (t * ll.2) (lk.2 - ll.2) x,
   exp_sin (t * ll.1) (lk.1 - ll.1) (t * ll.2) (lk.2 - ll.2) x).
Proof.
unfold path_integrand. rewrite Cexp_add.
destruct lk as [ak bk], ll as [al bl]. unfold Cexp, Cadd, Cscale, exp_cos, exp_sin.
simpl.
replace (x * ak + (t - x) * al) with (t * al + (ak - al) * x) by ring.
replace (x * bk + (t - x) * bl) with (t * bl + (bk - bl) * x) by ring.
reflexivity.
Qed.

(** For distinct [lk] and [ll] the integral over [[0,t]] is
    [(e^(lk t) - e^(ll t)) / (lk - ll)]. *)
Lemma path_integral_distinct lk ll t :
  0 <= t → lk ≠ ll →
  is_integral (path_integrand lk ll t) 0 t
    (Cdiv (Csub (Cexp (Cscale t lk)) (Cexp (Cscale t ll))) (Csub lk ll)).
Proof.
intros Ht Hne.
set (p := t * ll.1). set (a := lk.1 - ll.1).
set (q := t * ll.2). set (b := lk.2 - ll.2).
assert (a * a + b * b ≠ 0) as Hd.
{ intros H0. apply Hne. assert (a = 0 ∧ b = 0) as [Ha Hb] by (split; nra).
  destruct lk, ll. unfold a, b in *. simpl in *. f_equal; lra. }
assert (∀ x, (path_integrand lk ll t x).1 = exp_cos p a q b x) as H1
  by (intros x; by rewrite path_integrand_parts).
assert (∀ x, (path_integrand lk ll t x).2 = exp_sin p a q b x) as H2
  by (intros x; by rewrite path_integrand_parts).
assert (Riemann_integrable (λ x, (path_integrand lk ll t x).1) 0 t) as pr1.
{ apply Riemann_integrable_ext with (f := exp_cos p a q b); [intros; by rewrite H1|].
  apply continuity_implies_RiemannInt; [done|]. intros; apply exp_cos_continuity. }
assert (Riemann_integrable (λ x, (path_integrand lk ll t x).2) 0 t) as pr2.
{ apply Riemann_integrable_ext with (f := exp_sin p a q b); [intros; by rewrite H2|].
  apply continuity_implies_RiemannInt; [done|]. intros; apply exp_sin_continuity. }
exists pr1, pr2.
rewrite (integral_of_derivative
           (λ y, (a * exp_cos p a q b y + b * exp_sin p a q b y) / (a * a + b * b))
           _ 0 t) with (pr := pr1).
2:{ intros x. rewrite H1. by apply antiderivative_exp_cos. }
2:{ intros x. eapply continuity_pt_locally_ext with (a := 1) (f := exp_cos p a q b);
      [lra|intros; by rewrite H1|apply exp_cos_continuity]. }
rewrite (integral_of_derivative
           (λ y, (a * exp_sin p a q b y - b * exp_cos p a q b y) / (a * a + b * b))
           _ 0 t) with (pr := pr2).
2:{ intros x. rewrite H2. by apply antiderivative_exp_sin. }
2:{ intros x. eapply continuity_pt_locally_ext with (a := 1) (f := exp_sin p a q b);
      [lra|intros; by rewrite H2|apply exp_sin_continuity]. }
unfold exp_cos, exp_sin, p, a, q, b, Cdiv, Csub, Cexp, Cscale.
destruct lk as [ak bk], ll as [al bl]. simpl.
replace (t * al + (ak - al) * t) with (t * ak) by ring.
replace (t * bl + (bk - bl) * t) with (t * bk) by ring.
replace (t * al + (ak - al) * 0) with (t * al) by ring.
replace (t * bl + (bk - bl) * 0) with (t * bl) by ring.
unfold a, b in Hd. simpl in Hd.
f_equal; field; lra.
Qed.

(** For equal eigenvalues the integrand is constant and the integral is
    [t e^(lk t)]: the value the quotient above tends to as [ll] tends to [lk]. *)
Lemma path_integral_equal lk t :
  0 <= t →
  is_integral (path_integrand lk lk t) 0 t (Cscale t (Cexp (Cscale t lk))).
Proof.
intros Ht.
assert (∀ x, path_integrand lk lk t x = Cexp (Cscale t lk)) as Hc.
{ intros x. unfold path_integrand. rewrite Cexp_add. f_equal.
  destruct lk. unfold Cadd, Cscale. simpl. f_equal; ring. }
assert (Riemann_integrable (λ x, (path_integrand lk lk t x).1) 0 t) as pr1.
{ apply Riemann_integrable_ext with (f := fct_cte (Cexp (Cscale t lk)).1);
    [intros; by rewrite Hc|apply RiemannInt_P14]. }
assert (Riemann_integrable (λ x, (path_integrand lk lk t x).2) 0 t) as pr2.
{ apply Riemann_integrable_ext with (f := fct_cte (Cexp (Cscale t lk)).2);
    [intros; by rewrite Hc|apply RiemannInt_P14]. }
exists pr1, pr2.
rewrite (RiemannInt_P18 pr1 (RiemannInt_P14 0 t (Cexp (Cscale t lk)).1) Ht)
  by (intros; by rewrite Hc).
rewrite (RiemannInt_P18 pr2 (RiemannInt_P14 0 t (Cexp (Cscale t lk)).2) Ht)
  by (intros; by rewrite Hc).
rewrite !RiemannInt_P15. unfold Cscale. simpl. f_equal; ring.
Qed.

Lemma eigenSubCount_entry em t k l :
  (k < alphabetSize (model em))%nat → (l < alphabetSize (model em))%nat →
  eigenSubCount em t k l =
  if bool_decide (k = l) || SUMPROD_NEAR_EQ_COMPLEX (ev em k) (ev em l)
  then gsl_complex_mul_real (gsl_complex_exp (gsl_complex_mul_real (ev em k) t)) t
  else gsl_complex_div
         (gsl_complex_sub (gsl_complex_exp (gsl_complex_mul_real (ev em k) t))
                          (gsl_complex_exp (gsl_complex_mul_real (ev em l) t)))
         (gsl_complex_sub (ev em k) (ev em l)).
Proof.
intros Hk Hl. unfold eigenSubCount.
destruct (compute_exp_ev_t_fields em t) as (Hm & He & _ & _ & Hx).
rewrite (fill_matrix _ _
  (λ i j, if bool_decide (i = j) ||
             SUMPROD_NEAR_EQ_COMPLEX (ev (compute_exp_ev_t em t) i)
               (ev (compute_exp_ev_t em t) j)
          then gsl_complex_mul_real (exp_ev_t (compute_exp_ev_t em t) i) t
          else gsl_complex_div
                 (gsl_complex_sub (exp_ev_t (compute_exp_ev_t em t) i)
                    (exp_ev_t (compute_exp_ev_t em t) j))
                 (gsl_complex_sub (ev (compute_exp_ev_t em t) i)
                    (ev (compute_exp_ev_t em t) j)))).
rewrite decide_True by done. rewrite He, !Hx by done. reflexivity.
Qed.

Lemma near_eq_complex_refl z : SUMPROD_NEAR_EQ_COMPLEX (cfin z) (cfin z) = true.
Proof.
unfold SUMPROD_NEAR_EQ_COMPLEX, SUMPROD_NEAR_EQ, SUMPROD_EPSILON, cfin. simpl.
rewrite !bool_decide_eq_true_2; [done| |]; apply gsl_fcmp_refl; lra.
Qed.

Lemma SUMPROD_NEAR_EQ_iff x y :
  SUMPROD_NEAR_EQ (Fin x) (Fin y) = true ↔ within_tolerance x y.
Proof.
  unfold SUMPROD_NEAR_EQ, SUMPROD_EPSILON, within_tolerance, relative_tolerance.
  rewrite bool_decide_eq_true. apply gsl_fcmp_zero_iff.
Qed.

Lemma SUMPROD_NEAR_EQ_COMPLEX_iff a b :
  SUMPROD_NEAR_EQ_COMPLEX (cfin a) (cfin b) = true ↔ near_eigenvalues a b.
Proof.
  unfold SUMPROD_NEAR_EQ_COMPLEX, near_eigenvalues, cfin, GSL_REAL, GSL_IMAG.
  simpl. rewrite andb_true_iff, !SUMPROD_NEAR_EQ_iff. done.
Qed.

(** The tolerance is above [10^-6] times the larger absolute value, and at
    most twice that when the larger absolute value is not zero. *)
Lemma relative_tolerance_lower x y :
  1 / 1000000 * Rmax (Rabs x) (Rabs y) <= relative_tolerance x y.
Proof.
  unfold relative_tolerance. set (m := Rmax (Rabs x) (Rabs y)).
  destruct (Req_dec_T m 0) as [H0|H0].
  - rewrite H0. pose proof (powerRZ_2_pos (frexp_exponent (Fin 0))). lra.
  - pose proof (frexp_exponent_above m H0) as H1.
    assert (0 <= m) as Hm.
    { unfold m. pose proof (Rabs_pos x). pose proof (Rmax_l (Rabs x) (Rabs y)). lra. }
    rewrite Rabs_pos_eq in H1 by done. lra.
Qed.

Lemma relative_tolerance_upper x y :
  Rmax (Rabs x) (Rabs y) ≠ 0 →
  relative_tolerance x y <= 2 / 1000000 * Rmax (Rabs x) (Rabs y).
Proof.
  unfold relative_tolerance. set (m := Rmax (Rabs x) (Rabs y)). intros H0.
  pose proof (frexp_exponent_bound m H0) as H2.
  assert (0 <= m) as Hm.
  { unfold m. pose proof (Rabs_pos x). pose proof (Rmax_l (Rabs x) (Rabs y)). lra. }
  rewrite Rabs_pos_eq in H2 by done. lra.
Qed.

Lemma within_tolerance_refl x : within_tolerance x x.
Proof.
  unfold within_tolerance. replace (x - x) with 0 by lra. rewrite Rabs_R0.
  pose proof (relative_tolerance_lower x x) as H.
  pose proof (Rabs_pos x). rewrite Rmax_left in H by lra. lra.
Qed.

Lemma relative_gap_within x y :
  relative_gap_le (1 / 1000000) x y → within_tolerance x y.
Proof.
  unfold relative_gap_le, within_tolerance. intros H.
  pose proof (relative_tolerance_lower x y). lra.
Qed.

Lemma within_relative_gap x y :
  within_tolerance x y → relative_gap_le (2 / 1000000) x y.
Proof.
  unfold relative_gap_le, within_tolerance. intros H.
  destruct (Req_dec_T (Rmax (Rabs x) (Rabs y)) 0) as [H0|H0].
  - pose proof (Rmax_l (Rabs x) (Rabs y)) as Hx.
    pose proof (Rmax_r (Rabs x) (Rabs y)) as Hy.
    pose proof (Rabs_pos x). pose proof (Rabs_pos y).
    assert (x = 0) as -> by (destruct (Req_dec_T x 0) as [|Hn]; [done|apply Rabs_pos_lt in Hn; lra]).
    assert (y = 0) as -> by (destruct (Req_dec_T y 0) as [|Hn]; [done|apply Rabs_pos_lt in Hn; lra]).
    replace (0 - 0) with 0 by lra. rewrite Rabs_R0, Rmax_left by lra. lra.
  - pose proof (relative_tolerance_upper x y H0). lra.
Qed.

(** C2. For a branch length [t >= 0] and eigenvalue indices [k], [l]:
    [eigenSubCount (t)] holds [t * exp (lambda_k t)] at [(k,l)] when [k = l]
    or [lambda_k] is within the relative tolerance of [lambda_l] (real and
    imaginary parts compared), and
    [(exp (lambda_k t) - exp (lambda_l t)) / (lambda_k - lambda_l)] when
    [k <> l] and [lambda_k] is not within the tolerance of [lambda_l].
    In the second case this is the integral over [[0,t]] of
    [e^(lambda_k x) e^(lambda_l (t - x))]; in the first it is that integral
    at [lambda_l = lambda_k], its degenerate limit. Equal eigenvalues are
    within the tolerance. The tolerance is relative, of about [10^-6]:
    parts that differ by at most [10^-6] of the larger absolute value are
    within it, and parts within it differ by at most [2 * 10^-6] of the
    larger absolute value. Doubles are exact reals here. *)
Theorem eigenSubCount_entries (em : EigenModel) (lam : nat → C) (t : R) (k l : nat) :
  0 <= t →
  (∀ n, (n < alphabetSize (model em))%nat → ev em n = cfin (lam n)) →
  (k < alphabetSize (model em))%nat → (l < alphabetSize (model em))%nat →
  let limit_value := Cscale t (Cexp (Cscale t (lam k))) in
  let quotient :=
    Cdiv (Csub (Cexp (Cscale t (lam k))) (Cexp (Cscale t (lam l))))
         (Csub (lam k) (lam l)) in
  (k = l ∨ near_eigenvalues (lam k) (lam l) →
     eigenSubCount em (Fin t) k l = cfin limit_value ∧
     is_integral (path_integrand (lam k) (lam k) t) 0 t limit_value) ∧
  (k ≠ l → ¬ near_eigenvalues (lam k) (lam l) →
     eigenSubCount em (Fin t) k l = cfin quotient ∧
     is_integral (path_integrand (lam k) (lam l) t) 0 t quotient) ∧
  (lam k = lam l → near_eigenvalues (lam k) (lam l)) ∧
  (relative_gap_le (1 / 1000000) (lam k).1 (lam l).1 →
   relative_gap_le (1 / 1000000) (lam k).2 (lam l).2 →
   near_eigenvalues (lam k) (lam l)) ∧
  (near_eigenvalues (lam k) (lam l) →
   relative_gap_le (2 / 1000000) (lam k).1 (lam l).1 ∧
   relative_gap_le (2 / 1000000) (lam k).2 (lam l).2).
Proof.
intros Ht Hev Hk Hl limit_value quotient.
assert (eigenSubCount em (Fin t) k l =
        if bool_decide (k = l) || SUMPROD_NEAR_EQ_COMPLEX (cfin (lam k)) (cfin (lam l))
        then cfin limit_value
        else gsl_complex_div
               (cfin (Csub (Cexp (Cscale t (lam k))) (Cexp (Cscale t (lam l)))))
               (cfin (Csub (lam k) (lam l)))) as Hentry.
{ rewrite eigenSubCount_entry by done. rewrite !Hev by done.
  by rewrite !mul_real_cfin, !exp_cfin, mul_real_cfin, sub_cfin, sub_cfin. }
assert (lam k = lam l → near_eigenvalues (lam k) (lam l)) as Heq.
{ intros ->. split; apply within_tolerance_refl. }
split_and!.
- intros Hdeg. split; [|by apply path_integral_equal].
  rewrite Hentry.
  assert (bool_decide (k = l) || SUMPROD_NEAR_EQ_COMPLEX (cfin (lam k)) (cfin (lam l))
          = true) as ->; [|done].
  destruct Hdeg as [->|Hnear].
  + by rewrite bool_decide_eq_true_2.
  + apply SUMPROD_NEAR_EQ_COMPLEX_iff in Hnear. rewrite Hnear. apply orb_true_r.
- intros Hkl Hfar.
  assert (lam k ≠ lam l) as Hne by (intros H; by apply Hfar, Heq).
  split; [|by apply path_integral_distinct].
  rewrite Hentry, bool_decide_eq_false_2 by done.
  destruct (SUMPROD_NEAR_EQ_COMPLEX _ _) eqn:Hnear.
  { by apply SUMPROD_NEAR_EQ_COMPLEX_iff in Hnear. }
  simpl. apply div_cfin. intros H0. apply Hne.
  destruct (lam k), (lam l). unfold Csub, C0 in H0. simpl in H0.
  injection H0 as H1 H2. f_equal; lra.
- exact Heq.
- intros H1 H2. split; by apply relative_gap_within.
- intros [H1 H2]. split; by apply within_relative_gap.
Qed.

Lemma eigenSubCount_entries_witness :
  (eigenSubCount growth_model (Fin 1) 0 0 =
     cfin (Cscale 1 (Cexp (Cscale 1 (0, 0)))) ∧
   is_integral (path_integrand (0, 0) (0, 0) 1) 0 1
     (Cscale 1 (Cexp (Cscale 1 (0, 0))))) ∧
  (eigenSubCount growth_model (Fin 1) 0 1 =
     cfin (Cdiv (Csub (Cexp (Cscale 1 (0, 0))) (Cexp (Cscale 1 (2, 0))))
                (Csub (0, 0) (2, 0))) ∧
   is_integral (path_integrand (0, 0) (2, 0) 1) 0 1
     (Cdiv (Csub (Cexp (Cscale 1 (0, 0))) (Cexp (Cscale 1 (2, 0))))
           (Csub (0, 0) (2, 0)))).
Proof.
split.
- destruct (eigenSubCount_entries growth_model
              (λ n, (if decide (n = 1%nat) then 2 else 0, 0)) 1 0 0)
    as (H1 & _).
  + lra.
  + intros n Hn. reflexivity.
  + simpl. lia.
  + simpl. lia.
  + apply H1. by left.
- destruct (eigenSubCount_entries growth_model
              (λ n, (if decide (n = 1%nat) then 2 else 0, 0)) 1 0 1)
    as (_ & H2 & _ & _ & H5).
  + lra.
  + intros n Hn. reflexivity.
  + simpl. lia.
  + simpl. lia.
  + apply H2; [lia|]. intros Hnear. apply H5 in Hnear as [Hre _].
    unfold relative_gap_le in Hre. simpl in Hre.
    rewrite Rabs_minus_sym, Rminus_0_r, Rabs_R0, (Rabs_pos_eq 2), Rmax_right in Hre
      by lra.
    lra.
Defined.

(** At the eigensystem of [[1,-1],[-1,1]] and [t = 1], the entry (0,1) of
    the spectral sum is the real number [(1 - e^2) / 2]. *)
Lemma growth_spectral_sum :
  spectral_sum growth_model (Fin 1) 0 1 = (Fin ((1 - exp 2) / 2), Fin 0).
Proof.
  unfold spectral_sum.
  erewrite (csum_cfin _ _
    (λ k, Cmul (Cmul (if decide (0%nat = 1%nat ∧ k = 1%nat) then -1 else 1, 0)
                     (if decide (k = 1%nat ∧ 1%nat = 1%nat) then - (1 / 2) else 1 / 2, 0))
               (Cexp (Cscale 1 (if decide (k = 1%nat) then 2 else 0, 0))))).
  2:{ intros k Hk. reflexivity. }
  unfold cfin. simpl.
  replace (1 * 0) with 0 by lra. replace (1 * 2) with 2 by lra.
  rewrite exp_0, cos_0, sin_0. f_equal; f_equal; field.
Qed.

(** C3 as stated fails: a real part below [-epsilon] is no failure.  At the
    eigensystem of [[1,-1],[-1,1]] and [t = 1] the spectral sum for (0,1)
    is real and below -1, and [getSubProb] returns 0. *)
Lemma getSubProb_negative_real_part_returns_zero :
  ∃ x, spectral_sum growth_model (Fin 1) 0 1 = (Fin x, Fin 0) ∧
       x < - (1 / 1000000) ∧
       getSubProb growth_model (Fin 1) 0 1 = Some (Fin 0).
Proof.
  exists ((1 - exp 2) / 2).
  assert ((1 - exp 2) / 2 < -1) as Hneg.
  { pose proof (exp_ineq1 2 ltac:(lra)). lra. }
  split_and!; [apply growth_spectral_sum|lra|].
  unfold getSubProb, getSubProbInner.
  rewrite subProbSum_spectral, growth_spectral_sum, SUMPROD_NEAR_REAL_Fin.
  rewrite bool_decide_eq_true_2 by done.
  unfold GSL_REAL. simpl fst. rewrite clamp_Fin. unfold clamp01.
  destruct (Rlt_dec ((1 - exp 2) / 2) 0); [done|lra].
Qed.

(** C3, amended. [getSubProb] fails exactly when the imaginary part of the
    spectral sum is not accepted as zero by the relative comparison, which
    is so for every non-zero imaginary part, in particular for one outside
    [epsilon]. The real part never causes a failure: below 0 it is clamped
    to 0 and above 1 to 1, so every returned value lies in [0,1]. *)
Theorem getSubProb_clamps (em : EigenModel) (t : double) (i j : nat) :
  let p := spectral_sum em t i j in
  getSubProb em t i j =
    (if SUMPROD_NEAR_REAL p
     then Some (dmin (Fin 1) (dmax (Fin 0) (GSL_REAL p))) else None) ∧
  (∀ y, GSL_IMAG p = Fin y → y ≠ 0 → getSubProb em t i j = None) ∧
  (GSL_IMAG p = PInf ∨ GSL_IMAG p = NInf → getSubProb em t i j = None) ∧
  (∀ x, GSL_IMAG p = Fin 0 → GSL_REAL p = Fin x →
        getSubProb em t i j = Some (Fin (clamp01 x))) ∧
  (∀ v, getSubProb em t i j = Some v → ∃ r, v = Fin r ∧ 0 <= r <= 1).
Proof.
  intros p.
  assert (getSubProb em t i j =
          (if SUMPROD_NEAR_REAL p
           then Some (dmin (Fin 1) (dmax (Fin 0) (GSL_REAL p))) else None)) as Hg.
  { unfold getSubProb, getSubProbInner. by rewrite subProbSum_spectral. }
  split_and!; [done| | | |].
  - intros y Hy Hne. rewrite Hg. destruct p as [re im]. simpl in Hy. subst im.
    rewrite SUMPROD_NEAR_REAL_Fin, bool_decide_eq_false_2 by done. done.
  - intros Hinf. rewrite Hg. destruct p as [re im]. simpl in Hinf.
    by rewrite SUMPROD_NEAR_REAL_inf.
  - intros x Hy Hx. rewrite Hg. destruct p as [re im]. simpl in Hx, Hy. subst.
    rewrite SUMPROD_NEAR_REAL_Fin, bool_decide_eq_true_2 by done.
    unfold GSL_REAL. simpl fst. by rewrite clamp_Fin.
  - intros v. rewrite Hg. destruct (SUMPROD_NEAR_REAL p); [|done].
    intros [= <-]. apply clamp_range.
Qed.

Lemma getSubProb_clamps_witness :
  getSubProb growth_model (Fin 1) 0 1 = Some (Fin (clamp01 ((1 - exp 2) / 2))) ∧
  ∃ r, Fin (clamp01 ((1 - exp 2) / 2)) = Fin r ∧ 0 <= r <= 1.
Proof.
  destruct (getSubProb_clamps growth_model (Fin 1) 0 1) as (_ & _ & _ & H4 & H5).
  assert (getSubProb growth_model (Fin 1) 0 1 =
          Some (Fin (clamp01 ((1 - exp 2) / 2)))) as Hv.
  { apply H4; rewrite growth_spectral_sum; reflexivity. }
  split; [exact Hv|]. exact (H5 _ Hv).
Defined.

End EigenFacts.

Module SumProdFacts.
Import Numerics NumericsFacts SumProd.
Local Open Scope R_scope.

Lemma for_loop_opt_S {St} n (body : St → nat → option St) s :
  for_loop_opt (S n) body s = (s' ← for_loop_opt n body s; body s' n).
Proof. unfold for_loop_opt. rewrite seq_S, foldl_app. reflexivity. Qed.

Lemma for_loop_opt_None {St} n m (body : St → nat → option St) s :
  (n ≤ m)%nat → for_loop_opt n body s = None → for_loop_opt m body s = None.
Proof.
intros Hle Hn. induction Hle as [|m Hle IH]; [done|].
rewrite for_loop_opt_S, IH. reflexivity.
Qed.

Lemma for_each_opt_app {St A} (l1 l2 : list A) (body : St → A → option St) s :
  for_each_opt (l1 ++ l2) body s = (s' ← for_each_opt l1 body s; for_each_opt l2 body s').
Proof.
unfold for_each_opt. rewrite foldl_app.
destruct (foldl _ (Some s) l1) as [s'|]; simpl; [done|].
induction l2 as [|x l2 IH]; [done|]. simpl. exact IH.
Qed.

Lemma for_each_opt_cons {St A} x (l : list A) (body : St → A → option St) s :
  for_each_opt (x :: l) body s = (s' ← body s x; for_each_opt l body s').
Proof. apply (for_each_opt_app [x] l). Qed.

(** *** [initColumn] *)

(** While the loop of [initColumn] has not raised, the counts of ungapped
    children are not negative, and the count of [r] is positive as soon as an
    ungapped child of the ungapped [r] has been visited. *)
Lemma initColumn_kids sp r c n st :
  parentNode (tree sp) c = Z.of_nat r → isGap sp c = false → isGap sp r = false →
  for_loop_opt n (initColumn_step sp)
    {| rows := []; ungappedKids := λ _, 0%Z; roots := [] |} = Some st →
  (∀ x, (0 <= ungappedKids st x)%Z) ∧ ((c < n)%nat → (1 <= ungappedKids st r)%Z).
Proof.
intros Hp Hc Hr. revert st. induction n as [|n IH]; intros st.
- intros [= <-]. simpl. split; [intros; lia|lia].
- rewrite for_loop_opt_S.
  destruct (for_loop_opt n _ _) as [st0|]; simpl; [|done].
  destruct (IH st0 eq_refl) as [Hpos Hone].
  unfold initColumn_step.
  destruct (isGap sp n) eqn:Hgn.
  { intros [= <-]. split; [done|]. intros Hlt.
    destruct (decide (c = n)) as [->|]; [congruence|]. apply Hone. lia. }
  destruct (isWild sp n || bool_decide (ungappedKids st0 n = 0%Z)); [|done].
  destruct (bool_decide (parentNode (tree sp) n < 0)%Z
            || isGap sp (Z.to_nat (parentNode (tree sp) n))) eqn:Hroot.
  + intros [= <-]. simpl. split; [done|]. intros Hlt.
    destruct (decide (c = n)) as [->|]; [|apply Hone; lia].
    rewrite Hp, Nat2Z.id, Hr, orb_false_r in Hroot.
    apply bool_decide_eq_true in Hroot. lia.
  + intros [= <-]. simpl. split.
    * intros x. unfold vset.
      destruct (decide (x = Z.to_nat (parentNode (tree sp) n))); [|apply Hpos].
      specialize (Hpos (Z.to_nat (parentNode (tree sp) n))). lia.
    * intros Hlt. unfold vset.
      destruct (decide (c = n)) as [->|Hne].
      -- rewrite Hp, Nat2Z.id, decide_True by done. specialize (Hpos r). lia.
      -- destruct (decide (r = Z.to_nat (parentNode (tree sp) n))) as [Heq|];
           [|apply Hone; lia].
         rewrite <- Heq. assert (1 <= ungappedKids st0 r)%Z by (apply Hone; lia). lia.
Qed.

(** C5, amended. [initColumn] fails whenever a node whose row is ungapped in
    the current column holds a character other than the wildcard and has an
    ungapped child in that column. *)
Theorem initColumn_rejects_nonwild_parent (sp : AlignColSumProduct) (r c : nat) :
  (c < r < nodes (tree sp))%nat →
  parentNode (tree sp) c = Z.of_nat r →
  isGap sp c = false → isGap sp r = false → isWild sp r = false →
  initColumn sp = None.
Proof.
intros Hcr Hp Hc Hr Hw. unfold initColumn.
assert (for_loop_opt (S r) (initColumn_step sp)
          {| rows := []; ungappedKids := λ _, 0%Z; roots := [] |} = None) as Hnone.
{ rewrite for_loop_opt_S.
  destruct (for_loop_opt r _ _) as [st|] eqn:Hloop; simpl; [|done].
  destruct (initColumn_kids sp r c r st Hp Hc Hr Hloop) as [_ Hone].
  unfold initColumn_step. rewrite Hr, Hw. simpl.
  rewrite bool_decide_eq_false_2; [done|]. specialize (Hone ltac:(lia)). lia. }
rewrite (for_loop_opt_None (S r) (nodes (tree sp))) by (done || lia). reflexivity.
Qed.

Lemma initColumn_rejects_nonwild_parent_witness :
  initColumn (cherry_object token_root_column 1 (λ _ _ _, Fin 0)) = None.
Proof.
apply (initColumn_rejects_nonwild_parent _ 2 0).
- simpl. lia.
- reflexivity.
- reflexivity.
- reflexivity.
- reflexivity.
Defined.

(** C5 as stated fails: in a column in which only the root of the cherry has
    a character, the root is an internal node (it has two children), its
    character is a token and not the wildcard, and [initColumn] does not
    fail. *)
Lemma initColumn_accepts_nonwild_internal :
  let sp := cherry_object lone_root_column 1 (λ _ _ _, Fin 0) in
  isLeaf (tree sp) 2 = false ∧ isGap sp 2 = false ∧ isWild sp 2 = false ∧
  ungappedRows <$> initColumn sp = Some [2%nat].
Proof.
intros sp. split_and!; [reflexivity|reflexivity|reflexivity|].
vm_compute. reflexivity.
Qed.

(** *** [fillUp] *)

(** C4 fails on the code. On the cherry with the rows [two_columns] and any
    finite branch tables [l], the second column has leaf 0 gapped, and after
    [fillUp] on it [logF] of the wild root is the sum of [logE] over both
    children: the term of the gapped leaf 0 is what the first column left in
    [logE], [l 0 i 0], and the sum over the ungapped children alone would be
    [logE[1][i]]. *)
Theorem fillUp_adds_logE_of_gapped_child (l : nat → nat → nat → R) :
  let run := two_column_run (λ r i j, Fin (l r i j)) in
  col <$> run = Some 1%nat ∧
  ungappedRows <$> run = Some [1%nat; 2%nat] ∧
  (λ sp, isGap sp 0) <$> run = Some true ∧
  (λ sp, isWild sp 2) <$> run = Some true ∧
  (λ sp, nChildren (tree sp) 2) <$> run = Some 2%nat ∧
  ∀ i, (i < 2)%nat →
    (λ sp, logE sp 1 i) <$> run = Some (Fin (l 1%nat i 1%nat)) ∧
    (λ sp, logE sp 0 i) <$> run = Some (Fin (l 0%nat i 0%nat)) ∧
    (λ sp, logF sp 2 i) <$> run = Some (Fin (l 0%nat i 0%nat + l 1%nat i 1%nat)).
Proof.
intros run. subst run.
split_and!; try (vm_compute; reflexivity).
intros i Hi. destruct i as [|[|i]]; [| |lia];
  split_and!; vm_compute; do 2 f_equal; lra.
Qed.

(** *** [accumulateRootCounts] *)

Lemma log_accum_exp_Fin a b :
  log_accum_exp (Fin a) (Fin b) = Fin (ln (exp a + exp b)).
Proof.
unfold log_accum_exp, dmax. simpl.
pose proof (exp_pos (- Rabs (a + - b))) as He.
destruct (Rlt_dec 0 (1 + exp (- Rabs (a + - b)))) as [_|]; [|lra].
assert (∀ hi lo, lo <= hi →
          hi + ln (1 + exp (- (hi - lo))) = ln (exp lo + exp hi)) as Hmax.
{ intros hi lo Hle.
  rewrite <- (ln_exp hi) at 1.
  rewrite <- ln_mult by (first [apply exp_pos | pose proof (exp_pos (- (hi - lo))); lra]).
  f_equal. rewrite Rmult_plus_distr_l, <- exp_plus.
  replace (hi + - (hi - lo)) with lo by ring. ring. }
destruct (Rlt_dec a b) as [Hlt|Hge]; simpl; f_equal.
- rewrite Rabs_left by lra. replace (- - (a + - b)) with (- (b - a)) by ring.
  by rewrite Hmax by lra.
- rewrite Rabs_right by lra. replace (- (a + - b)) with (- (a - b)) by ring.
  rewrite Hmax by lra. f_equal. ring.
Qed.

Lemma expo_nonneg x : 0 <= expo x.
Proof. destruct x; simpl; try lra. left. apply exp_pos. Qed.

Lemma Rsum_nonneg n f : (∀ i, (i < n)%nat → 0 <= f i) → 0 <= Rsum n f.
Proof.
induction n as [|n IH]; intros H; simpl; [lra|].
specialize (IH (λ i Hi, H i ltac:(lia))). specialize (H n ltac:(lia)). lra.
Qed.

Lemma Rsum_ext n f g : (∀ i, (i < n)%nat → f i = g i) → Rsum n f = Rsum n g.
Proof.
induction n as [|n IH]; intros H; simpl; [done|].
rewrite IH, H by (intros; try apply H; lia). done.
Qed.

Lemma Rsum_scale n f c : Rsum n (λ i, f i * c) = Rsum n f * c.
Proof. induction n as [|n IH]; simpl; [ring|]. rewrite IH. ring. Qed.

(** The log-sum-exp loop over log-probabilities gives the logarithm of the
    sum of the probabilities, or minus infinity when that sum is 0. *)
Lemma log_sum_exp_loop n (x : nat → double) :
  (∀ i, (i < n)%nat → is_logp (x i)) →
  let s := Rsum n (λ i, expo (x i)) in
  let v := for_loop n (λ acc i, log_accum_exp acc (x i)) NInf in
  (s = 0 ∧ v = NInf) ∨ (0 < s ∧ v = Fin (ln s)).
Proof.
induction n as [|n IH]; intros Hx; simpl.
- left. by rewrite for_loop_0.
- rewrite for_loop_S.
  specialize (IH (λ i Hi, Hx i ltac:(lia))). simpl in IH.
  destruct (Hx n ltac:(lia)) as [Hn|[a Hn]]; rewrite Hn; simpl.
  + rewrite Rplus_0_r. destruct IH as [[Hs ->]|[Hs ->]]; [by left|by right].
  + pose proof (exp_pos a). destruct IH as [[Hs ->]|[Hs ->]].
    * right. rewrite Hs, Rplus_0_l, ln_exp. split; [lra|done].
    * right. rewrite log_accum_exp_Fin, exp_ln by done. split; [lra|done].
Qed.

Lemma fillUp_step_fields sp r sp' :
  fillUp_step sp r = Some sp' →
  ungappedRows sp' = ungappedRows sp ∧ model sp' = model sp ∧
  logInsProb sp' = logInsProb sp ∧
  (root sp = Some r →
   colLogLike sp' = logInnerProduct (alphabetSize sp') (logF sp' r) (logInsProb sp')).
Proof.
unfold fillUp_step. intros H.
destruct (if isWild sp r then _ else _) as [logF'|]; simpl in H; [|done].
destruct (bool_decide (root sp = Some r)) eqn:Hroot; injection H as <-; simpl.
- done.
- split_and!; try done. intros Hr. by rewrite bool_decide_eq_true_2 in Hroot.
Qed.

Lemma fillUp_steps_fields rows sp sp' :
  for_each_opt rows fillUp_step sp = Some sp' →
  ungappedRows sp' = ungappedRows sp ∧ model sp' = model sp ∧
  logInsProb sp' = logInsProb sp.
Proof.
revert sp. induction rows as [|r rows IH]; intros sp.
- intros [= <-]. done.
- rewrite for_each_opt_cons.
  destruct (fillUp_step sp r) as [sp1|] eqn:Hstep; simpl; [|done].
  intros Hrest. destruct (IH _ Hrest) as (-> & -> & ->).
  destruct (fillUp_step_fields _ _ _ Hstep) as (-> & -> & -> & _). done.
Qed.

(** After [fillUp] on a column that is not empty, [colLogLike] is the
    log-inner-product of [logF] at the root with [logInsProb]. *)
Lemma fillUp_colLogLike sp sp' :
  ungappedRows sp ≠ [] → fillUp sp = Some sp' →
  ∃ r, root sp' = Some r ∧ ungappedRows sp' = ungappedRows sp ∧
       colLogLike sp' = logInnerProduct (alphabetSize sp') (logF sp' r) (logInsProb sp').
Proof.
intros Hne. unfold fillUp.
destruct (ungappedRows sp) as [|x rows'] eqn:Hrows using rev_ind; [done|]. clear IHrows'.
rewrite for_each_opt_app.
destruct (for_each_opt rows' fillUp_step _) as [sp1|] eqn:H1; simpl; [|done].
rewrite for_each_opt_cons.
destruct (fillUp_step sp1 x) as [sp2|] eqn:H2; simpl; [|done].
intros [= <-].
destruct (fillUp_steps_fields _ _ _ H1) as (Hr1 & _ & _). simpl in Hr1.
destruct (fillUp_step_fields _ _ _ H2) as (Hr2 & _ & _ & Hcll).
assert (root sp1 = Some x) as Hroot.
{ unfold root. rewrite Hr1, Hrows. apply last_snoc. }
exists x. split_and!.
- unfold root. rewrite Hr2, Hr1, Hrows. apply last_snoc.
- by rewrite Hr2, Hr1.
- by apply Hcll.
Qed.

Lemma accumulate_loop_above n (rc inc : nat → double) i :
  (n ≤ i)%nat →
  for_loop n (λ rc i, vset rc i (dadd (rc i) (inc i))) rc i = rc i.
Proof.
induction n as [|n IH]; intros Hi; [done|].
rewrite for_loop_S. unfold vset at 1. rewrite decide_False by lia. apply IH. lia.
Qed.

Lemma accumulate_loop n (rc inc : nat → double) i :
  for_loop n (λ rc i, vset rc i (dadd (rc i) (inc i))) rc i =
  if decide (i < n)%nat then dadd (rc i) (inc i) else rc i.
Proof.
induction n as [|n IH].
- rewrite for_loop_0. by rewrite decide_False by lia.
- rewrite for_loop_S. unfold vset at 1.
  destruct (decide (i = n)) as [->|Hne].
  + rewrite decide_True by lia. by rewrite accumulate_loop_above.
  + rewrite IH. repeat case_decide; try done; lia.
Qed.

(** C9 as stated fails: on a column whose only character is a token of
    insertion probability 0, the ungapped row set is not empty, [fillUp]
    leaves [colLogLike] at minus infinity, and what [accumulateRootCounts]
    adds to each entry is NaN. *)
Lemma rootCounts_zero_likelihood_NaN :
  let run := initColumn zero_likelihood_object ≫= fillUp in
  ungappedRows <$> run = Some [0%nat] ∧
  colLogLike <$> run = Some NInf ∧
  (λ sp, (rootIncrement sp 0 0, rootIncrement sp 0 1)) <$> run = Some (NaN, NaN) ∧
  (run ≫= λ sp, accumulateRootCounts sp (λ _, Fin 0)) ≫= (λ rc, Some (rc 0%nat, rc 1%nat))
    = Some (NaN, NaN).
Proof.
intros run. subst run. split_and!; vm_compute; reflexivity.
Qed.

(** C9, amended. On a column with an ungapped row on which [fillUp] has run,
    [colLogLike] is the log-sum-exp over [i] of [logF[root][i] + logInsProb[i]].
    When these terms are log-probabilities and [colLogLike] is finite (the
    column has a likelihood that is not 0), one call of [accumulateRootCounts]
    adds to the entries below [alphabetSize] the amounts
    [exp (logInsProb[i] + logF[root][i] - colLogLike)]: reals that are not
    negative and whose sum is exactly 1. *)
Theorem rootCounts_normalised (sp0 sp : AlignColSumProduct) (rc : nat → double) :
  ungappedRows sp0 ≠ [] → fillUp sp0 = Some sp →
  ∃ r, root sp = Some r ∧
    colLogLike sp = logInnerProduct (alphabetSize sp) (logF sp r) (logInsProb sp) ∧
    ((∀ i, (i < alphabetSize sp)%nat → is_logp (dadd (logF sp r i) (logInsProb sp i))) →
     is_finite (colLogLike sp) = true →
     ∃ (inc : nat → R) (rc' : nat → double),
       accumulateRootCounts sp rc = Some rc' ∧
       (∀ i, (i < alphabetSize sp)%nat →
             rootIncrement sp r i = Fin (inc i) ∧ 0 <= inc i ∧
             rc' i = dadd (rc i) (Fin (inc i))) ∧
       (∀ i, (alphabetSize sp ≤ i)%nat → rc' i = rc i) ∧
       Rsum (alphabetSize sp) inc = 1).
Proof.
intros Hne Hfill.
destruct (fillUp_colLogLike sp0 sp Hne Hfill) as (r & Hroot & _ & Hcll).
exists r. split_and!; [done|done|]. intros Hlogp Hfin.
set (A := alphabetSize sp) in *.
set (x := λ i, dadd (logF sp r i) (logInsProb sp i)) in *.
assert (colLogLike sp = for_loop A (λ acc i, log_accum_exp acc (x i)) NInf) as Hcll'
  by exact Hcll.
clear Hcll. rename Hcll' into Hcll.
destruct (log_sum_exp_loop A x Hlogp) as [[Hs Hv]|[Hs Hv]];
  cbv zeta in Hv; rewrite Hv in Hcll.
{ rewrite Hcll in Hfin. discriminate. }
set (s := Rsum A (λ i, expo (x i))) in *.
assert (∀ i, (i < A)%nat → rootIncrement sp r i = Fin (expo (x i) * / s)) as Hinc.
{ intros i Hi. unfold rootIncrement. rewrite Hcll.
  assert (dadd (logInsProb sp i) (logF sp r i) = x i) as ->.
  { unfold x. destruct (logInsProb sp i), (logF sp r i); simpl; try done. f_equal. ring. }
  pose proof (Hlogp i Hi) as Hl. change (is_logp (x i)) in Hl.
  destruct Hl as [Hx|[a Hx]]; rewrite Hx; simpl.
  - f_equal. ring.
  - f_equal. rewrite exp_plus, exp_Ropp, exp_ln by done. reflexivity. }
exists (λ i, expo (x i) * / s).
eexists. split_and!.
- unfold accumulateRootCounts. rewrite Hroot. simpl. reflexivity.
- intros i Hi. split_and!.
  + by apply Hinc.
  + apply Rmult_le_pos; [apply expo_nonneg|]. left. by apply Rinv_0_lt_compat.
  + fold A. rewrite accumulate_loop, decide_True by done. by rewrite Hinc.
- intros i Hi. fold A. rewrite accumulate_loop, decide_False by lia. done.
- rewrite Rsum_scale. fold s. field. lra.
Qed.

Lemma rootCounts_normalised_witness :
  ∃ sp r (inc : nat → R) (rc' : nat → double),
    (initColumn lone_leaf_object ≫= fillUp) = Some sp ∧ root sp = Some r ∧
    accumulateRootCounts sp (λ _, Fin 0) = Some rc' ∧
    (∀ i, (i < alphabetSize sp)%nat →
          rootIncrement sp r i = Fin (inc i) ∧ 0 <= inc i ∧
          rc' i = dadd (Fin 0) (Fin (inc i))) ∧
    Rsum (alphabetSize sp) inc = 1.
Proof.
assert ((λ sp, (ungappedRows sp, alphabetSize sp)) <$> initColumn lone_leaf_object
        = Some ([0%nat], 2%nat)) as F0 by (vm_compute; reflexivity).
assert ((λ sp, (ungappedRows sp, alphabetSize sp, colLogLike sp,
                (logF sp 0 0, logF sp 0 1), (logInsProb sp 0, logInsProb sp 1)))
          <$> (initColumn lone_leaf_object ≫= fillUp)
        = Some ([0%nat], 2%nat, Fin (0 + ln (1 / 2)), (Fin 0, NInf),
                (Fin (ln (1 / 2)), Fin (ln (1 / 2))))) as F1
  by (vm_compute; reflexivity).
destruct (initColumn lone_leaf_object) as [sp0|]; [|discriminate].
injection F0 as Hrows0 HA0. simpl in F1.
destruct (fillUp sp0) as [sp|] eqn:Hfill; [|discriminate].
injection F1 as Hrows HA Hcll HF0 HF1 HP0 HP1.
destruct (rootCounts_normalised sp0 sp (λ _, Fin 0)) as (r & Hroot & _ & H).
- rewrite Hrows0. discriminate.
- exact Hfill.
- assert (r = 0%nat) as ->.
  { unfold root in Hroot. rewrite Hrows in Hroot. simpl in Hroot. congruence. }
  destruct H as (inc & rc' & Hacc & Hinc & _ & Hsum).
  + rewrite HA. intros i Hi. destruct i as [|[|i]]; [| |lia].
    * right. rewrite HF0, HP0. eexists. reflexivity.
    * left. rewrite HF1, HP1. reflexivity.
  + rewrite Hcll. reflexivity.
  + exists sp, 0%nat, inc, rc'. done.
Defined.

End SumProdFacts.

(** ** The two count paths *)

Module CountsFacts.
Import Numerics NumericsFacts SumProd SumProdFacts EigenFacts.
Local Open Scope R_scope.
Local Unset Default Proof Using.

(** *** Sums over lists *)

(** Complex arithmetic over the reals is proved by components. *)
Ltac cx := repeat match goal with z : C |- _ => destruct z end;
           unfold Cadd, Cmul, Cscale, Csub, C0 in *; simpl in *.

Lemma Cadd_0_l z : Cadd C0 z = z.
Proof. cx. f_equal; ring. Qed.
Lemma Cadd_0_r z : Cadd z C0 = z.
Proof. cx. f_equal; ring. Qed.
Lemma Cadd_comm a b : Cadd a b = Cadd b a.
Proof. cx. f_equal; ring. Qed.
Lemma Cadd_assoc a b c : Cadd a (Cadd b c) = Cadd (Cadd a b) c.
Proof. cx. f_equal; ring. Qed.
Lemma Cmul_0_l z : Cmul C0 z = C0.
Proof. cx. f_equal; ring. Qed.
Lemma Cmul_0_r z : Cmul z C0 = C0.
Proof. cx. f_equal; ring. Qed.
Lemma Cmul_add_l c a b : Cmul c (Cadd a b) = Cadd (Cmul c a) (Cmul c b).
Proof. cx. f_equal; ring. Qed.
Lemma Cmul_add_r c a b : Cmul (Cadd a b) c = Cadd (Cmul a c) (Cmul b c).
Proof. cx. f_equal; ring. Qed.
Lemma Cscale_0_r x : Cscale x C0 = C0.
Proof. cx. f_equal; ring. Qed.
Lemma Cscale_add x a b : Cscale x (Cadd a b) = Cadd (Cscale x a) (Cscale x b).
Proof. cx. f_equal; ring. Qed.

Section Sums.
Context {X : Type}.
Implicit Types (l : list X) (f g : X → C).

Lemma CsumL_snoc l x f : CsumL (l ++ [x]) f = Cadd (CsumL l f) (f x).
Proof.
induction l as [|y l IH]; simpl.
- by rewrite Cadd_0_l, Cadd_0_r.
- rewrite IH. apply Cadd_assoc.
Qed.

Lemma CsumL_ext l f g : (∀ x, x ∈ l → f x = g x) → CsumL l f = CsumL l g.
Proof.
induction l as [|y l IH]; intros H; simpl; [done|].
rewrite H by left. rewrite IH; [done|]. intros x Hx. apply H. by right.
Qed.

Lemma CsumL_zero l : CsumL l (λ _, C0) = C0.
Proof. induction l as [|y l IH]; simpl; [done|]. by rewrite IH, Cadd_0_l. Qed.

Lemma CsumL_add l f g :
  CsumL l (λ x, Cadd (f x) (g x)) = Cadd (CsumL l f) (CsumL l g).
Proof.
induction l as [|y l IH]; simpl; [by rewrite Cadd_0_l|].
rewrite IH. generalize (CsumL l f) (CsumL l g) (f y) (g y). intros. cx. f_equal; ring.
Qed.

Lemma CsumL_mul_l l c f : Cmul c (CsumL l f) = CsumL l (λ x, Cmul c (f x)).
Proof.
induction l as [|y l IH]; simpl; [apply Cmul_0_r|]. by rewrite Cmul_add_l, IH.
Qed.

Lemma CsumL_mul_r l c f : Cmul (CsumL l f) c = CsumL l (λ x, Cmul (f x) c).
Proof.
induction l as [|y l IH]; simpl; [apply Cmul_0_l|]. by rewrite Cmul_add_r, IH.
Qed.

Lemma CsumL_scale l r f : Cscale r (CsumL l f) = CsumL l (λ x, Cscale r (f x)).
Proof.
induction l as [|y l IH]; simpl; [apply Cscale_0_r|]. by rewrite Cscale_add, IH.
Qed.

Lemma Cre_CsumL l f : (CsumL l f).1 = RsumL l (λ x, (f x).1).
Proof. induction l as [|y l IH]; simpl; [done|]. by rewrite IH. Qed.

Lemma RsumL_ext l (f g : X → R) : (∀ x, x ∈ l → f x = g x) → RsumL l f = RsumL l g.
Proof.
induction l as [|y l IH]; intros H; simpl; [done|].
rewrite H by left. rewrite IH; [done|]. intros x Hx. apply H. by right.
Qed.

Lemma RsumL_snoc l x (f : X → R) : RsumL (l ++ [x]) f = RsumL l f + f x.
Proof. induction l as [|y l IH]; simpl; [lra|]. rewrite IH. lra. Qed.

Lemma RsumL_scale l c (f : X → R) : RsumL l (λ x, c * f x) = c * RsumL l f.
Proof. induction l as [|y l IH]; simpl; [lra|]. rewrite IH. lra. Qed.

End Sums.

Lemma CsumL_swap {X Y} (l1 : list X) (l2 : list Y) (f : X → Y → C) :
  CsumL l1 (λ x, CsumL l2 (λ y, f x y)) = CsumL l2 (λ y, CsumL l1 (λ x, f x y)).
Proof.
induction l1 as [|x l1 IH]; simpl.
- by rewrite CsumL_zero.
- rewrite IH. by rewrite <- CsumL_add.
Qed.

Lemma Csum_CsumL n f : Csum n f = CsumL (seq 0 n) f.
Proof.
induction n as [|n IH]; [done|]. rewrite seq_S, CsumL_snoc. simpl. by rewrite IH.
Qed.

Lemma Rsum_RsumL n f : Rsum n f = RsumL (seq 0 n) f.
Proof.
induction n as [|n IH]; [done|]. rewrite seq_S, RsumL_snoc. simpl. by rewrite IH.
Qed.

(** descend [d] summations, then swap the next two *)
(** *** The five-fold sum behind both paths *)

Ltac swap_at d :=
  match d with
  | O => apply CsumL_swap
  | S ?d' => apply CsumL_ext; intros ? _; swap_at d'
  end.

Section Algebra.
Context {N : Type}.
Variables (nodes : list N) (idx : list nat).
Variables (V Vi : nat → nat → C) (M : N → nat → nat → C).
Variables (d u : N → nat → R) (s : N → R).
Variables (i j : nat).

(** The back-transform of the accumulated eigen-counts, and the weighted
    endpoint sums of the direct path, are the same sum over nodes, endpoints
    and eigenvalue indices, taken in two orders. *)
Lemma back_transform_expand :
  CsumL idx (λ k, Cmul (Vi k i) (CsumL idx (λ l, Cmul (eigen_total nodes idx V Vi M d u s k l) (V j l)))) =
  CsumL idx (λ k, CsumL idx (λ l, CsumL nodes (λ n,
    CsumL idx (λ a, CsumL idx (λ b, path_summand V Vi M d u s i j n a b k l))))).
Proof.
apply CsumL_ext; intros k _. rewrite CsumL_mul_l.
apply CsumL_ext; intros l _. unfold eigen_total.
rewrite CsumL_mul_r, CsumL_mul_l.
apply CsumL_ext; intros n _. unfold down_basis, up_basis.
rewrite CsumL_mul_r, CsumL_scale, CsumL_mul_r, CsumL_mul_l.
apply CsumL_ext; intros a _.
rewrite !CsumL_mul_l, CsumL_scale, CsumL_mul_r, CsumL_mul_l.
apply CsumL_ext; intros b _. unfold path_summand.
generalize (Vi k i) (V j l) (V a k) (Vi l b) (M n k l) (s n) (d n a) (u n b).
intros. cx. f_equal; ring.
Qed.

Lemma direct_expand :
  CsumL nodes (λ n, CsumL idx (λ a, CsumL idx (λ b,
    Cscale (s n * d n a * u n b) (endpoint_sumL idx V Vi M i j n a b)))) =
  CsumL nodes (λ n, CsumL idx (λ a, CsumL idx (λ b,
    CsumL idx (λ k, CsumL idx (λ l, path_summand V Vi M d u s i j n a b k l))))).
Proof.
apply CsumL_ext; intros n _. apply CsumL_ext; intros a _.
apply CsumL_ext; intros b _. unfold endpoint_sumL. rewrite CsumL_scale.
apply CsumL_ext; intros k _. rewrite CsumL_mul_l, CsumL_scale.
apply CsumL_ext; intros l _. reflexivity.
Qed.

Lemma eigen_algebra :
  CsumL idx (λ k, Cmul (Vi k i) (CsumL idx (λ l, Cmul (eigen_total nodes idx V Vi M d u s k l) (V j l)))) =
  CsumL nodes (λ n, CsumL idx (λ a, CsumL idx (λ b,
    Cscale (s n * d n a * u n b) (endpoint_sumL idx V Vi M i j n a b)))).
Proof.
rewrite back_transform_expand, direct_expand.
(* k l n a b -> k n l a b *)
etrans; [swap_at 1%nat|].
(* -> n k l a b *)
etrans; [swap_at 0%nat|].
(* -> n k a l b *)
etrans; [swap_at 2%nat|].
(* -> n a k l b *)
etrans; [swap_at 1%nat|].
(* -> n a k b l *)
etrans; [swap_at 3%nat|].
(* -> n a b k l *)
swap_at 2%nat.
Qed.

End Algebra.

(** *** Loops with an invariant *)

Lemma for_loop_opt_inv {St} n (body : St → nat → option St) (Inv : nat → St → Prop) s :
  Inv 0%nat s →
  (∀ k s, (k < n)%nat → Inv k s → ∃ s', body s k = Some s' ∧ Inv (S k) s') →
  ∃ s', for_loop_opt n body s = Some s' ∧ Inv n s'.
Proof.
intros H0 Hstep. induction n as [|n IH].
- exists s. done.
- destruct IH as (s1 & Hs1 & Hi1); [intros; apply Hstep; [lia|done]|].
  destruct (Hstep n s1) as (s2 & Hs2 & Hi2); [lia|done|].
  exists s2. rewrite for_loop_opt_S, Hs1. done.
Qed.

Lemma for_each_opt_inv {St X} (l : list X) (body : St → X → option St)
    (Inv : list X → St → Prop) s :
  Inv [] s →
  (∀ pre x s, x ∈ l → Inv pre s → ∃ s', body s x = Some s' ∧ Inv (pre ++ [x]) s') →
  ∃ s', for_each_opt l body s = Some s' ∧ Inv l s'.
Proof.
intros H0. induction l as [|x l IH] using rev_ind; intros Hstep.
- exists s. done.
- destruct IH as (s1 & Hs1 & Hi1).
  { intros pre y s1 Hy. apply Hstep. set_solver. }
  destruct (Hstep l x s1) as (s2 & Hs2 & Hi2); [set_solver|done|].
  exists s2. rewrite for_each_opt_app, Hs1. simpl.
  rewrite for_each_opt_cons, Hs2. done.
Qed.

Lemma for_each_opt_skip {St X} (skip : X → Prop) `{∀ x, Decision (skip x)}
    (l : list X) (body : St → X → option St) s :
  for_each_opt l (λ s x, if bool_decide (skip x) then Some s else body s x) s =
  for_each_opt (filter (λ x, ¬ skip x) l) body s.
Proof.
revert s. induction l as [|x l IH]; intros s; [done|].
rewrite for_each_opt_cons. destruct (decide (skip x)) as [Hx|Hx].
- rewrite bool_decide_eq_true_2 by done. simpl.
  rewrite filter_cons_False by (intros Hn; by apply Hn). apply IH.
- rewrite bool_decide_eq_false_2 by done.
  rewrite filter_cons_True by done. rewrite for_each_opt_cons.
  destruct (body s x); simpl; [apply IH|done].
Qed.

(** A pair of loops that replaces every entry by a function of the entry. *)
Lemma update_row {T} n (op : T → nat → T) m i k l :
  for_loop n (λ m j, mset m i j (op (m i j) j)) m k l =
  if decide (k = i ∧ l < n)%nat then op (m k l) l else m k l.
Proof.
induction n as [|n IH].
- rewrite for_loop_0. case_decide; [lia|done].
- rewrite for_loop_S. unfold mset at 1.
  destruct (decide (k = i ∧ l = n)) as [[-> ->]|Hne].
  + rewrite IH. rewrite decide_False by lia. rewrite decide_True by lia. done.
  + rewrite IH. repeat case_decide; destruct_and?; subst; try done; lia.
Qed.

Lemma update_matrix {T} n1 n2 (op : T → nat → nat → T) m k l :
  for_loop n1 (λ m i, for_loop n2 (λ m j, mset m i j (op (m i j) i j)) m) m k l =
  if decide (k < n1 ∧ l < n2)%nat then op (m k l) k l else m k l.
Proof.
induction n1 as [|n1 IH].
- rewrite for_loop_0. case_decide; [lia|done].
- rewrite for_loop_S.
  rewrite (update_row n2 (λ x j, op x n1 j)). rewrite IH.
  repeat case_decide; destruct_and?; subst; try done; lia.
Qed.

Lemma update_row_opt {T U} n (g : nat → option U) (op : T → U → T) (c : nat → U) m i :
  (∀ j, (j < n)%nat → g j = Some (c j)) →
  ∃ m', for_loop_opt n (λ m j, x ← g j; Some (mset m i j (op (m i j) x))) m = Some m' ∧
        ∀ k l, m' k l = if decide (k = i ∧ l < n)%nat then op (m k l) (c l) else m k l.
Proof.
intros Hg.
apply (for_loop_opt_inv n _
  (λ n' m', ∀ k l, m' k l = if decide (k = i ∧ l < n')%nat then op (m k l) (c l) else m k l)).
- intros k l. case_decide; [lia|done].
- intros j m' Hj Hm'. rewrite Hg by done. simpl. eexists; split; [done|].
  intros k l. unfold mset. rewrite !Hm'.
  repeat case_decide; destruct_and?; subst; try done; lia.
Qed.

Lemma update_matrix_opt {T U} n1 n2 (g : nat → nat → option U) (op : T → U → T)
    (c : nat → nat → U) m :
  (∀ i j, (i < n1)%nat → (j < n2)%nat → g i j = Some (c i j)) →
  ∃ m', for_loop_opt n1
          (λ m i, for_loop_opt n2
                    (λ m j, x ← g i j; Some (mset m i j (op (m i j) x))) m) m = Some m' ∧
        ∀ k l, m' k l = if decide (k < n1 ∧ l < n2)%nat then op (m k l) (c k l) else m k l.
Proof.
intros Hg.
apply (for_loop_opt_inv n1 _
  (λ n' m', ∀ k l, m' k l = if decide (k < n' ∧ l < n2)%nat then op (m k l) (c k l) else m k l)).
- intros k l. case_decide; [lia|done].
- intros i m' Hi Hm'.
  destruct (update_row_opt n2 (g i) op (c i) m' i) as (m'' & Hrun & Hm'').
  { intros j Hj. by apply Hg. }
  exists m''. split; [done|]. intros k l. rewrite Hm'', !Hm'.
  repeat case_decide; destruct_and?; subst; try done; lia.
Qed.

(** Every entry a filling pair of loops stored is what the body returned. *)
Lemma fill_row_opt {T} n (g : nat → option T) m i m' :
  for_loop_opt n (λ m j, p ← g j; Some (mset m i j p)) m = Some m' →
  (∀ l, (l < n)%nat → g l = Some (m' i l)) ∧
  (∀ k l, ¬ (k = i ∧ l < n)%nat → m' k l = m k l).
Proof.
revert m'. induction n as [|n IH]; intros m'.
- intros [= <-]. split; [intros; lia|done].
- rewrite for_loop_opt_S. destruct (for_loop_opt n _ m) as [m1|] eqn:E1; [|done].
  simpl. destruct (g n) as [p|] eqn:Eg; [|done]. simpl. intros [= <-].
  destruct (IH m1 eq_refl) as [IH1 IH2]. split.
  + intros l Hl. unfold mset. destruct (decide (l = n)) as [->|Hne].
    * rewrite decide_True by done. done.
    * rewrite decide_False by lia. apply IH1. lia.
  + intros k l Hkl. unfold mset. rewrite decide_False by lia. apply IH2. lia.
Qed.

Lemma fill_matrix_opt {T} n1 n2 (g : nat → nat → option T) m m' :
  for_loop_opt n1 (λ m i, for_loop_opt n2 (λ m j, p ← g i j; Some (mset m i j p)) m) m
    = Some m' →
  ∀ k l, (k < n1)%nat → (l < n2)%nat → g k l = Some (m' k l).
Proof.
revert m'. induction n1 as [|n1 IH]; intros m'; [intros; lia|].
rewrite for_loop_opt_S. destruct (for_loop_opt n1 _ m) as [m1|] eqn:E1; [|done].
simpl. intros Hrow. destruct (fill_row_opt _ _ _ _ _ Hrow) as [H1 H2].
intros k l Hk Hl. destruct (decide (k = n1)) as [->|Hne].
- by apply H1.
- rewrite H2 by lia. apply (IH m1 eq_refl); [lia|done].
Qed.

(** The matrix of [getSubProbMatrix] holds probabilities. *)
Lemma getSubProbMatrix_range em t sub i j :
  Eigen.getSubProbMatrix em t = Some sub →
  (i < Eigen.alphabetSize (Eigen.model em))%nat →
  (j < Eigen.alphabetSize (Eigen.model em))%nat →
  ∃ r, sub i j = Fin r ∧ 0 <= r <= 1.
Proof.
unfold Eigen.getSubProbMatrix. intros Hrun Hi Hj.
pose proof (fill_matrix_opt _ _ _ _ _ Hrun i j Hi Hj) as Hg.
unfold Eigen.getSubProbInner in Hg.
destruct (SUMPROD_NEAR_REAL _); [|done]. injection Hg as Hg. rewrite <- Hg.
apply clamp_range.
Qed.

(** *** Weights, maxima and bases *)

(** The weight [exp (logBranchPostProb)] of an endpoint pair. *)
Lemma weight_Fin g e f p c :
  is_logp g → is_logp e → is_logp f → 0 <= p →
  dexp (dsub (dadd (dadd (dadd g (dlog (Fin p))) f) e) (Fin c)) =
  Fin (expo g * p * expo f * expo e / exp c).
Proof.
intros Hg He Hf Hp. pose proof (exp_pos c) as Hc.
assert (dlog (Fin p) = NInf ∧ p = 0 ∨ dlog (Fin p) = Fin (ln p) ∧ 0 < p) as Hl.
{ simpl. destruct (Rlt_dec 0 p); [by right|].
  destruct (Rlt_dec p 0); [lra|]. left. split; [done|lra]. }
destruct Hg as [->|[g' ->]], He as [->|[e' ->]], Hf as [->|[f' ->]],
  Hl as [[-> Hp0]|[-> Hp0]]; simpl; f_equal;
  try (unfold Rdiv; ring).
- rewrite Hp0. unfold Rdiv. ring.
- rewrite !exp_plus, exp_Ropp, exp_ln by done. unfold Rdiv. ring.
Qed.

Lemma expo_dadd x y : is_logp x → is_logp y → expo (dadd x y) = expo x * expo y.
Proof.
intros [->|[a ->]] [->|[b ->]]; simpl; try ring. apply exp_plus.
Qed.

Lemma is_logp_dadd x y : is_logp x → is_logp y → is_logp (dadd x y).
Proof.
intros [->|[a ->]] [->|[b ->]]; simpl; [by left|by left|by left|right; eauto].
Qed.

(** The largest of log-probabilities of which one is finite is finite. *)
Lemma max_fold_finite (v : nat → double) l acc :
  is_logp acc → (∀ i, i ∈ l → is_logp (v i)) →
  let r := foldl (λ largest i, if dlt largest (v i) then v i else largest) acc l in
  is_logp r ∧
  (is_finite acc = true ∨ (∃ i, i ∈ l ∧ is_finite (v i) = true) → is_finite r = true).
Proof.
revert acc. induction l as [|x l IH]; intros acc Hacc Hl; simpl.
- split; [done|]. intros [H|(i & Hi & _)]; [done|]. by apply elem_of_nil in Hi.
- assert (is_logp (v x)) as Hx by (apply Hl; left).
  set (acc' := if dlt acc (v x) then v x else acc).
  assert (is_logp acc') as Hacc' by (unfold acc'; by destruct (dlt acc (v x))).
  destruct (IH acc' Hacc') as [IH1 IH2]; [intros; apply Hl; by right|].
  split; [exact IH1|]. intros Hfin. apply IH2.
  destruct Hfin as [Hfin|(i & Hi & Hfin)].
  + left. unfold acc'. destruct acc as [a| | |]; try done.
    destruct Hx as [->|[b ->]]; simpl; [done|]. by destruct (Rlt_dec a b).
  + apply elem_of_cons in Hi as [->|Hi]; [|right; eauto].
    left. unfold acc'. destruct (v x) as [b| | |]; try done.
    destruct Hacc as [->|[a ->]]; simpl; [done|]. by destruct (Rlt_dec a b).
Qed.

Lemma max_element_finite n (v : nat → double) :
  (∀ i, (i < n)%nat → is_logp (v i)) →
  (∃ i, (i < n)%nat ∧ is_finite (v i) = true) →
  max_element n v = Fin (fin_part (max_element n v)).
Proof.
intros Hv (i & Hi & Hfin). unfold max_element.
destruct (max_fold_finite v (seq 1 (n - 1)) (v 0%nat)) as [_ H].
- apply Hv. lia.
- intros k Hk. apply Hv. apply elem_of_seq in Hk. lia.
- cbv zeta in H. destruct (foldl _ _ _) as [a| | |]; try done;
    (exfalso; assert (false = true) as [=]; apply H;
     destruct (decide (i = 0%nat)) as [->|Hne];
       [by left|right; exists i; split; [apply elem_of_seq; lia|done]]).
Qed.

Lemma scaled_Fin n (v : nat → double) b :
  (∀ i, (i < n)%nat → is_logp (v i)) →
  (∃ i, (i < n)%nat ∧ is_finite (v i) = true) →
  (b < n)%nat →
  scaled n v (max_element n v) b = Fin (expo (v b) * exp (- fin_part (max_element n v))).
Proof.
intros Hv Hfin Hb. unfold scaled. rewrite fill_vector, decide_True by done.
rewrite (max_element_finite n v) by done. simpl.
destruct (Hv b Hb) as [->|[a ->]]; simpl; f_equal; [ring|].
by rewrite exp_plus.
Qed.

Lemma basis_cfin n (W : nat → nat → gsl_complex) (v : nat → double)
    (Wr : nat → nat → C) (vr : nat → R) l :
  (∀ b, (b < n)%nat → W l b = cfin (Wr l b)) →
  (∀ b, (b < n)%nat → v b = Fin (vr b)) →
  (l < n)%nat →
  basis_of n W v l = cfin (CsumL (seq 0 n) (λ b, Cscale (vr b) (Wr l b))).
Proof.
intros HW Hv Hl. unfold basis_of. rewrite fill_vector, decide_True by done.
rewrite <- Csum_CsumL.
apply (csum_cfin n (λ b, gsl_complex_mul_real (W l b) (v b))).
intros b Hb. by rewrite HW, Hv, mul_real_cfin.
Qed.

(** *** The two paths as sums *)

Section Paths.
Variables (sp : AlignColSumProduct) (V Vi : nat → nat → C) (Q : nat → nat → R).
Variables (c : R).
Hypothesis Hmodel : Eigen.model (eigen sp) = model sp.
Hypothesis HV : ∀ i k, (i < alphabetSize sp)%nat → (k < alphabetSize sp)%nat →
  Eigen.evec (eigen sp) i k = cfin (V i k) ∧
  Eigen.evecInv (eigen sp) i k = cfin (Vi i k).
Hypothesis HQ : ∀ i j, (i < alphabetSize sp)%nat → (j < alphabetSize sp)%nat →
  Eigen.subRate (model sp) i j = Fin (Q i j).
Hypothesis Hc : colLogLike sp = Fin c.

Lemma subCountSum_cfin (E : nat → nat → gsl_complex) (M : nat → nat → C) a b i j :
  (∀ k l, (k < alphabetSize sp)%nat → (l < alphabetSize sp)%nat → E k l = cfin (M k l)) →
  (a < alphabetSize sp)%nat → (b < alphabetSize sp)%nat →
  (i < alphabetSize sp)%nat → (j < alphabetSize sp)%nat →
  Eigen.subCountSum (eigen sp) a b i j E =
  cfin (endpoint_sum (alphabetSize sp) V Vi M a b i j).
Proof.
intros HE Ha Hb Hi Hj. unfold Eigen.subCountSum, endpoint_sum. rewrite Hmodel.
fold (alphabetSize sp).
apply (csum_cfin (alphabetSize sp)
  (λ k, gsl_complex_mul (gsl_complex_mul (Eigen.evec (eigen sp) a k)
                                         (Eigen.evecInv (eigen sp) k i)) _)).
intros k Hk. set (inner := for_loop _ _ _).
assert (inner = cfin (Csum (alphabetSize sp)
                        (λ l, Cmul (Cmul (V j l) (Vi l b)) (M k l)))) as ->.
{ apply (csum_cfin (alphabetSize sp)
    (λ l, gsl_complex_mul (gsl_complex_mul (Eigen.evec (eigen sp) j l)
                                           (Eigen.evecInv (eigen sp) l b)) (E k l))).
  intros l Hl.
  by rewrite (proj1 (HV j l Hj Hl)), (proj2 (HV l b Hl Hb)), HE, !mul_cfin. }
by rewrite (proj1 (HV a k Ha Hk)), (proj2 (HV k i Hk Hi)), !mul_cfin.
Qed.

(** [getSubCount] returns the scaled endpoint sum over [p_ab] when it does
    not clamp; at [p_ab = 0] with a zero numerator, [max (0., NaN)] is 0. *)
Lemma getSubCount_Fin (E : nat → nat → gsl_complex) (M : nat → nat → C)
    (sub : nat → nat → double) (p : R) a b i j :
  (∀ k l, (k < alphabetSize sp)%nat → (l < alphabetSize sp)%nat → E k l = cfin (M k l)) →
  (a < alphabetSize sp)%nat → (b < alphabetSize sp)%nat →
  (i < alphabetSize sp)%nat → (j < alphabetSize sp)%nat →
  sub a b = Fin p → 0 <= p →
  let z := endpoint_sum (alphabetSize sp) V Vi M a b i j in
  z.2 = 0 → 0 <= rate Q i j * z.1 → (p = 0 → rate Q i j * z.1 = 0) →
  Eigen.getSubCount (eigen sp) a b i j sub E = Some (Fin (rate Q i j * z.1 / p)).
Proof.
intros HE Ha Hb Hi Hj Hsub Hp z Him Hnn Hsup. unfold Eigen.getSubCount.
rewrite (subCountSum_cfin E M) by done. fold z.
unfold cfin at 1. rewrite SUMPROD_NEAR_REAL_Fin, bool_decide_eq_true_2 by done.
f_equal. rewrite Hsub, Hmodel, HQ by done.
assert ((if decide (i = j) then Fin 1 else Fin (Q i j)) = Fin (rate Q i j)) as ->.
{ unfold rate. by destruct (decide (i = j)). }
unfold cfin, GSL_REAL. cbn [fst dmul ddiv].
set (x := rate Q i j * z.1) in *.
destruct (Req_dec_T p 0) as [Hp0|Hp0].
- rewrite Hsup by done. unfold Rsign.
  destruct (Rlt_dec 0 0); [lra|]. unfold dmax. simpl. f_equal. unfold Rdiv. ring.
- unfold dmax. simpl. destruct (Rlt_dec 0 (x / p)) as [|Hn]; [done|].
  f_equal. assert (0 <= x / p); [|lra].
  apply Rmult_le_pos; [done|]. left. apply Rinv_0_lt_compat. lra.
Qed.

Lemma for_loop_opt_sum n (body : (nat → nat → double) → nat → option (nat → nat → double))
    (t : nat → nat → nat → R) m s :
  holds sp m s →
  (∀ k m s, (k < n)%nat → holds sp m s →
     ∃ m', body m k = Some m' ∧ holds sp m' (λ i j, s i j + t k i j)) →
  ∃ m', for_loop_opt n body m = Some m' ∧
        holds sp m' (λ i j, s i j + Rsum n (λ k, t k i j)).
Proof.
intros Hm Hstep.
apply (for_loop_opt_inv n body (λ n' m', holds sp m' (λ i j, s i j + Rsum n' (λ k, t k i j)))).
- intros i j Hi Hj. rewrite Hm by done. simpl. f_equal. ring.
- intros k m1 Hk Hm1. destruct (Hstep k m1 _ Hk Hm1) as (m2 & Hb & Hm2).
  exists m2. split; [done|]. intros i j Hi Hj. rewrite Hm2 by done. simpl.
  f_equal. ring.
Qed.

Lemma for_each_opt_sum (l : list nat)
    (body : (nat → nat → double) → nat → option (nat → nat → double))
    (t : nat → nat → nat → R) m s :
  holds sp m s →
  (∀ x m s, x ∈ l → holds sp m s →
     ∃ m', body m x = Some m' ∧ holds sp m' (λ i j, s i j + t x i j)) →
  ∃ m', for_each_opt l body m = Some m' ∧
        holds sp m' (λ i j, s i j + RsumL l (λ x, t x i j)).
Proof.
intros Hm Hstep.
apply (for_each_opt_inv l body (λ l' m', holds sp m' (λ i j, s i j + RsumL l' (λ x, t x i j)))).
- intros i j Hi Hj. rewrite Hm by done. simpl. f_equal. ring.
- intros pre x m1 Hx Hm1. destruct (Hstep x m1 _ Hx Hm1) as (m2 & Hb & Hm2).
  exists m2. split; [done|]. intros i j Hi Hj. rewrite Hm2 by done.
  rewrite RsumL_snoc. f_equal. ring.
Qed.

Lemma direct_branch (M : nat → nat → nat → C) (P : nat → nat → nat → R) node m s :
  branch_ok sp V Vi Q (M node) (P node) node →
  holds sp m s →
  ∃ m',
    (submat ← Eigen.getSubProbMatrix (eigen sp) (branchLength (tree sp) node);
     for_loop_opt (alphabetSize sp)
       (λ subCounts a,
          for_loop_opt (alphabetSize sp)
            (λ subCounts b,
               lbp ← logBranchPostProb sp node a b;
               Eigen.accumSubCounts (eigen sp) subCounts a b (dexp lbp)
                 submat (branchEigenSubCount sp node))
            subCounts)
       m) = Some m' ∧
    holds sp m' (λ i j, s i j + direct_term sp V Vi Q M c node i j).
Proof.
intros Hok Hm. destruct (bo_prob _ _ _ _ _ _ _ Hok) as (submat & Hsub & HP).
rewrite Hsub. simpl. unfold direct_term.
apply for_loop_opt_sum; [done|]. clear m s Hm. intros a m s Ha Hm.
apply for_loop_opt_sum; [done|]. clear m s Hm. intros b m s Hb Hm.
unfold logBranchPostProb.
rewrite bool_decide_eq_false_2 by (pose proof (bo_parent _ _ _ _ _ _ _ Hok); lia).
simpl. rewrite Hc.
assert (0 <= P node a b) as Hp.
{ destruct (getSubProbMatrix_range _ _ _ a b Hsub) as (r & Hr & Hr01).
  - by rewrite Hmodel.
  - by rewrite Hmodel.
  - rewrite HP in Hr by done. injection Hr as ->. lra. }
rewrite (bo_logprob _ _ _ _ _ _ _ Hok) by done.
rewrite weight_Fin; [|by eapply bo_logG|by eapply bo_logE|by eapply bo_logF|done].
unfold Eigen.accumSubCounts. rewrite Hmodel. fold (alphabetSize sp).
set (W := _ / exp c).
destruct (update_matrix_opt (alphabetSize sp) (alphabetSize sp)
  (λ i j, Eigen.getSubCount (eigen sp) a b i j submat (branchEigenSubCount sp node))
  (λ old x, dadd old (dmul x (Fin W)))
  (λ i j, Fin (rate Q i j * (endpoint_sum (alphabetSize sp) V Vi (M node) a b i j).1
               / P node a b)) m) as (m' & Hrun & Hm').
{ intros i j Hi Hj. apply getSubCount_Fin; try done.
  - by eapply bo_count.
  - by apply HP.
  - by eapply bo_real.
  - by eapply bo_nonneg.
  - by eapply bo_support. }
exists m'. split; [exact Hrun|]. intros i j Hi Hj. rewrite Hm'.
rewrite decide_True by done. rewrite Hm by done. simpl. f_equal. f_equal.
unfold W, post_weight.
destruct (Req_dec_T (P node a b) 0) as [Hp0|Hp0].
- rewrite (bo_support _ _ _ _ _ _ _ Hok a b i j) by done. unfold Rdiv. ring.
- field. split; [|done]. pose proof (exp_pos c). lra.
Qed.

(** The direct path returns, with the sum of [direct_term] over the
    branches in every entry. *)
Lemma direct_counts (M : nat → nat → nat → C) (P : nat → nat → nat → R) rc0 :
  ungappedRows sp ≠ [] →
  (∀ node, node ∈ branches sp → branch_ok sp V Vi Q (M node) (P node) node) →
  ∃ rc S,
    accumulateRootCounts sp rc0 = Some rc ∧
    accumulateSubCounts sp rc0 (λ _ _, Fin 0) = Some (rc, S) ∧
    holds sp S (λ i j, RsumL (branches sp) (λ node, direct_term sp V Vi Q M c node i j)).
Proof.
intros Hne Hok. unfold accumulateSubCounts.
assert (∃ rc, accumulateRootCounts sp rc0 = Some rc) as [rc Hrc].
{ unfold accumulateRootCounts, root. destruct (last (ungappedRows sp)) eqn:El.
  - simpl. eauto.
  - apply last_None in El. done. }
rewrite Hrc. simpl.
rewrite (for_each_opt_skip (λ node, root sp = Some node)).
fold (branches sp).
destruct (for_each_opt_sum (branches sp)
  (λ subCounts node,
     submat ← Eigen.getSubProbMatrix (eigen sp) (branchLength (tree sp) node);
     for_loop_opt (alphabetSize sp)
       (λ subCounts a,
          for_loop_opt (alphabetSize sp)
            (λ subCounts b,
               lbp ← logBranchPostProb sp node a b;
               Eigen.accumSubCounts (eigen sp) subCounts a b (dexp lbp)
                 submat (branchEigenSubCount sp node))
            subCounts)
       subCounts)
  (direct_term sp V Vi Q M c) (λ _ _, Fin 0) (λ _ _, 0)) as (S & HS & Hh).
{ done. }
{ intros node m s Hn Hm. apply (direct_branch M P); [by apply Hok|done]. }
exists rc, S. split; [done|]. split.
- rewrite HS. done.
- intros i j Hi Hj. rewrite Hh by done. f_equal. ring.
Qed.

Lemma logD_of_entry node a :
  (a < alphabetSize sp)%nat →
  logD_of sp node a = dadd (logG sp (Z.to_nat (parentNode (tree sp) node)) a)
                           (logE sp (getSibling (tree sp) node) a).
Proof. intros Ha. unfold logD_of. by rewrite fill_vector, decide_True. Qed.

Lemma eigen_branch (M : nat → nat → nat → C) (P : nat → nat → nat → R) node ec ecr :
  branch_ok sp V Vi Q (M node) (P node) node →
  holdsC sp ec ecr →
  ∃ ec', eigenCounts_step sp ec node = Some ec' ∧
         holdsC sp ec' (λ k l, Cadd (ecr k l) (eigen_term sp V Vi c M node k l)).
Proof.
intros Hok Hec. unfold eigenCounts_step.
rewrite bool_decide_eq_false_2 by (pose proof (bo_parent _ _ _ _ _ _ _ Hok); lia).
cbv zeta. eexists. split; [reflexivity|]. intros k l Hk Hl.
assert (∀ a, (a < alphabetSize sp)%nat → is_logp (logD_of sp node a)) as HlogD.
{ intros a Ha. rewrite logD_of_entry by done.
  apply is_logp_dadd; [by eapply bo_logG|by eapply bo_logE]. }
assert (∃ a, (a < alphabetSize sp)%nat ∧ is_finite (logD_of sp node a) = true) as HfinD.
{ destruct (bo_above _ _ _ _ _ _ _ Hok) as (a & Ha & Hfin).
  exists a. split; [done|]. by rewrite logD_of_entry. }
pose proof (bo_logF _ _ _ _ _ _ _ Hok) as HlogF.
pose proof (bo_below _ _ _ _ _ _ _ Hok) as HfinF.
rewrite (update_matrix _ _
  (λ old k l, gsl_complex_add old
     (gsl_complex_div_real
        (gsl_complex_mul
           (basis_of (alphabetSize sp) (λ k a, Eigen.evec (eigen sp) a k)
              (scaled (alphabetSize sp) (logD_of sp node)
                 (max_element (alphabetSize sp) (logD_of sp node))) k)
           (gsl_complex_mul (branchEigenSubCount sp node k l)
              (basis_of (alphabetSize sp) (Eigen.evecInv (eigen sp))
                 (scaled (alphabetSize sp) (logF sp node)
                    (max_element (alphabetSize sp) (logF sp node))) l)))
        (dexp (dsub (dsub (colLogLike sp)
                       (max_element (alphabetSize sp) (logF sp node)))
                 (max_element (alphabetSize sp) (logD_of sp node))))))).
rewrite decide_True by done.
rewrite (basis_cfin _ _ _ (λ k a, V a k) (eigen_d sp node)); [| |by intros; apply scaled_Fin|done].
2:{ intros a Ha. apply (HV a k Ha Hk). }
rewrite (basis_cfin _ _ _ Vi (eigen_u sp node)); [| |by intros; apply scaled_Fin|done].
2:{ intros b Hb. apply (HV l b Hl Hb). }
rewrite (bo_count _ _ _ _ _ _ _ Hok) by done.
rewrite Hc, (max_element_finite _ (logF sp node)), (max_element_finite _ (logD_of sp node)) by done.
simpl dexp. rewrite Hec by done. rewrite !mul_cfin, div_real_cfin, add_cfin.
- reflexivity.
- pose proof (exp_pos (c + - fin_part (max_element (alphabetSize sp) (logF sp node)) +
      - fin_part (max_element (alphabetSize sp) (logD_of sp node)))). lra.
Qed.

Lemma for_each_opt_sumC (l : list nat)
    (body : (nat → nat → gsl_complex) → nat → option (nat → nat → gsl_complex))
    (t : nat → nat → nat → C) m :
  holdsC sp m (λ _ _, C0) →
  (∀ x m s, x ∈ l → holdsC sp m s →
     ∃ m', body m x = Some m' ∧ holdsC sp m' (λ k l, Cadd (s k l) (t x k l))) →
  ∃ m', for_each_opt l body m = Some m' ∧
        holdsC sp m' (λ k l', CsumL l (λ x, t x k l')).
Proof.
intros Hm Hstep.
apply (for_each_opt_inv l body (λ l' m', holdsC sp m' (λ k l'', CsumL l' (λ x, t x k l'')))).
- done.
- intros pre x m1 Hx Hm1. destruct (Hstep x m1 _ Hx Hm1) as (m2 & Hb & Hm2).
  exists m2. split; [done|]. intros i j Hi Hj. rewrite Hm2 by done.
  by rewrite CsumL_snoc.
Qed.

(** The eigen path returns, with the sum of [eigen_term] over the branches
    in every entry. *)
Lemma eigen_counts (M : nat → nat → nat → C) (P : nat → nat → nat → R) rc0 rc :
  accumulateRootCounts sp rc0 = Some rc →
  (∀ node, node ∈ branches sp → branch_ok sp V Vi Q (M node) (P node) node) →
  ∃ EC,
    accumulateEigenCounts sp rc0 (λ _ _, gsl_complex_rect (Fin 0) (Fin 0)) = Some (rc, EC) ∧
    holdsC sp EC (λ k l, CsumL (branches sp) (λ node, eigen_term sp V Vi c M node k l)).
Proof.
intros Hrc Hok. unfold accumulateEigenCounts. rewrite Hrc. simpl.
rewrite (for_each_opt_skip (λ node, root sp = Some node)).
fold (branches sp).
destruct (for_each_opt_sumC (branches sp) (eigenCounts_step sp) (eigen_term sp V Vi c M)
            (λ _ _, gsl_complex_rect (Fin 0) (Fin 0))) as (EC & HEC & Hh).
{ done. }
{ intros node m s Hn Hm. apply (eigen_branch M P); [by apply Hok|done]. }
exists EC. split; [|done]. by rewrite HEC.
Qed.

Lemma getSubCounts_Fin EC (ecr : nat → nat → C) i j :
  holdsC sp EC ecr → (i < alphabetSize sp)%nat → (j < alphabetSize sp)%nat →
  getSubCounts sp EC i j =
  Fin (rate Q i j *
       (CsumL (seq 0 (alphabetSize sp)) (λ k, Cmul (Vi k i)
          (CsumL (seq 0 (alphabetSize sp)) (λ l, Cmul (ecr k l) (V j l))))).1).
Proof.
intros HEC Hi Hj. unfold getSubCounts.
rewrite (fill_matrix _ _ (λ i j,
  if decide (i = j)
  then GSL_REAL (for_loop (alphabetSize sp) (λ c k, gsl_complex_add c
         (gsl_complex_mul (Eigen.evecInv (eigen sp) k i)
            (for_loop (alphabetSize sp) (λ ck l, gsl_complex_add ck
               (gsl_complex_mul (EC k l) (Eigen.evec (eigen sp) j l)))
               (gsl_complex_rect (Fin 0) (Fin 0)))))
         (gsl_complex_rect (Fin 0) (Fin 0)))
  else dmul (GSL_REAL (for_loop (alphabetSize sp) (λ c k, gsl_complex_add c
         (gsl_complex_mul (Eigen.evecInv (eigen sp) k i)
            (for_loop (alphabetSize sp) (λ ck l, gsl_complex_add ck
               (gsl_complex_mul (EC k l) (Eigen.evec (eigen sp) j l)))
               (gsl_complex_rect (Fin 0) (Fin 0)))))
         (gsl_complex_rect (Fin 0) (Fin 0))))
       (Eigen.subRate (model sp) i j))).
rewrite decide_True by done.
set (cc := for_loop _ _ _).
assert (cc = cfin (CsumL (seq 0 (alphabetSize sp)) (λ k, Cmul (Vi k i)
          (CsumL (seq 0 (alphabetSize sp)) (λ l, Cmul (ecr k l) (V j l)))))) as ->.
{ rewrite <- Csum_CsumL.
  apply (csum_cfin (alphabetSize sp)
    (λ k, gsl_complex_mul (Eigen.evecInv (eigen sp) k i) _)).
  intros k Hk. set (inner := for_loop _ _ _).
  assert (inner = cfin (Csum (alphabetSize sp) (λ l, Cmul (ecr k l) (V j l)))) as ->.
  { apply (csum_cfin (alphabetSize sp)
      (λ l, gsl_complex_mul (EC k l) (Eigen.evec (eigen sp) j l))).
    intros l Hl. by rewrite HEC, (proj1 (HV j l Hj Hl)), mul_cfin. }
  by rewrite (proj2 (HV k i Hk Hi)), mul_cfin, Csum_CsumL. }
unfold rate. destruct (decide (i = j)) as [->|Hne]; simpl.
- f_equal. ring.
- rewrite HQ by done. simpl. f_equal. ring.
Qed.

End Paths.

(** [D_a U_b / norm] is the posterior weight over [P_ab]: the maxima
    cancel. *)
Lemma weight_factor sp V Vi Q (M : nat → nat → C) (P : nat → nat → R) c node a b :
  branch_ok sp V Vi Q M P node →
  (a < alphabetSize sp)%nat →
  eigen_s sp c node * eigen_d sp node a * eigen_u sp node b = post_weight sp c node a b.
Proof.
intros Hok Ha. unfold eigen_s, eigen_d, eigen_u, post_weight.
rewrite logD_of_entry by done.
rewrite expo_dadd by (first [by eapply bo_logG | by eapply bo_logE]).
set (mU := fin_part _). set (mD := fin_part _).
rewrite !exp_plus, !exp_Ropp.
pose proof (exp_pos c). pose proof (exp_pos mU). pose proof (exp_pos mD).
field. lra.
Qed.

(** *** The two-state model *)

Lemma gsl_fcmp_zero_nonzero y e :
  y ≠ 0 → 0 <= e < 1 / 2 → gsl_fcmp (Fin 0) (Fin y) (Fin e) ≠ 0%Z.
Proof.
intros Hy He. unfold gsl_fcmp, ldexp.
assert (dlt (dabs (Fin y)) (dabs (Fin 0)) = false) as ->.
{ apply dlt_Fin_false. rewrite Rabs_R0. apply Rabs_pos. }
pose proof (frexp_exponent_bound y Hy) as Hb.
set (E := frexp_exponent _) in *. pose proof (powerRZ_2_pos E) as HE.
assert (e * powerRZ 2 E < Rabs y) as Hd.
{ assert (0 < Rabs y) by (by apply Rabs_pos_lt). nra. }
simpl. destruct (Rlt_dec (e * powerRZ 2 E) (0 + - y)); [done|].
destruct (Rlt_dec (0 + - y) (- (e * powerRZ 2 E))); [done|].
exfalso. unfold Rabs in Hd. destruct (Rcase_abs y); lra.
Qed.

Lemma exp_decay_bounds t : 0 <= t → 0 < exp (-2 * t) <= 1.
Proof.
intros Ht. split; [apply exp_pos|].
destruct Ht as [Ht| <-].
- left. pose proof (exp_increasing (-2 * t) 0 ltac:(lra)) as H.
  by rewrite exp_0 in H.
- right. rewrite Rmult_0_r. apply exp_0.
Qed.

Lemma jc_prob_bounds t a b : 0 <= t → 0 <= jc_prob t a b <= 1.
Proof.
intros Ht. pose proof (exp_decay_bounds t Ht). unfold jc_prob.
destruct (decide (a = b)); lra.
Qed.

Lemma jc_prob_pos t a b : 0 < t → 0 < jc_prob t a b.
Proof.
intros Ht. pose proof (exp_pos (-2 * t)).
pose proof (exp_increasing (-2 * t) 0 ltac:(lra)) as H1. rewrite exp_0 in H1.
unfold jc_prob. destruct (decide (a = b)); lra.
Qed.

Lemma jc_spectral_sum t a b :
  (a < 2)%nat → (b < 2)%nat →
  Eigen.spectral_sum Eigen.jc_model (Fin t) a b = (Fin (jc_prob t a b), Fin 0).
Proof.
intros Ha Hb. unfold Eigen.spectral_sum.
erewrite (csum_cfin _ _
  (λ k, Cmul (Cmul (jc_evec a k) (jc_evecInv k b))
             (Cexp (Cscale t (if decide (k = 1%nat) then -2 else 0, 0))))).
2:{ intros k Hk. reflexivity. }
destruct a as [|[|a]]; [| |lia]; (destruct b as [|[|b]]; [| |lia]);
  unfold cfin, jc_prob; simpl;
  replace (t * 0) with 0 by lra; replace (t * -2) with (-2 * t) by lra;
  rewrite exp_0, cos_0, sin_0; f_equal; f_equal; field.
Qed.

Lemma jc_getSubProbMatrix t :
  0 <= t →
  ∃ submat, Eigen.getSubProbMatrix Eigen.jc_model (Fin t) = Some submat ∧
    ∀ a b, (a < 2)%nat → (b < 2)%nat → submat a b = Fin (jc_prob t a b).
Proof.
intros Ht. unfold Eigen.getSubProbMatrix.
destruct (update_matrix_opt 2 2
  (λ i j, Eigen.getSubProbInner (Eigen.compute_exp_ev_t Eigen.jc_model (Fin t)) (Fin t) i j)
  (λ _ x, x) (λ a b, Fin (jc_prob t a b)) (λ _ _, Fin 0)) as (m & Hrun & Hm).
- intros a b Ha Hb. unfold Eigen.getSubProbInner.
  rewrite subProbSum_spectral, jc_spectral_sum by done.
  rewrite SUMPROD_NEAR_REAL_Fin, bool_decide_eq_true_2 by done.
  unfold GSL_REAL. simpl fst. rewrite clamp_Fin. do 2 f_equal.
  pose proof (jc_prob_bounds t a b Ht). unfold Eigen.clamp01.
  destruct (Rlt_dec (jc_prob t a b) 0); [lra|].
  destruct (Rlt_dec 1 (jc_prob t a b)); [lra|done].
- exists m. split; [exact Hrun|]. intros a b Ha Hb. rewrite Hm.
  by rewrite decide_True.
Qed.

Lemma jc_eigenSubCount t k l :
  (k < 2)%nat → (l < 2)%nat →
  Eigen.eigenSubCount Eigen.jc_model (Fin t) k l = cfin (jc_count t k l).
Proof.
intros Hk Hl. rewrite eigenSubCount_entry by done.
assert (SUMPROD_NEAR_EQ_COMPLEX (Eigen.ev Eigen.jc_model 0) (Eigen.ev Eigen.jc_model 1)
        = false) as H01.
{ unfold SUMPROD_NEAR_EQ_COMPLEX, SUMPROD_NEAR_EQ, SUMPROD_EPSILON. simpl.
  rewrite (bool_decide_eq_false_2 (gsl_fcmp (Fin 0) (Fin (-2)) _ = 0%Z)); [done|].
  apply gsl_fcmp_zero_nonzero; lra. }
assert (SUMPROD_NEAR_EQ_COMPLEX (Eigen.ev Eigen.jc_model 1) (Eigen.ev Eigen.jc_model 0)
        = false) as H10.
{ unfold SUMPROD_NEAR_EQ_COMPLEX, SUMPROD_NEAR_EQ, SUMPROD_EPSILON. simpl.
  rewrite (bool_decide_eq_false_2 (gsl_fcmp (Fin (-2)) (Fin 0) _ = 0%Z)); [done|].
  apply gsl_fcmp_nonzero_zero; lra. }
destruct k as [|[|k]]; [| |lia]; (destruct l as [|[|l]]; [| |lia]);
  rewrite ?H01, ?H10;
  unfold cfin, jc_count, gsl_complex_div, gsl_complex_sub, gsl_complex_exp,
    gsl_complex_mul_real, dsub; simpl;
  replace (t * 0) with 0 by lra; replace (t * -2) with (-2 * t) by lra;
  rewrite ?exp_0, ?cos_0, ?sin_0.
- f_equal; f_equal; ring.
- destruct (Req_dec_T _ 0) as [H|_]; [lra|]. f_equal; f_equal; field.
- destruct (Req_dec_T _ 0) as [H|_]; [lra|]. f_equal; f_equal; field.
- f_equal; f_equal; ring.
Qed.

Lemma jc_endpoint_sum a b i j :
  (a < 2)%nat → (b < 2)%nat → (i < 2)%nat → (j < 2)%nat →
  let z := endpoint_sum 2 jc_evec jc_evecInv (jc_count 1) a b i j in
  z.2 = 0 ∧ 0 < rate jc_rate i j * z.1.
Proof.
intros Ha Hb Hi Hj. pose proof (exp_decay_bounds 1 ltac:(lra)) as [Hq Hq'].
pose proof (exp_increasing (-2 * 1) 0 ltac:(lra)) as Hq1. rewrite exp_0 in Hq1.
destruct a as [|[|a]]; [| |lia]; (destruct b as [|[|b]]; [| |lia]);
  (destruct i as [|[|i]]; [| |lia]); (destruct j as [|[|j]]; [| |lia]);
  unfold endpoint_sum, rate, jc_rate, jc_count, jc_evec, jc_evecInv; simpl;
  split; lra.
Qed.

(** *** The sample column *)

(** What [initColumn], [fillUp] and [fillDown] leave on the sample column. *)
Lemma sample_run_tables lp l :
  (λ sp, (ungappedRows sp, (model sp, eigen sp, tree sp),
          (logG sp 2 0, logG sp 2 1),
          (logE sp 0 0, logE sp 0 1, logE sp 1 0, logE sp 1 1),
          (logF sp 0 0, logF sp 0 1, logF sp 1 0, logF sp 1 1)))
    <$> sample_run lp l =
  Some ([0; 1; 2]%nat,
        (Eigen.jc_rates, Eigen.jc_model, cherry (Fin 1) (Fin 1)),
        (Fin lp, Fin lp),
        (Fin (l 0%nat 0%nat + 0), Fin (l 1%nat 0%nat + 0),
         Fin (l 0%nat 0%nat + 0), Fin (l 1%nat 0%nat + 0)),
        (Fin 0, NInf, Fin 0, NInf)).
Proof. vm_compute. reflexivity. Qed.

Lemma sample_run_colLogLike lp l :
  colLogLike <$> sample_run lp l =
  Some (Fin (ln (exp (0 + (l 0%nat 0%nat + 0) + (l 0%nat 0%nat + 0) + lp) +
                 exp (0 + (l 1%nat 0%nat + 0) + (l 1%nat 0%nat + 0) + lp)))).
Proof. rewrite <- log_accum_exp_Fin. vm_compute. reflexivity. Qed.

Lemma sample_run_branches lp l :
  (λ sp, (branchLogSubProb sp, branchEigenSubCount sp 0, branchEigenSubCount sp 1))
    <$> sample_run lp l =
  Some (λ _ a b, Fin (l a b),
        Eigen.eigenSubCount Eigen.jc_model (Fin 1),
        Eigen.eigenSubCount Eigen.jc_model (Fin 1)).
Proof. vm_compute. reflexivity. Qed.

Lemma fmap_Some_eq {X Y} (f : X → Y) x y : f <$> Some x = Some y → f x = y.
Proof. by intros [= <-]. Qed.

Lemma sample_run_branch_ok sp node :
  sample_run sample_logPi sample_logP = Some sp →
  alphabetSize sp = 2%nat ∧
  Eigen.model (eigen sp) = model sp ∧
  (∀ i k, Eigen.evec (eigen sp) i k = cfin (jc_evec i k) ∧
          Eigen.evecInv (eigen sp) i k = cfin (jc_evecInv i k)) ∧
  (∀ i j, Eigen.subRate (model sp) i j = Fin (jc_rate i j)) ∧
  colLogLike sp = Fin sample_logLike ∧
  ungappedRows sp = [0; 1; 2]%nat ∧
  (node ∈ ungappedRows sp → root sp ≠ Some node →
   branch_ok sp jc_evec jc_evecInv jc_rate (jc_count 1) (jc_prob 1) node).
Proof.
intros Hrun.
pose proof (sample_run_tables sample_logPi sample_logP) as F1.
pose proof (sample_run_branches sample_logPi sample_logP) as F2.
pose proof (sample_run_colLogLike sample_logPi sample_logP) as Hcll.
rewrite Hrun in F1, F2, Hcll.
apply fmap_Some_eq in F1, F2, Hcll. cbv beta in F1, F2.
injection F1 as Hrows Hmodel Heigen Htree HG0 HG1 HE00 HE01 HE10 HE11
  HF00 HF01 HF10 HF11.
injection F2 as HL HM0 HM1.
fold sample_logLike in Hcll. clear Hrun.
assert (alphabetSize sp = 2%nat) as HA by (unfold alphabetSize; by rewrite Hmodel).
split_and!.
- exact HA.
- rewrite Heigen, Hmodel. reflexivity.
- intros i k. rewrite Heigen. split; reflexivity.
- intros i j. rewrite Hmodel. reflexivity.
- exact Hcll.
- exact Hrows.
- intros Hin Hroot. unfold root in Hroot. rewrite Hrows in Hin, Hroot.
  simpl in Hroot.
  assert (node = 0%nat ∨ node = 1%nat) as Hnode.
  { apply elem_of_cons in Hin as [->|Hin]; [by left|].
    apply elem_of_cons in Hin as [->|Hin]; [by right|].
    apply elem_of_cons in Hin as [->|Hin]; [congruence|].
    by apply elem_of_nil in Hin. }
  clear Hin Hroot.
  assert (∀ a b, dlog (Fin (jc_prob 1 a b)) = Fin (ln (jc_prob 1 a b))) as Hlog.
  { intros a b. pose proof (jc_prob_pos 1 a b ltac:(lra)). simpl.
    destruct (Rlt_dec 0 (jc_prob 1 a b)); [done|lra]. }
  constructor; rewrite ?HA, ?Htree, ?Heigen.
  + destruct Hnode as [-> | ->]; simpl; lia.
  + intros a Ha. right.
    destruct Hnode as [-> | ->]; (destruct a as [|[|a]]; [| |lia]); simpl;
      rewrite ?HG0, ?HG1; eauto.
  + intros a Ha. right.
    destruct Hnode as [-> | ->]; (destruct a as [|[|a]]; [| |lia]); simpl;
      rewrite ?HE00, ?HE01, ?HE10, ?HE11; eauto.
  + intros b Hb.
    destruct Hnode as [-> | ->]; (destruct b as [|[|b]]; [| |lia]);
      rewrite ?HF00, ?HF01, ?HF10, ?HF11; first [by left | right; eauto].
  + exists 0%nat. split; [lia|].
    destruct Hnode as [-> | ->]; simpl;
      change (Z.to_nat 2) with 2%nat; by rewrite HG0, ?HE00, ?HE10.
  + exists 0%nat. split; [lia|].
    destruct Hnode as [-> | ->]; by rewrite ?HF00, ?HF10.
  + intros k l Hk Hl.
    destruct Hnode as [-> | ->]; rewrite ?HM0, ?HM1; by apply jc_eigenSubCount.
  + destruct Hnode as [-> | ->]; simpl; apply jc_getSubProbMatrix; lra.
  + intros a b Ha Hb. by rewrite HL, Hlog.
  + intros a b i j Ha Hb Hi Hj. by apply jc_endpoint_sum.
  + intros a b i j Ha Hb Hi Hj. left. by apply jc_endpoint_sum.
  + intros a b i j Ha Hb Hi Hj Hp. pose proof (jc_prob_pos 1 a b ltac:(lra)). lra.
Qed.

Lemma sample_run_Some : is_Some (sample_run sample_logPi sample_logP).
Proof.
pose proof (sample_run_tables sample_logPi sample_logP) as F1.
destruct (sample_run _ _); [eauto|discriminate].
Qed.

(** *** A column of likelihood 0 *)

Lemma dadd_NaN_r x : dadd x NaN = NaN.
Proof. by destruct x. Qed.

Lemma dmul_NaN_r x : dmul x NaN = NaN.
Proof. by destruct x. Qed.

Lemma add_NaN_r z : gsl_complex_add z (NaN, NaN) = (NaN, NaN).
Proof. unfold gsl_complex_add. simpl. by rewrite !dadd_NaN_r. Qed.

Lemma mul_NaN_l z : gsl_complex_mul (NaN, NaN) z = (NaN, NaN).
Proof. reflexivity. Qed.

Lemma mul_NaN_r z : gsl_complex_mul z (NaN, NaN) = (NaN, NaN).
Proof. unfold gsl_complex_mul. simpl. by rewrite !dmul_NaN_r. Qed.

Lemma loop_NaN n (f : nat → gsl_complex) z :
  (0 < n)%nat → f (n - 1)%nat = (NaN, NaN) →
  for_loop n (λ c k, gsl_complex_add c (f k)) z = (NaN, NaN).
Proof.
intros Hn Hf. destruct n as [|n]; [lia|]. rewrite for_loop_S.
replace (S n - 1)%nat with n in Hf by lia. rewrite Hf. apply add_NaN_r.
Qed.

Lemma cfinite_cfin z : cfinite z = true → ∃ r, z = cfin r.
Proof.
destruct z as [[x| | |] [y| | |]]; try done. intros _. by exists (x, y).
Qed.

Lemma zero_by_zero a b :
  gsl_complex_div_real
    (gsl_complex_mul (cfin a) (gsl_complex_mul (cfin C0) (cfin b))) (Fin 0)
  = (NaN, NaN).
Proof.
rewrite !mul_cfin. unfold gsl_complex_div_real, cfin. simpl.
destruct (Req_dec_T 0 0) as [_|]; [|done].
assert (∀ r, r = 0 → inf_of_sign (Rsign r) = NaN) as H.
{ intros r ->. unfold Rsign. destruct (Rlt_dec 0 0); [lra|done]. }
rewrite !H; [done| |]; destruct a, b; simpl; ring.
Qed.

Lemma endpoint_sum_zero A V Vi a b i j :
  endpoint_sum A V Vi (λ _ _, C0) a b i j = C0.
Proof.
unfold endpoint_sum. rewrite Csum_CsumL.
rewrite (CsumL_ext _ _ (λ _, C0)); [apply CsumL_zero|].
intros k _. rewrite Csum_CsumL.
rewrite (CsumL_ext _ _ (λ _, C0)); [|intros; apply Cmul_0_r].
by rewrite CsumL_zero, Cmul_0_r.
Qed.

Section ZeroLikelihood.
Variables (sp : AlignColSumProduct) (V Vi : nat → nat → C) (Q : nat → nat → R).
Hypothesis Hmodel : Eigen.model (eigen sp) = model sp.
Hypothesis HV : ∀ i k, (i < alphabetSize sp)%nat → (k < alphabetSize sp)%nat →
  Eigen.evec (eigen sp) i k = cfin (V i k) ∧
  Eigen.evecInv (eigen sp) i k = cfin (Vi i k).
Hypothesis HQ : ∀ i j, (i < alphabetSize sp)%nat → (j < alphabetSize sp)%nat →
  Eigen.subRate (model sp) i j = Fin (Q i j).
Hypothesis HA : (0 < alphabetSize sp)%nat.
Hypothesis Hrows : ungappedRows sp ≠ [].
Hypothesis Hbranches : branches sp ≠ [].
Hypothesis Hcount : ∀ node k l, node ∈ branches sp →
  (k < alphabetSize sp)%nat → (l < alphabetSize sp)%nat →
  branchEigenSubCount sp node k l = cfin C0.

Lemma direct_counts_NaN rc0 :
  (∀ node, node ∈ branches sp →
     (∃ submat (P : nat → nat → R),
        Eigen.getSubProbMatrix (eigen sp) (branchLength (tree sp) node) = Some submat ∧
        ∀ a b, (a < alphabetSize sp)%nat → (b < alphabetSize sp)%nat →
               submat a b = Fin (P a b)) ∧
     (∀ a b, (a < alphabetSize sp)%nat → (b < alphabetSize sp)%nat →
        dexp <$> logBranchPostProb sp node a b = Some NaN)) →
  ∃ rc S, accumulateRootCounts sp rc0 = Some rc ∧
          accumulateSubCounts sp rc0 (λ _ _, Fin 0) = Some (rc, S) ∧ allNaN sp S.
Proof.
intros Hok. unfold accumulateSubCounts.
assert (∃ rc, accumulateRootCounts sp rc0 = Some rc) as [rc Hrc].
{ unfold accumulateRootCounts, root. destruct (last (ungappedRows sp)) eqn:El.
  - simpl. eauto.
  - apply last_None in El. done. }
rewrite Hrc. simpl.
rewrite (for_each_opt_skip (λ node, root sp = Some node)).
fold (branches sp).
destruct (for_each_opt_inv (branches sp)
  (λ subCounts node,
     submat ← Eigen.getSubProbMatrix (eigen sp) (branchLength (tree sp) node);
     for_loop_opt (alphabetSize sp)
       (λ subCounts a,
          for_loop_opt (alphabetSize sp)
            (λ subCounts b,
               lbp ← logBranchPostProb sp node a b;
               Eigen.accumSubCounts (eigen sp) subCounts a b (dexp lbp)
                 submat (branchEigenSubCount sp node))
            subCounts)
       subCounts)
  (λ pre m, pre ≠ [] → allNaN sp m) (λ _ _, Fin 0)) as (S & HS & Hh).
{ done. }
{ intros pre node m Hn _.
  destruct (Hok node Hn) as ((submat & P & Hsub & HP) & Hw).
  rewrite Hsub. simpl.
  assert (∀ m, ∃ m',
    for_loop_opt (alphabetSize sp)
       (λ subCounts a,
          for_loop_opt (alphabetSize sp)
            (λ subCounts b,
               lbp ← logBranchPostProb sp node a b;
               Eigen.accumSubCounts (eigen sp) subCounts a b (dexp lbp)
                 submat (branchEigenSubCount sp node))
            subCounts) m = Some m' ∧
    ((0 < alphabetSize sp)%nat → allNaN sp m')) as Hloop.
  { clear m. intros m.
    apply (for_loop_opt_inv _ _ (λ k m', (0 < k)%nat → allNaN sp m')); [intros; lia|].
    clear m. intros a m Ha _.
    destruct (for_loop_opt_inv (alphabetSize sp)
      (λ subCounts b,
         lbp ← logBranchPostProb sp node a b;
         Eigen.accumSubCounts (eigen sp) subCounts a b (dexp lbp)
           submat (branchEigenSubCount sp node))
      (λ k m', (0 < k)%nat → allNaN sp m') m) as (m' & Hm' & Hall); [intros; lia| |].
    2:{ exists m'. split; [done|]. intros _. by apply Hall. }
    clear m. intros b m Hb _.
    pose proof (Hw a b Ha Hb) as Hlbp.
    destruct (logBranchPostProb sp node a b) as [lbp|]; [|done].
    injection Hlbp as Hlbp. simpl. rewrite Hlbp.
    unfold Eigen.accumSubCounts. rewrite Hmodel. fold (alphabetSize sp).
    assert (0 <= P a b) as Hp.
    { destruct (getSubProbMatrix_range _ _ _ a b Hsub) as (r & Hr & Hr01).
      - by rewrite Hmodel.
      - by rewrite Hmodel.
      - rewrite HP in Hr by done. injection Hr as ->. lra. }
    destruct (update_matrix_opt (alphabetSize sp) (alphabetSize sp)
      (λ i j, Eigen.getSubCount (eigen sp) a b i j submat (branchEigenSubCount sp node))
      (λ old x, dadd old (dmul x NaN))
      (λ i j, Fin (rate Q i j *
                   (endpoint_sum (alphabetSize sp) V Vi (λ _ _, C0) a b i j).1 / P a b))
      m) as (m' & Hrun & Hm').
    { intros i j Hi Hj.
      apply (getSubCount_Fin sp V Vi Q Hmodel HV HQ); try done.
      - intros k l Hk Hl. by apply Hcount.
      - by apply HP.
      - by rewrite endpoint_sum_zero.
      - rewrite endpoint_sum_zero. simpl. lra.
      - intros _. rewrite endpoint_sum_zero. simpl. lra. }
    exists m'. split; [exact Hrun|]. intros _ i j Hi Hj. rewrite Hm'.
    rewrite decide_True by done. simpl. apply dadd_NaN_r. }
  destruct (Hloop m) as (m' & Hm' & Hall). exists m'. split; [done|].
  intros _. by apply Hall. }
exists rc, S. split; [done|]. split; [by rewrite HS|]. by apply Hh.
Qed.

Lemma eigen_step_NaN node ec :
  node ∈ branches sp →
  (0 ≤ parentNode (tree sp) node)%Z →
  norm_of sp node = Fin 0 →
  (∀ k, (k < alphabetSize sp)%nat → cfinite (Dbasis_of sp node k) = true) →
  (∀ l, (l < alphabetSize sp)%nat → cfinite (Ubasis_of sp node l) = true) →
  ∃ ec', eigenCounts_step sp ec node = Some ec' ∧ allNaNC sp ec'.
Proof.
intros Hn Hparent Hnorm HDb HUb. unfold eigenCounts_step.
rewrite bool_decide_eq_false_2 by lia.
cbv zeta. eexists. split; [reflexivity|]. intros k l Hk Hl.
fold (norm_of sp node) (Dbasis_of sp node) (Ubasis_of sp node).
rewrite (update_matrix _ _
  (λ old k l, gsl_complex_add old
     (gsl_complex_div_real
        (gsl_complex_mul (Dbasis_of sp node k)
           (gsl_complex_mul (branchEigenSubCount sp node k l) (Ubasis_of sp node l)))
        (norm_of sp node)))).
rewrite decide_True by done.
destruct (cfinite_cfin _ (HDb k Hk)) as [db ->].
destruct (cfinite_cfin _ (HUb l Hl)) as [ub ->].
rewrite Hcount, Hnorm, zero_by_zero by done. apply add_NaN_r.
Qed.

Lemma eigen_counts_NaN rc0 rc :
  accumulateRootCounts sp rc0 = Some rc →
  (∀ node, node ∈ branches sp →
     (0 ≤ parentNode (tree sp) node)%Z ∧ norm_of sp node = Fin 0 ∧
     (∀ k, (k < alphabetSize sp)%nat → cfinite (Dbasis_of sp node k) = true) ∧
     (∀ l, (l < alphabetSize sp)%nat → cfinite (Ubasis_of sp node l) = true)) →
  ∃ EC, accumulateEigenCounts sp rc0 (λ _ _, gsl_complex_rect (Fin 0) (Fin 0))
          = Some (rc, EC) ∧
        ∀ i j, (i < alphabetSize sp)%nat → (j < alphabetSize sp)%nat →
               getSubCounts sp EC i j = NaN.
Proof.
intros Hrc Hok. unfold accumulateEigenCounts. rewrite Hrc. simpl.
rewrite (for_each_opt_skip (λ node, root sp = Some node)).
fold (branches sp).
destruct (for_each_opt_inv (branches sp) (eigenCounts_step sp)
  (λ pre m, pre ≠ [] → allNaNC sp m) (λ _ _, gsl_complex_rect (Fin 0) (Fin 0)))
  as (EC & HEC & Hh).
{ done. }
{ intros pre node m Hn _. destruct (Hok node Hn) as (H1 & H2 & H3 & H4).
  destruct (eigen_step_NaN node m Hn H1 H2 H3 H4) as (ec' & Hstep & Hall).
  exists ec'. split; [exact Hstep|]. intros _. exact Hall. }
exists EC. split; [by rewrite HEC|]. intros i j Hi Hj.
specialize (Hh Hbranches). unfold getSubCounts.
rewrite (fill_matrix _ _ (λ i j,
  if decide (i = j)
  then GSL_REAL (for_loop (alphabetSize sp) (λ c k, gsl_complex_add c
         (gsl_complex_mul (Eigen.evecInv (eigen sp) k i)
            (for_loop (alphabetSize sp) (λ ck l, gsl_complex_add ck
               (gsl_complex_mul (EC k l) (Eigen.evec (eigen sp) j l)))
               (gsl_complex_rect (Fin 0) (Fin 0)))))
         (gsl_complex_rect (Fin 0) (Fin 0)))
  else dmul (GSL_REAL (for_loop (alphabetSize sp) (λ c k, gsl_complex_add c
         (gsl_complex_mul (Eigen.evecInv (eigen sp) k i)
            (for_loop (alphabetSize sp) (λ ck l, gsl_complex_add ck
               (gsl_complex_mul (EC k l) (Eigen.evec (eigen sp) j l)))
               (gsl_complex_rect (Fin 0) (Fin 0)))))
         (gsl_complex_rect (Fin 0) (Fin 0))))
       (Eigen.subRate (model sp) i j))).
rewrite decide_True by done.
set (cc := for_loop _ _ _).
assert (cc = (NaN, NaN)) as ->.
{ apply (loop_NaN _ (λ k, gsl_complex_mul (Eigen.evecInv (eigen sp) k i) _)); [done|].
  set (inner := for_loop _ _ _).
  assert (inner = (NaN, NaN)) as ->; [|apply mul_NaN_r].
  apply (loop_NaN _ (λ l, gsl_complex_mul (EC (alphabetSize sp - 1)%nat l)
                            (Eigen.evec (eigen sp) j l))); [done|].
  rewrite Hh by lia. apply mul_NaN_l. }
by destruct (decide (i = j)).
Qed.

End ZeroLikelihood.

(** What [initColumn], [fillUp] and [fillDown] leave on the column of the
    two leaves that disagree: every weight of the direct path is NaN and
    [norm] is 0. *)
Lemma conflict_run_tables lp :
  (λ sp, (ungappedRows sp, (model sp, eigen sp, tree sp), colLogLike sp,
          (dexp <$> logBranchPostProb sp 0 0 0, dexp <$> logBranchPostProb sp 0 0 1,
           dexp <$> logBranchPostProb sp 0 1 0, dexp <$> logBranchPostProb sp 0 1 1),
          (dexp <$> logBranchPostProb sp 1 0 0, dexp <$> logBranchPostProb sp 1 0 1,
           dexp <$> logBranchPostProb sp 1 1 0, dexp <$> logBranchPostProb sp 1 1 1),
          (norm_of sp 0, norm_of sp 1),
          (cfinite (Dbasis_of sp 0 0), cfinite (Dbasis_of sp 0 1),
           cfinite (Dbasis_of sp 1 0), cfinite (Dbasis_of sp 1 1)),
          (cfinite (Ubasis_of sp 0 0), cfinite (Ubasis_of sp 0 1),
           cfinite (Ubasis_of sp 1 0), cfinite (Ubasis_of sp 1 1))))
    <$> conflict_run lp =
  Some ([0; 1; 2]%nat,
        (Eigen.jc_rates, Eigen.jc_model, cherry (Fin 0) (Fin 0)), NInf,
        (Some NaN, Some NaN, Some NaN, Some NaN),
        (Some NaN, Some NaN, Some NaN, Some NaN),
        (Fin 0, Fin 0),
        (true, true, true, true), (true, true, true, true)).
Proof. vm_compute. reflexivity. Qed.

Lemma conflict_run_branches lp :
  (λ sp, (branchEigenSubCount sp 0, branchEigenSubCount sp 1)) <$> conflict_run lp =
  Some (Eigen.eigenSubCount Eigen.jc_model (Fin 0),
        Eigen.eigenSubCount Eigen.jc_model (Fin 0)).
Proof. vm_compute. reflexivity. Qed.

Lemma jc_count_0 k l : jc_count 0 k l = C0.
Proof.
unfold jc_count, C0. rewrite Rmult_0_r, exp_0.
repeat case_decide; f_equal; lra.
Qed.

(** C1 as stated fails on the column of [conflict_run], whose likelihood
    is 0. With its two branches of length 0 and its two leaves that hold
    different tokens, [colLogLike] is minus infinity, both paths return, and
    on this column every entry of both count matrices is NaN: no entry is
    within [10^-6] of the other. *)
Lemma counts_not_numbers_on_impossible_column :
  ∃ sp rc subCounts eigenCounts,
    conflict_run (ln (1 / 2)) = Some sp ∧ colLogLike sp = NInf ∧
    accumulateSubCounts sp (λ _, Fin 0) (λ _ _, Fin 0) = Some (rc, subCounts) ∧
    accumulateEigenCounts sp (λ _, Fin 0) (λ _ _, gsl_complex_rect (Fin 0) (Fin 0))
      = Some (rc, eigenCounts) ∧
    ∀ i j, (i < alphabetSize sp)%nat → (j < alphabetSize sp)%nat →
      subCounts i j = NaN ∧ getSubCounts sp eigenCounts i j = NaN.
Proof.
pose proof (conflict_run_tables (ln (1 / 2))) as F1.
pose proof (conflict_run_branches (ln (1 / 2))) as F2.
destruct (conflict_run (ln (1 / 2))) as [sp|] eqn:Hrun; [|discriminate].
clear Hrun. apply fmap_Some_eq in F1, F2. cbv beta in F1, F2.
injection F1 as Hrows Hmodel Heigen Htree Hcll W000 W001 W010 W011
  W100 W101 W110 W111 N0 N1 D00 D01 D10 D11 U00 U01 U10 U11.
injection F2 as HM0 HM1.
assert (alphabetSize sp = 2%nat) as HA by (unfold alphabetSize; by rewrite Hmodel).
assert (branches sp = [0; 1]%nat) as Hbr.
{ unfold branches, root. rewrite Hrows. reflexivity. }
assert (∀ node, node ∈ branches sp → node = 0%nat ∨ node = 1%nat) as Hnode.
{ intros node. rewrite Hbr. intros Hin.
  apply elem_of_cons in Hin as [->|Hin]; [by left|].
  apply elem_of_cons in Hin as [->|Hin]; [by right|].
  by apply elem_of_nil in Hin. }
assert (Eigen.model (eigen sp) = model sp) as Hm by (by rewrite Heigen, Hmodel).
assert (∀ i k, (i < alphabetSize sp)%nat → (k < alphabetSize sp)%nat →
  Eigen.evec (eigen sp) i k = cfin (jc_evec i k) ∧
  Eigen.evecInv (eigen sp) i k = cfin (jc_evecInv i k)) as HV.
{ intros i k _ _. rewrite Heigen. split; reflexivity. }
assert (∀ i j, (i < alphabetSize sp)%nat → (j < alphabetSize sp)%nat →
  Eigen.subRate (model sp) i j = Fin (jc_rate i j)) as HQ.
{ intros i j _ _. rewrite Hmodel. reflexivity. }
assert (∀ node k l, node ∈ branches sp →
  (k < alphabetSize sp)%nat → (l < alphabetSize sp)%nat →
  branchEigenSubCount sp node k l = cfin C0) as Hcount.
{ intros node k l Hn Hk Hl. rewrite HA in Hk, Hl.
  destruct (Hnode node Hn) as [-> | ->]; rewrite ?HM0, ?HM1;
    rewrite jc_eigenSubCount by done; by rewrite jc_count_0. }
assert ((0 < alphabetSize sp)%nat) as HA0 by lia.
assert (ungappedRows sp ≠ []) as Hrows0 by (rewrite Hrows; discriminate).
assert (branches sp ≠ []) as Hbr0 by (rewrite Hbr; discriminate).
destruct (direct_counts_NaN sp jc_evec jc_evecInv jc_rate Hm HV HQ HA0 Hrows0 Hbr0 Hcount
            (λ _, Fin 0)) as (rc & S & Hrc & HS & HNaN).
{ intros node Hn. split.
  + rewrite Heigen, Htree.
    destruct (jc_getSubProbMatrix 0 ltac:(lra)) as (submat & Hsub & HP).
    exists submat, (jc_prob 0). split.
    * by destruct (Hnode node Hn) as [-> | ->].
    * rewrite HA. exact HP.
  + intros a b Ha Hb. rewrite HA in Ha, Hb.
    destruct (Hnode node Hn) as [-> | ->];
      (destruct a as [|[|a]]; [| |lia]); (destruct b as [|[|b]]; [| |lia]);
      assumption. }
destruct (eigen_counts_NaN sp HA0 Hbr0 Hcount (λ _, Fin 0) rc Hrc)
  as (EC & HEC & HNaN').
{ intros node Hn. rewrite HA, Htree.
  destruct (Hnode node Hn) as [-> | ->]; (split_and!; [simpl; lia|assumption| |]);
    intros k Hk; (destruct k as [|[|k]]; [| |lia]); assumption. }
exists sp, rc, S, EC. split; [reflexivity|]. split; [exact Hcll|].
split; [exact HS|]. split; [exact HEC|]. intros i j Hi Hj. split.
- by apply HNaN.
- by apply HNaN'.
Qed.

(** C1, amended. On a column that is not empty and whose log-likelihood
    [colLogLike] is a real number, with a finite eigensystem and finite
    rates, and with every branch of the column as [branch_ok] asks (tables
    of log-probabilities, [branchLogSubProb] the logarithm of the matrix of
    [getSubProbMatrix], endpoint sums that are real and that [getSubCount]
    neither clamps nor divides by a zero probability), both paths return:
    [accumulateSubCounts] from a zero matrix, and [accumulateEigenCounts]
    from a zero matrix followed by [getSubCounts]. They leave the same root
    counts, and every entry [(i,j)] below [alphabetSize] of the two count
    matrices is the same real number: the entries agree exactly, so within
    [10^-6]. Doubles are exact reals here. *)
Theorem eigen_counts_match_direct_counts (sp : AlignColSumProduct)
    (V Vi : nat → nat → C) (Q : nat → nat → R)
    (M : nat → nat → nat → C) (P : nat → nat → nat → R) (c : R)
    (rootCounts : nat → double) :
  Eigen.model (eigen sp) = model sp →
  (∀ i k, (i < alphabetSize sp)%nat → (k < alphabetSize sp)%nat →
     Eigen.evec (eigen sp) i k = cfin (V i k) ∧
     Eigen.evecInv (eigen sp) i k = cfin (Vi i k)) →
  (∀ i j, (i < alphabetSize sp)%nat → (j < alphabetSize sp)%nat →
     Eigen.subRate (model sp) i j = Fin (Q i j)) →
  colLogLike sp = Fin c →
  ungappedRows sp ≠ [] →
  (∀ node, node ∈ ungappedRows sp → root sp ≠ Some node →
     branch_ok sp V Vi Q (M node) (P node) node) →
  ∃ rc subCounts eigenCounts,
    accumulateSubCounts sp rootCounts (λ _ _, Fin 0) = Some (rc, subCounts) ∧
    accumulateEigenCounts sp rootCounts (λ _ _, gsl_complex_rect (Fin 0) (Fin 0))
      = Some (rc, eigenCounts) ∧
    ∀ i j, (i < alphabetSize sp)%nat → (j < alphabetSize sp)%nat →
      ∃ x, subCounts i j = Fin x ∧ getSubCounts sp eigenCounts i j = Fin x.
Proof.
intros Hmodel HV HQ Hc Hne Hok.
assert (∀ node, node ∈ branches sp → branch_ok sp V Vi Q (M node) (P node) node) as Hok'.
{ intros node Hn. apply list_elem_of_filter in Hn as [Hr Hn]. by apply Hok. }
destruct (direct_counts sp V Vi Q c Hmodel HV HQ Hc M P rootCounts Hne Hok')
  as (rc & S & Hrc & HS & HhS).
destruct (eigen_counts sp V Vi Q c HV Hc M P rootCounts rc Hrc Hok')
  as (EC & HEC & HhEC).
exists rc, S, EC. split; [done|]. split; [done|]. intros i j Hi Hj.
eexists. split; [by apply HhS|].
rewrite (getSubCounts_Fin sp V Vi Q HV HQ EC _ i j HhEC Hi Hj). f_equal.
rewrite (eigen_algebra (branches sp) (seq 0 (alphabetSize sp)) V Vi M
           (eigen_d sp) (eigen_u sp) (eigen_s sp c) i j : CsumL _ (λ k, Cmul (Vi k i)
             (CsumL _ (λ l, Cmul (CsumL _ (λ node, eigen_term sp V Vi c M node k l))
                                 (V j l)))) = _).
rewrite Cre_CsumL, <- RsumL_scale.
apply RsumL_ext. intros node Hn. unfold direct_term.
rewrite Cre_CsumL, <- RsumL_scale, Rsum_RsumL.
apply RsumL_ext. intros a Ha. apply elem_of_seq in Ha.
rewrite Cre_CsumL, <- RsumL_scale, Rsum_RsumL.
apply RsumL_ext. intros b Hb. apply elem_of_seq in Hb.
rewrite (weight_factor sp V Vi Q (M node) (P node)) by (first [by apply Hok' | lia]).
assert (endpoint_sum (alphabetSize sp) V Vi (M node) a b i j =
        endpoint_sumL (seq 0 (alphabetSize sp)) V Vi M i j node a b) as ->.
{ unfold endpoint_sum, endpoint_sumL. rewrite Csum_CsumL.
  apply CsumL_ext. intros k _. by rewrite Csum_CsumL. }
simpl. ring.
Qed.

Lemma eigen_counts_match_direct_counts_witness :
  ∃ sp rc subCounts eigenCounts,
    sample_run sample_logPi sample_logP = Some sp ∧
    accumulateSubCounts sp (λ _, Fin 0) (λ _ _, Fin 0) = Some (rc, subCounts) ∧
    accumulateEigenCounts sp (λ _, Fin 0) (λ _ _, gsl_complex_rect (Fin 0) (Fin 0))
      = Some (rc, eigenCounts) ∧
    ∀ i j, (i < alphabetSize sp)%nat → (j < alphabetSize sp)%nat →
      ∃ x, subCounts i j = Fin x ∧ getSubCounts sp eigenCounts i j = Fin x.
Proof.
destruct sample_run_Some as [sp Hrun].
destruct (eigen_counts_match_direct_counts sp jc_evec jc_evecInv jc_rate
            (λ _, jc_count 1) (λ _, jc_prob 1) sample_logLike (λ _, Fin 0))
  as (rc & S & EC & H1 & H2 & H3).
- apply (sample_run_branch_ok sp 0 Hrun).
- intros i k _ _. apply (sample_run_branch_ok sp 0 Hrun).
- intros i j _ _. apply (sample_run_branch_ok sp 0 Hrun).
- apply (sample_run_branch_ok sp 0 Hrun).
- destruct (sample_run_branch_ok sp 0 Hrun) as (_ & _ & _ & _ & _ & -> & _). discriminate.
- intros node. apply (sample_run_branch_ok sp node Hrun).
- exists sp, rc, S, EC. split; [exact Hrun|]. split; [exact H1|].
  split; [exact H2|exact H3].
Defined.

End CountsFacts.

Module SamplerFacts.
Import Numerics SumProd Sampler.

(** C8 fails on the code. On the tree of two leaves under a root the only
    non-leaf node is the root, so for every random source
    [randomInternalNode] gives the root, and the move goes on with it: its
    node is the root 2, which has two children, and its [parent] is -1, no
    node. *)
Theorem SampleNodeMove_selects_root (t0 t1 : double) (generator : nat) :
  intNodes (cherry t0 t1) = [2] ∧
  randomInternalNode (cherry t0 t1) generator = Some 2 ∧
  SampleNodeMove_new (cherry t0 t1) generator =
    Some {| node := 2; parent := (-1)%Z; leftChild := 0; rightChild := 1 |}.
Proof.
assert (randomInternalNode (cherry t0 t1) generator = Some 2) as Hr.
{ unfold randomInternalNode, random_element.
  change (intNodes (cherry t0 t1)) with [2]. simpl length.
  rewrite Nat.mod_1_r. reflexivity. }
split_and!; [reflexivity|exact Hr|].
unfold SampleNodeMove_new. rewrite Hr. reflexivity.
Qed.

End SamplerFacts.

Module SpanFacts.
Import Span.

Example partition_five :
  Partition_new 5 =
  {| seqSetIdx := [0; 1; 2; 3; 4];
     seqSet := [ {[0]}; {[1]}; {[2]}; {[3]}; {[4]} ];
     nSets := 5 |}.
Proof. reflexivity. Qed.

Lemma elem_of_set_iter (s : gset nat) x : x ∈ set_iter s ↔ x ∈ s.
Proof.
  unfold set_iter. rewrite merge_sort_Permutation. apply elem_of_elements.
Qed.

Lemma relabel_length v ms (idx : list nat) :
  length (relabel v ms idx) = length idx.
Proof.
  revert idx. induction ms as [|m ms IH]; intros idx; simpl; [done|].
  unfold relabel in *. simpl. rewrite IH. apply length_insert.
Qed.

Lemma relabel_lookup v ms (idx : list nat) x :
  relabel v ms idx !! x =
  if decide (x ∈ ms ∧ x < length idx) then Some v else idx !! x.
Proof.
  revert idx. induction ms as [|m ms IH]; intros idx.
  - change (relabel v [] idx) with idx.
    case_decide as H; [|done]. destruct H as [H _]. inversion H.
  - unfold relabel. simpl. fold (relabel v ms (<[m:=v]> idx)).
    rewrite IH. rewrite length_insert. rewrite list_lookup_insert.
    repeat match goal with
           | |- context [decide ?P] => destruct (decide P)
           end; try done; exfalso; set_unfold; naive_solver.
Qed.

Lemma inSameSet_true_merge p e :
  inSameSet p e = Some true → merge p e = Some p.
Proof. intros H. unfold merge. rewrite H. reflexivity. Qed.

Lemma members_indexed_new n : members_indexed (Partition_new n).
Proof.
  intros x k Hx. simpl in *.
  apply lookup_seq in Hx as [-> Hlt]. simpl.
  exists {[x]}. split; [|set_solver].
  rewrite list_lookup_fmap, lookup_seq_lt by done. reflexivity.
Qed.

Lemma merge_Some_inv p e p' :
  merge p e = Some p' →
  (inSameSet p e = Some true ∧ p' = p) ∨
  ∃ i1 i2 set1 set2,
    seqSetIdx p !! row1 e = Some i1 ∧ seqSetIdx p !! row2 e = Some i2 ∧
    i1 ≠ i2 ∧
    seqSet p !! (i1 `min` i2) = Some set1 ∧
    seqSet p !! (i1 `max` i2) = Some set2 ∧
    p' = {| seqSetIdx := relabel (i1 `min` i2) (set_iter set2) (seqSetIdx p);
            seqSet := <[ i1 `max` i2 := ∅ ]>
                        (<[ i1 `min` i2 := set1 ∪ set2 ]> (seqSet p));
            nSets := (nSets p - 1) mod size_t_modulus |}.
Proof.
  unfold merge, inSameSet.
  destruct (seqSetIdx p !! row1 e) as [i1|] eqn:H1; simpl; [|done].
  destruct (seqSetIdx p !! row2 e) as [i2|] eqn:H2; simpl; [|done].
  case_bool_decide as Heq; simpl.
  - intros [= <-]. left. done.
  - replace (if decide (i2 < i1) then i2 else i1) with (i1 `min` i2)
      by (case_decide; lia).
    replace (if decide (i2 < i1) then i1 else i2) with (i1 `max` i2)
      by (case_decide; lia).
    destruct (seqSet p !! (i1 `min` i2)) as [set1|] eqn:Hs1; simpl; [|done].
    destruct (seqSet p !! (i1 `max` i2)) as [set2|] eqn:Hs2; simpl; [|done].
    intros [= <-]. right. exists i1, i2, set1, set2. done.
Qed.

Lemma members_indexed_merge p e p' :
  members_indexed p → merge p e = Some p' → members_indexed p'.
Proof.
  intros Hwf Hm.
  apply merge_Some_inv in Hm as [[_ ->]|(i1 & i2 & set1 & set2 & H1 & H2 & Hne & Hs1 & Hs2 & ->)];
    [done|].
  intros x k. simpl. rewrite relabel_lookup.
  assert (Hlo : i1 `min` i2 < length (seqSet p)) by (eapply lookup_lt_Some; done).
  assert (Hhi : i1 `max` i2 < length (seqSet p)) by (eapply lookup_lt_Some; done).
  assert (Hd : i1 `min` i2 ≠ i1 `max` i2) by lia.
  case_decide as Hin.
  - intros [= <-]. destruct Hin as [Hin _]. apply elem_of_set_iter in Hin.
    exists (set1 ∪ set2). split; [|set_solver].
    rewrite list_lookup_insert_ne by lia.
    apply list_lookup_insert_eq. done.
  - intros Hx. destruct (Hwf x k Hx) as (s & Hs & Hxs).
    destruct (decide (k = i1 `max` i2)) as [->|Hk1].
    { exfalso. apply Hin. split.
      - apply elem_of_set_iter. congruence.
      - eapply lookup_lt_Some; done. }
    rewrite list_lookup_insert_ne by done.
    destruct (decide (k = i1 `min` i2)) as [->|Hk2].
    + exists (set1 ∪ set2). split; [by apply list_lookup_insert_eq|].
      assert (s = set1) by congruence. set_solver.
    + exists s. rewrite list_lookup_insert_ne by done. done.
Qed.

Lemma reachable_members_indexed p : reachable p → members_indexed p.
Proof.
  induction 1 as [n|p e p' _ IH Hm].
  - apply members_indexed_new.
  - eapply members_indexed_merge; done.
Qed.

Lemma merge_then_same_set p e p' :
  members_indexed p → merge p e = Some p' → inSameSet p' e = Some true.
Proof.
  intros Hwf Hm.
  destruct (merge_Some_inv _ _ _ Hm)
    as [[Hs ->]|(i1 & i2 & set1 & set2 & H1 & H2 & Hne & Hs1 & Hs2 & ->)]; [done|].
  unfold inSameSet. simpl. rewrite !relabel_lookup.
  destruct (Hwf _ _ H1) as (s1 & Hs1' & Hin1).
  destruct (Hwf _ _ H2) as (s2 & Hs2' & Hin2).
  pose proof (lookup_lt_Some _ _ _ H1) as Hl1.
  pose proof (lookup_lt_Some _ _ _ H2) as Hl2.
  destruct (decide (i1 < i2)) as [Hlt|Hge].
  - rewrite Nat.min_l, Nat.max_r in * by lia.
    assert (s2 = set2) by congruence. subst s2.
    rewrite (decide_True (P := row2 e ∈ set_iter set2 ∧ _))
      by (split; [by apply elem_of_set_iter|done]).
    case_decide; simpl; [|rewrite H1; simpl]; by rewrite bool_decide_eq_true_2.
  - rewrite Nat.min_r, Nat.max_l in * by lia.
    assert (s1 = set2) by congruence. subst s1.
    rewrite (decide_True (P := row1 e ∈ set_iter set2 ∧ _))
      by (split; [by apply elem_of_set_iter|done]).
    simpl. case_decide; simpl; [|rewrite H2; simpl]; by rewrite bool_decide_eq_true_2.
Qed.

(** C10. When the two rows of [e] already lie in one set, [merge e] leaves
    the whole state as it is (the indices, every member set and [nSets]);
    hence a second [merge e] right after a first one changes nothing. *)
Theorem merge_same_set_noop_idempotent (p : Partition) (e : Edge) :
  (inSameSet p e = Some true → merge p e = Some p) ∧
  (reachable p → ∀ p', merge p e = Some p' →
     inSameSet p' e = Some true ∧ merge p' e = Some p').
Proof.
  split; [apply inSameSet_true_merge|].
  intros Hr p' Hm.
  assert (inSameSet p' e = Some true) as Hs
    by (eapply merge_then_same_set; [by apply reachable_members_indexed|done]).
  split; [done|]. by apply inSameSet_true_merge.
Qed.

Lemma merge_same_set_noop_idempotent_witness :
  let p := Partition_new 5 in
  let e := mkEdge 1 3 0 in
  ∃ p', merge p e = Some p' ∧ inSameSet p' e = Some true ∧
        merge p' e = Some p' ∧ merge p' e = Some p'.
Proof.
  intros p e.
  destruct (merge p e) as [p'|] eqn:Hm; [|vm_compute in Hm; discriminate].
  exists p'. split; [reflexivity|].
  destruct (merge_same_set_noop_idempotent p e) as [_ H2].
  destruct (H2 (reach_new 5) p' Hm) as [Hs Hi].
  split; [exact Hs|]. split; [exact Hi|].
  destruct (merge_same_set_noop_idempotent p' e) as [H1 _].
  exact (H1 Hs).
Defined.

(** *** Weights and removal of one edge *)

Lemma total_lp_app T1 T2 : total_lp (T1 ++ T2) = (total_lp T1 + total_lp T2)%R.
Proof.
  induction T1 as [|e T1 IH]; simpl; [lra|]. unfold total_lp in *. simpl.
  rewrite IH. lra.
Qed.

Lemma filter_ne_notin (g : Edge) (X : list Edge) : g ∉ X → filter (λ f, f ≠ g) X = X.
Proof.
  induction X as [|x X IH]; intros Hn; [done|].
  rewrite filter_cons. apply not_elem_of_cons in Hn as [Hne Hn].
  rewrite decide_True by done. by rewrite IH.
Qed.

Lemma remove_edge_spec (g : Edge) (X : list Edge) :
  NoDup X → g ∈ X →
  total_lp X = (lp g + total_lp (filter (λ f, f ≠ g) X))%R ∧
  length X = S (length (filter (λ f, f ≠ g) X)).
Proof.
  induction 1 as [|x X Hx Hnd IH]; intros Hin; [by apply elem_of_nil in Hin|].
  rewrite filter_cons. destruct (decide (x = g)) as [->|Hne].
  - rewrite decide_False by (intros ?; done).
    rewrite filter_ne_notin by done. done.
  - rewrite decide_True by done.
    apply elem_of_cons in Hin as [->|Hin]; [done|].
    destruct (IH Hin) as [Hw Hl]. split.
    + change (total_lp (x :: X)) with (lp x + total_lp X)%R.
      change (total_lp (x :: filter (λ f, f ≠ g) X))
        with (lp x + total_lp (filter (λ f, f ≠ g) X))%R.
      rewrite Hw. lra.
    + simpl. by rewrite Hl.
Qed.

(** *** Walks *)

Lemma joins_sym e x y : joins e x y → joins e y x.
Proof. unfold joins. tauto. Qed.

Lemma adjacent_sym T x y : adjacent T x y → adjacent T y x.
Proof. intros (e & He & Hj). exists e. split; [done|by apply joins_sym]. Qed.

Lemma rtc_adjacent_sym T x y : rtc (adjacent T) x y → rtc (adjacent T) y x.
Proof.
  induction 1 as [|x y z Hxy _ IH]; [done|].
  eapply rtc_r; [exact IH|]. by apply adjacent_sym.
Qed.

Lemma adjacent_mono (T T' : list Edge) x y : T ⊆ T' → adjacent T x y → adjacent T' x y.
Proof. intros Hsub (e & He & Hj). exists e. split; [by apply Hsub|done]. Qed.

Lemma rtc_adjacent_mono (T T' : list Edge) x y :
  T ⊆ T' → rtc (adjacent T) x y → rtc (adjacent T') x y.
Proof.
  intros Hsub. induction 1 as [|x y z Hxy _ IH]; [done|].
  eapply rtc_l; [|exact IH]. by eapply adjacent_mono.
Qed.

(** A walk that ends outside [S] either stays outside, or leaves [S] for
    the last time along some edge. *)
Lemma walk_last_exit (S : gset nat) X s v :
  rtc (adjacent X) s v → v ∉ S →
  rtc (outside_step S X) s v ∨
  ∃ a b, a ∈ S ∧ b ∉ S ∧ adjacent X a b ∧ rtc (outside_step S X) b v.
Proof.
  intros Hw Hv. induction Hw as [v|s y v Hsy _ IH]; [by left|].
  destruct (IH Hv) as [Hout|Hex]; [|by right].
  assert (y ∉ S) as Hy.
  { inversion Hout as [|? z ? [_ [Hy _]]]; subst; done. }
  destruct (decide (s ∈ S)) as [Hs|Hs].
  - right. exists s, y. done.
  - left. eapply rtc_l; [|exact Hout]. done.
Qed.

Lemma walk_exit (S : gset nat) X s v :
  rtc (adjacent X) s v → s ∈ S → v ∉ S →
  ∃ a b, a ∈ S ∧ b ∉ S ∧ adjacent X a b ∧ rtc (outside_step S X) b v.
Proof.
  intros Hw Hs Hv. destruct (walk_last_exit S X s v Hw Hv) as [Hout|H]; [|done].
  exfalso. inversion Hout as [|? z ? [_ [Hs' _]]]; subst; done.
Qed.

(** Without the edge [g] between [a] and [b], a walk to [y] still exists
    from its start, from [a] or from [b]. *)
Lemma walk_without (g : Edge) (X : list Edge) a b x y :
  joins g a b → rtc (adjacent X) x y →
  rtc (adjacent (filter (λ f, f ≠ g) X)) x y ∨
  rtc (adjacent (filter (λ f, f ≠ g) X)) a y ∨
  rtc (adjacent (filter (λ f, f ≠ g) X)) b y.
Proof.
  intros Hg Hw. induction Hw as [y|x z y Hxz _ IH]; [by left|].
  destruct IH as [IH|IH]; [|by right].
  destruct Hxz as (f & Hf & Hj).
  destruct (decide (f = g)) as [->|Hne].
  - assert (z = a ∨ z = b) as [->| ->] by (unfold joins in *; naive_solver);
      right; [by left|by right].
  - left. eapply rtc_l; [|exact IH]. exists f. split; [|done].
    apply list_elem_of_filter. done.
Qed.

Lemma outside_walk_without (S : gset nat) (g : Edge) (X : list Edge) a b x y :
  joins g a b → a ∈ S →
  rtc (outside_step S X) x y → rtc (adjacent (filter (λ f, f ≠ g) X)) x y.
Proof.
  intros Hg Ha. induction 1 as [|x z y [(f & Hf & Hj) [Hx Hz]] _ IH]; [done|].
  eapply rtc_l; [|exact IH]. exists f. split; [|done].
  apply list_elem_of_filter. split; [|done].
  intros ->. unfold joins in *. naive_solver.
Qed.

(** The exchange step: when [e] is a best edge leaving [S] towards [v], an
    edge of [X] that leaves [S] can be given up, and [X] without it still
    links every vertex to [S] or to [v]. *)
Lemma exchange K (E : list Edge) (S : gset nat) (X : list Edge) e v :
  X ⊆ E → reach_from K S X → prim_choice E S e →
  v ∉ S → v < K →
  ∃ g, g ∈ X ∧ (lp g <= lp e)%R ∧
       reach_from K (S ∪ {[ v ]}) (filter (λ f, f ≠ g) X).
Proof.
  intros Hsub Hreach (He & Hcross & Hmax) Hv HvK.
  destruct (Hreach v HvK) as (s & Hs & Hw).
  destruct (walk_exit S X s v Hw Hs Hv) as (a & b & Ha & Hb & (g & Hg & Hj) & Hout).
  exists g. split; [done|]. split.
  { apply Hmax; [by apply Hsub|].
    unfold crossing, joins in *. naive_solver. }
  intros y Hy. destruct (Hreach y Hy) as (s' & Hs' & Hw').
  destruct (walk_without g X a b s' y Hj Hw') as [H|[H|H]].
  - exists s'. split; [set_solver|done].
  - exists a. split; [set_solver|done].
  - exists v. split; [set_solver|].
    etrans; [|exact H]. apply rtc_adjacent_sym.
    by eapply outside_walk_without.
Qed.

(** *** Facts about a run of Prim's algorithm *)

Lemma crossing_far_end (S : gset nat) e :
  crossing S e →
  ∃ u v, u ∈ S ∧ v ∉ S ∧ joins e u v ∧ S ∪ {[ row1 e; row2 e ]} = S ∪ {[ v ]}.
Proof.
  intros [[H1 H2]|[H1 H2]].
  - exists (row1 e), (row2 e). unfold joins. split_and!; [done|done|tauto|set_solver].
  - exists (row2 e), (row1 e). unfold joins. split_and!; [done|done|tauto|set_solver].
Qed.

Lemma prim_run_facts K (E : list Edge) S sel :
  0 < K → edges_ok K E → prim_run E S sel →
  0 ∈ S ∧ size S = Datatypes.S (length sel) ∧ sel ⊆ E ∧ NoDup sel ∧
  (∀ v, v ∈ S → rtc (adjacent sel) 0 v) ∧
  (∀ e, e ∈ sel → row1 e ∈ S ∧ row2 e ∈ S) ∧
  (∀ v, v ∈ S → v < K).
Proof.
  intros HK HE. induction 1 as [|S sel e Hrun IH (He & Hc & Hmax)].
  - split_and!.
    + set_solver.
    + by rewrite size_singleton.
    + intros x Hx. by apply elem_of_nil in Hx.
    + constructor.
    + intros v ?. assert (v = 0) as -> by set_solver. done.
    + intros x Hx. by apply elem_of_nil in Hx.
    + intros v ?. assert (v = 0) by set_solver. lia.
  - destruct IH as (H0 & Hsz & Hsub & Hnd & Hconn & Hin & Hlt).
    destruct (crossing_far_end S e Hc) as (u & v & Hu & Hv & Hj & ->).
    assert (row1 e < K ∧ row2 e < K) as [Hr1 Hr2] by (specialize (HE e He); lia).
    split_and!.
    + set_solver.
    + rewrite size_union by set_solver. rewrite size_singleton, length_app. simpl. lia.
    + intros x [Hx|Hx%list_elem_of_singleton]%elem_of_app; [by apply Hsub|by subst].
    + apply NoDup_app. split_and!; [done| |apply NoDup_singleton].
      intros x Hx ->%list_elem_of_singleton.
      destruct (Hin e Hx). unfold joins in Hj. naive_solver.
    + intros w [Hw|Hw]%elem_of_union.
      * eapply rtc_adjacent_mono; [|by apply Hconn].
        intros x Hx. apply elem_of_app. by left.
      * assert (w = v) as -> by set_solver.
        eapply rtc_r.
        -- eapply rtc_adjacent_mono; [|by apply (Hconn u)].
           intros x Hx. apply elem_of_app. by left.
        -- exists e. split; [|done]. apply elem_of_app. right. by apply list_elem_of_singleton.
    + intros x [Hx|Hx%list_elem_of_singleton]%elem_of_app.
      * destruct (Hin x Hx). set_solver.
      * subst x. unfold joins in Hj. set_solver.
    + intros w [Hw|Hw]%elem_of_union; [by apply Hlt|].
      assert (w = v) as -> by set_solver. unfold joins in Hj. naive_solver.
Qed.

(** Whatever spanning tree [T] is given, the edges chosen so far can be
    completed by a set [X] of edges of [E] that is at least as heavy as the
    rest of [T] and still links every vertex to [S]. *)
Lemma prim_run_dominates K (E : list Edge) S sel T :
  0 < K → edges_ok K E → prim_run E S sel → spanning_tree K E T →
  ∃ X : list Edge, NoDup X ∧ X ⊆ E ∧ reach_from K S X ∧
    length X + size S = K ∧
    (total_lp T <= total_lp sel + total_lp X)%R.
Proof.
  intros HK HE Hrun (HndT & HsubT & HlenT & HspT).
  induction Hrun as [|S sel e Hrun IH Hch].
  - exists T. split_and!; [done|done| | |].
    + intros v Hv. exists 0. split; [set_solver|by apply HspT].
    + rewrite size_singleton. lia.
    + unfold total_lp at 2. simpl. lra.
  - destruct IH as (X & Hnd & Hsub & Hreach & Hlen & Hw).
    pose proof Hch as (He & Hc & Hmax).
    destruct (crossing_far_end S e Hc) as (u & v & Hu & Hv & Hj & ->).
    assert (v < K) as HvK.
    { specialize (HE e He). unfold joins in Hj. naive_solver lia. }
    destruct (exchange K E S X e v Hsub Hreach Hch Hv HvK) as (g & Hg & Hle & Hreach').
    destruct (remove_edge_spec g X Hnd Hg) as [Hwg Hlg].
    exists (filter (λ f, f ≠ g) X). split_and!.
    + by apply NoDup_filter.
    + intros x Hx%list_elem_of_filter. apply Hsub. tauto.
    + done.
    + rewrite size_union by set_solver. rewrite size_singleton. lia.
    + rewrite total_lp_app. unfold total_lp at 3. simpl.
      fold (total_lp (filter (λ f, f ≠ g) X)). lra.
Qed.

(** *** The partition during [minSpanTree] *)

Lemma lookup_fmap_seq {A} (f : nat → A) K x :
  (f <$> seq 0 K) !! x = if decide (x < K) then Some (f x) else None.
Proof.
  rewrite list_lookup_fmap. case_decide as H.
  - by rewrite lookup_seq_lt.
  - by rewrite lookup_seq_ge by lia.
Qed.

Lemma partOf_new K : 0 < K → Partition_new K = partOf K {[ 0 ]}.
Proof.
  intros HK. unfold Partition_new, partOf. f_equal.
  - rewrite <- (list_fmap_id (seq 0 K)) at 1. apply list_fmap_ext.
    intros i x _. unfold idxOf. simpl. case_decide; set_solver.
  - apply list_fmap_ext. intros i x _.
    repeat case_decide; set_solver.
  - rewrite size_singleton. lia.
Qed.

Lemma idxOf_eq (S : gset nat) x y :
  0 ∈ S → x ≠ y → idxOf S x = idxOf S y ↔ x ∈ S ∧ y ∈ S.
Proof.
  intros H0 Hne. unfold idxOf. repeat case_decide; split; try tauto; try lia.
  - intros <-. done.
  - intros ->. done.
Qed.

Lemma inSameSet_partOf K (S : gset nat) e :
  row1 e < K → row2 e < K →
  inSameSet (partOf K S) e =
  Some (bool_decide (idxOf S (row1 e) = idxOf S (row2 e))).
Proof.
  intros H1 H2. unfold inSameSet. simpl.
  rewrite !lookup_fmap_seq, !decide_True by done. reflexivity.
Qed.

Lemma size_below K (S : gset nat) : (∀ v, v ∈ S → v < K) → size S ≤ K.
Proof.
  intros H. rewrite <- (size_set_seq (C := gset nat) 0 K).
  apply subseteq_size. intros v Hv. apply elem_of_set_seq. specialize (H v Hv). lia.
Qed.

Lemma full_below K (S : gset nat) v :
  (∀ v, v ∈ S → v < K) → size S = K → v < K → v ∈ S.
Proof.
  intros H Hsz Hv. destruct (decide (v ∈ S)) as [|Hn]; [done|exfalso].
  assert (size (S ∪ {[ v ]}) ≤ K).
  { apply size_below. intros w [?|?]%elem_of_union; [by apply H|].
    assert (w = v) by set_solver. lia. }
  rewrite size_union, size_singleton in * by set_solver. lia.
Qed.

Lemma merge_partOf K (S : gset nat) e :
  (Z.of_nat K < size_t_modulus)%Z →
  0 ∈ S → (∀ v, v ∈ S → v < K) → row1 e < K → row2 e < K → crossing S e →
  merge (partOf K S) e = Some (partOf K (S ∪ {[ row1 e; row2 e ]})).
Proof.
  intros HK H0 Hlt H1 H2 Hc.
  destruct (crossing_far_end S e Hc) as (u & v & Hu & Hv & Hj & ->).
  assert (u < K ∧ v < K ∧ v ≠ 0 ∧ u ≠ v) as (HuK & HvK & Hv0 & Huv)
    by (unfold joins in Hj; split_and!; set_solver by lia).
  assert (∃ i1 i2, seqSetIdx (partOf K S) !! row1 e = Some i1 ∧
                   seqSetIdx (partOf K S) !! row2 e = Some i2 ∧
                   i1 ≠ i2 ∧ i1 `min` i2 = 0 ∧ i1 `max` i2 = v)
    as (i1 & i2 & Hi1 & Hi2 & Hne & Hmin & Hmax).
  { simpl. rewrite !lookup_fmap_seq, !decide_True by done.
    do 2 eexists. split_and!; try reflexivity; unfold idxOf, joins in *;
      repeat case_decide; naive_solver lia. }
  unfold merge, inSameSet. rewrite Hi1, Hi2. simpl.
  rewrite bool_decide_eq_false_2 by done. simpl.
  replace (if decide (i2 < i1) then i2 else i1) with 0 by (case_decide; lia).
  replace (if decide (i2 < i1) then i1 else i2) with v by (case_decide; lia).
  rewrite !lookup_fmap_seq.
  rewrite (decide_True (P := 0 < K)) by lia.
  rewrite (decide_True (P := v < K)) by lia. simpl.
  rewrite (decide_False (P := v = 0)) by done.
  rewrite (decide_False (P := v ∈ S)) by done.
  f_equal. unfold partOf. f_equal.
  - apply list_eq. intros x. rewrite relabel_lookup, length_fmap, length_seq.
    rewrite !lookup_fmap_seq.
    destruct (decide (x < K)) as [Hx|Hx].
    + destruct (decide (x = v)) as [->|Hxv].
      * rewrite decide_True by (split; [apply elem_of_set_iter; set_solver|done]).
        unfold idxOf. rewrite decide_True by set_solver. done.
      * rewrite decide_False by (rewrite elem_of_set_iter; set_solver).
        unfold idxOf. repeat case_decide; set_solver.
    + rewrite decide_False by tauto. done.
  - apply list_eq. intros k.
    assert (length ((λ k0 : nat, if decide (k0 = 0) then S
             else if decide (k0 ∈ S) then (∅ : gset nat) else {[k0]}) <$> seq 0 K) = K)
      as Hlen by (by rewrite length_fmap, length_seq).
    rewrite lookup_fmap_seq.
    destruct (decide (k = v)) as [->|Hkv].
    { rewrite list_lookup_insert_eq by (rewrite length_insert, Hlen; done).
      rewrite decide_True by done. rewrite decide_False by done.
      rewrite decide_True by set_solver. done. }
    rewrite list_lookup_insert_ne by done.
    destruct (decide (k = 0)) as [->|Hk0].
    { rewrite list_lookup_insert_eq by (rewrite Hlen; lia).
      rewrite decide_True by lia. done. }
    rewrite list_lookup_insert_ne by done. rewrite lookup_fmap_seq.
    case_decide; [|done]. rewrite !(decide_False (P := k = 0)) by done.
    f_equal. repeat case_decide; set_solver.
  - rewrite size_union, size_singleton by set_solver.
    assert (size (S ∪ {[ v ]}) ≤ K).
    { apply size_below. intros w [?|?]%elem_of_union; [by apply Hlt|].
      assert (w = v) by set_solver. lia. }
    rewrite size_union, size_singleton in * by set_solver.
    rewrite Z.mod_small; unfold size_t_modulus in *; lia.
Qed.

(** *** The priority queues *)

Lemma Edge_ltb_true a b : Edge_ltb a b = true ↔ (lp a < lp b)%R.
Proof. unfold Edge_ltb. destruct (Rlt_dec (lp a) (lp b)); split; done. Qed.

Lemma Edge_ltb_false a b : Edge_ltb a b = false ↔ (lp b <= lp a)%R.
Proof.
  unfold Edge_ltb. destruct (Rlt_dec (lp a) (lp b)); split; try done; lra.
Qed.

Lemma elem_of_pq_push e q x : x ∈ pq_push e q ↔ x = e ∨ x ∈ q.
Proof.
  induction q as [|y q IH]; simpl.
  - rewrite list_elem_of_singleton. set_solver.
  - destruct (Edge_ltb y e); rewrite !elem_of_cons; [tauto|].
    rewrite IH. tauto.
Qed.

Lemma pq_push_descending e q : descending q → descending (pq_push e q).
Proof.
  unfold descending. induction 1 as [|y q Hq IH Hy]; simpl.
  - repeat constructor.
  - destruct (Edge_ltb y e) eqn:Hlt.
    + apply Edge_ltb_true in Hlt. constructor; [by constructor|].
      constructor; [lra|]. eapply Forall_impl; [exact Hy|]. simpl. intros; lra.
    + apply Edge_ltb_false in Hlt. constructor; [done|].
      apply Forall_forall. intros x [->|Hx]%elem_of_pq_push; [done|].
      by eapply Forall_forall in Hy.
Qed.

Lemma pop_stale_spec K (S : gset nat) q :
  0 ∈ S →
  (∀ e, e ∈ q → row1 e < row2 e < K) →
  ∃ d q', pop_stale (partOf K S) q = Some q' ∧ q = d ++ q' ∧
    (∀ e, e ∈ d → row1 e ∈ S ∧ row2 e ∈ S) ∧
    (∀ top rest, q' = top :: rest → ¬ (row1 top ∈ S ∧ row2 top ∈ S)).
Proof.
  intros H0. induction q as [|e q IH]; intros Hq.
  - exists [], []. split_and!; [done|done| |done].
    intros e He. by apply elem_of_nil in He.
  - assert (row1 e < row2 e < K) as He by (apply Hq; left).
    simpl. rewrite inSameSet_partOf by lia. simpl.
    case_bool_decide as Hsame.
    + apply idxOf_eq in Hsame; [|done|lia].
      destruct IH as (d & q' & Hpop & -> & Hd & Hhead).
      { intros x Hx. apply Hq. by right. }
      exists (e :: d), q'. split_and!; [done|done| |done].
      intros x [->|Hx]%elem_of_cons; [done|by apply Hd].
    + exists [], (e :: q). split_and!; [done|done| |].
      * intros x Hx. by apply elem_of_nil in Hx.
      * intros top rest [= <- <-] Hboth. apply Hsame. apply idxOf_eq; [done|lia|done].
Qed.

Lemma queues_ok_mono K E (S S' : gset nat) es :
  S ⊆ S' → queues_ok K E S es → queues_ok K E S' es.
Proof.
  intros Hsub [Hlen Hq]. split; [done|]. intros src q Hl.
  destruct (Hq src q Hl) as (Hd & Hs & Hc). split_and!; [done|done|].
  intros e He Hinc. destruct (Hc e He Hinc) as [?|[? ?]]; [by left|right]. set_solver.
Qed.

Lemma scan_step_spec K E (S : gset nat) es best visited src :
  0 ∈ S → edges_ok K E → queues_ok K E S es → src ∈ S → src < K →
  best_ok E S visited best →
  ∃ es' best', scan_step (partOf K S) (es, best) src = Some (es', best') ∧
    queues_ok K E S es' ∧ best_ok E S (visited ++ [src]) best'.
Proof.
  intros H0 HE [Hlen Hqs] Hsrc HsrcK [Hb1 Hb2].
  destruct (lookup_lt_is_Some_2 es src) as [q Hq]; [lia|].
  destruct (Hqs src q Hq) as (Hdesc & Hsound & Hcompl).
  destruct (pop_stale_spec K S q H0) as (d & q' & Hpop & Hsplit & Hd & Hhead).
  { intros e He. apply HE. by apply Hsound. }
  assert (queues_ok K E S (<[src:=q']> es)) as Hok'.
  { split; [by rewrite length_insert|]. intros src0 q0.
    destruct (decide (src0 = src)) as [->|Hne].
    - rewrite list_lookup_insert_eq by lia. intros [= <-]. split_and!.
      + unfold descending in *. rewrite Hsplit in Hdesc.
        by apply StronglySorted_app_1_r in Hdesc.
      + intros e He. apply Hsound. rewrite Hsplit. apply elem_of_app. by right.
      + intros e He Hinc. destruct (Hcompl e He Hinc) as [Hin|?]; [|by right].
        rewrite Hsplit in Hin. apply elem_of_app in Hin as [Hin|Hin]; [|by left].
        right. by apply Hd.
    - rewrite list_lookup_insert_ne by done. apply Hqs. }
  (* an edge leaving [S] at [src] is still queued *)
  assert (∀ f, f ∈ E → crossing S f → row1 f = src ∨ row2 f = src → f ∈ q') as Hkept.
  { intros f Hf Hc Hinc. destruct (Hcompl f Hf Hinc) as [Hin|Hst].
    - rewrite Hsplit in Hin. apply elem_of_app in Hin as [Hin|Hin]; [|done].
      exfalso. apply Hd in Hin. unfold crossing in Hc. tauto.
    - exfalso. unfold crossing in Hc. tauto. }
  unfold scan_step. simpl. rewrite Hq. simpl. rewrite Hpop. simpl.
  destruct q' as [|top rest].
  { exists (<[src:=[]]> es), best. split_and!; [done|done|]. split; [done|].
    intros f u Hf Hc Hinc Hu [Hv|Hv%list_elem_of_singleton]%elem_of_app.
    - by eapply Hb2.
    - subst u. exfalso. specialize (Hkept f Hf Hc Hinc). by apply elem_of_nil in Hkept. }
  assert (top ∈ E ∧ crossing S top) as [HtopE Htopc].
  { destruct (Hsound top) as [HtE Hinc].
    { rewrite Hsplit. apply elem_of_app. right. left. }
    split; [done|]. specialize (Hhead top rest eq_refl).
    unfold crossing. destruct Hinc as [<-|<-].
    - left. split; [done|]. tauto.
    - right. split; [done|]. tauto. }
  assert (∀ f, f ∈ E → crossing S f → row1 f = src ∨ row2 f = src →
               (lp f <= lp top)%R) as Htop.
  { intros f Hf Hc Hinc. specialize (Hkept f Hf Hc Hinc).
    apply elem_of_cons in Hkept as [->|Hin]; [lra|].
    unfold descending in Hdesc. rewrite Hsplit in Hdesc.
    apply StronglySorted_app_1_r in Hdesc. inversion Hdesc as [|? ? _ Hall]; subst.
    by eapply Forall_forall in Hall. }
  destruct best as [b|].
  - destruct (Edge_ltb b top) eqn:Hlt.
    + apply Edge_ltb_true in Hlt.
      exists (<[src:=top :: rest]> es), (Some top). split_and!; [done|done|]. split.
      * intros ? [= <-]. done.
      * intros f u Hf Hc Hinc Hu [Hv|Hv%list_elem_of_singleton]%elem_of_app.
        -- destruct (Hb2 f u Hf Hc Hinc Hu Hv) as (b' & [= <-] & Hle).
           exists top. split; [done|lra].
        -- subst u. exists top. split; [done|]. by apply Htop.
    + apply Edge_ltb_false in Hlt.
      exists (<[src:=top :: rest]> es), (Some b). split_and!; [done|done|]. split.
      * done.
      * intros f u Hf Hc Hinc Hu [Hv|Hv%list_elem_of_singleton]%elem_of_app.
        -- by eapply Hb2.
        -- subst u. exists b. split; [done|]. specialize (Htop f Hf Hc Hinc). lra.
  - exists (<[src:=top :: rest]> es), (Some top). split_and!; [done|done|]. split.
    + intros ? [= <-]. done.
    + intros f u Hf Hc Hinc Hu [Hv|Hv%list_elem_of_singleton]%elem_of_app.
      * destruct (Hb2 f u Hf Hc Hinc Hu Hv) as (b' & [=] & _).
      * subst u. exists top. split; [done|]. by apply Htop.
Qed.

Lemma scan_spec K E (S : gset nat) srcs :
  0 ∈ S → edges_ok K E → (∀ s, s ∈ srcs → s ∈ S ∧ s < K) →
  ∀ es best visited,
    queues_ok K E S es → best_ok E S visited best →
    ∃ es' best', scan (partOf K S) (es, best) srcs = Some (es', best') ∧
      queues_ok K E S es' ∧ best_ok E S (visited ++ srcs) best'.
Proof.
  intros H0 HE. induction srcs as [|src srcs IH]; intros Hs es best visited Hok Hb.
  - exists es, best. rewrite app_nil_r. done.
  - destruct (Hs src) as [HsS HsK]; [left|].
    destruct (scan_step_spec K E S es best visited src H0 HE Hok HsS HsK Hb)
      as (es1 & best1 & Hstep & Hok1 & Hb1).
    destruct (IH (λ s Hin, Hs s (list_elem_of_further _ _ _ Hin)) es1 best1 _ Hok1 Hb1)
      as (es2 & best2 & Hscan & Hok2 & Hb2).
    exists es2, best2. simpl. rewrite Hstep. simpl.
    rewrite <- app_assoc in Hb2. done.
Qed.

(** *** What the constructor stores *)

Lemma graph_holds_empty K : graph_holds K [] (AlignGraph_empty K).
Proof.
  unfold graph_holds, AlignGraph_empty. simpl. rewrite !length_replicate.
  split_and!; try done. intros src q [-> _]%lookup_replicate. split.
  - constructor.
  - intros e. split; [intros He; by apply elem_of_nil in He|].
    intros [He _]. by apply elem_of_nil in He.
Qed.

Lemma store_spec K E0 g d :
  graph_holds K E0 g → d_src d < d_dest d < K →
  ∃ g', AlignGraph_store g d = Some g' ∧ graph_holds K (E0 ++ [draw_edge d]) g'.
Proof.
  intros (Hn & Hle & Hlp & Hq) Hd.
  destruct (lookup_lt_is_Some_2 (edgePath g) (d_src d)) as [pm Hpm]; [lia|].
  destruct (lookup_lt_is_Some_2 (edges g) (d_src d)) as [q1 Hq1]; [lia|].
  destruct (lookup_lt_is_Some_2 (edges g) (d_dest d)) as [q2 Hq2]; [lia|].
  unfold AlignGraph_store. rewrite Hpm, Hq1. simpl.
  rewrite list_lookup_insert_ne by lia. rewrite Hq2. simpl.
  eexists. split; [reflexivity|].
  unfold graph_holds. simpl. rewrite !length_insert.
  split_and!; try done. intros src q.
  set (e := draw_edge d).
  assert (∀ x, x ∈ E0 ++ [e] ↔ x = e ∨ x ∈ E0) as Happ.
  { intros x. rewrite elem_of_app, list_elem_of_singleton. tauto. }
  destruct (decide (src = d_dest d)) as [->|Hne2].
  { rewrite list_lookup_insert_eq by (rewrite length_insert; lia).
    intros [= <-]. destruct (Hq _ _ Hq2) as [Hdesc Hmem]. split.
    - by apply pq_push_descending.
    - intros x. rewrite elem_of_pq_push, Hmem, Happ. subst e. simpl.
      split; [|tauto]. intros [->|?]; [|tauto]. simpl. tauto. }
  rewrite list_lookup_insert_ne by done.
  destruct (decide (src = d_src d)) as [->|Hne1].
  { rewrite list_lookup_insert_eq by lia.
    intros [= <-]. destruct (Hq _ _ Hq1) as [Hdesc Hmem]. split.
    - by apply pq_push_descending.
    - intros x. rewrite elem_of_pq_push, Hmem, Happ. subst e. simpl.
      split; [|tauto]. intros [->|?]; [|tauto]. simpl. tauto. }
  rewrite list_lookup_insert_ne by done. intros Hl.
  destruct (Hq _ _ Hl) as [Hdesc Hmem]. split; [done|].
  intros x. rewrite Hmem, Happ. subst e. split; [tauto|].
  intros [[->|?] Hinc]; [|tauto]. simpl in Hinc. lia.
Qed.

Lemma stores_spec K ds :
  valid_draws K ds →
  ∀ E0 g, graph_holds K E0 g →
    ∃ g', AlignGraph_stores g ds = Some g' ∧
          graph_holds K (E0 ++ (draw_edge <$> ds)) g'.
Proof.
  induction 1 as [|d ds Hd _ IH]; intros E0 g Hg.
  - exists g. simpl. rewrite app_nil_r. done.
  - destruct (store_spec K E0 g d Hg Hd) as (g1 & Hst & Hg1).
    destruct (IH _ _ Hg1) as (g2 & Hsts & Hg2).
    exists g2. simpl. rewrite Hst. simpl. split; [done|].
    rewrite <- app_assoc in Hg2. done.
Qed.

Lemma valid_draws_edges_ok K ds :
  valid_draws K ds → edges_ok K (draw_edge <$> ds).
Proof.
  intros Hv e (d & -> & Hd)%list_elem_of_fmap. simpl.
  unfold valid_draws in Hv. rewrite Forall_forall in Hv. by apply Hv.
Qed.

Lemma graph_holds_queues_ok K E g S :
  graph_holds K E g → queues_ok K E S (edges g).
Proof.
  intros (_ & Hle & _ & Hq). split; [done|]. intros src q Hl.
  destruct (Hq src q Hl) as [Hd Hm]. split_and!; [done| |].
  - intros e He. by apply Hm.
  - intros e He Hinc. left. apply Hm. done.
Qed.

(** *** The loop of [minSpanTree] follows Prim's algorithm *)

Lemma mst_loop_unfold fuel ep es part acc :
  mst_loop (S fuel) ep es part acc =
  if decide (1 < nSets part)%Z then
    front ← head (seqSet part);
    r ← scan part (es, None) (set_iter front);
    best ← r.2;
    path ← path_at ep (row1 best) (row2 best);
    part' ← merge part best;
    mst_loop fuel ep r.1 part' (acc ++ [(best, path)])
  else Some (acc, es).
Proof. reflexivity. Qed.

Lemma mst_loop_spec K (E : list Edge) ep :
  0 < K → (Z.of_nat K < size_t_modulus)%Z → edges_ok K E → spans K E →
  length ep = K →
  ∀ n fuel (S : gset nat) es acc,
    n + size S = K → n ≤ fuel →
    prim_run E S (acc.*1) → queues_ok K E S es → paths_stored ep acc →
    ∃ acc' es' S',
      mst_loop fuel ep es (partOf K S) acc = Some (acc', es') ∧
      prim_run E S' (acc'.*1) ∧ size S' = K ∧ paths_stored ep acc'.
Proof.
  intros HK HKm HE Hsp Hep.
  induction n as [|n IH]; intros fuel S es acc Hsz Hfuel Hrun Hok Hps.
  - exists acc, es, S.
    assert (mst_loop fuel ep es (partOf K S) acc = Some (acc, es)) as ->; [|done].
    destruct fuel; simpl; rewrite decide_False by lia; done.
  - destruct fuel as [|fuel]; [lia|].
    destruct (prim_run_facts K E S _ HK HE Hrun)
      as (H0 & _ & _ & _ & _ & _ & Hlt).
    (* some edge of [E] leaves [S] *)
    assert (∃ f, f ∈ E ∧ crossing S f) as (f & Hf & Hfc).
    { assert (∃ v, v < K ∧ v ∉ S) as (v & HvK & Hv).
      { destruct (decide (set_Forall (λ v, v ∈ S) (set_seq (C := gset nat) 0 K)))
          as [Hfull|Hnf].
        - assert (set_seq (C := gset nat) 0 K ⊆ S) as Hsub by (intros v Hv; by apply Hfull).
          apply subseteq_size in Hsub. rewrite size_set_seq in Hsub. lia.
        - apply not_set_Forall_Exists in Hnf as (v & Hv1 & Hv2); [|apply _].
          exists v. apply elem_of_set_seq in Hv1. split; [lia|done]. }
      destruct (walk_exit S E 0 v (Hsp v HvK) H0 Hv)
        as (a & b & Ha & Hb & (f & Hf & Hj) & _).
      exists f. split; [done|]. unfold crossing, joins in *. naive_solver. }
    destruct (scan_spec K E S (set_iter S) H0 HE) with (es := es)
      (best := @None Edge) (visited := @nil nat) as (es1 & best & Hscan & Hok1 & Hb1 & Hb2).
    { intros s Hs%elem_of_set_iter. split; [done|by apply Hlt]. }
    { done. }
    { split; [done|]. intros ? ? ? ? ? ? Hin. by apply elem_of_nil in Hin. }
    simpl in Hb2.
    assert (∃ b, best = Some b ∧ prim_choice E S b) as (b & -> & Hch).
    { destruct (crossing_far_end S f Hfc) as (u & v & Hu & Hv & Hj & _).
      destruct (Hb2 f u Hf Hfc) as (b & -> & _).
      { unfold joins in Hj. tauto. }
      { done. }
      { by apply elem_of_set_iter. }
      exists b. split; [done|]. destruct (Hb1 b eq_refl) as [HbE Hbc].
      split_and!; [done|done|].
      intros f' Hf' Hfc'.
      destruct (crossing_far_end S f' Hfc') as (u' & v' & Hu' & Hv' & Hj' & _).
      destruct (Hb2 f' u' Hf' Hfc') as (b' & [= <-] & Hle).
      { unfold joins in Hj'. tauto. }
      { done. }
      { by apply elem_of_set_iter. }
      done. }
    pose proof Hch as (HbE & Hbc & _).
    assert (row1 b < K ∧ row2 b < K) as [Hb1K Hb2K] by (specialize (HE b HbE); lia).
    destruct (lookup_lt_is_Some_2 ep (row1 b)) as [pm Hpm]; [lia|].
    set (S' := S ∪ {[ row1 b; row2 b ]}).
    assert (size S' = Datatypes.S (size S)) as HszS'.
    { destruct (crossing_far_end S b Hbc) as (u & v & Hu & Hv & Hj & Heq).
      unfold S'. rewrite Heq, size_union, size_singleton by set_solver. lia. }
    destruct (IH fuel S' es1 (acc ++ [(b, default ∅ (pm !! row2 b))]))
      as (acc' & es' & S'' & Hloop & Hrun' & Hsz' & Hps').
    { lia. }
    { lia. }
    { rewrite fmap_app. simpl. by apply prim_grow. }
    { eapply queues_ok_mono; [|exact Hok1]. unfold S'. set_solver. }
    { apply Forall_app. split; [done|]. apply Forall_singleton. simpl.
      unfold path_at. rewrite Hpm. done. }
    exists acc', es', S''. split; [|done].
    rewrite mst_loop_unfold. rewrite decide_True by (simpl; lia).
    assert (head (seqSet (partOf K S)) = Some S) as ->.
    { simpl. destruct K; [lia|]. simpl. done. }
    simpl. rewrite Hscan. simpl.
    unfold path_at. rewrite Hpm. simpl.
    rewrite merge_partOf by done. simpl. exact Hloop.
Qed.

Lemma pop_stale_only_stale part q q' :
  pop_stale part q = Some q' →
  ∃ d, q = d ++ q' ∧ ∀ e, e ∈ d → inSameSet part e = Some true.
Proof.
  revert q'. induction q as [|e q IH]; intros q'; simpl.
  - intros [= <-]. exists []. split; [done|]. intros e He. by apply elem_of_nil in He.
  - destruct (inSameSet part e) as [[]|] eqn:Hs; simpl; [| |done].
    + intros Hp. destruct (IH _ Hp) as (d & -> & Hd).
      exists (e :: d). split; [done|].
      intros x [->|Hx]%elem_of_cons; [done|by apply Hd].
    + intros [= <-]. exists []. split; [done|].
      intros x Hx. by apply elem_of_nil in Hx.
Qed.

(** C7. For a graph built over [K] sequences whose stored edges connect all
    [K] vertices, [minSpanTree] ends and returns exactly [K - 1] paths, each
    the path stored for the edge chosen in its turn; the chosen edges are a
    spanning tree of the [K] vertices; no spanning tree made of stored edges
    has a larger total [lp]; and the lazy clean-up of a queue only drops
    edges whose two rows are already in one set. *)
Theorem minSpanTree_maximum_spanning_tree (K : nat) (ds : list Draw) :
  0 < K → (Z.of_nat K < size_t_modulus)%Z → valid_draws K ds →
  spans K (draw_edge <$> ds) →
  ∃ g chosen queues,
    AlignGraph_built K ds = Some g ∧
    minSpanTree_trace g = Some (chosen, queues) ∧
    minSpanTree g = Some (chosen.*2) ∧
    length (chosen.*2) = K - 1 ∧
    paths_stored (edgePath g) chosen ∧
    spanning_tree K (draw_edge <$> ds) (chosen.*1) ∧
    (∀ T, spanning_tree K (draw_edge <$> ds) T →
          (total_lp T <= total_lp (chosen.*1))%R) ∧
    (∀ part q q', pop_stale part q = Some q' →
       ∃ d, q = d ++ q' ∧ ∀ e, e ∈ d → inSameSet part e = Some true).
Proof.
  intros HK HKm Hv Hsp.
  set (E := draw_edge <$> ds) in *.
  pose proof (valid_draws_edges_ok K ds Hv) as HE. fold E in HE.
  destruct (stores_spec K ds Hv [] _ (graph_holds_empty K)) as (g & Hbuilt & Hg).
  simpl in Hg. fold E in Hg.
  pose proof Hg as (Hn & _ & Hep & _).
  destruct (mst_loop_spec K E (edgePath g) HK HKm HE Hsp Hep (K - 1) K {[ 0 ]}
              (edges g) [])
    as (chosen & queues & S & Hloop & Hrun & Hsz & Hps).
  { rewrite size_singleton. lia. }
  { lia. }
  { constructor. }
  { by apply graph_holds_queues_ok. }
  { constructor. }
  assert (minSpanTree_trace g = Some (chosen, queues)) as Htr.
  { unfold minSpanTree_trace. rewrite Hn, partOf_new by done. exact Hloop. }
  destruct (prim_run_facts K E S _ HK HE Hrun)
    as (H0 & Hlen & Hsub & Hnd & Hconn & _ & Hlt).
  exists g, chosen, queues. split_and!.
  - done.
  - done.
  - unfold minSpanTree. rewrite Htr. done.
  - rewrite length_fmap. rewrite length_fmap in Hlen. lia.
  - done.
  - split_and!; [done|done|rewrite length_fmap in *; lia|].
    intros v Hv'. apply Hconn. by eapply full_below.
  - intros T HT.
    destruct (prim_run_dominates K E S _ T HK HE Hrun HT)
      as (X & _ & _ & _ & HlenX & Hw).
    assert (X = []) as -> by (apply length_zero_iff_nil; lia).
    unfold total_lp at 3 in Hw. simpl in Hw. lra.
  - apply pop_stale_only_stale.
Qed.

Lemma minSpanTree_maximum_spanning_tree_witness :
  ∃ g chosen queues,
    AlignGraph_built 3 three_draws = Some g ∧
    minSpanTree_trace g = Some (chosen, queues) ∧
    minSpanTree g = Some (chosen.*2) ∧
    length (chosen.*2) = 3 - 1 ∧
    paths_stored (edgePath g) chosen ∧
    spanning_tree 3 (draw_edge <$> three_draws) (chosen.*1) ∧
    (∀ T, spanning_tree 3 (draw_edge <$> three_draws) T →
          (total_lp T <= total_lp (chosen.*1))%R) ∧
    (∀ part q q', pop_stale part q = Some q' →
       ∃ d, q = d ++ q' ∧ ∀ e, e ∈ d → inSameSet part e = Some true).
Proof.
  apply (minSpanTree_maximum_spanning_tree 3 three_draws).
  - lia.
  - unfold size_t_modulus. lia.
  - unfold valid_draws, three_draws. repeat constructor; simpl; lia.
  - intros v Hv.
    assert (adjacent (draw_edge <$> three_draws) 0 1) as H01.
    { exists (mkEdge 0 1 (-1)). split; [left|left; done]. }
    assert (adjacent (draw_edge <$> three_draws) 0 2) as H02.
    { exists (mkEdge 0 2 (-3)). split; [right; right; left|left; done]. }
    destruct v as [|[|[|v]]]; [apply rtc_refl|by apply rtc_once|by apply rtc_once|lia].
Defined.

(** C6. From five singletons, merging edge(1,3), edge(0,4) and then
    edge(3,4) leaves [nSets = 2] and the non-empty sets {0,1,3,4} and {2};
    every merge relabels the members of the larger-indexed set, absorbs them
    into the smaller-indexed set and leaves the emptied set in place. *)
Theorem partition_merge_scenario (l13 l04 l34 : R) :
  let p0 := Partition_new 5 in
  ∃ p1 p2 p3,
    merge p0 (mkEdge 1 3 l13) = Some p1 ∧
    merge p1 (mkEdge 0 4 l04) = Some p2 ∧
    merge p2 (mkEdge 3 4 l34) = Some p3 ∧
    p1 = {| seqSetIdx := [0; 1; 2; 1; 4];
            seqSet := [ {[0]}; {[1; 3]}; {[2]}; ∅; {[4]} ];
            nSets := 4 |} ∧
    p2 = {| seqSetIdx := [0; 1; 2; 1; 0];
            seqSet := [ {[0; 4]}; {[1; 3]}; {[2]}; ∅; ∅ ];
            nSets := 3 |} ∧
    p3 = {| seqSetIdx := [0; 0; 2; 0; 0];
            seqSet := [ {[0; 1; 3; 4]}; ∅; {[2]}; ∅; ∅ ];
            nSets := 2 |} ∧
    nSets p3 = 2%Z ∧
    nonEmptySets p3 = [ {[0; 1; 3; 4]}; {[2]} ].
Proof.
  intros p0. do 3 eexists.
  split; [vm_compute; reflexivity|].
  split; [vm_compute; reflexivity|].
  split; [vm_compute; reflexivity|].
  repeat split; vm_compute; reflexivity.
Qed.

End SpanFacts.

(** ** The eigensystem at its edges *)

Module EigenEdges.
Import Numerics NumericsFacts Eigen EigenFacts CountsFacts.
Local Open Scope R_scope.
Local Unset Default Proof Using.

Lemma for_loop_opt_fails {St} n (body : St → nat → option St) s :
  for_loop_opt n body s = None →
  ∃ k s', (k < n)%nat ∧ for_loop_opt k body s = Some s' ∧ body s' k = None.
Proof.
induction n as [|n IH]; [done|]. rewrite SumProdFacts.for_loop_opt_S.
destruct (for_loop_opt n body s) as [s1|] eqn:E1; simpl.
- intros Hb. exists n, s1. split; [lia|done].
- intros _. destruct (IH eq_refl) as (k & s' & Hk & H1 & H2).
  exists k, s'. split; [lia|done].
Qed.

(** X1. [getSubProbMatrix (t)] holds at [(i,j)] what [getSubProb (t, i, j)]
    returns, a real in [[0,1]]; it raises exactly when [getSubProb] raises
    for some pair of tokens. *)
Theorem getSubProbMatrix_agrees_with_getSubProb (em : EigenModel) (t : double) :
  match getSubProbMatrix em t with
  | Some sub =>
      ∀ i j, (i < alphabetSize (model em))%nat → (j < alphabetSize (model em))%nat →
        getSubProb em t i j = Some (sub i j) ∧ ∃ r, sub i j = Fin r ∧ 0 <= r <= 1
  | None =>
      ∃ i j, (i < alphabetSize (model em))%nat ∧ (j < alphabetSize (model em))%nat ∧
        getSubProb em t i j = None
  end.
Proof.
destruct (getSubProbMatrix em t) as [sub|] eqn:Hrun.
- intros i j Hi Hj. split.
  + unfold getSubProbMatrix in Hrun.
    apply (fill_matrix_opt _ _ _ _ _ Hrun i j Hi Hj).
  + by apply (getSubProbMatrix_range em t).
- unfold getSubProbMatrix in Hrun.
  apply for_loop_opt_fails in Hrun as (i & m & Hi & _ & Hrow).
  apply for_loop_opt_fails in Hrow as (j & m' & Hj & _ & Hcell).
  exists i, j. split; [done|]. split; [done|]. unfold getSubProb.
  destruct (getSubProbInner _ t i j); [done|done].
Qed.

Lemma dmax_zero_is_count x : is_count (dmax (Fin 0) x).
Proof.
unfold dmax. destruct x as [r| | |]; simpl.
- destruct (Rlt_dec 0 r); right; eexists; split; try reflexivity; lra.
- by left.
- right. exists 0. split; [done|lra].
- right. exists 0. split; [done|lra].
Qed.

(** [getSubCount] raises exactly when the imaginary part of the sum [c_ij]
    is not accepted as zero; what it returns is a real that is not negative
    or plus infinity. *)
Lemma getSubCount_is_count (em : EigenModel) (a b i j : nat)
    (sub : nat → nat → double) (eSubCount : nat → nat → gsl_complex) :
  match getSubCount em a b i j sub eSubCount with
  | Some v => SUMPROD_NEAR_REAL (subCountSum em a b i j eSubCount) = true ∧ is_count v
  | None => SUMPROD_NEAR_REAL (subCountSum em a b i j eSubCount) = false
  end.
Proof.
unfold getSubCount. destruct (SUMPROD_NEAR_REAL _); [|done].
split; [done|]. apply dmax_zero_is_count.
Qed.

Lemma for_loop_opt_stops {St} n k (body : St → nat → option St) s :
  (k < n)%nat → (∀ s', body s' k = None) → for_loop_opt n body s = None.
Proof.
intros Hk Hbody. apply (SumProdFacts.for_loop_opt_None (S k) n); [lia|].
rewrite SumProdFacts.for_loop_opt_S. destruct (for_loop_opt k body s); simpl; [apply Hbody|done].
Qed.

(** X2. [accumSubCounts] raises exactly when [getSubCount] raises for some
    pair [(i,j)] of tokens. Otherwise it adds to every entry [(i,j)] below
    the alphabet size the count [getSubCount (a, b, i, j)] times [weight],
    and that count is a real that is not negative or plus infinity, never
    NaN and never a negative number, whatever the matrices hold (a zero
    [p_ab] included); the other entries stay as they are. *)
Theorem accumSubCounts_adds_counts (em : EigenModel) (count : nat → nat → double)
    (a b : nat) (weight : double) (sub : nat → nat → double)
    (eSubCount : nat → nat → gsl_complex) :
  match accumSubCounts em count a b weight sub eSubCount with
  | Some count' =>
      ∀ i j,
        if decide (i < alphabetSize (model em) ∧ j < alphabetSize (model em))%nat
        then ∃ c, getSubCount em a b i j sub eSubCount = Some c ∧ is_count c ∧
                  count' i j = dadd (count i j) (dmul c weight)
        else count' i j = count i j
  | None =>
      ∃ i j, (i < alphabetSize (model em))%nat ∧ (j < alphabetSize (model em))%nat ∧
             getSubCount em a b i j sub eSubCount = None
  end.
Proof.
set (A := alphabetSize (model em)).
destruct (accumSubCounts em count a b weight sub eSubCount) as [count'|] eqn:Hrun.
- assert (∀ i j, (i < A)%nat → (j < A)%nat →
            is_Some (getSubCount em a b i j sub eSubCount)) as Hall.
  { intros i j Hi Hj.
    destruct (getSubCount em a b i j sub eSubCount) as [c|] eqn:Hc; [eauto|]. exfalso.
    unfold accumSubCounts in Hrun. fold A in Hrun.
    rewrite (for_loop_opt_stops A i) in Hrun; [done|done|].
    intros m. apply (for_loop_opt_stops A j); [done|]. intros m'. by rewrite Hc. }
  destruct (update_matrix_opt A A (λ i j, getSubCount em a b i j sub eSubCount)
              (λ x c, dadd x (dmul c weight))
              (λ i j, default (Fin 0) (getSubCount em a b i j sub eSubCount)) count)
    as (m' & Hm' & Hent).
  { intros i j Hi Hj. by destruct (Hall i j Hi Hj) as [c ->]. }
  unfold accumSubCounts in Hrun. fold A in Hrun. rewrite Hm' in Hrun.
  injection Hrun as <-. intros i j. rewrite Hent.
  destruct (decide (i < A ∧ j < A)%nat) as [[Hi Hj]|]; [|done].
  destruct (Hall i j Hi Hj) as [c Hc]. exists c. rewrite Hc. simpl.
  split; [done|]. split; [|done].
  pose proof (getSubCount_is_count em a b i j sub eSubCount) as H.
  rewrite Hc in H. apply H.
- unfold accumSubCounts in Hrun. fold A in Hrun.
  apply for_loop_opt_fails in Hrun as (i & m & Hi & _ & Hrow).
  apply for_loop_opt_fails in Hrow as (j & m' & Hj & _ & Hcell).
  exists i, j. split; [done|]. split; [done|].
  by destruct (getSubCount em a b i j sub eSubCount).
Qed.

Lemma Cexp_zero z : Cexp (Cscale 0 z) = (1, 0).
Proof.
unfold Cexp, Cscale. simpl. rewrite !Rmult_0_l, exp_0, cos_0, sin_0.
f_equal; ring.
Qed.

(** X3. On a branch of length 0 every eigen-substitution count is zero. *)
Theorem eigenSubCount_zero_length (em : EigenModel) (lam : nat → C) (k l : nat) :
  (∀ n, (n < alphabetSize (model em))%nat → ev em n = cfin (lam n)) →
  (k < alphabetSize (model em))%nat → (l < alphabetSize (model em))%nat →
  eigenSubCount em (Fin 0) k l = (Fin 0, Fin 0).
Proof.
intros Hev Hk Hl. rewrite eigenSubCount_entry by done.
rewrite !Hev by done.
rewrite !mul_real_cfin, !exp_cfin, mul_real_cfin, !sub_cfin, !Cexp_zero.
destruct (bool_decide (k = l) || SUMPROD_NEAR_EQ_COMPLEX _ _) eqn:Hdeg.
- unfold cfin, Cscale. simpl. f_equal; f_equal; ring.
- rewrite div_cfin.
  + unfold cfin, Cdiv, Csub. simpl. f_equal; f_equal; unfold Rdiv; ring.
  + intros H0. assert (lam k = lam l) as Hkl.
    { destruct (lam k), (lam l). unfold Csub, C0 in H0. simpl in H0.
      injection H0 as H1 H2. f_equal; lra. }
    rewrite Hkl, near_eq_complex_refl, orb_true_r in Hdeg. done.
Qed.

Lemma eigenSubCount_zero_length_witness :
  eigenSubCount jc_model (Fin 0) 0 1 = (Fin 0, Fin 0).
Proof.
apply (eigenSubCount_zero_length jc_model
         (λ n, (if decide (n = 1%nat) then -2 else 0, 0))).
- intros n Hn. reflexivity.
- simpl. lia.
- simpl. lia.
Defined.

Lemma frexp_exponent_abs x y :
  Rabs x = Rabs y → frexp_exponent (Fin x) = frexp_exponent (Fin y).
Proof.
intros Habs. simpl.
destruct (Req_dec_T x 0) as [Hx|Hx], (Req_dec_T y 0) as [Hy|Hy]; try done.
- subst x. rewrite Rabs_R0 in Habs. symmetry in Habs.
  exfalso. apply Hy. destruct (Req_dec_T y 0); [done|].
  apply Rabs_no_R0 in n. done.
- subst y. rewrite Rabs_R0 in Habs. exfalso. by apply (Rabs_no_R0 x).
- by rewrite Habs.
Qed.

Lemma gsl_fcmp_zero_sym x y e :
  gsl_fcmp (Fin x) (Fin y) (Fin e) = 0%Z → gsl_fcmp (Fin y) (Fin x) (Fin e) = 0%Z.
Proof.
unfold gsl_fcmp, ldexp.
assert (frexp_exponent (if dlt (dabs (Fin x)) (dabs (Fin y)) then Fin y else Fin x) =
        frexp_exponent (if dlt (dabs (Fin y)) (dabs (Fin x)) then Fin x else Fin y)) as ->.
{ simpl. destruct (Rlt_dec (Rabs x) (Rabs y)), (Rlt_dec (Rabs y) (Rabs x));
    try done; [exfalso; lra|].
  apply frexp_exponent_abs. lra. }
set (E := frexp_exponent _). simpl.
destruct (Rlt_dec (e * powerRZ 2 E) (x + - y)); [done|].
destruct (Rlt_dec (x + - y) (- (e * powerRZ 2 E))); [done|]. intros _.
destruct (Rlt_dec (e * powerRZ 2 E) (y + - x)); [lra|].
destruct (Rlt_dec (y + - x) (- (e * powerRZ 2 E))); [lra|]. done.
Qed.

Lemma near_eq_complex_sym a b :
  SUMPROD_NEAR_EQ_COMPLEX (cfin a) (cfin b) = SUMPROD_NEAR_EQ_COMPLEX (cfin b) (cfin a).
Proof.
unfold SUMPROD_NEAR_EQ_COMPLEX, SUMPROD_NEAR_EQ, SUMPROD_EPSILON, cfin. simpl.
assert (∀ x y, bool_decide (gsl_fcmp (Fin x) (Fin y) (Fin (1 / 1000000)) = 0%Z) =
               bool_decide (gsl_fcmp (Fin y) (Fin x) (Fin (1 / 1000000)) = 0%Z)) as H.
{ intros x y. apply bool_decide_ext. split; apply gsl_fcmp_zero_sym. }
by rewrite (H a.1 b.1), (H a.2 b.2).
Qed.

(** X4. The matrix of [eigenSubCount] is symmetric at a pair of eigenvalues
    that the comparison tells apart. *)
Theorem eigenSubCount_symmetric (em : EigenModel) (lam : nat → C) (t : R) (k l : nat) :
  (∀ n, (n < alphabetSize (model em))%nat → ev em n = cfin (lam n)) →
  (k < alphabetSize (model em))%nat → (l < alphabetSize (model em))%nat →
  SUMPROD_NEAR_EQ_COMPLEX (ev em k) (ev em l) = false →
  eigenSubCount em (Fin t) k l = eigenSubCount em (Fin t) l k.
Proof.
intros Hev Hk Hl Hne. rewrite !eigenSubCount_entry by done.
assert (SUMPROD_NEAR_EQ_COMPLEX (ev em l) (ev em k) = false) as Hne'.
{ rewrite !Hev in * by done. by rewrite near_eq_complex_sym. }
assert (k ≠ l) as Hkl.
{ intros ->. rewrite Hev, near_eq_complex_refl in Hne by done. done. }
rewrite Hne, Hne'. rewrite !bool_decide_eq_false_2 by done. simpl.
rewrite !Hev by done.
rewrite !mul_real_cfin, !exp_cfin, !sub_cfin.
assert (Csub (lam k) (lam l) ≠ C0) as Hd.
{ intros H0. assert (lam k = lam l) as Heq.
  { destruct (lam k), (lam l). unfold Csub, C0 in H0. simpl in H0.
    injection H0 as H1 H2. f_equal; lra. }
  rewrite !Hev, Heq, near_eq_complex_refl in Hne by done. done. }
assert (Csub (lam l) (lam k) ≠ C0) as Hd'.
{ intros H0. apply Hd. destruct (lam k), (lam l). unfold Csub, C0 in *. simpl in *.
  injection H0 as H1 H2. f_equal; lra. }
rewrite !div_cfin by done. f_equal.
set (ek := Cexp _). set (el := Cexp _).
destruct ek as [a1 a2], el as [b1 b2], (lam k) as [c1 c2] eqn:Ek, (lam l) as [d1 d2] eqn:El.
unfold Cdiv, Csub in *. simpl in *.
assert ((c1 + - d1) * (c1 + - d1) + (c2 + - d2) * (c2 + - d2) ≠ 0) as Hn.
{ intros H0. apply Hd. unfold C0.
  set (u := c1 + - d1) in *. set (v := c2 + - d2) in *.
  assert (u = 0 ∧ v = 0) as [-> ->] by (split; nra). done. }
assert ((d1 + - c1) * (d1 + - c1) + (d2 + - c2) * (d2 + - c2) ≠ 0) as Hn'.
{ intros H0. apply Hn. rewrite <- H0. ring. }
f_equal; field; auto.
Qed.

Lemma eigenSubCount_symmetric_witness :
  eigenSubCount jc_model (Fin 1) 0 1 = eigenSubCount jc_model (Fin 1) 1 0.
Proof.
apply (eigenSubCount_symmetric jc_model
         (λ n, (if decide (n = 1%nat) then -2 else 0, 0))).
- intros n Hn. reflexivity.
- simpl. lia.
- simpl. lia.
- unfold SUMPROD_NEAR_EQ_COMPLEX, SUMPROD_NEAR_EQ, SUMPROD_EPSILON. simpl.
  rewrite (bool_decide_eq_false_2 (gsl_fcmp (Fin 0) (Fin (-2)) _ = 0%Z)); [done|].
  apply gsl_fcmp_zero_nonzero; lra.
Defined.

(** X5. At [t = 0] the spectral sum of a finite eigensystem is the product
    of [evec] and [evecInv] that [evecInv_evec] computes: [getSubProb (0, i, j)]
    is its real part clamped into [[0,1]], and raises when it has an
    imaginary part. *)
Theorem getSubProb_zero_length (em : EigenModel) (V Vi : nat → nat → C)
    (lam : nat → C) (i j : nat) :
  (∀ n, (n < alphabetSize (model em))%nat → ev em n = cfin (lam n)) →
  (∀ a k, (a < alphabetSize (model em))%nat → (k < alphabetSize (model em))%nat →
     evec em a k = cfin (V a k) ∧ evecInv em a k = cfin (Vi a k)) →
  (i < alphabetSize (model em))%nat → (j < alphabetSize (model em))%nat →
  ∃ z, evecInv_evec em i j = cfin z ∧
       getSubProb em (Fin 0) i j =
         if bool_decide (z.2 = 0) then Some (Fin (clamp01 z.1)) else None.
Proof.
intros Hev HV Hi Hj.
exists (Csum (alphabetSize (model em)) (λ k, Cmul (V i k) (Vi k j))).
assert (evecInv_evec em i j =
        cfin (Csum (alphabetSize (model em)) (λ k, Cmul (V i k) (Vi k j)))) as He.
{ apply (csum_cfin _ (λ k, gsl_complex_mul (evec em i k) (evecInv em k j))).
  intros k Hk. by rewrite (proj1 (HV i k Hi Hk)), (proj2 (HV k j Hk Hj)), mul_cfin. }
split; [exact He|]. unfold getSubProb, getSubProbInner.
rewrite subProbSum_spectral. unfold spectral_sum.
rewrite (csum_cfin _ _ (λ k, Cmul (V i k) (Vi k j))).
- unfold cfin at 1. rewrite SUMPROD_NEAR_REAL_Fin.
  destruct (bool_decide _); [|done]. unfold cfin, GSL_REAL. simpl fst.
  by rewrite clamp_Fin.
- intros k Hk.
  rewrite (proj1 (HV i k Hi Hk)), (proj2 (HV k j Hk Hj)), Hev by done.
  rewrite mul_real_cfin, exp_cfin, !mul_cfin, Cexp_zero. f_equal.
  destruct (Cmul (V i k) (Vi k j)). unfold Cmul. simpl. f_equal; ring.
Qed.

Lemma getSubProb_zero_length_witness :
  ∃ z, evecInv_evec jc_model 0 0 = cfin z ∧
       getSubProb jc_model (Fin 0) 0 0 =
         if bool_decide (z.2 = 0) then Some (Fin (clamp01 z.1)) else None.
Proof.
apply (getSubProb_zero_length jc_model
         (λ i k, (if decide (i = 1%nat ∧ k = 1%nat) then -1 else 1, 0))
         (λ k j, (if decide (k = 1%nat ∧ j = 1%nat) then - (1 / 2) else 1 / 2, 0))
         (λ n, (if decide (n = 1%nat) then -2 else 0, 0))).
- intros n Hn. reflexivity.
- intros a k Ha Hk. split; reflexivity.
- simpl. lia.
- simpl. lia.
Defined.

End EigenEdges.

(** ** The partition as a union-find, the constructor and [minSpanTree] *)

Module PartitionFacts.
Import Span SpanFacts.
Local Unset Default Proof Using.

Lemma merges_app p es1 es2 :
  merges p (es1 ++ es2) = (p' ← merges p es1; merges p' es2).
Proof.
  revert p. induction es1 as [|e es1 IH]; intros p; [done|]. simpl.
  destruct (merge p e) as [p1|]; simpl; [apply IH|done].
Qed.

Lemma filter_length_insert {A} (P : A → Prop) `{∀ x, Decision (P x)} (l : list A) k x y :
  l !! k = Some x →
  length (filter P (<[k := y]> l)) + (if decide (P x) then 1 else 0) =
  length (filter P l) + (if decide (P y) then 1 else 0).
Proof.
  revert k. induction l as [|a l IH]; intros k Hk; [done|].
  destruct k as [|k]; simpl in *.
  - injection Hk as ->. rewrite !filter_cons.
    destruct (decide (P x)), (decide (P y)); simpl; lia.
  - rewrite !filter_cons. specialize (IH k Hk).
    destruct (decide (P a)); simpl; lia.
Qed.

Lemma filter_all {A} (P : A → Prop) `{∀ x, Decision (P x)} (l : list A) :
  Forall P l → filter P l = l.
Proof.
  induction 1 as [|x l Hx _ IH]; [done|].
  rewrite filter_cons, decide_True by done. by rewrite IH.
Qed.

Lemma size_list_to_set_le (l : list nat) :
  size (list_to_set l : gset nat) ≤ length l.
Proof.
  induction l as [|x l IH]; [done|]. simpl.
  rewrite size_union_alt, size_singleton.
  assert (size ((list_to_set l : gset nat) ∖ {[x]}) ≤ size (list_to_set l : gset nat))
    by (apply subseteq_size; set_solver).
  lia.
Qed.

Lemma partition_ok_new n : (Z.of_nat n < size_t_modulus)%Z → partition_ok n (Partition_new n).
Proof.
  intros Hn. unfold partition_ok, Partition_new, nonEmptySets. simpl.
  rewrite length_seq, length_fmap, length_seq. split_and!; try done.
  - intros x k Hx. apply lookup_seq in Hx. lia.
  - intros k s x Hs. rewrite list_lookup_fmap in Hs.
    destruct (seq 0 n !! k) as [k'|] eqn:Hk; [|done]. simpl in Hs.
    injection Hs as <-. apply lookup_seq in Hk as [-> Hk].
    rewrite lookup_seq. set_solver by lia.
  - f_equal. rewrite size_list_to_set by apply NoDup_seq. by rewrite length_seq.
  - f_equal. rewrite filter_all.
    + by rewrite length_fmap, length_seq.
    + apply Forall_fmap, Forall_forall. intros x _. simpl. set_solver.
Qed.

(** After a [merge] that joins two sets, every index [max] has become
    [min]. *)
Lemma merge_relabels n p (i1 i2 : nat) set2 x :
  partition_ok n p → seqSet p !! (i1 `max` i2) = Some set2 →
  relabel (i1 `min` i2) (set_iter set2) (seqSetIdx p) !! x =
  (λ k, if decide (k = i1 `max` i2) then i1 `min` i2 else k) <$> seqSetIdx p !! x.
Proof.
  intros (Hl1 & Hl2 & Hr & Hm & _) Hs2. rewrite relabel_lookup.
  destruct (seqSetIdx p !! x) as [k|] eqn:Hx; simpl.
  - pose proof (lookup_lt_Some _ _ _ Hx).
    destruct (decide (k = i1 `max` i2)) as [->|Hk].
    + rewrite decide_True; [done|]. split; [|done].
      apply elem_of_set_iter. by apply (Hm _ _ x Hs2).
    + rewrite decide_False; [done|]. intros [Hin _].
      apply elem_of_set_iter in Hin. apply (Hm _ _ x Hs2) in Hin. congruence.
  - rewrite decide_False; [done|]. intros [_ Hlt].
    apply lookup_lt_is_Some_2 in Hlt as [? ?]. congruence.
Qed.

Lemma partition_ok_merge n p e p' :
  (Z.of_nat n < size_t_modulus)%Z →
  partition_ok n p → merge p e = Some p' → partition_ok n p'.
Proof.
  intros Hn Hok Hmerge.
  destruct (merge_Some_inv _ _ _ Hmerge)
    as [[_ ->]|(i1 & i2 & set1 & set2 & H1 & H2 & Hne & Hs1 & Hs2 & ->)]; [done|].
  pose proof (merge_relabels n p i1 i2 set2) as Hrel.
  destruct Hok as (Hl1 & Hl2 & Hr & Hm & Hn1 & Hn2).
  assert (partition_ok n p) as Hok by done.
  assert (Hlo : i1 `min` i2 < n) by (rewrite <- Hl2; eapply lookup_lt_Some; done).
  assert (Hhi : i1 `max` i2 < n) by (rewrite <- Hl2; eapply lookup_lt_Some; done).
  assert (Hd : i1 `min` i2 ≠ i1 `max` i2) by lia.
  assert (∃ r, seqSetIdx p !! r = Some (i1 `min` i2)) as [rmin Hrmin].
  { destruct (decide (i1 < i2)); [exists (row1 e)|exists (row2 e)];
      [rewrite Nat.min_l by lia|rewrite Nat.min_r by lia]; done. }
  assert (∃ r, seqSetIdx p !! r = Some (i1 `max` i2)) as [rmax Hrmax].
  { destruct (decide (i1 < i2)); [exists (row2 e)|exists (row1 e)];
      [rewrite Nat.max_r by lia|rewrite Nat.max_l by lia]; done. }
  assert (set1 ≠ ∅) as Hne1.
  { apply (Hm _ _ rmin Hs1) in Hrmin. set_solver. }
  assert (set2 ≠ ∅) as Hne2.
  { apply (Hm _ _ rmax Hs2) in Hrmax. set_solver. }
  assert ((list_to_set (relabel (i1 `min` i2) (set_iter set2) (seqSetIdx p)) : gset nat)
          = list_to_set (seqSetIdx p) ∖ {[ i1 `max` i2 ]}) as Hlabels.
  { apply set_eq. intros k.
    rewrite elem_of_difference, !elem_of_list_to_set, !list_elem_of_lookup,
      elem_of_singleton.
    split.
    - intros [x Hx]. rewrite Hrel in Hx by done.
      destruct (seqSetIdx p !! x) as [k'|] eqn:Hk'; [|done]. simpl in Hx.
      injection Hx as <-. case_decide; [split; [eauto|lia]|split; [eauto|done]].
    - intros [[x Hx] Hk]. exists x. rewrite Hrel by done. rewrite Hx. simpl.
      by rewrite decide_False. }
  unfold partition_ok, nonEmptySets. simpl.
  rewrite relabel_length, !length_insert. split_and!; try done.
  - intros x k. rewrite Hrel by done.
    destruct (seqSetIdx p !! x) as [k'|] eqn:Hk'; [|done]. simpl. intros [= <-].
    case_decide; [done|]. by eapply Hr.
  - intros k s x Hs. rewrite Hrel by done.
    destruct (decide (k = i1 `max` i2)) as [->|Hk1].
    { rewrite list_lookup_insert_eq in Hs by (rewrite length_insert; lia).
      injection Hs as <-. split; [set_solver|].
      destruct (seqSetIdx p !! x) as [k'|]; [|done]. simpl. intros [= Hk'].
      case_decide; lia. }
    rewrite list_lookup_insert_ne in Hs by done.
    destruct (decide (k = i1 `min` i2)) as [->|Hk2].
    { rewrite list_lookup_insert_eq in Hs by lia. injection Hs as <-.
      rewrite elem_of_union, (Hm _ _ x Hs1), (Hm _ _ x Hs2).
      destruct (seqSetIdx p !! x) as [k'|]; simpl; [|naive_solver].
      case_decide; naive_solver. }
    rewrite list_lookup_insert_ne in Hs by done. rewrite (Hm _ _ x Hs).
    destruct (seqSetIdx p !! x) as [k'|]; simpl; [|naive_solver].
    case_decide; naive_solver.
  - rewrite Hlabels.
    assert (i1 `max` i2 ∈ (list_to_set (seqSetIdx p) : gset nat)) as Hin.
    { apply elem_of_list_to_set, list_elem_of_lookup. eauto. }
    assert (size (list_to_set (seqSetIdx p) : gset nat) =
            S (size ((list_to_set (seqSetIdx p) : gset nat) ∖ {[ i1 `max` i2 ]}))) as Hsz.
    { rewrite size_difference by set_solver. rewrite size_singleton.
      assert (size (list_to_set (seqSetIdx p) : gset nat) ≠ 0); [|lia].
      intros H0. apply size_empty_inv in H0. set_solver. }
    rewrite Hn1, Hsz.
    assert (size (list_to_set (seqSetIdx p) : gset nat) ≤ n) as Hle.
    { rewrite <- Hl1. apply size_list_to_set_le. }
    rewrite Z.mod_small; unfold size_t_modulus in *; lia.
  - pose proof (filter_length_insert (λ s : gset nat, s ≠ ∅) (seqSet p)
                  (i1 `min` i2) set1 (set1 ∪ set2) Hs1) as F1.
    rewrite decide_True in F1 by done.
    rewrite decide_True in F1 by set_solver.
    pose proof (filter_length_insert (λ s : gset nat, s ≠ ∅)
                  (<[i1 `min` i2 := set1 ∪ set2]> (seqSet p))
                  (i1 `max` i2) set2 ∅) as F2.
    rewrite list_lookup_insert_ne in F2 by done. specialize (F2 Hs2).
    rewrite decide_True in F2 by done.
    rewrite decide_False in F2 by (intros H; by apply H).
    rewrite Hn2.
    assert (length (filter (λ s : gset nat, s ≠ ∅) (seqSet p)) ≤ n) as Hle.
    { rewrite <- Hl2. apply length_filter. }
    unfold nonEmptySets in *.
    rewrite Z.mod_small; unfold size_t_modulus in *; lia.
Qed.

Lemma partition_ok_merges n es : 
  (Z.of_nat n < size_t_modulus)%Z →
  ∀ p p', partition_ok n p → merges p es = Some p' → partition_ok n p'.
Proof.
  intros Hn. induction es as [|e es IH]; intros p p' Hok; simpl.
  - by intros [= <-].
  - destruct (merge p e) as [p1|] eqn:Hm; simpl; [|done].
    apply IH. by eapply partition_ok_merge.
Qed.

(** *** What [inSameSet] decides *)

Lemma same_set_iff p x y :
  same_set p x y ↔ ∃ k, seqSetIdx p !! x = Some k ∧ seqSetIdx p !! y = Some k.
Proof.
  unfold same_set, inSameSet. simpl.
  destruct (seqSetIdx p !! x) as [kx|]; simpl; [|naive_solver].
  destruct (seqSetIdx p !! y) as [ky|]; simpl; [|naive_solver].
  case_bool_decide; naive_solver.
Qed.

Lemma inSameSet_same_set p e :
  inSameSet p e = Some true ↔ same_set p (row1 e) (row2 e).
Proof. done. Qed.

Lemma same_set_lt n p x y : partition_ok n p → same_set p x y → x < n ∧ y < n.
Proof.
  intros (Hl & _) (k & Hx & Hy)%same_set_iff. rewrite <- Hl.
  split; eapply lookup_lt_Some; done.
Qed.

Lemma same_set_refl n p x : partition_ok n p → x < n → same_set p x x.
Proof.
  intros (Hl & _) Hx. apply same_set_iff.
  rewrite <- Hl in Hx. apply lookup_lt_is_Some_2 in Hx as [k Hk]. eauto.
Qed.

Lemma same_set_sym p x y : same_set p x y → same_set p y x.
Proof. rewrite !same_set_iff. naive_solver. Qed.

Lemma same_set_trans p x y z : same_set p x y → same_set p y z → same_set p x z.
Proof. rewrite !same_set_iff. naive_solver. Qed.

Lemma merge_is_Some n p e :
  partition_ok n p → (is_Some (merge p e) ↔ row1 e < n ∧ row2 e < n).
Proof.
  intros (Hl1 & Hl2 & Hr & _). unfold merge, inSameSet. split.
  - intros [p' Hp'].
    destruct (seqSetIdx p !! row1 e) as [i1|] eqn:H1; simpl in Hp'; [|done].
    destruct (seqSetIdx p !! row2 e) as [i2|] eqn:H2; simpl in Hp'; [|done].
    rewrite <- Hl1. split; eapply lookup_lt_Some; done.
  - intros [H1 H2]. rewrite <- Hl1 in H1, H2.
    apply lookup_lt_is_Some_2 in H1 as [i1 H1].
    apply lookup_lt_is_Some_2 in H2 as [i2 H2].
    rewrite H1, H2. simpl. case_bool_decide; simpl; [done|].
    pose proof (Hr _ _ H1). pose proof (Hr _ _ H2).
    destruct (lookup_lt_is_Some_2 (seqSet p) (if decide (i2 < i1) then i2 else i1))
      as [s1 ->]; [case_decide; lia|].
    destruct (lookup_lt_is_Some_2 (seqSet p) (if decide (i2 < i1) then i1 else i2))
      as [s2 ->]; [case_decide; lia|].
    done.
Qed.

(** After [merge e], two elements are in one set when they were before, or
    when one was with [row1 e] and the other with [row2 e]. *)
Lemma merge_same_set n p e p' x y :
  partition_ok n p → merge p e = Some p' →
  (same_set p' x y ↔
   same_set p x y ∨
   (same_set p x (row1 e) ∧ same_set p (row2 e) y) ∨
   (same_set p x (row2 e) ∧ same_set p (row1 e) y)).
Proof.
  intros Hok Hmerge.
  destruct (merge_Some_inv _ _ _ Hmerge)
    as [[Hs ->]|(i1 & i2 & set1 & set2 & H1 & H2 & Hne & Hs1 & Hs2 & ->)].
  { apply inSameSet_same_set in Hs. split; [by left|].
    intros [H|[[Ha Hb]|[Ha Hb]]]; [done|..].
    - eapply same_set_trans; [exact Ha|]. eapply same_set_trans; done.
    - apply same_set_sym in Hs.
      eapply same_set_trans; [exact Ha|]. eapply same_set_trans; done. }
  rewrite !same_set_iff. simpl.
  rewrite !(merge_relabels n p i1 i2 set2) by done.
  rewrite H1, H2.
  destruct (seqSetIdx p !! x) as [kx|]; simpl; [|naive_solver].
  destruct (seqSetIdx p !! y) as [ky|]; simpl; [|naive_solver].
  split.
  - intros (k & [= Hx] & [= Hy]).
    destruct (decide (kx = ky)) as [->|Hd]; [left; eauto|right].
    repeat case_decide; subst;
      destruct (decide (i1 < i2));
      rewrite ?Nat.min_l, ?Nat.max_r, ?Nat.min_r, ?Nat.max_l in * by lia;
      try lia; naive_solver.
  - intros [(k & Hx & Hy)|[[(k & Hx & Hy) (k' & Hx' & Hy')]
                           |[(k & Hx & Hy) (k' & Hx' & Hy')]]];
      simplify_eq; (eexists; split; [reflexivity|]); f_equal;
      repeat case_decide; lia.
Qed.

Lemma merges_snoc p es e :
  merges p (es ++ [e]) = (p' ← merges p es; merge p' e).
Proof.
  rewrite merges_app. destruct (merges p es) as [p1|]; simpl; [|done].
  by destruct (merge p1 e).
Qed.

Lemma merges_is_Some n es :
  (Z.of_nat n < size_t_modulus)%Z →
  ∀ p, partition_ok n p →
  (is_Some (merges p es) ↔ Forall (λ e, row1 e < n ∧ row2 e < n) es).
Proof.
  intros Hn. induction es as [|e es IH]; intros p Hok; simpl.
  - split; [constructor|eauto].
  - rewrite Forall_cons. rewrite <- (merge_is_Some n p e Hok).
    destruct (merge p e) as [p1|] eqn:Hm; simpl.
    + rewrite IH by (by eapply partition_ok_merge). split; [eauto|by intros [_ ?]].
    + split; [by intros [? ?]|by intros [[? ?] _]].
Qed.

Lemma merges_same_set n es :
  (Z.of_nat n < size_t_modulus)%Z →
  ∀ p, merges (Partition_new n) es = Some p →
  ∀ x y, same_set p x y ↔ x < n ∧ y < n ∧ rtc (adjacent es) x y.
Proof.
  intros Hn. induction es as [|e es IH] using rev_ind; intros p Hp x y.
  - injection Hp as <-. rewrite same_set_iff. simpl. split.
    + intros (k & [-> Hx]%lookup_seq & [Hy ?]%lookup_seq). simpl in Hy. subst y.
      split_and!; done.
    + intros (Hx & Hy & Hr). destruct Hr as [|a b c [e0 [He0 _]] _].
      * exists x. by rewrite lookup_seq.
      * inversion He0.
  - rewrite merges_snoc in Hp.
    destruct (merges (Partition_new n) es) as [p1|] eqn:Hp1; simpl in Hp; [|done].
    pose proof (partition_ok_merges n es Hn _ _ (partition_ok_new n Hn) Hp1) as Hok1.
    pose proof (partition_ok_merge n _ _ _ Hn Hok1 Hp) as Hok.
    specialize (IH p1 eq_refl).
    destruct (proj1 (merge_is_Some n p1 e Hok1) (mk_is_Some _ _ Hp)) as [Hr1 Hr2].
    assert (adjacent (es ++ [e]) (row1 e) (row2 e)) as Hadj.
    { exists e. split; [set_solver|by left]. }
    assert (∀ a b, rtc (adjacent es) a b → rtc (adjacent (es ++ [e])) a b) as Hmono.
    { intros a b. apply rtc_adjacent_mono. set_solver. }
    split.
    + intros Hs. destruct (same_set_lt _ _ _ _ Hok Hs) as [Hx Hy].
      split_and!; [done..|].
      apply (merge_same_set n p1 e p x y Hok1 Hp) in Hs
        as [Hs|[[Ha Hb]|[Ha Hb]]].
      * apply Hmono. by apply IH.
      * apply IH in Ha as (_ & _ & Ha). apply IH in Hb as (_ & _ & Hb).
        etrans; [by apply Hmono|]. etrans; [by apply rtc_once|by apply Hmono].
      * apply IH in Ha as (_ & _ & Ha). apply IH in Hb as (_ & _ & Hb).
        etrans; [by apply Hmono|].
        etrans; [apply rtc_once, adjacent_sym; done|by apply Hmono].
    + intros (Hx & Hy & Hr).
      assert (∀ a b, adjacent (es ++ [e]) a b → same_set p a b) as Hstep.
      { intros a b (e0 & [He0|He0]%elem_of_app & Hj).
        - apply (merge_same_set n p1 e p a b Hok1 Hp). left. apply IH.
          assert (is_Some (merges (Partition_new n) es)) as Hsome by eauto.
          apply (merges_is_Some n es Hn _ (partition_ok_new n Hn)) in Hsome.
          rewrite Forall_forall in Hsome. specialize (Hsome _ He0).
          assert (adjacent es a b) by (by exists e0).
          destruct Hj as [[<- <-]|[<- <-]]; split_and!; try lia; by apply rtc_once.
        - apply list_elem_of_singleton in He0 as ->.
          apply (merge_same_set n p1 e p a b Hok1 Hp). right.
          destruct Hj as [[<- <-]|[<- <-]]; [left|right];
            split; by eapply same_set_refl. }
      clear Hy. induction Hr as [a|a b c Hab _ IHr].
      * by eapply same_set_refl.
      * pose proof (Hstep _ _ Hab) as Hs.
        eapply same_set_trans; [exact Hs|]. apply IHr.
        by destruct (same_set_lt _ _ _ _ Hok Hs).
Qed.

(** [nSets] is 1 exactly when all elements are in one set. *)
Lemma nSets_one n p :
  partition_ok n p →
  (nSets p = 1%Z ↔ 0 < n ∧ ∀ x y, x < n → y < n → same_set p x y).
Proof.
  intros (Hl1 & Hl2 & Hr & Hm & Hn1 & Hn2). rewrite Hn1.
  set (L := list_to_set (seqSetIdx p) : gset nat). split.
  - intros Hsz. assert (size L = 1) as Hsz' by lia.
    apply size_1_elem_of in Hsz' as [k Hk].
    assert (∀ x, x < n → seqSetIdx p !! x = Some k) as Hall.
    { intros x Hx. rewrite <- Hl1 in Hx. apply lookup_lt_is_Some_2 in Hx as [k' Hk'].
      assert (k' ∈ L) as Hin by (apply elem_of_list_to_set, list_elem_of_lookup; eauto).
      rewrite Hk in Hin. apply elem_of_singleton in Hin. by subst. }
    split.
    + destruct n; [|lia]. apply nil_length_inv in Hl1.
      subst L. rewrite Hl1 in Hk. set_solver.
    + intros x y Hx Hy. apply same_set_iff. exists k. eauto.
  - intros [Hn Hall].
    assert (0 < length (seqSetIdx p)) as H0 by lia.
    apply lookup_lt_is_Some_2 in H0 as [k Hk].
    assert (L = {[ k ]}) as ->.
    { apply set_eq. intros j. unfold L.
      rewrite elem_of_list_to_set, list_elem_of_lookup, elem_of_singleton. split.
      - intros [x Hx]. pose proof (lookup_lt_Some _ _ _ Hx) as Hlt.
        destruct (proj1 (same_set_iff p x 0) (Hall x 0 ltac:(lia) Hn))
          as (k' & Hx' & H0'). congruence.
      - intros ->. eauto. }
    by rewrite size_singleton.
Qed.

Lemma nSets_range n p : partition_ok n p → 0 < n → (1 ≤ nSets p ≤ Z.of_nat n)%Z.
Proof.
  intros (Hl1 & Hl2 & Hr & Hm & Hn1 & Hn2) Hn. rewrite Hn1. split.
  - assert (size (list_to_set (seqSetIdx p) : gset nat) ≠ 0); [|lia].
    intros H0. apply size_empty_inv in H0.
    assert (0 < length (seqSetIdx p)) as Hlt by lia.
    apply lookup_lt_is_Some_2 in Hlt as [k Hk].
    assert (k ∈ (list_to_set (seqSetIdx p) : gset nat))
      by (apply elem_of_list_to_set, list_elem_of_lookup; eauto).
    set_solver.
  - rewrite <- Hl1. apply inj_le, size_list_to_set_le.
Qed.

Lemma elem_of_all_pairs K a b : (a, b) ∈ all_pairs K ↔ a < b < K.
Proof.
  unfold all_pairs. rewrite list_elem_of_bind. split.
  - intros (b' & Hin & Hb'). apply list_elem_of_fmap in Hin as (a' & [= -> ->] & Ha').
    apply elem_of_seq in Hb', Ha'. lia.
  - intros [Ha Hb]. exists b. split; [|apply elem_of_seq; lia].
    apply list_elem_of_fmap. exists a. split; [done|apply elem_of_seq; lia].
Qed.

Lemma all_pairs_S K : all_pairs (S K) = all_pairs K ++ ((λ a, (a, K)) <$> seq 0 K).
Proof.
  unfold all_pairs. rewrite seq_S, bind_app. simpl. by rewrite app_nil_r.
Qed.

Lemma length_all_pairs K : 2 * length (all_pairs K) = K * (K - 1).
Proof.
  induction K as [|K IH]; [done|].
  rewrite all_pairs_S, length_app, length_fmap, length_seq.
  destruct K; simpl in *; lia.
Qed.

Lemma NoDup_all_pairs K : NoDup (all_pairs K).
Proof.
  induction K as [|K IH]; [constructor|].
  rewrite all_pairs_S. apply NoDup_app. split_and!; [done| |].
  - intros [a b] Hin%elem_of_all_pairs (a' & [= -> ->] & _)%list_elem_of_fmap. lia.
  - apply NoDup_fmap_2; [|apply NoDup_seq]. intros a a' [= ->]. done.
Qed.

Lemma valid_draws_pairs K ds p :
  valid_draws K ds → p ∈ pair_of <$> ds → p ∈ all_pairs K.
Proof.
  intros Hv (d & -> & Hd)%list_elem_of_fmap.
  unfold valid_draws in Hv. rewrite Forall_forall in Hv.
  apply elem_of_all_pairs. by apply Hv.
Qed.

(** No more than [K (K - 1) / 2] different pairs can be drawn. *)
Lemma draws_count K ds :
  valid_draws K ds → NoDup (pair_of <$> ds) → 2 * length ds ≤ K * (K - 1).
Proof.
  intros Hv Hnd. rewrite <- length_all_pairs.
  assert (pair_of <$> ds ⊆+ all_pairs K) as Hsub.
  { apply NoDup_submseteq; [done|]. intros p. by apply valid_draws_pairs. }
  apply submseteq_length in Hsub. rewrite length_fmap in Hsub. lia.
Qed.

(** When fewer than [K (K - 1) / 2] pairs are drawn, one is left. *)
Lemma fresh_pair_by_count K ds :
  NoDup (pair_of <$> ds) → 2 * length ds < K * (K - 1) →
  ∃ a b, a < b < K ∧ (a, b) ∉ pair_of <$> ds.
Proof.
  intros Hnd Hlt.
  destruct (decide (Forall (λ p, p ∈ pair_of <$> ds) (all_pairs K))) as [Hall|Hex].
  - exfalso. rewrite Forall_forall in Hall.
    assert (all_pairs K ⊆+ pair_of <$> ds) as Hsub
      by (apply NoDup_submseteq; [apply NoDup_all_pairs|done]).
    apply submseteq_length in Hsub. rewrite length_fmap in Hsub.
    pose proof (length_all_pairs K). lia.
  - apply not_Forall_Exists in Hex; [|apply _].
    apply Exists_exists in Hex as ([a b] & Hin%elem_of_all_pairs & Hnot).
    exists a, b. done.
Qed.

Lemma nEdges_of_le K bound :
  (Z.of_nat K < size_t_modulus)%Z →
  (2 * nEdges_of K bound ≤ Z.of_nat (K * (K - 1)))%Z.
Proof.
  intros HK. unfold nEdges_of.
  set (x := ((Z.of_nat K * ((Z.of_nat K - 1) mod size_t_modulus)) mod size_t_modulus)%Z).
  assert (0 ≤ x ≤ Z.of_nat (K * (K - 1)))%Z as Hx.
  { unfold x. destruct K as [|K].
    - simpl. rewrite Z.mod_0_l by (unfold size_t_modulus; lia). lia.
    - rewrite (Z.mod_small (Z.of_nat (S K) - 1)) by lia.
      assert (0 ≤ Z.of_nat (S K) * (Z.of_nat (S K) - 1))%Z by nia.
      split; [apply Z.mod_pos_bound; unfold size_t_modulus; lia|].
      etrans; [apply Z.mod_le; [done|unfold size_t_modulus; lia]|].
      rewrite Nat2Z.inj_mul. replace (Z.of_nat (S K - 1)) with (Z.of_nat (S K) - 1)%Z by lia.
      lia. }
  pose proof (Z.mul_div_le x 2 ltac:(lia)). lia.
Qed.

Lemma stores_snoc g ds d :
  AlignGraph_stores g (ds ++ [d]) = (g' ← AlignGraph_stores g ds; AlignGraph_store g' d).
Proof.
  revert g. induction ds as [|d0 ds IH]; intros g; simpl.
  - by destruct (AlignGraph_store g d).
  - destruct (AlignGraph_store g d0); simpl; [apply IH|done].
Qed.

Lemma paths_hold_empty K : paths_hold K [] (AlignGraph_empty K).
Proof.
  intros src dest Hsrc. unfold has_path, AlignGraph_empty. simpl.
  rewrite lookup_replicate_2 by done. reflexivity.
Qed.

Lemma paths_hold_store K ds g d g' :
  length (edgePath g) = K →
  paths_hold K ds g → AlignGraph_store g d = Some g' →
  paths_hold K (ds ++ [d]) g' ∧ length (edgePath g') = K.
Proof.
  intros Hlen Hp Hst. unfold AlignGraph_store in Hst.
  destruct (edgePath g !! d_src d) as [paths|] eqn:Hpaths; simpl in Hst; [|done].
  destruct (edges g !! d_src d) as [q1|]; simpl in Hst; [|done].
  destruct (<[d_src d:=pq_push (draw_edge d) q1]> (edges g) !! d_dest d) as [q2|];
    simpl in Hst; [|done].
  injection Hst as <-. simpl. split; [|by rewrite length_insert].
  intros src dest Hsrc. specialize (Hp src dest Hsrc).
  unfold has_path in *. simpl.
  pose proof (lookup_lt_Some _ _ _ Hpaths) as Hlt.
  rewrite fmap_app. simpl.
  destruct (decide (src = d_src d)) as [->|Hne].
  - rewrite list_lookup_insert_eq by done. simpl. f_equal.
    rewrite Hpaths in Hp. simpl in Hp. injection Hp as Hp.
    destruct (decide (dest = d_dest d)) as [->|Hne'].
    + rewrite lookup_insert_eq.
      rewrite bool_decide_eq_true_2 by eauto.
      rewrite bool_decide_eq_true_2; [done|]. set_solver.
    + rewrite lookup_insert_ne by done. rewrite Hp.
      apply bool_decide_ext. rewrite elem_of_app, list_elem_of_singleton.
      split; [by left|]. intros [?|[= ?]]; done.
  - rewrite list_lookup_insert_ne by done. rewrite Hp. f_equal.
    apply bool_decide_ext. rewrite elem_of_app, list_elem_of_singleton.
    split; [by left|]. intros [?|[= ? ?]]; done.
Qed.

Lemma built_paths_hold K ds g :
  AlignGraph_built K ds = Some g → paths_hold K ds g ∧ length (edgePath g) = K.
Proof.
  unfold AlignGraph_built. revert g.
  induction ds as [|d ds IH] using rev_ind; intros g.
  - intros [= <-]. split; [apply paths_hold_empty|]. simpl. apply length_replicate.
  - rewrite stores_snoc.
    destruct (AlignGraph_stores (AlignGraph_empty K) ds) as [g1|]; simpl; [|done].
    destruct (IH g1 eq_refl) as [Hp Hl]. by apply paths_hold_store.
Qed.

Lemma draw_pair_spec ep raws src dest rest :
  draw_pair ep raws = Some (src, dest, rest) →
  src < dest ∧ has_path ep src dest = Some false ∧ length rest < length raws.
Proof.
  induction raws as [|[a b] raws IH]; simpl; [done|].
  set (s := if decide (b < a) then b else a).
  set (t := if decide (b < a) then a else b).
  assert (s ≤ t) as Hst by (unfold s, t; case_decide; lia).
  destruct (decide (s = t)) as [Heq|Heq].
  { intros H. destruct (IH H) as (? & ? & ?). split_and!; [done..|lia]. }
  destruct (has_path ep s t) as [[]|] eqn:Hk; simpl; [| |intros [=]].
  - intros H. destruct (IH H) as (? & ? & ?). split_and!; [done..|lia].
  - intros [= <- <- <-]. split_and!; [lia|done|lia].
Qed.

Lemma store_is_Some_lt K E g d g' :
  graph_holds K E g → AlignGraph_store g d = Some g' → d_src d < K ∧ d_dest d < K.
Proof.
  intros (_ & Hle & _ & _) Hst. unfold AlignGraph_store in Hst.
  destruct (edgePath g !! d_src d) as [paths|]; simpl in Hst; [|done].
  destruct (edges g !! d_src d) as [q1|] eqn:H1; simpl in Hst; [|done].
  destruct (<[d_src d:=pq_push (draw_edge d) q1]> (edges g) !! d_dest d) as [q2|] eqn:H2;
    simpl in Hst; [|done].
  apply lookup_lt_Some in H1, H2. rewrite length_insert in H2. lia.
Qed.

Lemma built_graph_holds K ds g :
  valid_draws K ds → AlignGraph_built K ds = Some g →
  graph_holds K (draw_edge <$> ds) g.
Proof.
  intros Hv Hb.
  destruct (stores_spec K ds Hv [] _ (graph_holds_empty K)) as (g' & Hb' & Hg).
  unfold AlignGraph_built in Hb. by simplify_eq.
Qed.

Section ConstructorFacts.
Variable quickAlign : nat → nat → list bool * list bool * R.

Lemma ctor_inv_start K : ctor_inv K [] (AlignGraph_empty K) (Partition_new K) 0.
Proof. split_and!; try done; constructor. Qed.

Lemma ctor_inv_step K ds g part n raws r g' part' :
  (Z.of_nat K < 2 ^ 32)%Z →
  ctor_inv K ds g part n →
  draw_pair (edgePath g) raws = Some r →
  AlignGraph_store g (quick_draw quickAlign r.1.1 r.1.2) = Some g' →
  merge part (draw_edge (quick_draw quickAlign r.1.1 r.1.2)) = Some part' →
  ctor_inv K (ds ++ [quick_draw quickAlign r.1.1 r.1.2]) g' part'
    ((n + 1) mod size_t_modulus) ∧ length r.2 < length raws.
Proof.
  intros HK (Hv & Hnd & Hb & Hm & Hn) Hdraw Hst Hmerge.
  destruct r as [[src dest] rest]. simpl in *.
  set (d := quick_draw quickAlign src dest) in *.
  destruct (draw_pair_spec _ _ _ _ _ Hdraw) as (Hlt & Hfresh & Hlen).
  pose proof (built_graph_holds K ds g Hv Hb) as Hg.
  destruct (store_is_Some_lt K _ g d g' Hg Hst) as [Hs Hd]. simpl in Hs, Hd.
  destruct (built_paths_hold K ds g Hb) as [Hp _].
  rewrite (Hp src dest Hs) in Hfresh. injection Hfresh as Hfresh.
  apply bool_decide_eq_false in Hfresh.
  assert (valid_draws K (ds ++ [d])) as Hv'.
  { apply Forall_app. split; [done|]. apply Forall_singleton. simpl. lia. }
  assert (NoDup (pair_of <$> ds ++ [d])) as Hnd'.
  { rewrite fmap_app. apply NoDup_app. split_and!; [done| |apply NoDup_singleton].
    intros p Hin Hp'. apply list_elem_of_singleton in Hp'. by subst. }
  split; [|done]. split_and!; [done|done| | |].
  - unfold AlignGraph_built in *. rewrite stores_snoc, Hb. done.
  - rewrite fmap_app. simpl. rewrite merges_snoc, Hm. done.
  - pose proof (draws_count K _ Hv' Hnd') as Hc. rewrite length_app in *. simpl in *.
    assert (Z.of_nat (K * (K - 1)) < size_t_modulus)%Z.
    { unfold size_t_modulus. rewrite Nat2Z.inj_mul.
      assert (Z.of_nat (K - 1) ≤ Z.of_nat K)%Z by lia.
      change (2 ^ 64)%Z with (2 ^ 32 * 2 ^ 32)%Z. nia. }
    rewrite Z.mod_small by lia. lia.
Qed.

Lemma ctor_loop_spec K nE :
  (Z.of_nat K < 2 ^ 32)%Z →
  ∀ fuel n g part raws ds g' part' n',
    ctor_inv K ds g part n →
    AlignGraph_loop quickAlign fuel nE n g part raws = Some (g', part', n') →
    ∃ ds', ctor_inv K ds' g' part' n' ∧ (nE ≤ n')%Z ∧ (nSets part' ≤ 1)%Z.
Proof.
  intros HK. induction fuel as [|fuel IH]; intros n g part raws ds g' part' n' Hinv.
  - simpl. case_decide as Hc; [done|]. intros [= <- <- <-]. exists ds. split; [done|lia].
  - simpl. case_decide as Hc; [|intros [= <- <- <-]; exists ds; split; [done|lia]].
    destruct (draw_pair (edgePath g) raws) as [r|] eqn:Hdraw; simpl; [|done].
    destruct (AlignGraph_store g _) as [g1|] eqn:Hst; simpl; [|done].
    destruct (merge part _) as [part1|] eqn:Hm; simpl; [|done].
    destruct (ctor_inv_step K ds g part n raws r g1 part1 HK Hinv Hdraw Hst Hm)
      as [Hinv1 _].
    apply (IH _ _ _ _ _ _ _ _ Hinv1).
Qed.

(** With enough of [raws] left, the loop does not stop for lack of fuel. *)
Lemma ctor_connected K ds g part n :
  (Z.of_nat K < 2 ^ 32)%Z →
  ctor_inv K ds g part n → (nSets part ≤ 1)%Z → spans K (draw_edge <$> ds).
Proof.
  intros HK (Hv & Hnd & Hb & Hm & Hn) Hle v Hv'.
  assert (Z.of_nat K < size_t_modulus)%Z as HK' by (unfold size_t_modulus; lia).
  pose proof (partition_ok_merges K _ HK' _ _ (partition_ok_new K HK') Hm) as Hok.
  pose proof (nSets_range K part Hok ltac:(lia)) as Hr.
  destruct (proj1 (nSets_one K part Hok) ltac:(lia)) as [_ Hall].
  apply (merges_same_set K _ HK' part Hm). apply Hall; lia.
Qed.

End ConstructorFacts.

Lemma minSpanTree_of_connected K ds g :
  (Z.of_nat K < size_t_modulus)%Z → valid_draws K ds →
  AlignGraph_built K ds = Some g → spans K (draw_edge <$> ds) →
  ∃ paths, minSpanTree g = Some paths ∧ length paths = K - 1.
Proof.
  intros HKm Hv Hb Hsp.
  pose proof (built_graph_holds K ds g Hv Hb) as Hg.
  pose proof Hg as (Hn & _ & Hep & _).
  destruct (decide (K = 0)) as [->|HK].
  { exists []. split; [|done]. unfold minSpanTree, minSpanTree_trace.
    rewrite Hn. destruct (edges g); done. }
  set (E := draw_edge <$> ds) in *.
  pose proof (valid_draws_edges_ok K ds Hv) as HE. fold E in HE.
  destruct (mst_loop_spec K E (edgePath g) ltac:(lia) HKm HE Hsp Hep (K - 1) K {[ 0 ]}
              (edges g) [])
    as (chosen & queues & S & Hloop & Hrun & Hsz & Hps).
  { rewrite size_singleton. lia. }
  { lia. }
  { constructor. }
  { by apply graph_holds_queues_ok. }
  { constructor. }
  destruct (prim_run_facts K E S _ ltac:(lia) HE Hrun)
    as (H0 & Hlen & _).
  exists (chosen.*2). split.
  - unfold minSpanTree, minSpanTree_trace. rewrite Hn, partOf_new by lia.
    rewrite Hloop. done.
  - rewrite length_fmap. rewrite length_fmap in Hlen. lia.
Qed.

Lemma draw_pair_app_Some ep raws x r :
  draw_pair ep raws = Some r → draw_pair ep (raws ++ x) = Some (r.1, r.2 ++ x).
Proof.
  induction raws as [|[a b] raws IH]; simpl; [done|].
  set (s := if decide (b < a) then b else a).
  set (t := if decide (b < a) then a else b).
  destruct (decide (s = t)); [done|].
  destruct (has_path ep s t) as [[]|]; simpl; [done| |done].
  intros [= <-]. done.
Qed.

Lemma draw_pair_app_None K ep raws x :
  length ep = K → in_range K raws →
  draw_pair ep raws = None → draw_pair ep (raws ++ x) = draw_pair ep x.
Proof.
  intros Hlen. induction 1 as [|[a b] raws [Ha Hb] _ IH]; simpl; [done|].
  simpl in Ha, Hb.
  set (s := if decide (b < a) then b else a).
  set (t := if decide (b < a) then a else b).
  destruct (decide (s = t)); [done|].
  assert (s < K) as Hs by (unfold s; case_decide; lia).
  unfold has_path. rewrite <- Hlen in Hs.
  apply lookup_lt_is_Some_2 in Hs as [m ->]. simpl.
  case_bool_decide; [done|]. done.
Qed.

Lemma draw_pair_in_range K ep raws r :
  in_range K raws → draw_pair ep raws = Some r →
  r.1.1 < K ∧ r.1.2 < K ∧ in_range K r.2.
Proof.
  induction 1 as [|[a b] raws [Ha Hb] Hr IH]; simpl; [done|].
  simpl in Ha, Hb.
  set (s := if decide (b < a) then b else a).
  set (t := if decide (b < a) then a else b).
  destruct (decide (s = t)); [done|].
  destruct (has_path ep s t) as [[]|]; simpl; [done| |done].
  intros [= <-]. simpl. unfold s, t. split_and!; [case_decide; lia..|done].
Qed.

Lemma draw_pair_fresh K ds g a b x :
  paths_hold K ds g → a < b < K → (a, b) ∉ pair_of <$> ds →
  draw_pair (edgePath g) ((a, b) :: x) = Some (a, b, x).
Proof.
  intros Hp Hab Hnot. simpl.
  destruct (decide (b < a)); [lia|]. destruct (decide (a = b)); [lia|].
  rewrite (Hp a b) by lia. simpl. by rewrite bool_decide_eq_false_2.
Qed.

(** While the loop goes on, a pair is left that was not drawn. *)
Lemma fresh_pair_exists K nE ds g part n :
  (Z.of_nat K < 2 ^ 32)%Z → (2 * nE ≤ Z.of_nat (K * (K - 1)))%Z →
  ctor_inv K ds g part n → (n < nE ∨ 1 < nSets part)%Z →
  ∃ a b, a < b < K ∧ (a, b) ∉ pair_of <$> ds.
Proof.
  intros HK HnE (Hv & Hnd & Hb & Hm & Hn) [Hc|Hc].
  { apply fresh_pair_by_count; [done|]. lia. }
  assert (Z.of_nat K < size_t_modulus)%Z as HK' by (unfold size_t_modulus; lia).
  pose proof (partition_ok_merges K _ HK' _ _ (partition_ok_new K HK') Hm) as Hok.
  destruct (decide (Forall (λ p, same_set part p.1 p.2) (all_pairs K))) as [Hall|Hex].
  - exfalso. rewrite Forall_forall in Hall.
    assert (0 < K) as HK0.
    { destruct K; [|lia]. destruct Hok as (Hl & _ & _ & _ & Hsz & _).
      apply nil_length_inv in Hl. rewrite Hl in Hsz.
      change (nSets part = 0%Z) in Hsz. lia. }
    assert (nSets part = 1%Z); [|lia].
    apply (nSets_one K part Hok). split; [done|]. intros x y Hx Hy.
    destruct (Nat.lt_total x y) as [Hlt|[->|Hlt]].
    + apply (Hall (x, y)). apply elem_of_all_pairs. lia.
    + by eapply same_set_refl.
    + apply same_set_sym. apply (Hall (y, x)). apply elem_of_all_pairs. lia.
  - apply not_Forall_Exists in Hex; [|apply _].
    apply Exists_exists in Hex as ([a b] & Hin%elem_of_all_pairs & Hnot).
    exists a, b. split; [done|]. intros (d & [= Ha Hb'] & Hd)%list_elem_of_fmap.
    apply Hnot. simpl. apply (merges_same_set K _ HK' part Hm).
    split_and!; [lia..|]. apply rtc_once. exists (draw_edge d).
    split; [by apply list_elem_of_fmap_2|]. left. simpl. done.
Qed.

Section ConstructorEnds.
Variable quickAlign : nat → nat → list bool * list bool * R.

Lemma ctor_step_is_Some K ds g part n s t :
  (Z.of_nat K < 2 ^ 32)%Z → ctor_inv K ds g part n → s < t < K →
  ∃ g' part', AlignGraph_store g (quick_draw quickAlign s t) = Some g' ∧
              merge part (draw_edge (quick_draw quickAlign s t)) = Some part'.
Proof.
  intros HK (Hv & Hnd & Hb & Hm & Hn) Hst.
  assert (Z.of_nat K < size_t_modulus)%Z as HK' by (unfold size_t_modulus; lia).
  pose proof (partition_ok_merges K _ HK' _ _ (partition_ok_new K HK') Hm) as Hok.
  destruct (store_spec K _ g (quick_draw quickAlign s t)
              (built_graph_holds K ds g Hv Hb)) as (g' & Hg' & _); [done|].
  destruct (proj2 (merge_is_Some K part (draw_edge (quick_draw quickAlign s t)) Hok))
    as [part' Hp']; [simpl; lia|].
  eauto.
Qed.

Lemma loop_false fuel nE n g part raws :
  ¬ (n < nE ∨ 1 < nSets part)%Z →
  AlignGraph_loop quickAlign fuel nE n g part raws = Some (g, part, n).
Proof. intros Hc. destruct fuel; simpl; by rewrite decide_False. Qed.

Lemma loop_can_finish K nE :
  (Z.of_nat K < 2 ^ 32)%Z → (2 * nE ≤ Z.of_nat (K * (K - 1)))%Z →
  ∀ m ds g part n raws,
    K * (K - 1) ≤ 2 * length ds + 2 * m →
    ctor_inv K ds g part n → in_range K raws →
    ∃ more, in_range K more ∧
      ∀ fuel, length (raws ++ more) ≤ fuel →
        is_Some (AlignGraph_loop quickAlign fuel nE n g part (raws ++ more)).
Proof.
  intros HK HnE. induction m as [|m IH]; intros ds g part n raws Hm Hinv Hraws.
  - exists []. split; [constructor|]. intros fuel _.
    rewrite loop_false; [eauto|]. intros Hc.
    destruct (fresh_pair_exists K nE ds g part n HK HnE Hinv Hc) as (a & b & Hab & Hnot).
    destruct Hinv as (Hv & Hnd & _).
    assert (2 * length ds < K * (K - 1)); [|lia].
    pose proof (draws_count K (ds ++ [mkDraw a b [] [] 0%R])) as Hc'.
    rewrite length_app in Hc'. simpl in Hc'.
    assert (2 * (length ds + 1) ≤ K * (K - 1)); [|lia]. apply Hc'.
    + apply Forall_app. split; [done|]. by apply Forall_singleton.
    + rewrite fmap_app. apply NoDup_app. split_and!; [done| |apply NoDup_singleton].
      intros p Hin Hp'. apply list_elem_of_singleton in Hp'. by subst.
  - destruct (decide (n < nE ∨ 1 < nSets part)%Z) as [Hc|Hc].
    2:{ exists []. split; [constructor|]. intros fuel _. rewrite loop_false; eauto. }
    destruct (fresh_pair_exists K nE ds g part n HK HnE Hinv Hc) as (a & b & Hab & Hnot).
    pose proof Hinv as (Hv & Hnd & Hb & _).
    destruct (built_paths_hold K ds g Hb) as [Hp Hlen].
    destruct (draw_pair (edgePath g) raws) as [r|] eqn:Hdraw.
    + assert (r.1.1 < r.1.2 ∧ length r.2 < length raws) as [Hlt Hshort].
      { destruct r as [[s t] rest].
        by destruct (draw_pair_spec _ _ _ _ _ Hdraw) as (? & _ & ?). }
      destruct (draw_pair_in_range K _ _ _ Hraws Hdraw) as (Hs & Ht & Hrest).
      destruct (ctor_step_is_Some K ds g part n r.1.1 r.1.2 HK Hinv (conj Hlt Ht))
        as (g1 & part1 & Hst & Hmg).
      destruct (ctor_inv_step quickAlign K ds g part n raws r g1 part1 HK Hinv Hdraw Hst Hmg)
        as [Hinv1 _].
      destruct (IH (ds ++ [quick_draw quickAlign r.1.1 r.1.2]) g1 part1 _ r.2
                  ltac:(rewrite length_app; simpl length; lia) Hinv1 Hrest)
        as (more & Hmore & Hrun).
      exists more. split; [done|]. intros fuel Hfuel.
      destruct fuel as [|fuel]; [rewrite length_app in *; lia|].
      simpl. rewrite decide_True by done.
      rewrite (draw_pair_app_Some _ _ more _ Hdraw). simpl.
      rewrite Hst. simpl. rewrite Hmg. simpl. apply Hrun.
      rewrite length_app in *. lia.
    + destruct (ctor_step_is_Some K ds g part n a b HK Hinv Hab)
        as (g1 & part1 & Hst & Hmg).
      pose proof (draw_pair_fresh K ds g a b [] Hp Hab Hnot) as Hd1.
      destruct (ctor_inv_step quickAlign K ds g part n _ _ g1 part1 HK Hinv Hd1 Hst Hmg)
        as [Hinv1 _].
      destruct (IH (ds ++ [quick_draw quickAlign a b]) g1 part1 _ []
                  ltac:(rewrite length_app; simpl length; lia) Hinv1
                  ltac:(constructor))
        as (more & Hmore & Hrun).
      exists ((a, b) :: more). split; [constructor; [simpl; lia|done]|].
      intros fuel Hfuel.
      destruct fuel as [|fuel]; [rewrite length_app in *; simpl in *; lia|].
      simpl. rewrite decide_True by done.
      rewrite (draw_pair_app_None K) by done.
      rewrite (draw_pair_fresh K ds g a b more Hp Hab Hnot). simpl.
      rewrite Hst. simpl. rewrite Hmg. simpl. apply Hrun.
      rewrite length_app in *. simpl in *. lia.
Qed.

End ConstructorEnds.

Lemma pop_stale_sub part q q' e : pop_stale part q = Some q' → e ∈ q' → e ∈ q.
Proof.
  intros (d & -> & _)%pop_stale_only_stale He. apply elem_of_app. by right.
Qed.

Lemma scan_step_in E part st src st' :
  scan_step part st src = Some st' →
  queues_in E st.1 → (∀ e, st.2 = Some e → e ∈ E) →
  queues_in E st'.1 ∧ (∀ e, st'.2 = Some e → e ∈ E).
Proof.
  destruct st as [es best]. unfold scan_step. simpl. intros Hst Hq Hb.
  destruct (es !! src) as [q|] eqn:Hsrc; simpl in Hst; [|done].
  destruct (pop_stale part q) as [q'|] eqn:Hpop; simpl in Hst; [|done].
  assert (queues_in E (<[src:=q']> es)) as Hq'.
  { intros s q0 e Hs He. destruct (decide (s = src)) as [->|Hne].
    - rewrite list_lookup_insert_eq in Hs by (by eapply lookup_lt_Some).
      injection Hs as <-. eapply Hq; [exact Hsrc|]. by eapply pop_stale_sub.
    - rewrite list_lookup_insert_ne in Hs by done. by eapply Hq. }
  assert (∀ top, top ∈ q' → top ∈ E) as Htop.
  { intros top Hin. eapply Hq; [exact Hsrc|]. by eapply pop_stale_sub. }
  destruct q' as [|top q'].
  { injection Hst as <-. done. }
  assert (top ∈ E) by (apply Htop; by left).
  destruct best as [best|].
  - destruct (Edge_ltb best top); injection Hst as <-; simpl; split; try done.
    + by intros e [= <-].
  - injection Hst as <-. split; [done|]. by intros e [= <-].
Qed.

Lemma scan_in E part srcs : ∀ st st',
  scan part st srcs = Some st' →
  queues_in E st.1 → (∀ e, st.2 = Some e → e ∈ E) →
  queues_in E st'.1 ∧ (∀ e, st'.2 = Some e → e ∈ E).
Proof.
  induction srcs as [|src srcs IH]; intros st st'; simpl.
  - by intros [= <-].
  - destruct (scan_step part st src) as [st1|] eqn:Hst; simpl; [|done].
    intros Hsc Hq Hb. destruct (scan_step_in E _ _ _ _ Hst Hq Hb) as [Hq1 Hb1].
    by eapply IH.
Qed.

(** If the loop of [minSpanTree] ends, the edges it has chosen, which are
    stored edges, connect every vertex to vertex 0. *)
Lemma mst_loop_sound K E ep :
  (Z.of_nat K < size_t_modulus)%Z →
  ∀ fuel es part acc r,
    queues_in E es → (∀ e, e ∈ acc.*1 → e ∈ E) →
    merges (Partition_new K) (acc.*1) = Some part →
    mst_loop fuel ep es part acc = Some r → spans K E.
Proof.
  intros HK. 
  assert (∀ (acc : list (Edge * AlignPath)) part,
            (∀ e, e ∈ acc.*1 → e ∈ E) →
            merges (Partition_new K) (acc.*1) = Some part →
            ¬ (1 < nSets part)%Z → spans K E) as Hend.
  { intros acc part Hacc Hm Hc v Hv.
    pose proof (partition_ok_merges K _ HK _ _ (partition_ok_new K HK) Hm) as Hok.
    pose proof (nSets_range K part Hok ltac:(lia)) as Hr.
    destruct (proj1 (nSets_one K part Hok) ltac:(lia)) as [_ Hall].
    eapply rtc_adjacent_mono; [|apply (merges_same_set K _ HK part Hm); apply Hall; lia].
    intros e He. by apply Hacc. }
  induction fuel as [|fuel IH]; intros es part acc r Hq Hacc Hm.
  - simpl. case_decide; [done|]. intros _. by eapply Hend.
  - rewrite mst_loop_unfold. case_decide; [|intros _; by eapply Hend].
    destruct (head (seqSet part)) as [front|]; simpl; [|done].
    destruct (scan part (es, None) (set_iter front)) as [st|] eqn:Hscan; simpl; [|done].
    destruct (scan_in E _ _ _ _ Hscan Hq ltac:(done)) as [Hq1 Hb1].
    destruct (st.2) as [best|] eqn:Hbest; simpl; [|done].
    destruct (path_at ep (row1 best) (row2 best)) as [path|]; simpl; [|done].
    destruct (merge part best) as [part'|] eqn:Hmg; simpl; [|done].
    apply IH; [done| |].
    + intros e. rewrite fmap_app, elem_of_app. simpl. rewrite list_elem_of_singleton.
      intros [?| ->]; [by apply Hacc|by apply Hb1].
    + rewrite fmap_app. simpl. rewrite merges_snoc, Hm. done.
Qed.

Lemma built_queues_in K ds g :
  valid_draws K ds → AlignGraph_built K ds = Some g →
  queues_in (draw_edge <$> ds) (edges g).
Proof.
  intros Hv Hb. destruct (built_graph_holds K ds g Hv Hb) as (_ & _ & _ & Hq).
  intros src q e Hsrc He. destruct (Hq src q Hsrc) as [_ Hmem]. by apply Hmem.
Qed.

(** X6. Whatever edges are merged into a fresh partition of [n] elements,
    both vectors keep length [n], every index names a set, the set at [k]
    holds exactly the elements whose index is [k], and [nSets] is the number
    of indices in use, which is the number of sets that are not empty. *)
Theorem merges_keep_partition_ok (n : nat) (es : list Edge) (p : Partition) :
  (Z.of_nat n < size_t_modulus)%Z →
  merges (Partition_new n) es = Some p → partition_ok n p.
Proof.
  intros Hn Hm. eapply partition_ok_merges; [done| |done]. by apply partition_ok_new.
Qed.

Lemma merges_keep_partition_ok_witness :
  partition_ok 3 {| seqSetIdx := [0; 1; 0]; seqSet := [ {[0; 2]}; {[1]}; ∅ ];
                    nSets := 2 |}.
Proof.
  apply (merges_keep_partition_ok 3 [mkEdge 2 0 0]).
  - unfold size_t_modulus. lia.
  - vm_compute. reflexivity.
Defined.

(** X7. After any run of merges on a fresh partition, [inSameSet] answers
    for two elements below [n], and it answers [true] exactly when the
    merged edges link the two elements. *)
Theorem inSameSet_iff_linked (n : nat) (es : list Edge) (p : Partition)
    (x y : nat) (l : R) :
  (Z.of_nat n < size_t_modulus)%Z →
  merges (Partition_new n) es = Some p → x < n → y < n →
  ∃ b, inSameSet p (mkEdge x y l) = Some b ∧
       (b = true ↔ rtc (adjacent es) x y).
Proof.
  intros Hn Hm Hx Hy.
  pose proof (merges_same_set n es Hn p Hm x y) as Hs.
  destruct (partition_ok_merges n es Hn _ _ (partition_ok_new n Hn) Hm) as (Hl & _).
  unfold same_set, inSameSet in *. simpl in *.
  rewrite <- Hl in Hx, Hy.
  apply lookup_lt_is_Some_2 in Hx as [kx Hkx].
  apply lookup_lt_is_Some_2 in Hy as [ky Hky].
  rewrite Hkx, Hky in *. simpl in *. eexists. split; [reflexivity|].
  apply lookup_lt_Some in Hkx, Hky. rewrite Hl in Hkx, Hky.
  split.
  - intros Hb. apply Hs. by rewrite Hb.
  - intros Hr. assert (Some (bool_decide (kx = ky)) = Some true) as Hb
      by (apply Hs; by split_and!).
    by injection Hb.
Qed.

Lemma inSameSet_iff_linked_witness :
  ∃ b, inSameSet {| seqSetIdx := [0; 1; 0]; seqSet := [ {[0; 2]}; {[1]}; ∅ ];
                    nSets := 2 |} (mkEdge 0 2 0) = Some b ∧
       (b = true ↔ rtc (adjacent [mkEdge 2 0 0]) 0 2).
Proof.
  apply (inSameSet_iff_linked 3 [mkEdge 2 0 0]).
  - unfold size_t_modulus. lia.
  - vm_compute. reflexivity.
  - lia.
  - lia.
Defined.

(** X8. For a partition of [n > 0] elements, [nSets] stays between 1 and
    [n], and it is 1 exactly when the merged edges connect all [n]
    elements: this is what the loops test with [nSets > 1]. *)
Theorem nSets_one_iff_connected (n : nat) (es : list Edge) (p : Partition) :
  0 < n → (Z.of_nat n < size_t_modulus)%Z →
  merges (Partition_new n) es = Some p →
  (1 ≤ nSets p ≤ Z.of_nat n)%Z ∧ (nSets p = 1%Z ↔ spans n es).
Proof.
  intros H0 Hn Hm.
  pose proof (partition_ok_merges n es Hn _ _ (partition_ok_new n Hn) Hm) as Hok.
  split; [by apply nSets_range|].
  rewrite (nSets_one n p Hok). split.
  - intros [_ Hall] v Hv. apply (merges_same_set n es Hn p Hm). by apply Hall.
  - intros Hsp. split; [done|]. intros x y Hx Hy.
    apply (merges_same_set n es Hn p Hm). split_and!; [done..|].
    etrans; [apply rtc_adjacent_sym|]; by apply Hsp.
Qed.

Lemma nSets_one_iff_connected_witness :
  (1 ≤ 2 ≤ Z.of_nat 3)%Z ∧ (2%Z = 1%Z ↔ spans 3 [mkEdge 2 0 0]).
Proof.
  apply (nSets_one_iff_connected 3 [mkEdge 2 0 0]
           {| seqSetIdx := [0; 1; 0]; seqSet := [ {[0; 2]}; {[1]}; ∅ ]; nSets := 2 |}).
  - lia.
  - unfold size_t_modulus. lia.
  - vm_compute. reflexivity.
Defined.

(** X9. A run of merges on a fresh partition of [n] elements fails exactly
    when one of the edges names a row that is not below [n]. *)
Theorem merges_fail_iff_out_of_range (n : nat) (es : list Edge) :
  (Z.of_nat n < size_t_modulus)%Z →
  (merges (Partition_new n) es = None ↔ ∃ e, e ∈ es ∧ (n ≤ row1 e ∨ n ≤ row2 e)).
Proof.
  intros Hn.
  pose proof (merges_is_Some n es Hn _ (partition_ok_new n Hn)) as Hs.
  rewrite <- not_eq_None_Some in Hs. split.
  - intros Hnone.
    destruct (decide (Forall (λ e, row1 e < n ∧ row2 e < n) es)) as [Hall|Hex].
    + apply Hs in Hall. done.
    + apply not_Forall_Exists in Hex; [|apply _].
      apply Exists_exists in Hex as (e & He & Hbad). simpl in Hbad.
      exists e. split; [done|lia].
  - intros (e & He & Hbad).
    destruct (merges (Partition_new n) es) eqn:Hm; [|done].
    exfalso. assert (Forall (λ e, row1 e < n ∧ row2 e < n) es) as Hall
      by (apply Hs; done).
    rewrite Forall_forall in Hall. specialize (Hall e He). cbv beta in Hall. lia.
Qed.

Lemma merges_fail_iff_out_of_range_witness :
  merges (Partition_new 3) [mkEdge 0 1 0; mkEdge 1 3 0] = None ↔
  ∃ e, e ∈ [mkEdge 0 1 0; mkEdge 1 3 0] ∧ (3 ≤ row1 e ∨ 3 ≤ row2 e).
Proof.
  apply (merges_fail_iff_out_of_range 3). unfold size_t_modulus. lia.
Defined.

(** X10. [minSpanTree] on a graph built over [K] sequences returns exactly
    when the stored edges connect all [K] vertices; otherwise its loop gives
    no result, however long it is run. *)
Theorem minSpanTree_returns_iff_connected (K : nat) (ds : list Draw) (g : AlignGraph) :
  (Z.of_nat K < size_t_modulus)%Z → valid_draws K ds →
  AlignGraph_built K ds = Some g →
  (is_Some (minSpanTree g) ↔ spans K (draw_edge <$> ds)) ∧
  (¬ spans K (draw_edge <$> ds) →
   ∀ fuel, mst_loop fuel (edgePath g) (edges g) (Partition_new K) [] = None).
Proof.
  intros HK Hv Hb.
  pose proof (built_queues_in K ds g Hv Hb) as Hq.
  pose proof (built_graph_holds K ds g Hv Hb) as (Hn & _).
  assert (∀ fuel r, mst_loop fuel (edgePath g) (edges g) (Partition_new K) [] = Some r →
                    spans K (draw_edge <$> ds)) as Hsound.
  { intros fuel r Hr.
    eapply (mst_loop_sound K _ (edgePath g) HK fuel (edges g) _ [] r); try done.
    intros e He. by apply elem_of_nil in He. }
  split; [split|].
  - intros [paths Hp]. unfold minSpanTree, minSpanTree_trace in Hp. rewrite Hn in Hp.
    destruct (mst_loop K _ _ _ _) as [r|] eqn:Hr; [|done]. by eapply Hsound.
  - intros Hsp. destruct (minSpanTree_of_connected K ds g HK Hv Hb Hsp) as (paths & -> & _).
    eauto.
  - intros Hns fuel.
    destruct (mst_loop fuel _ _ _ _) as [r|] eqn:Hr; [|done].
    exfalso. by eapply Hns, Hsound.
Qed.

Lemma minSpanTree_returns_iff_connected_witness :
  (is_Some (minSpanTree (AlignGraph_empty 2)) ↔ spans 2 (draw_edge <$> [])) ∧
  (¬ spans 2 (draw_edge <$> []) →
   ∀ fuel, mst_loop fuel (edgePath (AlignGraph_empty 2)) (edges (AlignGraph_empty 2))
             (Partition_new 2) [] = None).
Proof.
  apply (minSpanTree_returns_iff_connected 2 [] (AlignGraph_empty 2)).
  - unfold size_t_modulus. lia.
  - constructor.
  - reflexivity.
Defined.

(** X11. When the constructor returns, the pairs it has drawn are pairwise
    different pairs [src < dest] of the [K] sequences, [n] counts them and
    lies between [nEdges] and [K (K - 1) / 2], the stored edges connect all
    [K] sequences, and [minSpanTree] on the graph returns [K - 1] paths. *)
Theorem AlignGraph_new_connected (quickAlign : nat → nat → list bool * list bool * R)
    (K : nat) (bound : Z) (raws : list (nat * nat))
    (g : AlignGraph) (part : Partition) (n : Z) :
  (Z.of_nat K < 2 ^ 32)%Z →
  AlignGraph_new quickAlign K bound raws = Some (g, part, n) →
  ∃ ds, AlignGraph_built K ds = Some g ∧
        Forall (λ d, d_src d < d_dest d < K) ds ∧
        NoDup (pair_of <$> ds) ∧
        n = Z.of_nat (length ds) ∧
        (nEdges_of K bound ≤ n)%Z ∧ 2 * length ds ≤ K * (K - 1) ∧
        spans K (draw_edge <$> ds) ∧
        ∃ paths, minSpanTree g = Some paths ∧ length paths = K - 1.
Proof.
  intros HK Hnew. unfold AlignGraph_new in Hnew.
  destruct (ctor_loop_spec quickAlign K _ HK _ _ _ _ _ [] _ _ _ (ctor_inv_start K) Hnew)
    as (ds & Hinv & HnE & Hsets).
  pose proof (ctor_connected K ds g part n HK Hinv Hsets) as Hsp.
  destruct Hinv as (Hv & Hnd & Hb & Hm & Hn).
  assert (Z.of_nat K < size_t_modulus)%Z as HK' by (unfold size_t_modulus; lia).
  exists ds. split_and!; try done.
  - by apply draws_count.
  - by eapply minSpanTree_of_connected.
Qed.

Lemma AlignGraph_new_connected_witness :
  ∃ g part n,
    AlignGraph_new (λ _ _, ([true], [true], 0%R)) 2 2 [(1, 1); (1, 0)] = Some (g, part, n) ∧
    ∃ ds, AlignGraph_built 2 ds = Some g ∧
        Forall (λ d, d_src d < d_dest d < 2) ds ∧
        NoDup (pair_of <$> ds) ∧
        n = Z.of_nat (length ds) ∧
        (nEdges_of 2 2 ≤ n)%Z ∧ 2 * length ds ≤ 2 * (2 - 1) ∧
        spans 2 (draw_edge <$> ds) ∧
        ∃ paths, minSpanTree g = Some paths ∧ length paths = 2 - 1.
Proof.
  destruct (AlignGraph_new (λ _ _, ([true], [true], 0%R)) 2 2 [(1, 1); (1, 0)])
    as [[[g part] n]|] eqn:Hnew; [|vm_compute in Hnew; discriminate].
  exists g, part, n. split; [reflexivity|].
  apply (AlignGraph_new_connected (λ _ _, ([true], [true], 0%R)) 2 2 [(1, 1); (1, 0)]
           g part n); [lia|exact Hnew].
Defined.

(** X12. The constructor's loop never runs out of pairs to draw: whatever
    the generator has yielded so far, it can go on so that the constructor
    returns. *)
Theorem AlignGraph_new_can_return (quickAlign : nat → nat → list bool * list bool * R)
    (K : nat) (bound : Z) (raws : list (nat * nat)) :
  (Z.of_nat K < 2 ^ 32)%Z → in_range K raws →
  ∃ more, in_range K more ∧
          is_Some (AlignGraph_new quickAlign K bound (raws ++ more)).
Proof.
  intros HK Hraws.
  assert (Z.of_nat K < size_t_modulus)%Z as HK' by (unfold size_t_modulus; lia).
  destruct (loop_can_finish quickAlign K (nEdges_of K bound) HK
              (nEdges_of_le K bound HK') (K * (K - 1)) [] _ _ 0 raws
              ltac:(simpl; lia) (ctor_inv_start K) Hraws)
    as (more & Hmore & Hrun).
  exists more. split; [done|]. by apply Hrun.
Qed.

Lemma AlignGraph_new_can_return_witness :
  ∃ more, in_range 2 more ∧
          is_Some (AlignGraph_new (λ _ _, ([true], [true], 0%R)) 2 2 ([(1, 1)] ++ more)).
Proof.
  apply (AlignGraph_new_can_return (λ _ _, ([true], [true], 0%R)) 2 2 [(1, 1)]).
  - lia.
  - repeat constructor.
Defined.

End PartitionFacts.

(** ** The column sweeps *)

Module ColumnFacts.
Import Numerics NumericsFacts SumProd SumProdFacts.
Local Unset Default Proof Using.

Lemma filter_seq_S (P : nat → Prop) `{∀ x, Decision (P x)} n :
  filter P (seq 0 (S n)) = filter P (seq 0 n) ++ (if decide (P n) then [n] else []).
Proof.
  rewrite seq_S, filter_app. reflexivity.
Qed.

(** The state of the loop of [initColumn] after the rows below [n]. *)
Lemma initColumn_loop_Some sp n st :
  for_loop_opt n (initColumn_step sp) init_state = Some st →
  rows st = filter (λ r, isGap sp r = false) (seq 0 n) ∧
  roots st = filter (λ r, isGap sp r = false ∧ tops sp r = true) (seq 0 n) ∧
  (∀ x, (0 ≤ ungappedKids st x)%Z ∧
        (ungappedKids st x = 0%Z ↔ ∀ c, c < n → ¬ ungappedKid sp x c)) ∧
  wild_parents sp n.
Proof.
  revert st. induction n as [|n IH]; intros st.
  - intros [= <-]. simpl. split_and!; [done|done| |].
    + intros x. split; [lia|]. split; [intros _ c Hc; lia|done].
    + intros r Hr. lia.
  - rewrite for_loop_opt_S, !filter_seq_S.
    destruct (for_loop_opt n _ _) as [st0|]; simpl; [|done].
    destruct (IH st0 eq_refl) as (Hrows & Hroots & Hkids & Hwild). clear IH.
    unfold initColumn_step. fold (tops sp n).
    destruct (isGap sp n) eqn:Hgap.
    { intros [= <-]. rewrite decide_False by done.
      rewrite decide_False by (by intros [? _]).
      rewrite !app_nil_r. split_and!; [done|done| |].
      - intros x. destruct (Hkids x) as [H0 Hz]. split; [done|]. rewrite Hz. split.
        + intros H c Hc. destruct (decide (c = n)) as [->|];
            [intros (Hg & _); congruence|apply H; lia].
        + intros H c Hc. apply H. lia.
      - intros r Hr Hg Hw. destruct (decide (r = n)) as [->|]; [congruence|].
        apply Hwild; [lia|done..]. }
    rewrite decide_True by done.
    destruct (isWild sp n || bool_decide (ungappedKids st0 n = 0%Z)) eqn:Hassert; [|done].
    assert (wild_parents sp (S n)) as Hwild'.
    { intros r Hr Hg Hw. destruct (decide (r = n)) as [->|]; [|apply Hwild; [lia|done..]].
      rewrite Hw in Hassert. simpl in Hassert. apply bool_decide_eq_true in Hassert.
      intros c Hc. by apply (proj1 (proj2 (Hkids n)) Hassert). }
    destruct (tops sp n) eqn:Htop.
    + intros [= <-]. simpl. rewrite ?decide_True by done.
      split_and!; [by rewrite Hrows|by rewrite Hroots| |done].
      intros x. destruct (Hkids x) as [H0 Hz]. split; [done|]. rewrite Hz. split.
      * intros H c Hc. destruct (decide (c = n)) as [->|];
          [intros (_ & Ht & _); congruence|apply H; lia].
      * intros H c Hc. apply H. lia.
    + intros [= <-]. simpl. rewrite ?decide_False by (by intros [_ ?]).
      rewrite ?app_nil_r. split_and!; [by rewrite Hrows|done| |done].
      intros x. destruct (Hkids x) as [H0 Hz]. unfold vset.
      destruct (decide (x = Z.to_nat (parentNode (tree sp) n))) as [->|Hne].
      * destruct (Hkids (Z.to_nat (parentNode (tree sp) n))) as [H0' _].
        split; [lia|]. split; [lia|]. intros H. exfalso. apply (H n); [lia|]. done.
      * split; [done|]. rewrite Hz. split.
        -- intros H c Hc. destruct (decide (c = n)) as [->|];
             [intros (_ & _ & Hp); congruence|apply H; lia].
        -- intros H c Hc. apply H. lia.
Qed.

Lemma initColumn_loop_is_Some sp n :
  wild_parents sp n → is_Some (for_loop_opt n (initColumn_step sp) init_state).
Proof.
  induction n as [|n IH]; intros Hwild; [by eexists|].
  rewrite for_loop_opt_S.
  destruct IH as [st0 Hst0].
  { intros r Hr. apply Hwild. lia. }
  rewrite Hst0. simpl.
  destruct (initColumn_loop_Some sp n st0 Hst0) as (_ & _ & Hkids & _).
  unfold initColumn_step.
  destruct (isGap sp n) eqn:Hgap; [by eexists|].
  destruct (isWild sp n) eqn:Hw; simpl.
  { destruct (_ || _); by eexists. }
  rewrite bool_decide_eq_true_2.
  { destruct (_ || _); by eexists. }
  apply (Hkids n). intros c Hc. apply Hwild; [lia|done..].
Qed.

(** When [initColumn] succeeds, and what it then leaves. *)
Lemma initColumn_spec (sp sp' : AlignColSumProduct) :
  initColumn sp = Some sp' ↔
  length (filter (λ r, isGap sp r = false ∧ tops sp r = true)
                 (seq 0 (nodes (tree sp)))) = 1 ∧
  wild_parents sp (nodes (tree sp)) ∧
  sp' = set_column sp (col sp)
          (filter (λ r, isGap sp r = false) (seq 0 (nodes (tree sp)))).
Proof.
  unfold initColumn. fold init_state. split.
  - destruct (for_loop_opt _ _ _) as [st|] eqn:Hloop; simpl; [|done].
    destruct (initColumn_loop_Some sp _ st Hloop) as (Hrows & Hroots & _ & Hwild).
    case_bool_decide as Hlen; [|done]. intros [= <-].
    rewrite <- Hroots, <- Hrows. done.
  - intros (Hlen & Hwild & ->).
    destruct (initColumn_loop_is_Some sp _ Hwild) as [st Hloop].
    rewrite Hloop. simpl.
    destruct (initColumn_loop_Some sp _ st Hloop) as (Hrows & Hroots & _ & _).
    rewrite bool_decide_eq_true_2 by (by rewrite Hroots). by rewrite Hrows.
Qed.

(** X13. [initColumn] succeeds exactly when one ungapped row has no ungapped
    parent and every ungapped row that is not a wildcard has no ungapped
    child before it; it then sets [ungappedRows] to the ungapped rows in
    increasing order and changes nothing else. *)
Theorem initColumn_succeeds_iff (sp sp' : AlignColSumProduct) :
  initColumn sp = Some sp' ↔
  length (filter (λ r, isGap sp r = false ∧ tops sp r = true)
                 (seq 0 (nodes (tree sp)))) = 1 ∧
  wild_parents sp (nodes (tree sp)) ∧
  sp' = set_column sp (col sp)
          (filter (λ r, isGap sp r = false) (seq 0 (nodes (tree sp)))).
Proof. apply initColumn_spec. Qed.

Lemma same_column_refl sp : same_column sp sp.
Proof. done. Qed.

Lemma same_column_trans sp1 sp2 sp3 :
  same_column sp1 sp2 → same_column sp2 sp3 → same_column sp1 sp3.
Proof.
  intros (? & ? & ? & ? & ? & ? & ?) (? & ? & ? & ? & ? & ? & ?).
  split_and!; congruence.
Qed.

Lemma same_column_isGap sp sp' r : same_column sp sp' → isGap sp' r = isGap sp r.
Proof. intros (_ & _ & Hg & Hc & _). unfold isGap. by rewrite Hg, Hc. Qed.

Lemma same_column_isWild sp sp' r : same_column sp sp' → isWild sp' r = isWild sp r.
Proof. intros (_ & _ & Hg & Hc & _). unfold isWild. by rewrite Hg, Hc. Qed.

Lemma same_column_root sp sp' : same_column sp sp' → root sp' = root sp.
Proof. intros (_ & _ & _ & _ & Hr & _). unfold root. by rewrite Hr. Qed.

Lemma same_column_A sp sp' : same_column sp sp' → alphabetSize sp' = alphabetSize sp.
Proof. intros (Hm & _). unfold alphabetSize. by rewrite Hm. Qed.

(** A loop over a list, with an invariant that knows the part done. *)
Lemma for_each_opt_prefix_inv {St X} (l : list X) (body : St → X → option St)
    (Inv : list X → St → Prop) s :
  Inv [] s →
  (∀ pre x post s, l = pre ++ x :: post → Inv pre s →
     ∃ s', body s x = Some s' ∧ Inv (pre ++ [x]) s') →
  ∃ s', for_each_opt l body s = Some s' ∧ Inv l s'.
Proof.
  intros H0. induction l as [|x l IH] using rev_ind; intros Hstep.
  - exists s. done.
  - destruct IH as (s1 & Hs1 & Hi1).
    { intros pre y post s1 ->. apply (Hstep pre y (post ++ [x])).
      by rewrite <- app_assoc. }
    destruct (Hstep l x [] s1) as (s2 & Hs2 & Hi2); [done|done|].
    exists s2. rewrite for_each_opt_app, Hs1. simpl.
    rewrite for_each_opt_cons, Hs2. done.
Qed.

(** *** One turn of [fillUp] *)

Lemma fillUp_step_spec sp r :
  isGap sp r = false →
  ∃ sp', fillUp_step sp r = Some sp' ∧ same_column sp sp' ∧ logG sp' = logG sp ∧
    (∀ x i, x ≠ r → logF sp' x i = logF sp x i ∧ logE sp' x i = logE sp x i) ∧
    (∀ i, i < alphabetSize sp → logF sp' r i = upF sp r i) ∧
    (if bool_decide (root sp = Some r)
     then colLogLike sp' = logInnerProduct (alphabetSize sp) (logF sp' r) (logInsProb sp) ∧
          logE sp' = logE sp
     else colLogLike sp' = colLogLike sp ∧
          ∀ i, i < alphabetSize sp → logE sp' r i = branchSum sp' r i).
Proof.
  intros Hgap. unfold fillUp_step.
  set (A := alphabetSize sp).
  assert (∃ logF', (if isWild sp r
                    then Some (for_loop A (λ f i, mset f r i (childSum sp r i)) (logF sp))
                    else tok ← tokenize (gapped sp r (col sp));
                         Some (mset (for_loop A (λ f i, mset f r i NInf) (logF sp))
                                 r tok (Fin 0))) = Some logF' ∧
                   (∀ x i, x ≠ r → logF' x i = logF sp x i) ∧
                   (∀ i, i < A → logF' r i = upF sp r i)) as (logF' & HF & HFo & HFr).
  { unfold upF. destruct (isWild sp r) eqn:Hw.
    - eexists. split; [reflexivity|]. split.
      + intros x i Hx. rewrite fill_row. by rewrite decide_False by (intros [? _]; done).
      + intros i Hi. rewrite fill_row. by rewrite decide_True.
    - unfold isGap in Hgap. unfold isWild in Hw.
      destruct (gapped sp r (col sp)) as [| |tok]; [done|done|]. simpl.
      eexists. split; [reflexivity|]. split.
      + intros x i Hx. unfold mset at 1. rewrite decide_False by (intros [? _]; done).
        rewrite fill_row. by rewrite decide_False by (intros [? _]; done).
      + intros i Hi. unfold mset at 1. destruct (decide (i = tok)) as [->|Hne].
        * by rewrite decide_True.
        * rewrite decide_False by (intros [_ ?]; done).
          rewrite fill_row. by rewrite decide_True. }
  change (for_loop A (λ f i, mset f r i
            (for_loop (nChildren (tree sp) r)
               (λ logFi nc, dadd logFi (logE sp (getChild (tree sp) r nc) i)) (Fin 0)))
            (logF sp))
    with (for_loop A (λ f i, mset f r i (childSum sp r i)) (logF sp)).
  rewrite HF. simpl.
  destruct (bool_decide (root sp = Some r)) eqn:Hroot.
  - eexists. split; [reflexivity|]. simpl. split_and!; try done.
    intros x i Hx. split; [by apply HFo|done].
  - eexists. split; [reflexivity|]. simpl. split_and!; try done.
    + intros x i Hx. split; [by apply HFo|]. rewrite fill_row.
      by rewrite decide_False by (intros [? _]; done).
    + intros i Hi. rewrite fill_row. rewrite decide_True by done. reflexivity.
Qed.

Lemma sorted_filter_seq (P : nat → Prop) `{∀ x, Decision (P x)} n :
  StronglySorted lt (filter P (seq 0 n)).
Proof.
  induction n as [|n IH]; [constructor|].
  rewrite filter_seq_S. apply StronglySorted_app_2; [|done|].
  - intros x1 x2 [_ Hx1%elem_of_seq]%list_elem_of_filter Hx2.
    case_decide; [|by apply elem_of_nil in Hx2].
    apply list_elem_of_singleton in Hx2. lia.
  - case_decide; repeat constructor.
Qed.

(** *** A column that [initColumn] has accepted, on a post-ordered tree *)

Section Column.
Variables sp0 sp : AlignColSumProduct.
Hypothesis Hinit : initColumn sp0 = Some sp.
Hypothesis Hpost : post_order (tree sp0).

Lemma column_tree : tree sp = tree sp0.
Proof. by apply initColumn_spec in Hinit as (_ & _ & ->). Qed.

Lemma column_isGap r : isGap sp r = isGap sp0 r.
Proof. by apply initColumn_spec in Hinit as (_ & _ & ->). Qed.

Lemma column_isWild r : isWild sp r = isWild sp0 r.
Proof. by apply initColumn_spec in Hinit as (_ & _ & ->). Qed.

Lemma column_tops r : tops sp r = tops sp0 r.
Proof. by apply initColumn_spec in Hinit as (_ & _ & ->). Qed.

Lemma column_rows :
  ungappedRows sp = filter (λ r, isGap sp r = false) (seq 0 (nodes (tree sp))).
Proof. by apply initColumn_spec in Hinit as (_ & _ & ->). Qed.

Lemma column_row_iff r :
  r ∈ ungappedRows sp ↔ r < nodes (tree sp) ∧ isGap sp r = false.
Proof.
  rewrite column_rows, list_elem_of_filter, elem_of_seq. split; [intros [? ?]|intros [? ?]];
    (split; [done||lia|done||lia]).
Qed.

Lemma column_sorted : StronglySorted lt (ungappedRows sp).
Proof. rewrite column_rows. apply sorted_filter_seq. Qed.

Lemma column_top :
  ∃ top, root sp = Some top ∧ top ∈ ungappedRows sp ∧ tops sp top = true ∧
         ∀ r, r ∈ ungappedRows sp → tops sp r = true → r = top.
Proof.
  pose proof column_rows as Hrows. pose proof column_sorted as Hsorted.
  pose proof (initColumn_spec sp0 sp) as [Hiff _].
  destruct (Hiff Hinit) as (Hone & _ & _).
  destruct (filter _ (seq 0 (nodes (tree sp0)))) as [|top [|? ?]] eqn:Hf; try done.
  clear Hone.
  assert (∀ r, r ∈ ungappedRows sp → tops sp r = true → r = top) as Huniq.
  { intros r [Hr Hg]%column_row_iff Ht.
    assert (r ∈ [top]) as Hin; [|by apply list_elem_of_singleton in Hin].
    rewrite <- Hf. apply list_elem_of_filter.
    rewrite <- column_isGap, <- column_tops, <- column_tree. split; [done|].
    apply elem_of_seq. lia. }
  assert (top ∈ ungappedRows sp ∧ tops sp top = true) as [Htop Htt].
  { assert (top ∈ [top]) as Hin by (by left).
    rewrite <- Hf in Hin. apply list_elem_of_filter in Hin as [[Hg Ht] Hs].
    apply elem_of_seq in Hs. rewrite column_tops. split; [|done].
    apply column_row_iff. rewrite column_isGap, column_tree. split; [lia|done]. }
  destruct (last (ungappedRows sp)) as [u|] eqn:Hlast.
  2:{ apply last_None in Hlast. rewrite Hlast in Htop. by apply elem_of_nil in Htop. }
  assert (tops sp u = true) as Hu.
  { destruct (tops sp u) eqn:Htu; [done|]. exfalso.
    pose proof (last_Some_elem_of _ _ Hlast) as Hin.
    apply column_row_iff in Hin as [HuN Hug].
    unfold tops in Htu. apply orb_false_iff in Htu as [Hp Hpg].
    apply bool_decide_eq_false in Hp.
    destruct Hpost as [Hpo _]. rewrite <- column_tree in Hpo.
    destruct (Hpo u HuN ltac:(lia)) as [Hlt HpN].
    assert (Z.to_nat (parentNode (tree sp) u) ∈ ungappedRows sp) as Hpin
      by (by apply column_row_iff).
    apply last_Some in Hlast as [l' Hl'].
    rewrite Hl' in Hsorted, Hpin.
    apply elem_of_app in Hpin as [Hpin|Hpin%list_elem_of_singleton]; [|lia].
    assert (Z.to_nat (parentNode (tree sp) u) < u); [|lia].
    eapply (StronglySorted_app_1_elem_of lt); [exact Hsorted|done|by left]. }
  exists top. split_and!; [|done..].
  unfold root. rewrite Hlast. f_equal. apply Huniq; [|done].
  by eapply last_Some_elem_of.
Qed.

(** A row other than the top has an ungapped parent, which is a later row
    and a wildcard. *)
Lemma column_parent top r :
  root sp = Some top → r ∈ ungappedRows sp → r ≠ top →
  let p := Z.to_nat (parentNode (tree sp) r) in
  (0 ≤ parentNode (tree sp) r)%Z ∧ r < p ∧ p ∈ ungappedRows sp ∧ isWild sp p = true.
Proof.
  intros Hroot Hr Hne p.
  destruct column_top as (top' & Hroot' & _ & _ & Huniq).
  assert (top' = top) as -> by congruence.
  destruct (tops sp r) eqn:Ht; [by specialize (Huniq r Hr Ht)|].
  apply column_row_iff in Hr as [HrN Hg].
  pose proof Ht as Ht'.
  unfold tops in Ht. apply orb_false_iff in Ht as [Hp Hpg].
  apply bool_decide_eq_false in Hp.
  destruct Hpost as [Hpo _]. rewrite <- column_tree in Hpo.
  destruct (Hpo r HrN ltac:(lia)) as [Hlt HpN]. fold p in Hlt, HpN, Hpg.
  split_and!; [lia|done|by apply column_row_iff|].
  destruct (isWild sp p) eqn:Hw; [done|]. exfalso.
  pose proof (initColumn_spec sp0 sp) as [Hiff _].
  destruct (Hiff Hinit) as (_ & Hwild & _).
  apply (Hwild p) with (c := r);
    rewrite <- ?column_tree, <- ?column_isGap, <- ?column_isWild; try done.
  split_and!; rewrite <- ?column_tree, <- ?column_isGap, <- ?column_tops; done.
Qed.

End Column.

Lemma upF_ext s s' r i :
  same_column s s' →
  (∀ nc, nc < nChildren (tree s) r →
         logE s' (getChild (tree s) r nc) i = logE s (getChild (tree s) r nc) i) →
  upF s' r i = upF s r i.
Proof.
  intros Hsame HE. unfold upF.
  rewrite (same_column_isWild s s' r Hsame).
  destruct Hsame as (_ & Ht & Hg & Hc & _). rewrite Hg, Hc.
  destruct (isWild s r); [|done].
  unfold childSum. rewrite Ht. apply for_loop_ext. intros acc nc Hnc.
  by rewrite HE.
Qed.

Lemma branchSum_ext s s' r i :
  same_column s s' → (∀ j, logF s' r j = logF s r j) →
  branchSum s' r i = branchSum s r i.
Proof.
  intros Hsame HF. unfold branchSum. rewrite (same_column_A _ _ Hsame).
  destruct Hsame as (_ & _ & _ & _ & _ & _ & HL). rewrite HL.
  apply for_loop_ext. intros acc j _. by rewrite HF.
Qed.

Lemma logInnerProduct_ext n v1 v1' v2 :
  (∀ i, i < n → v1' i = v1 i) → logInnerProduct n v1' v2 = logInnerProduct n v1 v2.
Proof.
  intros H. unfold logInnerProduct. apply for_loop_ext. intros acc i Hi. by rewrite H.
Qed.

Lemma downSum_ext s s' r j :
  same_column s s' → logE s' = logE s →
  (∀ i, logG s' (Z.to_nat (parentNode (tree s) r)) i
        = logG s (Z.to_nat (parentNode (tree s) r)) i) →
  downSum s' r j = downSum s r j.
Proof.
  intros Hsame HE HG. unfold downSum. rewrite (same_column_A _ _ Hsame), HE.
  destruct Hsame as (_ & Ht & _ & _ & _ & _ & HL). rewrite HL, Ht.
  apply for_loop_ext. intros acc i _. by rewrite HG.
Qed.

(** A loop that stores in row [r] values computed from the other rows. *)
Lemma fill_row_from_others {T} n r (F : (nat → nat → T) → nat → T) g0 k l :
  (∀ g g' j, (∀ k l, k ≠ r → g k l = g' k l) → F g j = F g' j) →
  for_loop n (λ g j, mset g r j (F g j)) g0 k l =
  if decide (k = r ∧ l < n) then F g0 l else g0 k l.
Proof.
  intros HF. revert k l. induction n as [|n IH]; intros k l.
  - rewrite for_loop_0. case_decide; [lia|done].
  - rewrite for_loop_S. unfold mset at 1.
    destruct (decide (k = r ∧ l = n)) as [[-> ->]|Hne].
    + rewrite decide_True by lia. apply HF. intros k l Hk.
      rewrite IH. by rewrite decide_False by (intros [? _]; done).
    + rewrite IH. repeat case_decide; destruct_and?; subst; try done; lia.
Qed.

Lemma fillDown_step_spec s r :
  (0 ≤ parentNode (tree s) r)%Z → Z.to_nat (parentNode (tree s) r) ≠ r →
  ∃ s', fillDown_step s r = Some s' ∧ same_column s s' ∧
    logE s' = logE s ∧ logF s' = logF s ∧ colLogLike s' = colLogLike s ∧
    (∀ x j, x ≠ r → logG s' x j = logG s x j) ∧
    (∀ j, j < alphabetSize s → logG s' r j = downSum s r j).
Proof.
  intros Hp Hne. unfold fillDown_step.
  rewrite bool_decide_eq_false_2 by lia.
  eexists. split; [reflexivity|]. simpl. split_and!; try done.
  - intros x j Hx.
    rewrite (fill_row_from_others (alphabetSize s) r
               (λ g j, for_loop (alphabetSize s)
                  (λ logGj i, log_accum_exp logGj
                     (dadd (dadd (g (Z.to_nat (parentNode (tree s) r)) i)
                                 (branchLogSubProb s r i j))
                           (logE s (getSibling (tree s) r) i))) NInf)).
    + by rewrite decide_False by (intros [? _]; done).
    + intros g g' j' Hg. apply for_loop_ext. intros acc i _. by rewrite Hg.
  - intros j Hj.
    rewrite (fill_row_from_others (alphabetSize s) r
               (λ g j, for_loop (alphabetSize s)
                  (λ logGj i, log_accum_exp logGj
                     (dadd (dadd (g (Z.to_nat (parentNode (tree s) r)) i)
                                 (branchLogSubProb s r i j))
                           (logE s (getSibling (tree s) r) i))) NInf)).
    + by rewrite decide_True.
    + intros g g' j' Hg. apply for_loop_ext. intros acc i _. by rewrite Hg.
Qed.

Section Sweeps.
Variables sp0 sp : AlignColSumProduct.
Hypothesis Hinit : initColumn sp0 = Some sp.
Hypothesis Hpost : post_order (tree sp0).

Let A := alphabetSize sp.

Lemma sweep_children s r nc :
  same_column sp s → r ∈ ungappedRows sp → nc < nChildren (tree s) r →
  getChild (tree s) r nc < r.
Proof.
  intros (_ & Ht & _) [Hr _]%(column_row_iff sp0 sp Hinit) Hnc.
  destruct Hpost as [_ Hk]. rewrite <- (column_tree sp0 sp Hinit) in Hk.
  rewrite Ht in *. by apply Hk.
Qed.

(** The tables after [fillUp]. *)
Lemma fillUp_tables top :
  root sp = Some top →
  ∃ sp1, fillUp sp = Some sp1 ∧ same_column sp sp1 ∧ logG sp1 = logG sp ∧
    (∀ x i, x ∉ ungappedRows sp → logF sp1 x i = logF sp x i ∧ logE sp1 x i = logE sp x i) ∧
    (∀ i, logE sp1 top i = logE sp top i) ∧
    (∀ r, r ∈ ungappedRows sp → ∀ i, i < A → logF sp1 r i = upF sp1 r i) ∧
    (∀ r, r ∈ ungappedRows sp → r ≠ top → ∀ i, i < A → logE sp1 r i = branchSum sp1 r i) ∧
    colLogLike sp1 = logInnerProduct A (logF sp1 top) (logInsProb sp).
Proof.
  intros Hroot.
  pose proof (column_sorted sp0 sp Hinit) as Hsorted.
  destruct (column_top sp0 sp Hinit Hpost) as (top' & Hroot' & Htop & _).
  assert (top' = top) as -> by congruence. clear Hroot'.
  unfold fillUp.
  set (s0 := set_tables sp NInf (logE sp) (logF sp) (logG sp)).
  destruct (for_each_opt_prefix_inv (ungappedRows sp) fillUp_step
    (λ pre s,
       same_column sp s ∧ logG s = logG sp ∧
       (∀ x i, x ∉ pre → logF s x i = logF sp x i ∧ logE s x i = logE sp x i) ∧
       (∀ i, logE s top i = logE sp top i) ∧
       (∀ r, r ∈ pre → ∀ i, i < A → logF s r i = upF s r i) ∧
       (∀ r, r ∈ pre → r ≠ top → ∀ i, i < A → logE s r i = branchSum s r i) ∧
       (top ∈ pre → colLogLike s = logInnerProduct A (logF s top) (logInsProb sp)))
    s0) as (sp1 & Hrun & Hsame & HG & Hout & HEtop & HF & HE & Hcll).
  { split_and!; try done; intros;
      match goal with H : _ ∈ [] |- _ => by apply elem_of_nil in H end. }
  { intros pre x post s Hl (Hsame & HG & Hout & HEtop & HF & HE & Hcll).
    assert (x ∈ ungappedRows sp) as Hx by (rewrite Hl; set_solver).
    assert (∀ r, r ∈ pre → r < x) as Hbefore.
    { intros r Hr. rewrite Hl in Hsorted.
      eapply (StronglySorted_app_1_elem_of lt); [exact Hsorted|done|by left]. }
    pose proof (proj2 (proj1 (column_row_iff sp0 sp Hinit x) Hx)) as Hgx.
    rewrite <- (same_column_isGap sp s x Hsame) in Hgx.
    destruct (fillUp_step_spec s x Hgx)
      as (s' & Hstep & Hsame' & HG' & Hoth & HFx & Hrootcase).
    exists s'. split; [done|].
    pose proof (same_column_trans _ _ _ Hsame Hsame') as Hsame2.
    assert (alphabetSize s = A) as HA by (by apply same_column_A).
    assert (∀ r, r ∈ ungappedRows sp → r ≤ x → ∀ i, upF s' r i = upF s r i) as HupF.
    { intros r Hr Hle i. apply upF_ext; [done|]. intros nc Hnc.
      apply Hoth. pose proof (sweep_children s r nc Hsame Hr Hnc). lia. }
    assert (root s = Some top) as Hroots by (by rewrite (same_column_root sp s Hsame)).
    rewrite Hroots in Hrootcase.
    split_and!.
    - done.
    - congruence.
    - intros x' i Hx'. apply not_elem_of_app in Hx' as [Hx1 Hx2].
      rewrite list_elem_of_singleton in Hx2.
      destruct (Hoth x' i Hx2) as [-> ->]. by apply Hout.
    - intros i. destruct (decide (x = top)) as [->|Hxt].
      + rewrite bool_decide_eq_true_2 in Hrootcase by done.
        destruct Hrootcase as [_ ->]. apply HEtop.
      + destruct (Hoth top i ltac:(done)) as [_ ->]. apply HEtop.
    - intros r [Hr|Hr%list_elem_of_singleton]%elem_of_app i Hi.
      + pose proof (Hbefore r Hr) as Hlt.
        destruct (Hoth r i ltac:(lia)) as [-> _].
        rewrite HupF; [by apply HF| |lia].
        rewrite Hl. set_solver.
      + subst r. rewrite HFx by lia. symmetry. by apply HupF.
    - intros r [Hr|Hr%list_elem_of_singleton]%elem_of_app Hrt i Hi.
      + pose proof (Hbefore r Hr) as Hlt.
        destruct (Hoth r i ltac:(lia)) as [_ ->].
        rewrite (HE r Hr Hrt i Hi). symmetry. apply branchSum_ext; [done|].
        intros j. by destruct (Hoth r j ltac:(lia)) as [-> _].
      + subst r. rewrite bool_decide_eq_false_2 in Hrootcase by congruence.
        destruct Hrootcase as [_ HEx]. apply HEx. lia.
    - intros [Ht|Ht%list_elem_of_singleton]%elem_of_app.
      + pose proof (Hbefore top Ht) as Hlt.
        rewrite bool_decide_eq_false_2 in Hrootcase by (intros [= ?]; lia).
        destruct Hrootcase as [-> _]. rewrite (Hcll Ht).
        symmetry. apply logInnerProduct_ext. intros i Hi.
        by destruct (Hoth top i ltac:(lia)) as [-> _].
      + subst x. rewrite bool_decide_eq_true_2 in Hrootcase by done.
        destruct Hrootcase as [-> _]. rewrite HA.
        by destruct Hsame as (_ & _ & _ & _ & _ & -> & _). }
  exists sp1. split_and!; try done. by apply Hcll.
Qed.

(** The tables after [fillDown]. *)
Lemma fillDown_tables top sp1 :
  root sp = Some top → same_column sp sp1 →
  ∃ sp2, fillDown sp1 = Some sp2 ∧ same_column sp1 sp2 ∧
    logE sp2 = logE sp1 ∧ logF sp2 = logF sp1 ∧ colLogLike sp2 = colLogLike sp1 ∧
    (∀ x j, x ∉ ungappedRows sp → logG sp2 x j = logG sp1 x j) ∧
    (∀ j, logG sp2 top j = logInsProb sp j) ∧
    (∀ r, r ∈ ungappedRows sp → r ≠ top → ∀ j, j < A → logG sp2 r j = downSum sp2 r j).
Proof.
  intros Hroot Hsame1.
  pose proof (column_sorted sp0 sp Hinit) as Hsorted.
  pose proof Hroot as Hlast. unfold root in Hlast.
  apply last_Some in Hlast as [l' Hl'].
  assert (ungappedRows sp1 = l' ++ [top]) as Hrows1.
  { destruct Hsame1 as (_ & _ & _ & _ & -> & _). done. }
  unfold fillDown. rewrite Hrows1, reverse_snoc.
  set (s0 := set_tables sp1 (colLogLike sp1) (logE sp1) (logF sp1)
               (λ r i, if decide (r = top) then logInsProb sp1 i else logG sp1 r i)).
  assert (same_column sp1 s0) as Hsame0 by done.
  assert (top ∉ l') as Htl.
  { intros Hin. rewrite Hl' in Hsorted.
    assert (top < top); [|lia].
    eapply (StronglySorted_app_1_elem_of lt); [exact Hsorted|done|by left]. }
  destruct (for_each_opt_prefix_inv (reverse l') fillDown_step
    (λ pre s,
       same_column sp1 s ∧ logE s = logE sp1 ∧ logF s = logF sp1 ∧
       colLogLike s = colLogLike sp1 ∧
       (∀ x j, x ∉ pre → x ≠ top → logG s x j = logG sp1 x j) ∧
       (∀ j, logG s top j = logInsProb sp j) ∧
       (∀ r, r ∈ pre → ∀ j, j < A → logG s r j = downSum s r j))
    s0) as (sp2 & Hrun & Hsame & HE & HF & Hcll & Hout & HGtop & HG).
  { split_and!; try done.
    - intros x j _ Hx. simpl. by rewrite decide_False.
    - intros j. simpl. rewrite decide_True by done.
      by destruct Hsame1 as (_ & _ & _ & _ & _ & -> & _).
    - intros r Hin. by apply elem_of_nil in Hin. }
  { intros pre x post s Hl (Hsame & HE & HF & Hcll & Hout & HGtop & HG).
    assert (x ∈ l') as Hxl.
    { apply elem_of_reverse. rewrite Hl. set_solver. }
    assert (x ∈ ungappedRows sp) as Hx by (rewrite Hl'; set_solver).
    assert (x ≠ top) as Hxt by (intros ->; done).
    assert (∀ r, r ∈ pre → r ∈ l' ∧ x < r) as Hbefore.
    { intros r Hr.
      assert (l' = reverse post ++ [x] ++ reverse pre) as Hl2.
      { rewrite <- (reverse_involutive l'), Hl, reverse_app, reverse_cons.
        by rewrite <- app_assoc. }
      split; [rewrite Hl2, !elem_of_app, !elem_of_reverse; auto|].
      rewrite Hl', Hl2 in Hsorted.
      apply StronglySorted_app_1_l, StronglySorted_app_1_r in Hsorted.
      eapply (StronglySorted_app_1_elem_of lt); [exact Hsorted|by left|].
      by apply elem_of_reverse. }
    pose proof (same_column_trans _ _ _ Hsame1 Hsame) as Hsame2.
    assert (tree s = tree sp) as Ht by (by destruct Hsame2 as (_ & -> & _)).
    assert (alphabetSize s = A) as HA by (by apply same_column_A).
    destruct (column_parent sp0 sp Hinit Hpost top x Hroot Hx Hxt)
      as (Hp0 & Hlt & Hpin & _).
    rewrite <- Ht in Hp0, Hlt.
    destruct (fillDown_step_spec s x Hp0 ltac:(lia))
      as (s' & Hstep & Hsame' & HE' & HF' & Hcll' & Hoth & HGx).
    exists s'. split; [done|].
    split_and!; try congruence.
    - by eapply same_column_trans.
    - intros x' j Hx' Hx't. apply not_elem_of_app in Hx' as [Hx1 Hx2].
      rewrite list_elem_of_singleton in Hx2.
      rewrite (Hoth x' j Hx2). by apply Hout.
    - intros j. rewrite (Hoth top j ltac:(done)). apply HGtop.
    - intros r [Hr|Hr%list_elem_of_singleton]%elem_of_app j Hj.
      + destruct (Hbefore r Hr) as [Hrl Hxr].
        rewrite (Hoth r j ltac:(lia)), (HG r Hr j Hj).
        symmetry. apply downSum_ext; [done|done|].
        intros i. apply Hoth.
        assert (r ∈ ungappedRows sp) as Hrin by (rewrite Hl'; set_solver).
        assert (r ≠ top) as Hrt by (intros ->; done).
        destruct (column_parent sp0 sp Hinit Hpost top r Hroot Hrin Hrt) as (_ & Hlt' & _).
        rewrite Ht. lia.
      + subst r. rewrite HGx by lia. symmetry. apply downSum_ext; [done|done|].
        intros i. apply Hoth. lia. }
  exists sp2. split_and!; try done.
  - intros x j Hx. apply Hout.
    + intros Hin%elem_of_reverse. apply Hx. rewrite Hl'. set_solver.
    + intros ->. apply Hx. rewrite Hl'. set_solver.
  - intros r Hr Hrt j Hj. apply HG; [|done].
    apply elem_of_reverse. rewrite Hl' in Hr. set_solver.
Qed.

End Sweeps.

End ColumnFacts.

(** ** Posteriors *)

Module PosteriorFacts.
Import Numerics NumericsFacts SumProd SumProdFacts CountsFacts ColumnFacts.
Local Open Scope R_scope.
Local Unset Default Proof Using.

Lemma Rsum_add n f g : Rsum n (λ i, f i + g i) = Rsum n f + Rsum n g.
Proof. induction n as [|n IH]; simpl; [lra|]. rewrite IH. lra. Qed.

Lemma Rsum_zero n : Rsum n (λ _, 0) = 0.
Proof. induction n as [|n IH]; simpl; [done|]. rewrite IH. lra. Qed.

Lemma Rsum_mult_l n f c : Rsum n (λ i, c * f i) = c * Rsum n f.
Proof. induction n as [|n IH]; simpl; [lra|]. rewrite IH. lra. Qed.

Lemma Rsum_swap n m (h : nat → nat → R) :
  Rsum n (λ i, Rsum m (λ j, h i j)) = Rsum m (λ j, Rsum n (λ i, h i j)).
Proof.
  induction n as [|n IH]; simpl.
  - by rewrite Rsum_zero.
  - rewrite IH. by rewrite <- Rsum_add.
Qed.

(** The value of a log-sum-exp loop over log-probabilities. *)
Lemma expo_lse n (x : nat → double) :
  (∀ i, (i < n)%nat → is_logp (x i)) →
  let v := for_loop n (λ acc i, log_accum_exp acc (x i)) NInf in
  is_logp v ∧ expo v = Rsum n (λ i, expo (x i)).
Proof.
  intros Hx. destruct (log_sum_exp_loop n x Hx) as [[Hs Hv]|[Hs Hv]];
    cbv zeta in *; rewrite Hv; simpl.
  - split; [by left|]. by rewrite Hs.
  - split; [right; eauto|]. by rewrite exp_ln.
Qed.

Lemma is_logp_childSum sp r i :
  (∀ nc, (nc < nChildren (tree sp) r)%nat →
         is_logp (logE sp (getChild (tree sp) r nc) i)) →
  is_logp (childSum sp r i).
Proof.
  unfold childSum. induction (nChildren (tree sp) r) as [|n IH]; intros H.
  - rewrite for_loop_0. right. eauto.
  - rewrite for_loop_S. apply is_logp_dadd; [apply IH; intros; apply H; lia|apply H; lia].
Qed.

Lemma expo_childSum_2 sp r i :
  nChildren (tree sp) r = 2%nat →
  is_logp (logE sp (getChild (tree sp) r 0) i) →
  is_logp (logE sp (getChild (tree sp) r 1) i) →
  expo (childSum sp r i) =
  expo (logE sp (getChild (tree sp) r 0) i) * expo (logE sp (getChild (tree sp) r 1) i).
Proof.
  intros H2 H0 H1. unfold childSum. rewrite H2.
  change (for_loop 2 ?b ?s) with (b (b s 0%nat) 1%nat). cbv beta.
  rewrite !expo_dadd; try done.
  - simpl. rewrite exp_0. lra.
  - right. eauto.
  - apply is_logp_dadd; [right; eauto|done].
Qed.

Section Posterior.
Variables sp0 sp sp1 sp2 : AlignColSumProduct.
Variable top : nat.
Hypothesis Hinit : initColumn sp0 = Some sp.
Hypothesis Hpost : post_order (tree sp0).
Hypothesis Hlogp : logp_tables sp0.
Hypothesis Hroot : root sp = Some top.
Hypothesis Hup : fillUp sp = Some sp1.
Hypothesis Hdown : fillDown sp1 = Some sp2.

Let A := alphabetSize sp.
Let N := nodes (tree sp).

Lemma post_fields :
  same_column sp sp1 ∧ same_column sp sp2 ∧
  logE sp = logE sp0 ∧ alphabetSize sp0 = A ∧ tree sp0 = tree sp ∧
  logInsProb sp0 = logInsProb sp ∧ branchLogSubProb sp0 = branchLogSubProb sp.
Proof.
  destruct (fillUp_tables sp0 sp Hinit Hpost top Hroot) as (sp1' & Hup' & Hs1 & _).
  assert (sp1' = sp1) as -> by congruence.
  destruct (fillDown_tables sp0 sp Hinit Hpost top sp1 Hroot Hs1) as (sp2' & Hd' & Hs2 & _).
  assert (sp2' = sp2) as -> by congruence.
  split; [done|]. split; [by eapply same_column_trans|].
  apply initColumn_spec in Hinit as (_ & _ & ->). done.
Qed.

Lemma post_up :
  (∀ x i, x ∉ ungappedRows sp → logE sp1 x i = logE sp x i) ∧
  (∀ i, logE sp1 top i = logE sp top i) ∧
  (∀ r, r ∈ ungappedRows sp → ∀ i, (i < A)%nat → logF sp1 r i = upF sp1 r i) ∧
  (∀ r, r ∈ ungappedRows sp → r ≠ top → ∀ i, (i < A)%nat →
        logE sp1 r i = branchSum sp1 r i) ∧
  colLogLike sp1 = logInnerProduct A (logF sp1 top) (logInsProb sp).
Proof.
  destruct (fillUp_tables sp0 sp Hinit Hpost top Hroot)
    as (sp1' & Hup' & Hs1 & _ & Hout & HEtop & HF & HE & Hcll).
  assert (sp1' = sp1) as -> by congruence.
  split_and!; try done. intros x i Hx. by apply Hout.
Qed.

Lemma post_down :
  logE sp2 = logE sp1 ∧ logF sp2 = logF sp1 ∧ colLogLike sp2 = colLogLike sp1 ∧
  (∀ j, logG sp2 top j = logInsProb sp j) ∧
  (∀ r, r ∈ ungappedRows sp → r ≠ top → ∀ j, (j < A)%nat →
        logG sp2 r j = downSum sp2 r j).
Proof.
  destruct post_fields as (Hs1 & _).
  destruct (fillDown_tables sp0 sp Hinit Hpost top sp1 Hroot Hs1)
    as (sp2' & Hd' & Hs2 & HE & HF & Hcll & _ & HGt & HG).
  assert (sp2' = sp2) as -> by congruence. done.
Qed.

(** After [fillUp], [logE] and the rows of [logF] that were written hold
    log-probabilities. *)
Lemma logp_up x :
  (∀ i, (i < A)%nat → is_logp (logE sp1 x i)) ∧
  (x ∈ ungappedRows sp → ∀ i, (i < A)%nat → is_logp (logF sp1 x i)).
Proof.
  destruct post_fields as (Hs1 & _ & HE0 & HA0 & Ht0 & Hpi0 & HL0).
  destruct post_up as (Hout & HEtop & HF & HE & _).
  destruct Hlogp as (Hpi & HL & HEl). rewrite HA0, <- ?HE0 in *.
  induction x as [x IH] using lt_wf_ind.
  assert (x ∈ ungappedRows sp → ∀ i, (i < A)%nat → is_logp (logF sp1 x i)) as HFx.
  { intros Hx i Hi. rewrite HF by done. unfold upF.
    rewrite (same_column_isWild sp sp1 x Hs1).
    destruct (isWild sp x).
    - apply is_logp_childSum. intros nc Hnc. apply IH; [|done].
      by apply (sweep_children sp0 sp Hinit Hpost sp1).
    - destruct (gapped sp1 x (col sp1)); try by left.
      case_decide; [right; eauto|by left]. }
  split; [|done]. intros i Hi.
  destruct (decide (x ∈ ungappedRows sp)) as [Hx|Hx].
  2:{ rewrite Hout by done. by apply HEl. }
  destruct (decide (x = top)) as [->|Hxt].
  { rewrite HEtop. by apply HEl. }
  rewrite HE by done. unfold branchSum.
  rewrite (same_column_A sp sp1 Hs1). fold A.
  apply (expo_lse A (λ j, dadd (branchLogSubProb sp1 x i j) (logF sp1 x j))).
  intros j Hj. apply is_logp_dadd; [|by apply HFx].
  destruct Hs1 as (_ & _ & _ & _ & _ & _ & ->). rewrite <- HL0. by apply HL.
Qed.

(** After [fillDown], the rows of [logG] that were written hold
    log-probabilities. *)
Lemma logp_down r :
  r ∈ ungappedRows sp → ∀ j, (j < A)%nat → is_logp (logG sp2 r j).
Proof.
  destruct post_fields as (Hs1 & Hs2 & HE0 & HA0 & Ht0 & Hpi0 & HL0).
  destruct post_down as (HE2 & HF2 & _ & HGtop & HG).
  destruct Hlogp as (Hpi & HL & HEl). rewrite HA0 in *.
  assert (∀ m r, (N ≤ r + m)%nat → r ∈ ungappedRows sp →
                 ∀ j, (j < A)%nat → is_logp (logG sp2 r j)) as Hind.
  { induction m as [|m IH]; intros r' Hm Hr j Hj.
    { apply (column_row_iff sp0 sp Hinit) in Hr as [Hr _]. unfold N in Hm. lia. }
    destruct (decide (r' = top)) as [->|Hrt].
    { rewrite HGtop, <- Hpi0. by apply Hpi. }
    destruct (column_parent sp0 sp Hinit Hpost top r' Hroot Hr Hrt) as (Hp0 & Hlt & Hpin & _).
    rewrite HG by done. unfold downSum.
    rewrite (same_column_A sp sp2 Hs2). fold A.
    apply (expo_lse A (λ i, dadd (dadd (logG sp2 (Z.to_nat (parentNode (tree sp2) r')) i)
                                      (branchLogSubProb sp2 r' i j))
                                (logE sp2 (getSibling (tree sp2) r') i))).
    intros i Hi.
    assert (tree sp2 = tree sp) as -> by (by destruct Hs2 as (_ & -> & _)).
    assert (branchLogSubProb sp2 = branchLogSubProb sp) as ->
      by (by destruct Hs2 as (_ & _ & _ & _ & _ & _ & ->)).
    repeat apply is_logp_dadd.
    - apply IH; [lia|done..].
    - rewrite <- HL0. by apply HL.
    - rewrite HE2. by apply logp_up. }
  intros Hr. apply (Hind N). lia. done.
Qed.

(** [logE] of a row other than the top, as a probability. *)
Lemma expo_logE r i :
  r ∈ ungappedRows sp → r ≠ top → (i < A)%nat →
  expo (logE sp1 r i) =
  Rsum A (λ j, expo (branchLogSubProb sp r i j) * expo (logF sp1 r j)).
Proof.
  intros Hr Hrt Hi.
  destruct post_fields as (Hs1 & Hs2 & HE0 & HA0 & Ht0 & Hpi0 & HL0).
  destruct post_up as (_ & _ & HF & HE & _).
  destruct Hlogp as (Hpi & HL & HEl). rewrite HA0 in *.
  assert (branchLogSubProb sp1 = branchLogSubProb sp) as HL1
    by (by destruct Hs1 as (_ & _ & _ & _ & _ & _ & ->)).
  assert (∀ i j, (i < A)%nat → (j < A)%nat → is_logp (branchLogSubProb sp r i j)) as HLp
    by (intros; rewrite <- HL0; by apply HL).
  rewrite HE by done. unfold branchSum.
  rewrite (same_column_A sp sp1 Hs1). fold A. rewrite HL1.
  destruct (expo_lse A (λ j, dadd (branchLogSubProb sp r i j) (logF sp1 r j))) as [_ ->].
  - intros j Hj. apply is_logp_dadd; [by apply HLp|by apply logp_up].
  - apply Rsum_ext. intros j Hj. rewrite expo_dadd; [done|by apply HLp|by apply logp_up].
Qed.

(** [logG] of a row other than the top, as a probability. *)
Lemma expo_logG r j :
  r ∈ ungappedRows sp → r ≠ top → (j < A)%nat →
  expo (logG sp2 r j) =
  Rsum A (λ i, expo (logG sp2 (Z.to_nat (parentNode (tree sp) r)) i) *
               expo (branchLogSubProb sp r i j) *
               expo (logE sp1 (getSibling (tree sp) r) i)).
Proof.
  intros Hr Hrt Hj.
  destruct post_fields as (Hs1 & Hs2 & HE0 & HA0 & Ht0 & Hpi0 & HL0).
  destruct post_down as (HE2 & HF2 & _ & HGtop & HG).
  destruct Hlogp as (Hpi & HL & HEl). rewrite HA0 in *.
  destruct (column_parent sp0 sp Hinit Hpost top r Hroot Hr Hrt) as (Hp0 & Hlt & Hpin & Hw).
  set (p := Z.to_nat (parentNode (tree sp) r)) in *.
  set (s := getSibling (tree sp) r).
  assert (tree sp2 = tree sp) as Ht2 by (by destruct Hs2 as (_ & -> & _)).
  assert (branchLogSubProb sp2 = branchLogSubProb sp) as HL2
    by (by destruct Hs2 as (_ & _ & _ & _ & _ & _ & ->)).
  assert (∀ i j, (i < A)%nat → (j < A)%nat → is_logp (branchLogSubProb sp r i j)) as HLp
    by (intros; rewrite <- HL0; by apply HL).
  rewrite HG by done. unfold downSum.
  rewrite (same_column_A sp sp2 Hs2). fold A. rewrite HL2, Ht2, HE2. fold p s.
  destruct (expo_lse A (λ i, dadd (dadd (logG sp2 p i) (branchLogSubProb sp r i j))
                                  (logE sp1 s i))) as [_ ->].
  - intros i Hi. repeat apply is_logp_dadd;
      [by apply logp_down|by apply HLp|by apply logp_up].
  - apply Rsum_ext. intros i Hi.
    rewrite !expo_dadd; [done|by apply logp_down|by apply HLp| |by apply logp_up].
    apply is_logp_dadd; [by apply logp_down|by apply HLp].
Qed.

(** The branch posterior of [r], summed over the states of the parent, is
    the node posterior of [r]. *)
Lemma branch_marginal r b c :
  r ∈ ungappedRows sp → r ≠ top → (b < A)%nat → colLogLike sp2 = Fin c →
  ∃ lbp, (∀ a, (a < A)%nat → logBranchPostProb sp2 r a b = Some (lbp a)) ∧
         Rsum A (λ a, expo (lbp a)) = expo (logNodePostProb sp2 r b).
Proof.
  intros Hr Hrt Hb Hc.
  destruct post_fields as (Hs1 & Hs2 & HE0 & HA0 & Ht0 & Hpi0 & HL0).
  destruct post_down as (HE2 & HF2 & _ & HGtop & HG).
  destruct Hlogp as (Hpi & HL & HEl). rewrite HA0 in *.
  destruct (column_parent sp0 sp Hinit Hpost top r Hroot Hr Hrt) as (Hp0 & Hlt & Hpin & Hw).
  assert (tree sp2 = tree sp) as Ht2 by (by destruct Hs2 as (_ & -> & _)).
  assert (branchLogSubProb sp2 = branchLogSubProb sp) as HL2
    by (by destruct Hs2 as (_ & _ & _ & _ & _ & _ & ->)).
  assert (∀ i j, (i < A)%nat → (j < A)%nat → is_logp (branchLogSubProb sp r i j)) as HLp
    by (intros; rewrite <- HL0; by apply HL).
  unfold logBranchPostProb. rewrite Ht2, HL2, HE2, HF2, Hc.
  rewrite bool_decide_eq_false_2 by lia.
  set (p := Z.to_nat (parentNode (tree sp) r)) in *.
  set (s := getSibling (tree sp) r).
  eexists (λ a, _). split; [intros a Ha; reflexivity|]. cbv beta.
  assert (∀ x, is_logp x → expo (dsub x (Fin c)) = expo x * exp (- c)) as Hsub.
  { intros x [->|[a ->]]; simpl; [lra|]. by rewrite exp_plus. }
  unfold logNodePostProb. rewrite fill_vector.
  rewrite (same_column_A sp sp2 Hs2). fold A. rewrite decide_True by done.
  rewrite Hc, HF2, Hsub by (apply is_logp_dadd; [by apply logp_up|by apply logp_down]).
  rewrite expo_dadd by (by apply logp_up || by apply logp_down).
  rewrite expo_logG by done. fold p s.
  rewrite <- Rsum_mult_l, <- Rsum_scale.
  apply Rsum_ext. intros a Ha.
  assert (is_logp (logG sp2 p a)) by (by apply logp_down).
  assert (is_logp (logE sp1 s a)) by (by apply logp_up).
  assert (is_logp (logF sp1 r b)) by (by apply logp_up).
  rewrite Hsub by (repeat apply is_logp_dadd; auto).
  rewrite !expo_dadd; auto; [lra|..]; repeat apply is_logp_dadd; auto.
Qed.

(** The node posterior of [r] as a function of the posterior weights. *)
Lemma node_posterior_sum r c :
  r ∈ ungappedRows sp → colLogLike sp2 = Fin c →
  Rsum A (λ j, expo (logNodePostProb sp2 r j)) =
  Rsum A (λ j, expo (logF sp2 r j) * expo (logG sp2 r j)) * exp (- c).
Proof.
  intros Hr Hc.
  destruct post_fields as (Hs1 & Hs2 & _).
  destruct post_down as (_ & HF2 & _).
  rewrite <- Rsum_scale. apply Rsum_ext. intros j Hj.
  unfold logNodePostProb. rewrite fill_vector.
  rewrite (same_column_A sp sp2 Hs2). fold A. rewrite decide_True by done.
  rewrite Hc, HF2.
  assert (is_logp (logF sp1 r j)) as [->|[a ->]] by (by apply logp_up);
    assert (is_logp (logG sp2 r j)) as [->|[a' ->]] by (by apply logp_down);
    simpl; try lra.
  rewrite !exp_plus. lra.
Qed.

Hypothesis Hbin : binary (tree sp0).

(** The posterior weights of a row add up to those of its parent. *)
Lemma posterior_step r :
  r ∈ ungappedRows sp → r ≠ top →
  Rsum A (λ j, expo (logF sp2 r j) * expo (logG sp2 r j)) =
  Rsum A (λ i, expo (logF sp2 (Z.to_nat (parentNode (tree sp) r)) i) *
               expo (logG sp2 (Z.to_nat (parentNode (tree sp) r)) i)).
Proof.
  intros Hr Hrt.
  destruct post_fields as (Hs1 & Hs2 & HE0 & HA0 & Ht0 & Hpi0 & HL0).
  destruct post_up as (_ & _ & HF & HE & _).
  destruct post_down as (HE2 & HF2 & _ & HGtop & HG).
  destruct Hlogp as (Hpi & HL & HEl). rewrite HA0 in *.
  destruct (column_parent sp0 sp Hinit Hpost top r Hroot Hr Hrt) as (Hp0 & Hlt & Hpin & Hw).
  set (p := Z.to_nat (parentNode (tree sp) r)) in *.
  set (s := getSibling (tree sp) r).
  assert (tree sp1 = tree sp) as Ht1 by (by destruct Hs1 as (_ & -> & _)).
  assert (tree sp2 = tree sp) as Ht2 by (by destruct Hs2 as (_ & -> & _)).
  assert (branchLogSubProb sp1 = branchLogSubProb sp) as HL1
    by (by destruct Hs1 as (_ & _ & _ & _ & _ & _ & ->)).
  assert (branchLogSubProb sp2 = branchLogSubProb sp) as HL2
    by (by destruct Hs2 as (_ & _ & _ & _ & _ & _ & ->)).
  assert (r < N)%nat as HrN by (by apply (column_row_iff sp0 sp Hinit) in Hr as [? _]).
  set (P := λ i j, expo (branchLogSubProb sp r i j)).
  set (f := λ x j, expo (logF sp1 x j)).
  set (e := λ x i, expo (logE sp1 x i)).
  set (g := λ x j, expo (logG sp2 x j)).
  assert (∀ i j, (i < A)%nat → (j < A)%nat → is_logp (branchLogSubProb sp r i j)) as HLp
    by (intros; rewrite <- HL0; by apply HL).
  assert (∀ i, (i < A)%nat → e r i = Rsum A (λ j, P i j * f r j)) as He
    by (intros; by apply expo_logE).
  assert (∀ j, (j < A)%nat → g r j = Rsum A (λ i, g p i * P i j * e s i)) as Hg
    by (intros; by apply expo_logG).
  (* (3) logF[p] *)
  assert (∀ i, (i < A)%nat → f p i = e r i * e s i) as Hf.
  { intros i Hi. unfold f. rewrite HF by done. unfold upF.
    rewrite (same_column_isWild sp sp1 p Hs1), Hw.
    unfold N in HrN. rewrite <- Ht0 in Hp0, HrN. destruct (Hbin r HrN Hp0) as [H2 Hkids].
    rewrite Ht0 in H2, Hkids. fold p s in H2, Hkids.
    rewrite expo_childSum_2; rewrite ?Ht1; try done; try (by apply logp_up).
    unfold e. destruct Hkids as [[-> ->]|[-> ->]]; lra. }
  rewrite HF2.
  transitivity (Rsum A (λ j, Rsum A (λ i, f r j * (g p i * P i j * e s i)))).
  { apply Rsum_ext. intros j Hj. fold (f r j) (g r j).
    rewrite Hg by done. by rewrite Rsum_mult_l. }
  rewrite Rsum_swap. apply Rsum_ext. intros i Hi.
  fold (f p i) (g p i). rewrite Hf, He by done.
  rewrite <- 2!Rsum_scale. apply Rsum_ext. intros j Hj. lra.
Qed.

(** The posterior weights of every ungapped row add up to the likelihood of
    the column. *)
Lemma posterior_total r :
  r ∈ ungappedRows sp →
  Rsum A (λ j, expo (logF sp2 r j) * expo (logG sp2 r j)) = expo (colLogLike sp2).
Proof.
  destruct post_fields as (Hs1 & Hs2 & HE0 & HA0 & Ht0 & Hpi0 & HL0).
  destruct post_up as (_ & _ & _ & _ & Hcll).
  destruct post_down as (HE2 & HF2 & Hcll2 & HGtop & HG).
  destruct (column_top sp0 sp Hinit Hpost) as (top' & Hroot' & Htop & _).
  assert (top' = top) as -> by congruence.
  assert (∀ m r, (N ≤ r + m)%nat → r ∈ ungappedRows sp →
            Rsum A (λ j, expo (logF sp2 r j) * expo (logG sp2 r j))
            = expo (colLogLike sp2)) as Hind.
  { induction m as [|m IH]; intros r' Hm Hr.
    { apply (column_row_iff sp0 sp Hinit) in Hr as [Hr _]. unfold N in Hm. lia. }
    destruct (decide (r' = top)) as [->|Hrt].
    { rewrite Hcll2, Hcll. unfold logInnerProduct.
      destruct (expo_lse A (λ i, dadd (logF sp1 top i) (logInsProb sp i))) as [_ ->].
      - intros i Hi. apply is_logp_dadd; [by apply logp_up|].
        destruct Hlogp as (Hpi & _). rewrite <- Hpi0. apply Hpi. by rewrite HA0.
      - apply Rsum_ext. intros i Hi. rewrite HF2, HGtop.
        rewrite expo_dadd; [done|by apply logp_up|].
        destruct Hlogp as (Hpi & _). rewrite <- Hpi0. apply Hpi. by rewrite HA0. }
    destruct (column_parent sp0 sp Hinit Hpost top r' Hroot Hr Hrt) as (Hp0 & Hlt & Hpin & _).
    rewrite posterior_step by done. apply IH; [lia|done]. }
  intros Hr. by apply (Hind N); [lia|].
Qed.

End Posterior.

(** *** The sample column: both leaves of the cherry hold the token 0, the
    root is wild *)

Lemma cherry_post_order t0 t1 : post_order (cherry t0 t1).
Proof.
  split.
  - intros r Hr. simpl in *. case_decide; simpl; lia.
  - intros r nc Hr. simpl in *. case_decide; simpl; lia.
Qed.

Lemma cherry_binary t0 t1 : binary (cherry t0 t1).
Proof.
  intros r Hr. simpl in *. case_decide; simpl; [|lia]. intros _.
  split; [done|]. destruct r as [|[|r]]; [left|right|lia]; done.
Qed.

Lemma cherry_logp_tables rows ncols :
  logp_tables (cherry_object rows ncols (λ _ _ _, Fin 0)).
Proof. split_and!; intros; right; eauto. Qed.

Lemma two_columns_accepted :
  ∃ sp, initColumn (cherry_object two_columns 2 (λ _ _ _, Fin 0)) = Some sp.
Proof.
  assert (ungappedRows <$> initColumn (cherry_object two_columns 2 (λ _ _ _, Fin 0))
          = Some [0; 1; 2]%nat) as F0 by (vm_compute; reflexivity).
  apply fmap_Some in F0 as (sp & Hinit & _). by exists sp.
Qed.

(** X14. On a column that [initColumn] has accepted, over a post-ordered
    tree, [fillUp] succeeds. In the tables it leaves, [logF] of a wildcard
    row is the sum of [logE] over its children, [logF] of a token row is 0
    at the token and minus infinity elsewhere, [logE] of every row but the
    root is the log-sum-exp of [branchLogSubProb + logF] of the row, and
    [colLogLike] is the log inner product of [logF] of the root with
    [logInsProb]. Rows that are gapped keep what they held. *)
Theorem fillUp_fills_tables (sp0 sp : AlignColSumProduct) :
  initColumn sp0 = Some sp → post_order (tree sp0) →
  ∃ top sp1,
    root sp = Some top ∧ fillUp sp = Some sp1 ∧
    (∀ r i, r ∈ ungappedRows sp → (i < alphabetSize sp)%nat →
       logF sp1 r i =
       match gapped sp r (col sp) with
       | TokCell tok => if decide (i = tok) then Fin 0 else NInf
       | _ => childSum sp1 r i
       end) ∧
    (∀ r i, r ∈ ungappedRows sp → r ≠ top → (i < alphabetSize sp)%nat →
       logE sp1 r i = branchSum sp1 r i) ∧
    colLogLike sp1 = logInnerProduct (alphabetSize sp) (logF sp1 top) (logInsProb sp) ∧
    (∀ x i, x ∉ ungappedRows sp →
       logF sp1 x i = logF sp x i ∧ logE sp1 x i = logE sp x i) ∧
    (∀ i, logE sp1 top i = logE sp top i) ∧
    logG sp1 = logG sp.
Proof.
  intros Hinit Hpost.
  destruct (column_top sp0 sp Hinit Hpost) as (top & Hroot & _).
  destruct (fillUp_tables sp0 sp Hinit Hpost top Hroot)
    as (sp1 & Hup & Hs1 & HG & Hout & HEtop & HF & HE & Hcll).
  exists top, sp1. split_and!; try done.
  - intros r i Hr Hi. rewrite HF by done. unfold upF.
    rewrite (same_column_isWild sp sp1 r Hs1).
    destruct Hs1 as (_ & _ & -> & -> & _).
    apply (column_row_iff sp0 sp Hinit) in Hr as [_ Hg].
    unfold isGap in Hg. unfold isWild.
    by destruct (gapped sp r (col sp)).
  - intros r i Hr Hrt Hi. by apply HE.
Qed.

Lemma fillUp_fills_tables_witness :
  ∃ sp top sp1,
    initColumn (cherry_object two_columns 2 (λ _ _ _, Fin 0)) = Some sp ∧
    root sp = Some top ∧ fillUp sp = Some sp1 ∧
    (∀ r i, r ∈ ungappedRows sp → (i < alphabetSize sp)%nat →
       logF sp1 r i =
       match gapped sp r (col sp) with
       | TokCell tok => if decide (i = tok) then Fin 0 else NInf
       | _ => childSum sp1 r i
       end) ∧
    (∀ r i, r ∈ ungappedRows sp → r ≠ top → (i < alphabetSize sp)%nat →
       logE sp1 r i = branchSum sp1 r i) ∧
    colLogLike sp1 = logInnerProduct (alphabetSize sp) (logF sp1 top) (logInsProb sp) ∧
    (∀ x i, x ∉ ungappedRows sp →
       logF sp1 x i = logF sp x i ∧ logE sp1 x i = logE sp x i) ∧
    (∀ i, logE sp1 top i = logE sp top i) ∧
    logG sp1 = logG sp.
Proof.
  destruct two_columns_accepted as (sp & Hinit).
  destruct (fillUp_fills_tables _ sp Hinit (cherry_post_order _ _)) as (top & sp1 & H).
  exists sp, top, sp1. split; [exact Hinit|exact H].
Defined.

(** X15. After [fillUp], [fillDown] succeeds on such a column. It changes
    nothing but rows of [logG]: the row of the root becomes [logInsProb];
    the row of every other ungapped node [r] becomes, at [j], the
    log-sum-exp over [i] of [logG[parent][i] + branchLogSubProb[r][i][j] +
    logE[sibling][i]], read from the final table; rows of gapped nodes keep
    what they held. *)
Theorem fillDown_fills_logG (sp0 sp sp1 : AlignColSumProduct) :
  initColumn sp0 = Some sp → post_order (tree sp0) → fillUp sp = Some sp1 →
  ∃ top sp2,
    root sp = Some top ∧ fillDown sp1 = Some sp2 ∧
    logE sp2 = logE sp1 ∧ logF sp2 = logF sp1 ∧ colLogLike sp2 = colLogLike sp1 ∧
    ungappedRows sp2 = ungappedRows sp ∧
    (∀ j, logG sp2 top j = logInsProb sp j) ∧
    (∀ r j, r ∈ ungappedRows sp → r ≠ top → (j < alphabetSize sp)%nat →
       logG sp2 r j = downSum sp2 r j) ∧
    (∀ x j, x ∉ ungappedRows sp → logG sp2 x j = logG sp1 x j).
Proof.
  intros Hinit Hpost Hup.
  destruct (column_top sp0 sp Hinit Hpost) as (top & Hroot & _).
  destruct (fillUp_tables sp0 sp Hinit Hpost top Hroot) as (sp1' & Hup' & Hs1 & _).
  assert (sp1' = sp1) as -> by congruence.
  destruct (fillDown_tables sp0 sp Hinit Hpost top sp1 Hroot Hs1)
    as (sp2 & Hdown & Hs2 & HE & HF & Hcll & Hout & HGtop & HG).
  exists top, sp2. split_and!; try done.
  - destruct Hs2 as (_ & _ & _ & _ & -> & _). by destruct Hs1 as (_ & _ & _ & _ & -> & _).
  - intros r j Hr Hrt Hj. by apply HG.
Qed.

Lemma fillDown_fills_logG_witness :
  ∃ sp sp1 top sp2,
    initColumn (cherry_object two_columns 2 (λ _ _ _, Fin 0)) = Some sp ∧
    fillUp sp = Some sp1 ∧
    root sp = Some top ∧ fillDown sp1 = Some sp2 ∧
    logE sp2 = logE sp1 ∧ logF sp2 = logF sp1 ∧ colLogLike sp2 = colLogLike sp1 ∧
    ungappedRows sp2 = ungappedRows sp ∧
    (∀ j, logG sp2 top j = logInsProb sp j) ∧
    (∀ r j, r ∈ ungappedRows sp → r ≠ top → (j < alphabetSize sp)%nat →
       logG sp2 r j = downSum sp2 r j) ∧
    (∀ x j, x ∉ ungappedRows sp → logG sp2 x j = logG sp1 x j).
Proof.
  destruct two_columns_accepted as (sp & Hinit).
  destruct (column_top _ sp Hinit (cherry_post_order _ _)) as (top0 & Hroot & _).
  destruct (fillUp_tables _ sp Hinit (cherry_post_order _ _) top0 Hroot) as (sp1 & Hup & _).
  destruct (fillDown_fills_logG _ sp sp1 Hinit (cherry_post_order _ _) Hup)
    as (top & sp2 & H).
  exists sp, sp1, top, sp2. split; [exact Hinit|]. split; [exact Hup|exact H].
Defined.

(** X16. On a column that [initColumn] has accepted, over a post-ordered
    binary tree and with tables of log-probabilities, after [fillUp] and
    [fillDown] the posterior weights [exp (logF[r][i] + logG[r][i])] of
    every ungapped row [r] add up to the likelihood [exp (colLogLike)] of
    the column; so when the likelihood is not 0, the node posterior
    [logNodePostProb (r)] sums to 1 over the states. *)
Theorem node_posterior_normalised (sp0 sp sp1 sp2 : AlignColSumProduct) (r : nat) :
  initColumn sp0 = Some sp → post_order (tree sp0) → binary (tree sp0) →
  logp_tables sp0 →
  fillUp sp = Some sp1 → fillDown sp1 = Some sp2 →
  r ∈ ungappedRows sp →
  Rsum (alphabetSize sp) (λ i, expo (dadd (logF sp2 r i) (logG sp2 r i)))
    = expo (colLogLike sp2) ∧
  (is_finite (colLogLike sp2) = true →
   Rsum (alphabetSize sp) (λ i, expo (logNodePostProb sp2 r i)) = 1).
Proof.
  intros Hinit Hpost Hbin Hlogp Hup Hdown Hr.
  destruct (column_top sp0 sp Hinit Hpost) as (top & Hroot & _).
  pose proof (posterior_total sp0 sp sp1 sp2 top Hinit Hpost Hlogp Hroot Hup Hdown Hbin r Hr)
    as Htot.
  destruct (post_down sp0 sp sp1 sp2 top Hinit Hpost Hroot Hup Hdown) as (_ & HF2 & _).
  split.
  - rewrite <- Htot. apply Rsum_ext. intros i Hi. rewrite HF2. apply expo_dadd.
    + by apply (logp_up sp0 sp sp1 sp2 top Hinit Hpost Hlogp Hroot Hup Hdown).
    + by apply (logp_down sp0 sp sp1 sp2 top Hinit Hpost Hlogp Hroot Hup Hdown).
  - destruct (colLogLike sp2) as [c| | |] eqn:Hc; try done. intros _.
    rewrite (node_posterior_sum sp0 sp sp1 sp2 top Hinit Hpost Hlogp Hroot Hup Hdown r c)
      by done.
    rewrite Htot. simpl. rewrite <- exp_plus. replace (c + - c) with 0 by lra. apply exp_0.
Qed.

Lemma node_posterior_normalised_witness :
  ∃ sp sp1 sp2,
    initColumn (cherry_object two_columns 2 (λ _ _ _, Fin 0)) = Some sp ∧
    fillUp sp = Some sp1 ∧ fillDown sp1 = Some sp2 ∧
    Rsum (alphabetSize sp) (λ i, expo (dadd (logF sp2 0 i) (logG sp2 0 i)))
      = expo (colLogLike sp2) ∧
    (is_finite (colLogLike sp2) = true →
     Rsum (alphabetSize sp) (λ i, expo (logNodePostProb sp2 0 i)) = 1).
Proof.
  destruct two_columns_accepted as (sp & Hinit).
  destruct (column_top _ sp Hinit (cherry_post_order _ _)) as (top & Hroot & _).
  destruct (fillUp_tables _ sp Hinit (cherry_post_order _ _) top Hroot)
    as (sp1 & Hup & Hs1 & _).
  destruct (fillDown_tables _ sp Hinit (cherry_post_order _ _) top sp1 Hroot Hs1)
    as (sp2 & Hdown & _).
  exists sp, sp1, sp2. split; [exact Hinit|]. split; [exact Hup|]. split; [exact Hdown|].
  apply (node_posterior_normalised _ sp sp1 sp2 0 Hinit (cherry_post_order _ _)
           (cherry_binary _ _) (cherry_logp_tables _ _) Hup Hdown).
  apply (column_row_iff _ sp Hinit).
  pose proof (column_tree _ sp Hinit) as Ht. pose proof (column_isGap _ sp Hinit 0) as Hg.
  rewrite Ht, Hg. split; [simpl; lia|reflexivity].
Defined.

(** X17. Under the same conditions but for any number of children, the
    branch posterior of an ungapped row [r] other than the root, summed over
    the states of the parent, is the node posterior of [r]: for every state
    [b] of [r], the values [exp (logBranchPostProb (r, a, b))] add up over
    [a] to [exp (logNodePostProb (r)[b])]. *)
Theorem branch_posterior_marginal (sp0 sp sp1 sp2 : AlignColSumProduct)
    (top r b : nat) :
  initColumn sp0 = Some sp → post_order (tree sp0) → logp_tables sp0 →
  fillUp sp = Some sp1 → fillDown sp1 = Some sp2 →
  is_finite (colLogLike sp2) = true →
  root sp = Some top → r ∈ ungappedRows sp → r ≠ top → (b < alphabetSize sp)%nat →
  ∃ lbp, (∀ a, (a < alphabetSize sp)%nat →
             logBranchPostProb sp2 r a b = Some (lbp a)) ∧
         Rsum (alphabetSize sp) (λ a, expo (lbp a)) = expo (logNodePostProb sp2 r b).
Proof.
  intros Hinit Hpost Hlogp Hup Hdown Hfin Hroot Hr Hrt Hb.
  destruct (colLogLike sp2) as [c| | |] eqn:Hc; try done.
  by apply (branch_marginal sp0 sp sp1 sp2 top Hinit Hpost Hlogp Hroot Hup Hdown r b c).
Qed.

Lemma sample_run_eq lp l :
  sample_run lp l = (sp1 ← initColumn (sample_object lp l); sp2 ← fillUp sp1; fillDown sp2).
Proof. reflexivity. Qed.

Lemma sample_run_steps lp l :
  ∃ sp sp1 sp2,
    initColumn (sample_object lp l) = Some sp ∧ fillUp sp = Some sp1 ∧
    fillDown sp1 = Some sp2 ∧ is_finite (colLogLike sp2) = true.
Proof.
  pose proof (sample_run_colLogLike lp l) as Hc.
  apply fmap_Some in Hc as (sp2 & Hrun & Hc).
  rewrite sample_run_eq in Hrun.
  apply bind_Some in Hrun as (sp & Hinit & Hrun).
  apply bind_Some in Hrun as (sp1 & Hup & Hdown).
  exists sp, sp1, sp2. split; [exact Hinit|]. split; [exact Hup|]. split; [exact Hdown|].
  rewrite <- Hc. reflexivity.
Qed.

Lemma sample_logp_tables lp l : logp_tables (sample_object lp l).
Proof. split_and!; intros; right; eauto. Qed.

Lemma branch_posterior_marginal_witness :
  ∃ sp sp1 sp2,
    initColumn (sample_object 0 (λ _ _, 0)) = Some sp ∧ fillUp sp = Some sp1 ∧
    fillDown sp1 = Some sp2 ∧
    ∃ lbp, (∀ a, (a < alphabetSize sp)%nat →
               logBranchPostProb sp2 1 a 0 = Some (lbp a)) ∧
           Rsum (alphabetSize sp) (λ a, expo (lbp a)) = expo (logNodePostProb sp2 1 0).
Proof.
  destruct (sample_run_steps 0 (λ _ _, 0)) as (sp & sp1 & sp2 & Hinit & Hup & Hdown & Hfin).
  exists sp, sp1, sp2. split; [exact Hinit|]. split; [exact Hup|]. split; [exact Hdown|].
  pose proof (column_tree _ sp Hinit) as Ht.
  pose proof (column_isGap _ sp Hinit) as Hg.
  pose proof (column_tops _ sp Hinit) as Htops.
  destruct (column_top _ sp Hinit (cherry_post_order _ _)) as (top & Hroot & Htop & Htt & _).
  assert (top = 2%nat) as ->.
  { apply (column_row_iff _ sp Hinit) in Htop as [Hlt _]. rewrite Ht in Hlt.
    rewrite Htops in Htt. simpl in Hlt.
    destruct top as [|[|[|top]]]; [exfalso|exfalso|reflexivity|lia].
    - revert Htt. clear. intros [=].
    - revert Htt. clear. intros [=]. }
  apply (branch_posterior_marginal _ sp sp1 sp2 2 1 0 Hinit (cherry_post_order _ _)
           (sample_logp_tables _ _) Hup Hdown Hfin Hroot).
  - apply (column_row_iff _ sp Hinit). rewrite Ht, Hg. split; [simpl; lia|reflexivity].
  - lia.
  - assert (alphabetSize sp = 2%nat) as ->; [|lia].
    apply initColumn_spec in Hinit as (_ & _ & ->). reflexivity.
Defined.

(** *** A column with one residue *)

Lemma lse_all_NInf n (x : nat → double) :
  (∀ i, (i < n)%nat → x i = NInf) →
  for_loop n (λ acc i, log_accum_exp acc (x i)) NInf = NInf.
Proof.
  induction n as [|n IH]; intros H; [done|].
  rewrite for_loop_S, IH by (intros; apply H; lia). rewrite H by lia. done.
Qed.

Lemma lse_single n (x : nat → double) tok :
  (tok < n)%nat → (∀ i, (i < n)%nat → i ≠ tok → x i = NInf) → is_logp (x tok) →
  for_loop n (λ acc i, log_accum_exp acc (x i)) NInf = x tok.
Proof.
  intros Htok Hx Hl. induction n as [|n IH]; [lia|].
  rewrite for_loop_S. destruct (decide (tok = n)) as [->|Hne].
  - rewrite lse_all_NInf by (intros; apply Hx; lia). done.
  - rewrite IH by (lia || intros; apply Hx; lia). rewrite (Hx n) by lia.
    by destruct Hl as [->|[a ->]].
Qed.

(** X18. In a column whose only ungapped row holds the token [tok],
    [fillUp] sets [colLogLike] to [logInsProb[tok]]: the likelihood of the
    column is the insertion probability of its one residue. *)
Theorem single_residue_likelihood (sp : AlignColSumProduct) (r tok : nat) :
  ungappedRows sp = [r] → gapped sp r (col sp) = TokCell tok →
  (tok < alphabetSize sp)%nat →
  (∀ i, (i < alphabetSize sp)%nat → is_logp (logInsProb sp i)) →
  ∃ sp1, fillUp sp = Some sp1 ∧ colLogLike sp1 = logInsProb sp tok.
Proof.
  intros Hrows Hcell Htok Hpi. unfold fillUp. rewrite Hrows.
  set (s0 := set_tables sp NInf (logE sp) (logF sp) (logG sp)).
  assert (isGap s0 r = false) as Hg by (unfold isGap; simpl; by rewrite Hcell).
  destruct (fillUp_step_spec s0 r Hg) as (sp1 & Hstep & _ & _ & _ & HF & Hrootcase).
  exists sp1. split.
  - rewrite for_each_opt_cons, Hstep. done.
  - assert (root s0 = Some r) as Hroot by (unfold root; simpl; by rewrite Hrows).
    rewrite bool_decide_eq_true_2 in Hrootcase by done.
    destruct Hrootcase as [-> _]. unfold logInnerProduct.
    change (alphabetSize s0) with (alphabetSize sp).
    change (logInsProb s0) with (logInsProb sp).
    assert (∀ i, (i < alphabetSize sp)%nat →
              logF sp1 r i = if decide (i = tok) then Fin 0 else NInf) as HF'.
    { intros i Hi. rewrite HF by done. unfold upF, isWild. simpl. by rewrite Hcell. }
    rewrite (lse_single _ (λ i, dadd (logF sp1 r i) (logInsProb sp i)) tok Htok).
    + rewrite HF', decide_True by done.
      destruct (Hpi tok Htok) as [->|[a ->]]; simpl; [done|]. f_equal. lra.
    + intros i Hi Hne. rewrite HF', decide_False by done.
      by destruct (Hpi i Hi) as [->|[a ->]].
    + rewrite HF', decide_True by done. apply is_logp_dadd; [right; eauto|by apply Hpi].
Qed.

Lemma single_residue_likelihood_witness :
  ∃ sp1, fillUp (set_column lone_leaf_object 0 [0%nat]) = Some sp1 ∧
         colLogLike sp1 = logInsProb (set_column lone_leaf_object 0 [0%nat]) 0.
Proof.
  apply (single_residue_likelihood (set_column lone_leaf_object 0 [0%nat]) 0 0).
  - reflexivity.
  - reflexivity.
  - change (0 < 2)%nat. lia.
  - intros i _. right. eexists. reflexivity.
Defined.

(** *** [maxPostState] *)

Lemma dlt_irrefl x : dlt x x = false.
Proof. destruct x as [a| | |]; simpl; try done. destruct (Rlt_dec a a); [lra|done]. Qed.

Lemma dlt_switch a x i : dlt a x = true → dlt a i = false → dlt x i = false.
Proof.
  destruct a as [a| | |], x as [x| | |], i as [i| | |]; simpl; try done;
    repeat (destruct (Rlt_dec _ _)); try done; lra.
Qed.

Lemma dlt_before a x i :
  dlt a x = true → dlt a i = false → i ≠ NaN → dlt i x = true.
Proof.
  destruct a as [a| | |], x as [x| | |], i as [i| | |]; simpl; try done;
    repeat (destruct (Rlt_dec _ _)); try done; lra.
Qed.

Lemma dlt_asym a x : dlt a x = true → dlt x a = false.
Proof.
  destruct a as [a| | |], x as [x| | |]; simpl; try done;
    repeat (destruct (Rlt_dec _ _)); try done; lra.
Qed.

(** The index found by the scan of [max_element] over the elements up to
    [k]. *)
Lemma max_element_index_spec (v : nat → double) k :
  let s := foldl (λ largest i, if dlt (v largest) (v i) then i else largest)
                 0%nat (seq 1 k) in
  (s ≤ k)%nat ∧
  (∀ i, (i ≤ k)%nat → dlt (v s) (v i) = false) ∧
  (∀ i, (i < s)%nat → v i = NaN ∨ dlt (v i) (v s) = true) ∧
  foldl (λ largest i, if dlt largest (v i) then v i else largest) (v 0%nat) (seq 1 k) = v s.
Proof.
  induction k as [|k IH].
  - simpl. split_and!; [lia| |intros; lia|done].
    intros i Hi. assert (i = 0%nat) as -> by lia. apply dlt_irrefl.
  - cbv zeta in IH |- *. rewrite seq_S, !foldl_app. simpl.
    set (s := foldl _ 0%nat (seq 1 k)) in *.
    destruct IH as (Hs & Hmax & Hfirst & ->).
    destruct (dlt (v s) (v (S k))) eqn:Hlt.
    + split_and!; [lia| | |done].
      * intros i Hi. destruct (decide (i = S k)) as [->|]; [apply dlt_irrefl|].
        eapply dlt_switch; [exact Hlt|]. apply Hmax. lia.
      * intros i Hi. destruct (v i) as [a| | |] eqn:Hvi; [| | |by left]; right;
          rewrite <- Hvi; (eapply dlt_before; [exact Hlt|apply Hmax; lia|by rewrite Hvi]).
    + split_and!; [lia| |done|done].
      intros i Hi. destruct (decide (i = S k)) as [->|]; [done|]. apply Hmax. lia.
Qed.

(** X19. For an alphabet that is not empty, [maxPostState] returns a state
    below [alphabetSize] whose log posterior no state exceeds; every state
    before it has a smaller log posterior, unless that is NaN; and its log
    posterior is the value [max_element] finds. *)
Theorem maxPostState_is_first_largest (sp : AlignColSumProduct) (node : nat) :
  (0 < alphabetSize sp)%nat →
  let lpp := logNodePostProb sp node in
  let s := maxPostState sp node in
  (s < alphabetSize sp)%nat ∧
  (∀ i, (i < alphabetSize sp)%nat → dlt (lpp s) (lpp i) = false) ∧
  (∀ i, (i < s)%nat → lpp i = NaN ∨ dlt (lpp i) (lpp s) = true) ∧
  max_element (alphabetSize sp) lpp = lpp s.
Proof.
  intros HA lpp s.
  destruct (max_element_index_spec lpp (alphabetSize sp - 1)) as (Hs & Hmax & Hfirst & Hval).
  fold (max_element_index (alphabetSize sp) lpp) in Hs, Hmax, Hfirst, Hval.
  subst s. unfold maxPostState. fold lpp.
  split_and!; [lia| |done|done].
  intros i Hi. apply Hmax. lia.
Qed.

Lemma maxPostState_is_first_largest_witness :
  let sp := lone_leaf_object in
  let lpp := logNodePostProb sp 0 in
  let s := maxPostState sp 0 in
  (s < alphabetSize sp)%nat ∧
  (∀ i, (i < alphabetSize sp)%nat → dlt (lpp s) (lpp i) = false) ∧
  (∀ i, (i < s)%nat → lpp i = NaN ∨ dlt (lpp i) (lpp s) = true) ∧
  max_element (alphabetSize sp) lpp = lpp s.
Proof.
  apply (maxPostState_is_first_largest lone_leaf_object 0). change (0 < 2)%nat. lia.
Defined.

End PosteriorFacts.

(** ** Guide positions and the choice of a node *)

Module GuideFacts.
Import Numerics NumericsFacts SumProd SumProdFacts ColumnFacts Sampler.
Local Unset Default Proof Using.

Lemma residues_before_S (g : list bool) n (b : bool) :
  g !! n = Some b →
  residues_before g (S n) = residues_before g n + (if b then 1 else 0).
Proof.
  intros Hn. unfold residues_before. rewrite (take_S_r _ _ _ Hn), filter_app, length_app.
  f_equal. destruct b; reflexivity.
Qed.

(** The state of the loop of [guideSeqPos] after the columns below [n]. *)
Lemma guideSeqPos_loop (r g : list bool) n :
  n ≤ length r → n ≤ length g →
  ∃ gp, for_loop_opt n (guideSeqPos_step r g) ([], 0) = Some (gp, residues_before g n) ∧
        gp = residues_before g <$> filter (λ c, r !! c = Some true) (seq 0 n) ∧
        Forall (λ p, p ≤ residues_before g n) gp ∧ StronglySorted le gp.
Proof.
  induction n as [|n IH]; intros Hr Hg.
  - exists []. split_and!; [done|done|constructor|constructor].
  - destruct IH as (gp & Hloop & Hgp & Hle & Hsorted); [lia..|].
    destruct (lookup_lt_is_Some_2 r n ltac:(lia)) as [rb Hrb].
    destruct (lookup_lt_is_Some_2 g n ltac:(lia)) as [gb Hgb].
    assert (for_loop_opt (S n) (guideSeqPos_step r g) ([], 0)
            = Some (if rb then gp ++ [residues_before g n] else gp,
                    residues_before g (S n))) as Hloop'.
    { rewrite for_loop_opt_S, Hloop. simpl. unfold guideSeqPos_step. simpl.
      rewrite Hrb, Hgb. simpl. rewrite (residues_before_S g n gb Hgb).
      do 2 f_equal. destruct gb; lia. }
    eexists. split; [exact Hloop'|].
    rewrite filter_seq_S, (residues_before_S g n gb Hgb).
    assert (Forall (λ p, p ≤ residues_before g n + (if gb then 1 else 0)) gp) as Hle'.
    { eapply Forall_impl; [exact Hle|]. simpl. intros. lia. }
    destruct rb.
    + rewrite decide_True by done. rewrite fmap_app. simpl. rewrite <- Hgp.
      split_and!; [done| |].
      * apply Forall_app. split; [done|]. apply Forall_singleton. lia.
      * apply StronglySorted_app_2; [|done|repeat constructor].
        intros x1 x2 Hx1 Hx2%list_elem_of_singleton. subst x2.
        rewrite Forall_forall in Hle. by apply Hle.
    + rewrite decide_False by (rewrite Hrb; by intros [=]).
      rewrite app_nil_r. done.
Qed.

Lemma guideSeqPos_loop_fails (r g : list bool) n :
  ¬ (n ≤ length r ∧ n ≤ length g) →
  for_loop_opt n (guideSeqPos_step r g) ([], 0) = None.
Proof.
  induction n as [|n IH]; intros Hn; [lia|].
  rewrite for_loop_opt_S.
  destruct (decide (n ≤ length r ∧ n ≤ length g)) as [[Hr Hg]|Hbad].
  - destruct (guideSeqPos_loop r g n Hr Hg) as (gp & -> & _). simpl.
    unfold guideSeqPos_step.
    destruct (r !! n) as [rb|] eqn:Hrb; simpl.
    + destruct (g !! n) as [gb|] eqn:Hgb; simpl; [|done].
      apply lookup_lt_Some in Hrb, Hgb. lia.
    + done.
  - by rewrite IH.
Qed.

(** The loop of [guideSeqPos] on a row guided by itself. *)
Lemma guideSeqPos_loop_self (g : list bool) n :
  n ≤ length g →
  for_loop_opt n (guideSeqPos_step g g) ([], 0)
  = Some (seq 0 (residues_before g n), residues_before g n).
Proof.
  induction n as [|n IH]; intros Hg; [done|].
  rewrite for_loop_opt_S, IH by lia. simpl. unfold guideSeqPos_step. simpl.
  destruct (lookup_lt_is_Some_2 g n ltac:(lia)) as [gb Hgb].
  rewrite Hgb. simpl. rewrite (residues_before_S g n gb Hgb).
  destruct gb.
  - rewrite Nat.add_1_r, seq_S. done.
  - by rewrite Nat.add_0_r.
Qed.

(** X20. [guideSeqPos] returns exactly when the path has both rows and each
    of them has at least [cols] columns. Its result lists, for the columns
    below [cols] in which [row] has a residue, in order, the number of
    residues of [guideRow] before that column; so it has one entry for each
    residue of [row], its entries never decrease, and none exceeds the number
    of residues of [guideRow]. *)
Theorem guideSeqPos_positions (cols : nat) (path : Span.AlignPath) (row guideRow : nat) :
  match guideSeqPos cols path row guideRow with
  | Some guidePos =>
      ∃ rowPath guideRowPath,
        path !! row = Some rowPath ∧ path !! guideRow = Some guideRowPath ∧
        cols ≤ length rowPath ∧ cols ≤ length guideRowPath ∧
        guidePos = residues_before guideRowPath
                     <$> filter (λ c, rowPath !! c = Some true) (seq 0 cols) ∧
        length guidePos = residues_before rowPath cols ∧
        StronglySorted le guidePos ∧
        Forall (λ p, p ≤ residues_before guideRowPath cols) guidePos
  | None =>
      path !! row = None ∨ path !! guideRow = None ∨
      ∃ rowPath guideRowPath,
        path !! row = Some rowPath ∧ path !! guideRow = Some guideRowPath ∧
        (length rowPath < cols ∨ length guideRowPath < cols)
  end.
Proof.
  unfold guideSeqPos.
  destruct (path !! row) as [r|] eqn:Hr; simpl; [|by left].
  destruct (path !! guideRow) as [g|] eqn:Hg; simpl; [|by right; left].
  destruct (decide (cols ≤ length r ∧ cols ≤ length g)) as [[Hlr Hlg]|Hbad].
  - destruct (guideSeqPos_loop r g cols Hlr Hlg) as (gp & -> & Hgp & Hle & Hsorted).
    simpl. exists r, g. split_and!; try done.
    rewrite Hgp, length_fmap. unfold residues_before.
    clear. induction cols as [|n IH]; [by destruct r|].
    rewrite filter_seq_S, length_app, IH.
    destruct (r !! n) as [b|] eqn:Hn.
    + rewrite (take_S_r _ _ _ Hn), filter_app, length_app. f_equal.
      destruct b; [by rewrite decide_True|by rewrite decide_False].
    + rewrite decide_False by done. simpl.
      apply lookup_ge_None in Hn. rewrite !take_ge by lia. lia.
  - rewrite guideSeqPos_loop_fails by done. simpl. right; right.
    exists r, g. split_and!; [done..|lia].
Qed.

(** X21. A row guided by itself gets the positions 0, 1, 2, ... of its own
    residues. *)
Theorem guideSeqPos_self (cols : nat) (path : Span.AlignPath) (row : nat)
    (rowPath : list bool) :
  path !! row = Some rowPath → cols ≤ length rowPath →
  guideSeqPos cols path row row = Some (seq 0 (residues_before rowPath cols)).
Proof.
  intros Hr Hlen. unfold guideSeqPos. rewrite Hr. simpl.
  by rewrite guideSeqPos_loop_self.
Qed.

Lemma guideSeqPos_self_witness :
  guideSeqPos 3 {[ 4 := [true; false; true] ]} 4 4
  = Some (seq 0 (residues_before [true; false; true] 3)).
Proof.
  apply (guideSeqPos_self 3 {[ 4 := [true; false; true] ]} 4 [true; false; true]).
  - reflexivity.
  - simpl. lia.
Defined.

(** X22. [randomInternalNode] never returns a leaf: what it returns is a
    node of the tree that has a child. It returns nothing exactly when the
    tree has no such node, and every such node is returned for some state of
    the generator. *)
Theorem randomInternalNode_internal (t : Tree) :
  (∀ generator n, randomInternalNode t generator = Some n →
     n < nodes t ∧ isLeaf t n = false) ∧
  (∀ generator, randomInternalNode t generator = None ↔
     ∀ n, n < nodes t → isLeaf t n = true) ∧
  (∀ n, n < nodes t → isLeaf t n = false →
     ∃ generator, randomInternalNode t generator = Some n).
Proof.
  assert (∀ n, n ∈ intNodes t ↔ n < nodes t ∧ isLeaf t n = false) as Hin.
  { intros n. unfold intNodes. rewrite list_elem_of_filter, elem_of_seq.
    split; [intros [? ?]|intros [? ?]]; (split; [done||lia|done||lia]). }
  unfold randomInternalNode, random_element. split_and!.
  - intros generator n Hn. apply Hin. by eapply list_elem_of_lookup_2.
  - intros generator. rewrite lookup_ge_None. split.
    + intros Hge n Hn. destruct (isLeaf t n) eqn:Hl; [done|]. exfalso.
      assert (n ∈ intNodes t) as Hmem by (by apply Hin).
      destruct (intNodes t) as [|x l]; [by apply elem_of_nil in Hmem|].
      pose proof (Nat.mod_upper_bound generator (length (x :: l)) ltac:(done)). lia.
    + intros Hall. destruct (intNodes t) as [|x l] eqn:Hl; [simpl; lia|]. exfalso.
      assert (x ∈ x :: l) as Hmem by (by left).
      apply Hin in Hmem as [Hx Hlf]. rewrite Hall in Hlf by done. done.
  - intros n Hn Hl.
    assert (n ∈ intNodes t) as Hmem by (by apply Hin).
    apply list_elem_of_lookup in Hmem as [i Hi]. exists i.
    rewrite Nat.mod_small; [done|]. by eapply lookup_lt_Some.
Qed.

End GuideFacts.
